(** * A shallow embedding of the three-phase compiler

    The development follows the Python sources stage by stage:
    [lexer.py], [parser.py], [semantic_analyzer.py], [ir_generator.py],
    [optimizer.py] and [code_generator.py].  Python objects are modelled
    as class-tagged attribute lists, Python exceptions as an error
    outcome, and mutable fields of [self] as explicit state threaded by a
    small state-and-error monad. *)

From Stdlib Require Import ZArith String Ascii List Bool Lia Permutation.
From Stdlib Require Import DecimalString DecimalNat DecimalZ SpecFloat.
From stdpp Require Import gmap strings.

Import ListNotations.
Open Scope string_scope.

(** ** Python values, exceptions and the state-and-error monad *)

Module Py.

(** An object is its class name and its instance dictionary, in
    insertion order.  Strings are sequences of ASCII characters. *)
#[warnings="-register-all"]
Inductive pyval : Type :=
| PNone
| PStr (s : string)
| PInt (z : Z)
| PList (l : list pyval)
| PObj (cls : string) (attrs : list (string * pyval)).

Inductive exn : Type :=
| NameError (name : string)
| AttributeError (cls attr : string)
| TypeError (msg : string)
| IndexError (msg : string)
| KeyError (key : string)
| ValueError (msg : string)
| OverflowError (msg : string)
| SemanticError (message : string) (line : Z).

(** [OutOfFuel] is an artefact of the embedding (recursion is bounded by
    a counter); [Unmodelled] marks Python behaviour this embedding does
    not describe (for instance the [repr] of an arbitrary object). *)
Inductive outcome (A : Type) : Type :=
| Ok (a : A)
| Raise (e : exn)
| OutOfFuel
| Unmodelled.

Arguments Ok {A} a.
Arguments Raise {A} e.
Arguments OutOfFuel {A}.
Arguments Unmodelled {A}.

Definition ST (S A : Type) : Type := S -> outcome (A * S).

Definition ret {S A} (a : A) : ST S A := fun s => Ok (a, s).

Definition bind {S A B} (c : ST S A) (k : A -> ST S B) : ST S B :=
  fun s =>
    match c s with
    | Ok (a, s') => k a s'
    | Raise e => Raise e
    | OutOfFuel => OutOfFuel
    | Unmodelled => Unmodelled
    end.

Definition raise {S A} (e : exn) : ST S A := fun _ => Raise e.
Definition out_of_fuel {S A} : ST S A := fun _ => OutOfFuel.
Definition unmodelled {S A} : ST S A := fun _ => Unmodelled.
Definition get {S} : ST S S := fun s => Ok (s, s).
Definition gets {S A} (f : S -> A) : ST S A := fun s => Ok (f s, s).
Definition put {S} (s : S) : ST S unit := fun _ => Ok (tt, s).
Definition modify {S} (f : S -> S) : ST S unit := fun s => Ok (tt, f s).

(** A pure computation that may raise, run inside a stateful one. *)
Definition lift {S A} (o : outcome A) : ST S A :=
  fun s =>
    match o with
    | Ok a => Ok (a, s)
    | Raise e => Raise e
    | OutOfFuel => OutOfFuel
    | Unmodelled => Unmodelled
    end.

Declare Scope py_scope.
Delimit Scope py_scope with py.

Notation "x <- c ;; k" := (bind c (fun x => k))
  (at level 100, c at next level, right associativity) : py_scope.
Notation "c ;; k" := (bind c (fun _ => k))
  (at level 100, right associativity) : py_scope.

Open Scope py_scope.

(** [while fuel cond body acc]: a Python [while] loop whose body
    rebinds the loop-carried value [acc]. *)
Fixpoint while {S A} (fuel : nat) (cond : ST S bool) (body : A -> ST S A)
    (acc : A) : ST S A :=
  match fuel with
  | O => out_of_fuel
  | Datatypes.S fuel' =>
      c <- cond ;;
      if (c : bool) then a' <- body acc ;; while fuel' cond body a'
      else ret acc
  end.

(** [for x in xs: body x]. *)
Fixpoint for_each {S A} (xs : list A) (body : A -> ST S unit) : ST S unit :=
  match xs with
  | [] => ret tt
  | x :: xs' => body x ;; for_each xs' body
  end.

(** *** Strings *)

(** [str(n)] for a Python [int]. *)
Definition str_of_Z (z : Z) : string := NilZero.string_of_int (Z.to_int z).
Definition str_of_nat (n : nat) : string := NilZero.string_of_uint (Nat.to_uint n).

(** [x in xs] for a list or tuple of strings. *)
Definition str_in (x : string) (xs : list string) : bool :=
  existsb (String.eqb x) xs.

Definition is_digit (c : ascii) : bool :=
  let n := nat_of_ascii c in (48 <=? n)%nat && (n <=? 57)%nat.

Definition is_alpha_ (c : ascii) : bool :=
  let n := nat_of_ascii c in
  ((65 <=? n)%nat && (n <=? 90)%nat) || ((97 <=? n)%nat && (n <=? 122)%nat)
  || (n =? 95)%nat.

(** [\w] restricted to ASCII. *)
Definition is_word (c : ascii) : bool := is_alpha_ c || is_digit c.

(** [str.isspace] on ASCII: tab, line feed, vertical tab, form feed,
    carriage return, the four separators 28-31 and the space. *)
Definition is_space (c : ascii) : bool :=
  let n := nat_of_ascii c in
  ((9 <=? n)%nat && (n <=? 13)%nat) || ((28 <=? n)%nat && (n <=? 32)%nat).

(** [s.isdigit()]: non-empty and made of digits only. *)
Definition isdigit (s : string) : bool :=
  match list_ascii_of_string s with
  | [] => false
  | cs => forallb is_digit cs
  end.

(** [sub in s] for a one-character [sub]. *)
Definition contains_char (c : ascii) (s : string) : bool :=
  existsb (Ascii.eqb c) (list_ascii_of_string s).

(** [s.startswith(p)]. *)
Definition startswith (p s : string) : bool := String.prefix p s.

(** [s[1:]]. *)
Definition tail_str (s : string) : string :=
  match s with
  | EmptyString => EmptyString
  | String _ r => r
  end.

(** [s.split()]: the maximal runs of non-whitespace characters. *)
Fixpoint split_ws (cs : list ascii) (cur : list ascii) : list string :=
  match cs with
  | [] =>
      match cur with
      | [] => []
      | _ => [string_of_list_ascii (rev cur)]
      end
  | c :: cs' =>
      if is_space c then
        match cur with
        | [] => split_ws cs' []
        | _ => string_of_list_ascii (rev cur) :: split_ws cs' []
        end
      else split_ws cs' (c :: cur)
  end.

Definition split (s : string) : list string :=
  split_ws (list_ascii_of_string s) [].

(** ["sep".join(xs)]. *)
Fixpoint join (sep : string) (xs : list string) : string :=
  match xs with
  | [] => ""
  | [x] => x
  | x :: xs' => x ++ sep ++ join sep xs'
  end.

(** [xs[i]] with Python's negative indices. *)
Definition index {A} (xs : list A) (i : Z) : outcome A :=
  let n := Z.of_nat (length xs) in
  let j := if (i <? 0)%Z then (i + n)%Z else i in
  if (j <? 0)%Z then Raise (IndexError "list index out of range")
  else
    match nth_error xs (Z.to_nat j) with
    | Some x => Ok x
    | None => Raise (IndexError "list index out of range")
    end.

(** *** Attribute access and truth *)

Definition class_name (v : pyval) : string :=
  match v with
  | PNone => "NoneType"
  | PStr _ => "str"
  | PInt _ => "int"
  | PList _ => "list"
  | PObj cls _ => cls
  end.

Fixpoint assoc {A} (k : string) (kvs : list (string * A)) : option A :=
  match kvs with
  | [] => None
  | (k', v) :: r => if String.eqb k k' then Some v else assoc k r
  end.

(** [v.name]; the built-in types carry none of the attributes the
    compiler reads. *)
Definition getattr (v : pyval) (name : string) : outcome pyval :=
  match v with
  | PObj cls attrs =>
      match assoc name attrs with
      | Some x => Ok x
      | None => Raise (AttributeError cls name)
      end
  | _ => Raise (AttributeError (class_name v) name)
  end.

(** Truth value of an object: [None], zero and empty containers are
    false, and the compiler's classes define neither [__bool__] nor
    [__len__]. *)
Definition truthy (v : pyval) : bool :=
  match v with
  | PNone => false
  | PStr s => negb (String.eqb s "")
  | PInt z => negb (z =? 0)%Z
  | PList l => match l with [] => false | _ => true end
  | PObj _ _ => true
  end.

Definition is_none (v : pyval) : bool :=
  match v with PNone => true | _ => false end.

(** [f"{v}"] for the values whose [str] does not depend on an object's
    address. *)
Definition format (v : pyval) : outcome string :=
  match v with
  | PNone => Ok "None"
  | PStr s => Ok s
  | PInt z => Ok (str_of_Z z)
  | _ => Unmodelled
  end.

Definition as_str (v : pyval) : outcome string :=
  match v with
  | PStr s => Ok s
  | _ => Unmodelled
  end.

Definition as_int (v : pyval) : outcome Z :=
  match v with
  | PInt z => Ok z
  | _ => Unmodelled
  end.

End Py.

Import Py.

(** ** lexer.py *)

Module Lexer.

Record Token : Type := mkToken { type : string; value : string; line : Z }.

Definition KEYWORDS : list string := ["if"; "else"; "int"; "float"].

(** Longest prefix of [cs] whose characters satisfy [p], and the rest. *)
Fixpoint span (p : ascii -> bool) (cs : list ascii) : list ascii * list ascii :=
  match cs with
  | [] => ([], [])
  | c :: r => if p c then let '(a, b) := span p r in (c :: a, b) else ([], cs)
  end.

Inductive lexeme : Type :=
| NUMBER (text : string)
| ID (text : string)
| OP_REL (text : string)
| OP_ASSIGN (text : string)
| OP_ARITH (text : string)
| DELIM (text : string)
| NEWLINE
| SKIP
| MISMATCH (text : string).

Definition str1 (c : ascii) : string := String c EmptyString.
Definition str2 (c d : ascii) : string := String c (String d EmptyString).

(** One match of the master regular expression at the head of [cs]: the
    alternatives of [TOKEN_SPECIFICATION] are tried in order, and the
    first that matches wins.  Returns the lexeme and the unread
    input.  Every alternative consumes at least one character.  The
    comment alternative of [SKIP] never matches: [OP_ARITH] comes first
    and takes the slash.  The character classes are those of ASCII. *)
Definition match_token (c : ascii) (r : list ascii) : lexeme * list ascii :=
  if is_digit c then
    (* NUMBER: \d+(\.\d+)? *)
    let '(ds, r1) := span is_digit r in
    match r1 with
    | "."%char :: d :: r2 =>
        if is_digit d then
          let '(fs, r3) := span is_digit r2 in
          (NUMBER (string_of_list_ascii (c :: ds ++ "."%char :: d :: fs)%list), r3)
        else (NUMBER (string_of_list_ascii (c :: ds)), r1)
    | _ => (NUMBER (string_of_list_ascii (c :: ds)), r1)
    end
  else if is_alpha_ c then
    (* ID: [A-Za-z_]\w* *)
    let '(ws, r1) := span is_word r in
    (ID (string_of_list_ascii (c :: ws)), r1)
  else
    (* OP_REL: ==|!=|<=|>=|<|> *)
    match c, r with
    | "="%char, "="%char :: r1 => (OP_REL "==", r1)
    | "!"%char, "="%char :: r1 => (OP_REL "!=", r1)
    | "<"%char, "="%char :: r1 => (OP_REL "<=", r1)
    | ">"%char, "="%char :: r1 => (OP_REL ">=", r1)
    | "<"%char, _ => (OP_REL "<", r)
    | ">"%char, _ => (OP_REL ">", r)
    | _, _ =>
        if Ascii.eqb c "="%char then (OP_ASSIGN "=", r)
        else if existsb (Ascii.eqb c) ["+"; "-"; "*"; "/"]%char
        then (OP_ARITH (str1 c), r)
        else if existsb (Ascii.eqb c) ["("; ")"; "{"; "}"; ";"; ","]%char
        then (DELIM (str1 c), r)
        else if Ascii.eqb c "010"%char then (NEWLINE, r)
        else if existsb (Ascii.eqb c) [" "; "009"]%char
        then (SKIP, snd (span (fun x => existsb (Ascii.eqb x) [" "; "009"]%char) r))
        else (MISMATCH (str1 c), r)
    end.

(** The loop of [tokenize] over [token_regex.finditer(code)]. *)
Fixpoint scan (fuel : nat) (cs : list ascii) (line_num : Z)
    (tokens : list Token) (errors : list string) : list Token * list string * Z :=
  match fuel, cs with
  | _, [] => (tokens, errors, line_num)
  | O, _ => (tokens, errors, line_num)
  | S fuel', c :: r =>
      let '(lx, rest) := match_token c r in
      match lx with
      | NUMBER v => scan fuel' rest line_num (tokens ++ [mkToken "NUMBER" v line_num])%list errors
      | ID v =>
          if str_in v KEYWORDS
          then scan fuel' rest line_num (tokens ++ [mkToken "KEYWORD" v line_num])%list errors
          else scan fuel' rest line_num (tokens ++ [mkToken "ID" v line_num])%list errors
      | OP_REL v => scan fuel' rest line_num (tokens ++ [mkToken "OP_REL" v line_num])%list errors
      | OP_ASSIGN v => scan fuel' rest line_num (tokens ++ [mkToken "OP_ASSIGN" v line_num])%list errors
      | OP_ARITH v => scan fuel' rest line_num (tokens ++ [mkToken "OP_ARITH" v line_num])%list errors
      | DELIM v => scan fuel' rest line_num (tokens ++ [mkToken "DELIM" v line_num])%list errors
      | NEWLINE => scan fuel' rest (line_num + 1) tokens errors
      | SKIP => scan fuel' rest line_num tokens errors
      | MISMATCH v =>
          scan fuel' rest line_num tokens
            (app errors ["Lexical Error: Unexpected character '" ++ v
                         ++ "' at line " ++ str_of_Z line_num])
      end
  end.

(** Each match consumes a character, so the length of the input bounds
    the number of iterations. *)
Definition tokenize (code : string) : list Token * list string :=
  let cs := list_ascii_of_string code in
  let '(tokens, errors, line_num) := scan (length cs) cs 1 [] [] in
  ((tokens ++ [mkToken "EOF" "EOF" line_num])%list, errors).

End Lexer.

(** ** parser.py *)

Module Parser.

Import Lexer.

(** [ParseError(message, line, suggestion=None)]. *)
Record ParseError : Type :=
  mkParseError { message : string; line : Z; suggestion : option string }.

(** [ParseError.__str__]; an empty suggestion is false, like [None]. *)
Definition ParseError_str (e : ParseError) : string :=
  match suggestion e with
  | Some (String _ _ as sg) =>
      "Syntax Error on line " ++ str_of_Z (line e) ++ ": " ++ message e
      ++ String "010" "   -> Suggestion: " ++ sg
  | _ => "Syntax Error on line " ++ str_of_Z (line e) ++ ": " ++ message e
  end.

(** *** AST node classes: each constructor call builds the instance
    dictionary its [__init__] fills. *)

Definition token_obj (t : Token) : pyval :=
  PObj "Token" [("type", PStr (type t)); ("value", PStr (value t));
                ("line", PInt (Lexer.line t))].

Definition BinOp (left : pyval) (op : Token) (right : pyval) : pyval :=
  PObj "BinOp" [("left", left); ("op", token_obj op); ("right", right)].

Definition Number (token : Token) : pyval :=
  PObj "Number" [("token", token_obj token); ("value", PStr (value token))].

Definition Variable_ (token : Token) : pyval :=
  PObj "Variable" [("token", token_obj token); ("value", PStr (value token))].

Definition Assign (left : pyval) (op : Token) (right : pyval) : pyval :=
  PObj "Assign" [("left", left); ("op", token_obj op); ("right", right)].

Definition VarDecl (type_node var_node assign_node : pyval) : pyval :=
  PObj "VarDecl" [("type_node", type_node); ("var_node", var_node);
                  ("assign_node", assign_node)].

Definition Type_ (token : Token) : pyval :=
  PObj "Type" [("token", token_obj token); ("value", PStr (value token))].

Definition If (condition if_block else_block : pyval) : pyval :=
  PObj "If" [("condition", condition); ("if_block", if_block);
             ("else_block", else_block)].

Definition Block (statements : list pyval) : pyval :=
  PObj "Block" [("statements", PList statements)].

Definition Program_ (children : list pyval) : pyval :=
  PObj "Program" [("children", PList children)].

(** *** The parser object *)

Record pstate : Type :=
  mkPstate { tokens : list Token; pos : Z; current_token : Token;
             errors : list ParseError }.

Definition P : Type -> Type := ST pstate.

(** [Parser.__init__]: reading [tokens[0]] fails on an empty list. *)
Definition init (tokens : list Token) : outcome pstate :=
  match index tokens 0 with
  | Ok t => Ok (mkPstate tokens 0 t [])
  | Raise e => Raise e
  | OutOfFuel => OutOfFuel
  | Unmodelled => Unmodelled
  end.

Definition append_error (err : ParseError) : P unit :=
  modify (fun s => mkPstate (tokens s) (pos s) (current_token s)
                            (app (errors s) [err])).

(** The module [parser.py] imports nothing, so the name [Token] is
    unbound where [type_specifier] and [primary] call it. *)
Definition Token_global {A} : P A :=
  raise (NameError "name 'Token' is not defined").

Definition advance : P unit :=
  s <- get ;;
  let pos' := (pos s + 1)%Z in
  t <- lift (if (pos' <? Z.of_nat (length (tokens s)))%Z
             then index (tokens s) pos'
             else index (tokens s) (-1)) ;;
  put (mkPstate (tokens s) pos' t (errors s)).

Definition error (fuel : nat) (message : string) (suggestion : option string)
    : P unit :=
  cur <- gets current_token ;;
  append_error
    (mkParseError (message ++ ". Encountered " ++ type cur ++ "('"
                   ++ value cur ++ "')") (Lexer.line cur) suggestion) ;;
  while fuel
    (cur <- gets current_token ;;
     ret (negb (type cur =? "EOF")
          && negb (str_in (value cur) [";"; "}"; ")"])))
    (fun _ => advance) tt ;;
  cur <- gets current_token ;;
  if value cur =? ";" then advance else ret tt.

Definition eat (token_type : string) (token_value : option string) : P unit :=
  cur <- gets current_token ;;
  if (type cur =? token_type)
     && match token_value with
        | None => true
        | Some v => value cur =? v
        end
  then advance
  else
    let expected :=
      match token_value with
      | Some (String _ _ as v) => "'" ++ v ++ "'"
      | _ => token_type
      end in
    append_error
      (mkParseError ("Expected " ++ expected ++ ", but found " ++ type cur
                     ++ "('" ++ value cur ++ "')") (Lexer.line cur) None) ;;
    if negb (type cur =? "EOF") then advance else ret tt.

Definition variable : P pyval :=
  cur <- gets current_token ;;
  eat "ID" None ;;
  ret (Variable_ cur).

Definition primary (expression : P pyval) : P pyval :=
  token <- gets current_token ;;
  if type token =? "NUMBER" then
    eat "NUMBER" None ;;
    ret (Number token)
  else if type token =? "ID" then variable
  else if value token =? "(" then
    eat "DELIM" (Some "(") ;;
    node <- expression ;;
    eat "DELIM" (Some ")") ;;
    ret node
  else
    append_error
      (mkParseError
         "Invalid syntax in expression. Expected number, variable, or '('."
         (Lexer.line token) None) ;;
    Token_global.

(** The shared shape of the loops of [factor], [term] and
    [comparison]: [while current_token.value in ops: ...]. *)
Definition binop_loop (fuel : nat) (ops : list string) (operand : P pyval)
    (node : pyval) : P pyval :=
  while fuel
    (cur <- gets current_token ;; ret (str_in (value cur) ops))
    (fun node =>
       op <- gets current_token ;;
       eat "OP" (Some (value op)) ;;
       right <- operand ;;
       ret (BinOp node op right))
    node.

Definition factor (fuel : nat) (expression : P pyval) : P pyval :=
  node <- primary expression ;;
  binop_loop fuel ["*"; "/"] (primary expression) node.

Definition term (fuel : nat) (expression : P pyval) : P pyval :=
  node <- factor fuel expression ;;
  binop_loop fuel ["+"; "-"] (factor fuel expression) node.

Definition comparison (fuel : nat) (expression : P pyval) : P pyval :=
  node <- term fuel expression ;;
  binop_loop fuel [">"; "<"; "=="; "!="; ">="; "<="] (term fuel expression) node.

Fixpoint expression (fuel : nat) : P pyval :=
  match fuel with
  | O => out_of_fuel
  | S fuel' =>
      s <- get ;;
      is_assignment <-
        (if type (current_token s) =? "ID" then
           next <- lift (index (tokens s) (pos s + 1)) ;;
           ret (value next =? "=")
         else ret false) ;;
      if (is_assignment : bool) then
        var_node <- variable ;;
        op <- gets current_token ;;
        eat "OP" (Some "=") ;;
        expr <- expression fuel' ;;
        ret (Assign var_node op expr)
      else comparison fuel' (expression fuel')
  end.

Definition type_specifier : P pyval :=
  token <- gets current_token ;;
  if str_in (value token) ["int"; "float"] then
    eat "KEYWORD" (Some (value token)) ;;
    ret (Type_ token)
  else
    append_error
      (mkParseError
         ("Expected a type specifier (e.g., int, float), but found "
          ++ type token ++ "('" ++ value token ++ "')")
         (Lexer.line token) None) ;;
    Token_global.

(** [token.type in ('KEYWORD', 'ID') or token.value in ('{', '}', 'EOF')]:
    the token after a missing semicolon looks like the start of a
    statement. *)
Definition starts_statement (t : Token) : bool :=
  str_in (type t) ["KEYWORD"; "ID"] || str_in (value t) ["{"; "}"; "EOF"].

(** The semicolon handling shared, up to its wording, by [declaration]
    and [statement]. *)
Definition semicolon (fuel : nat) (what after : string) : P unit :=
  cur <- gets current_token ;;
  if value cur =? ";" then eat "DELIM" (Some ";")
  else if starts_statement cur then
    append_error
      (mkParseError
         ("Missing ';' after " ++ what ++ ". Encountered " ++ type cur
          ++ "('" ++ value cur ++ "')")
         (Lexer.line cur)
         (Some ("Did you forget a ';' at the end of the " ++ what ++ "?")))
  else error fuel ("Expected ';' after " ++ after) None.

(** The [while self.current_token.type == 'ID'] loop of [declaration],
    left by [break] or when the condition fails. *)
Fixpoint declaration_loop (fuel : nat) (type_node : pyval)
    (declarations : list pyval) : P (list pyval) :=
  match fuel with
  | O => out_of_fuel
  | S fuel' =>
      cur <- gets current_token ;;
      if type cur =? "ID" then
        var_node <- variable ;;
        cur <- gets current_token ;;
        assign_node <-
          (if value cur =? "=" then
             eat "OP" (Some "=") ;;
             expr_node <- expression fuel' ;;
             ret (Assign var_node cur expr_node)
           else ret PNone) ;;
        let declarations :=
          app declarations [VarDecl type_node var_node assign_node] in
        cur <- gets current_token ;;
        if value cur =? "," then
          eat "DELIM" (Some ",") ;;
          declaration_loop fuel' type_node declarations
        else ret declarations
      else ret declarations
  end.

Definition declaration (fuel : nat) : P (list pyval) :=
  type_node <- type_specifier ;;
  declarations <- declaration_loop fuel type_node [] ;;
  semicolon fuel "declaration" "declaration" ;;
  ret declarations.

Definition if_statement (fuel : nat) (statement : P pyval) : P pyval :=
  eat "KEYWORD" (Some "if") ;;
  eat "DELIM" (Some "(") ;;
  condition <- expression fuel ;;
  cur <- gets current_token ;;
  (if value cur =? ")" then eat "DELIM" (Some ")")
   else if value cur =? "{" then
     append_error
       (mkParseError
          ("Missing ')' after if-condition. Encountered '" ++ value cur ++ "'")
          (Lexer.line cur) (Some "Did you forget a ')' before the '{'?"))
   else error fuel "Expected ')' after if-condition" None) ;;
  cur <- gets current_token ;;
  if_block <-
    (if value cur =? ";" then
       append_error
         (mkParseError
            "Unexpected ';' after if-condition. This creates an empty 'if' statement."
            (Lexer.line cur) (Some "Did you mean to delete this ';'?")) ;;
       eat "DELIM" (Some ";") ;;
       statement
     else statement) ;;
  cur <- gets current_token ;;
  else_block <-
    (if value cur =? "else" then
       eat "KEYWORD" (Some "else") ;;
       statement
     else ret PNone) ;;
  ret (If condition if_block else_block).

Definition block (fuel : nat) (statement : P pyval) : P pyval :=
  eat "DELIM" (Some "{") ;;
  statements <-
    while fuel
      (cur <- gets current_token ;;
       ret (negb (value cur =? "}") && negb (type cur =? "EOF")))
      (fun statements => node <- statement ;; ret (app statements [node]))
      [] ;;
  cur <- gets current_token ;;
  (if value cur =? "}" then eat "DELIM" (Some "}")
   else
     append_error
       (mkParseError
          ("Missing '}' to close block. Encountered " ++ type cur ++ "('"
           ++ value cur ++ "')") (Lexer.line cur) None)) ;;
  ret (Block statements).

Fixpoint statement (fuel : nat) : P pyval :=
  match fuel with
  | O => out_of_fuel
  | S fuel' =>
      cur <- gets current_token ;;
      if value cur =? "if" then if_statement fuel' (statement fuel')
      else if value cur =? "{" then block fuel' (statement fuel')
      else
        node <- expression fuel' ;;
        semicolon fuel' "statement" "expression statement" ;;
        ret node
  end.

Definition program (fuel : nat) : P pyval :=
  children <-
    while fuel
      (cur <- gets current_token ;; ret (negb (type cur =? "EOF")))
      (fun children =>
         cur <- gets current_token ;;
         if str_in (value cur) ["int"; "float"] then
           decls <- declaration fuel ;; ret (app children decls)
         else
           node <- statement fuel ;; ret (app children [node]))
      [] ;;
  ret (Program_ children).

(** [Parser(tokens).parse()]: the tree and the diagnostics. *)
Definition parse (fuel : nat) (tokens : list Token)
    : outcome (pyval * list ParseError) :=
  match init tokens with
  | Ok s0 =>
      match
        (ast <- program fuel ;;
         s <- get ;;
         (if negb (type (current_token s) =? "EOF")
             && match errors s with [] => true | _ => false end
          then append_error
                 (mkParseError "Unexpected tokens at end of file."
                    (Lexer.line (current_token s)) None)
          else ret tt) ;;
         errs <- gets errors ;;
         ret (ast, errs)) s0
      with
      | Ok (r, _) => Ok r
      | Raise e => Raise e
      | OutOfFuel => OutOfFuel
      | Unmodelled => Unmodelled
      end
  | Raise e => Raise e
  | OutOfFuel => OutOfFuel
  | Unmodelled => Unmodelled
  end.

End Parser.

(** ** semantic_analyzer.py *)

Module SemanticAnalyzer.

(** [str(e)] for a [SemanticError(message, line)]. *)
Definition SemanticError_str (message : string) (line : Z) : string :=
  "Semantic Error on line " ++ str_of_Z line ++ ": " ++ message.

(** The state of the analyzer during a visit is [sym_table.scopes], a
    stack of dictionaries from names to types whose last element is the
    innermost scope. *)
Definition M : Type -> Type := ST (list (gmap string string)).

Definition initial_scopes : list (gmap string string) := [∅].

Definition enter_scope : M unit := modify (fun scopes => app scopes [∅]).

(** The warning printed when only the global scope is left is not
    modelled. *)
Definition exit_scope : M unit :=
  modify (fun scopes =>
            if (1 <? length scopes)%nat then removelast scopes else scopes).

Definition declare (name type : string) (line : Z) : M unit :=
  scopes <- get ;;
  scope <- lift (index scopes (-1)) ;;
  match (scope : gmap string string) !! name with
  | Some _ =>
      raise (SemanticError
               ("Variable '" ++ name ++ "' already declared in this scope.")
               line)
  | None => put (app (removelast scopes) [<[name := type]> scope])
  end.

(** [for scope in reversed(self.scopes)]: the first hit wins. *)
Fixpoint lookup_in (reversed_scopes : list (gmap string string))
    (name : string) : option string :=
  match reversed_scopes with
  | [] => None
  | scope :: outer =>
      match scope !! name with
      | Some ty => Some ty
      | None => lookup_in outer name
      end
  end.

Definition lookup (name : string) (line : Z) : M string :=
  scopes <- get ;;
  match lookup_in (rev scopes) name with
  | Some ty => ret ty
  | None =>
      raise (SemanticError ("Variable '" ++ name ++ "' not declared.") line)
  end.

(** [node.a.b] *)
Definition getattr2 {S} (node : pyval) (a b : string) : ST S pyval :=
  x <- lift (getattr node a) ;; lift (getattr x b).

(** [for statement in xs]: a list yields its elements, a string its
    characters; nothing else the compiler builds is iterable. *)
Definition iter (xs : pyval) : outcome (list pyval) :=
  match xs with
  | PList l => Ok l
  | PStr s => Ok (map (fun c => PStr (String c EmptyString)) (list_ascii_of_string s))
  | _ => Raise (TypeError ("'" ++ class_name xs ++ "' object is not iterable"))
  end.

(** [t == s] for a string [s]: only an equal string is equal to it. *)
Definition eq_str (t : pyval) (s : string) : bool :=
  match t with
  | PStr s' => String.eqb s' s
  | _ => false
  end.

Definition is_number_type (t : pyval) : bool :=
  eq_str t "int" || eq_str t "float".

Definition visit_Program (visit : pyval -> M pyval) (node : pyval) : M pyval :=
  children <- lift (getattr node "children") ;;
  statements <- lift (iter children) ;;
  for_each statements (fun statement => visit statement ;; ret tt) ;;
  ret (PStr "void").

Definition visit_Block (visit : pyval -> M pyval) (node : pyval) : M pyval :=
  enter_scope ;;
  children <- lift (getattr node "children") ;;
  statements <- lift (iter children) ;;
  for_each statements (fun statement => visit statement ;; ret tt) ;;
  exit_scope ;;
  ret (PStr "void").

Definition cannot_assign (value_type : pyval) (var_name var_type : string)
    (line : Z) : M pyval :=
  vt <- lift (format value_type) ;;
  raise (SemanticError
           ("Cannot assign type '" ++ vt ++ "' to variable '" ++ var_name
            ++ "' of type '" ++ var_type ++ "'.") line).

Definition visit_VarDecl (visit : pyval -> M pyval) (node : pyval) : M pyval :=
  var_name <- getattr2 node "var_name" "value" ;;
  var_type <- getattr2 node "var_type" "value" ;;
  line <- getattr2 node "var_name" "line" ;;
  var_name <- lift (as_str var_name) ;;
  var_type <- lift (as_str var_type) ;;
  line <- lift (as_int line) ;;
  declare var_name var_type line ;;
  value <- lift (getattr node "value") ;;
  (if negb (is_none value) then
     value <- lift (getattr node "value") ;;
     value_type <- visit value ;;
     if negb (eq_str value_type var_type)
     then cannot_assign value_type var_name var_type line
     else ret PNone
   else ret PNone) ;;
  ret (PStr "void").

Definition visit_Assign (visit : pyval -> M pyval) (node : pyval) : M pyval :=
  var_name <- getattr2 node "var_name" "value" ;;
  line <- getattr2 node "var_name" "line" ;;
  var_name <- lift (as_str var_name) ;;
  line <- lift (as_int line) ;;
  var_type <- lookup var_name line ;;
  value <- lift (getattr node "value") ;;
  value_type <- visit value ;;
  (if negb (eq_str value_type var_type)
   then cannot_assign value_type var_name var_type line
   else ret PNone) ;;
  ret (PStr "void").

Definition visit_If (visit : pyval -> M pyval) (node : pyval) : M pyval :=
  condition <- lift (getattr node "condition") ;;
  condition_type <- visit condition ;;
  (if negb (eq_str condition_type "bool") then
     ct <- lift (format condition_type) ;;
     condition <- lift (getattr node "condition") ;;
     line <- getattr2 condition "op" "line" ;;
     line <- lift (as_int line) ;;
     raise (SemanticError
              ("If condition must be a boolean expression (e.g., a > b), but got '"
               ++ ct ++ "'.") line)
   else ret tt) ;;
  if_block <- lift (getattr node "if_block") ;;
  visit if_block ;;
  else_block <- lift (getattr node "else_block") ;;
  (if truthy else_block then
     else_block <- lift (getattr node "else_block") ;;
     visit else_block
   else ret PNone) ;;
  ret (PStr "void").

(** The operand check shared, up to its wording, by [visit_BinOp] and
    [visit_RelOp]. *)
Definition check_operands (visit : pyval -> M pyval) (what : string)
    (node : pyval) : M (pyval * pyval) :=
  left <- lift (getattr node "left") ;;
  left_type <- visit left ;;
  right <- lift (getattr node "right") ;;
  right_type <- visit right ;;
  line <- getattr2 node "op" "line" ;;
  (if negb (is_number_type left_type) || negb (is_number_type right_type) then
     op <- getattr2 node "op" "value" ;;
     op <- lift (format op) ;;
     lt <- lift (format left_type) ;;
     rt <- lift (format right_type) ;;
     line <- lift (as_int line) ;;
     raise (SemanticError
              (what ++ " operation '" ++ op
               ++ "' can only be used on numbers, not '" ++ lt ++ "' and '"
               ++ rt ++ "'.") line)
   else ret tt) ;;
  ret (left_type, right_type).

Definition visit_BinOp (visit : pyval -> M pyval) (node : pyval) : M pyval :=
  types <- check_operands visit "Arithmetic" node ;;
  if eq_str (fst types) "float" || eq_str (snd types) "float"
  then ret (PStr "float")
  else ret (PStr "int").

Definition visit_RelOp (visit : pyval -> M pyval) (node : pyval) : M pyval :=
  check_operands visit "Relational" node ;;
  ret (PStr "bool").

(** ['.' in node.value] *)
Definition visit_Number (node : pyval) : M pyval :=
  value <- lift (getattr node "value") ;;
  has_dot <-
    match value with
    | PStr s => ret (contains_char "."%char s)
    | PList l => ret (existsb (fun x => eq_str x ".") l)
    | _ => raise (TypeError ("argument of type '" ++ class_name value
                             ++ "' is not iterable"))
    end ;;
  if (has_dot : bool) then ret (PStr "float") else ret (PStr "int").

Definition visit_Id (node : pyval) : M pyval :=
  value <- lift (getattr node "value") ;;
  line <- lift (getattr node "line") ;;
  name <- lift (as_str value) ;;
  line <- lift (as_int line) ;;
  ty <- lookup name line ;;
  ret (PStr ty).

(** The dispatch on the name of the node's class. *)
Fixpoint visit (fuel : nat) (node : pyval) : M pyval :=
  match fuel with
  | O => out_of_fuel
  | S fuel' =>
      if is_none node then ret PNone
      else
        let class_name := class_name node in
        if class_name =? "Program" then visit_Program (visit fuel') node
        else if class_name =? "VarDecl" then visit_VarDecl (visit fuel') node
        else if class_name =? "Assign" then visit_Assign (visit fuel') node
        else if class_name =? "If" then visit_If (visit fuel') node
        else if class_name =? "Block" then visit_Block (visit fuel') node
        else if class_name =? "BinOp" then visit_BinOp (visit fuel') node
        else if class_name =? "RelOp" then visit_RelOp (visit fuel') node
        else if class_name =? "Number" then visit_Number node
        else if class_name =? "Id" then visit_Id node
        else raise (TypeError ("Unknown node type: " ++ class_name))
  end.

(** [analyze(node, errors)] on an analyzer whose symbol table holds
    [scopes]: a [SemanticError] is caught and its text appended to
    [errors]; any other exception propagates.  The result is the return
    value together with the list [errors] as the caller then sees it. *)
Definition analyze_from (scopes : list (gmap string string)) (fuel : nat)
    (node : pyval) (errors : list string) : outcome (string * list string) :=
  match visit fuel node scopes with
  | Ok _ => Ok ("void", errors)
  | Raise (SemanticError message line) =>
      Ok ("void", app errors [SemanticError_str message line])
  | Raise e => Raise e
  | OutOfFuel => OutOfFuel
  | Unmodelled => Unmodelled
  end.

(** [SemanticAnalyzer().analyze(node, errors)]. *)
Definition analyze (fuel : nat) (node : pyval) (errors : list string)
    : outcome (string * list string) :=
  analyze_from initial_scopes fuel node errors.

End SemanticAnalyzer.

(** ** ir_generator.py *)

Module IRGenerator.

(** One constructor for each text template the generator appends to
    [ir_code]; [render] gives the text.  The operands are the already
    formatted pieces of the f-string. *)
Inductive instr : Type :=
| IDeclare (var_type var_name : string)
| ICopy (var_name src : string)
| IBinOp (result_temp left_src op right_src : string)
| IRelOp (result_temp left_src op right_src : string)
| IIfFalse (condition_var label : string)
| IGoto (label : string)
| ILabel (label : string).

Definition render (i : instr) : string :=
  match i with
  | IDeclare var_type var_name => "DECLARE " ++ var_type ++ " " ++ var_name
  | ICopy var_name src => var_name ++ " = " ++ src
  | IBinOp t l op r => t ++ " = " ++ l ++ " " ++ op ++ " " ++ r
  | IRelOp t l op r => t ++ " = " ++ l ++ " " ++ op ++ " " ++ r
  | IIfFalse c label => "IF_FALSE " ++ c ++ " GOTO " ++ label
  | IGoto label => "GOTO " ++ label
  | ILabel label => "LABEL " ++ label
  end.

Record gen_state : Type :=
  mkGen { ir_code : list instr; temp_count : nat; label_count : nat }.

Definition G : Type -> Type := ST gen_state.

Definition emit (i : instr) : G unit :=
  modify (fun s => mkGen (app (ir_code s) [i]) (temp_count s) (label_count s)).

Definition new_temp : G string :=
  s <- get ;;
  put (mkGen (ir_code s) (temp_count s + 1) (label_count s)) ;;
  ret ("t" ++ str_of_nat (temp_count s + 1)).

Definition new_label : G string :=
  s <- get ;;
  put (mkGen (ir_code s) (temp_count s) (label_count s + 1)) ;;
  ret ("L" ++ str_of_nat (label_count s + 1)).

Definition getattr2 := @SemanticAnalyzer.getattr2.
Definition iter := SemanticAnalyzer.iter.

Definition visit_Program (visit : pyval -> G pyval) (node : pyval) : G pyval :=
  children <- lift (getattr node "children") ;;
  statements <- lift (iter children) ;;
  for_each statements (fun statement => visit statement ;; ret tt) ;;
  ret PNone.

Definition visit_VarDecl (visit : pyval -> G pyval) (node : pyval) : G pyval :=
  var_type <- getattr2 _ node "var_type" "value" ;;
  var_name <- getattr2 _ node "var_name" "value" ;;
  var_type <- lift (format var_type) ;;
  var_name <- lift (format var_name) ;;
  emit (IDeclare var_type var_name) ;;
  value <- lift (getattr node "value") ;;
  (if negb (is_none value) then
     value <- lift (getattr node "value") ;;
     src <- visit value ;;
     src <- lift (format src) ;;
     emit (ICopy var_name src)
   else ret tt) ;;
  ret PNone.

Definition visit_Assign (visit : pyval -> G pyval) (node : pyval) : G pyval :=
  var_name <- getattr2 _ node "var_name" "value" ;;
  value <- lift (getattr node "value") ;;
  src <- visit value ;;
  var_name <- lift (format var_name) ;;
  src <- lift (format src) ;;
  emit (ICopy var_name src) ;;
  ret PNone.

Definition visit_If (visit : pyval -> G pyval) (node : pyval) : G pyval :=
  condition <- lift (getattr node "condition") ;;
  condition_var <- visit condition ;;
  end_label <- new_label ;;
  else_block <- lift (getattr node "else_block") ;;
  (if truthy else_block then
     else_label <- new_label ;;
     condition_var <- lift (format condition_var) ;;
     emit (IIfFalse condition_var else_label) ;;
     if_block <- lift (getattr node "if_block") ;;
     visit if_block ;;
     emit (IGoto end_label) ;;
     emit (ILabel else_label) ;;
     else_block <- lift (getattr node "else_block") ;;
     visit else_block ;;
     ret tt
   else
     condition_var <- lift (format condition_var) ;;
     emit (IIfFalse condition_var end_label) ;;
     if_block <- lift (getattr node "if_block") ;;
     visit if_block ;;
     ret tt) ;;
  emit (ILabel end_label) ;;
  ret PNone.

Definition visit_Block (visit : pyval -> G pyval) (node : pyval) : G pyval :=
  children <- lift (getattr node "children") ;;
  statements <- lift (iter children) ;;
  for_each statements (fun statement => visit statement ;; ret tt) ;;
  ret PNone.

(** The body shared by [visit_BinOp] and [visit_RelOp], which differ in
    nothing but their name; [mk] records which of the two appended the
    instruction. *)
Definition visit_operation (mk : string -> string -> string -> string -> instr)
    (visit : pyval -> G pyval) (node : pyval) : G pyval :=
  left <- lift (getattr node "left") ;;
  left_src <- visit left ;;
  right <- lift (getattr node "right") ;;
  right_src <- visit right ;;
  op <- getattr2 _ node "op" "value" ;;
  result_temp <- new_temp ;;
  left_src <- lift (format left_src) ;;
  op <- lift (format op) ;;
  right_src <- lift (format right_src) ;;
  emit (mk result_temp left_src op right_src) ;;
  ret (PStr result_temp).

Definition visit_BinOp := visit_operation IBinOp.
Definition visit_RelOp := visit_operation IRelOp.

Definition visit_Number (node : pyval) : G pyval := lift (getattr node "value").
Definition visit_Id (node : pyval) : G pyval := lift (getattr node "value").

Fixpoint visit (fuel : nat) (node : pyval) : G pyval :=
  match fuel with
  | O => out_of_fuel
  | S fuel' =>
      if is_none node then ret PNone
      else
        let class_name := class_name node in
        if class_name =? "Program" then visit_Program (visit fuel') node
        else if class_name =? "VarDecl" then visit_VarDecl (visit fuel') node
        else if class_name =? "Assign" then visit_Assign (visit fuel') node
        else if class_name =? "If" then visit_If (visit fuel') node
        else if class_name =? "Block" then visit_Block (visit fuel') node
        else if class_name =? "BinOp" then visit_BinOp (visit fuel') node
        else if class_name =? "RelOp" then visit_RelOp (visit fuel') node
        else if class_name =? "Number" then visit_Number node
        else if class_name =? "Id" then visit_Id node
        else raise (TypeError ("Unknown node type: " ++ class_name))
  end.

(** [generate(node)] on a generator whose counters stand at
    [temp_count] and [label_count]: [ir_code] is reset, the counters are
    not. *)
Definition generate_from (temp_count label_count : nat) (fuel : nat)
    (node : pyval) : outcome (list instr) :=
  match visit fuel node (mkGen [] temp_count label_count) with
  | Ok (_, s) => Ok (ir_code s)
  | Raise e => Raise e
  | OutOfFuel => OutOfFuel
  | Unmodelled => Unmodelled
  end.

(** [IRGenerator().generate(node)], as instructions and as the text
    lines the generator returns. *)
Definition generate_instrs (fuel : nat) (node : pyval) : outcome (list instr) :=
  generate_from 0 0 fuel node.

Definition generate (fuel : nat) (node : pyval) : outcome (list string) :=
  match generate_instrs fuel node with
  | Ok ir => Ok (map render ir)
  | Raise e => Raise e
  | OutOfFuel => OutOfFuel
  | Unmodelled => Unmodelled
  end.

End IRGenerator.

(** ** Python floats

    [float] is IEEE-754 binary64, taken from the Standard Library's
    executable specification [SpecFloat] at precision 53 and maximal
    exponent 1024.  [float(s)] rounds the decimal text to the nearest
    float (ties to even) and [repr] prints the shortest decimal text that
    reads back as the same float. *)

Module PyFloat.

Definition prec : Z := 53.
Definition emax : Z := 1024.

Definition fadd := SFadd prec emax.
Definition fsub := SFsub prec emax.
Definition fmul := SFmul prec emax.
Definition fdiv := SFdiv prec emax.

(** The float nearest to [n / d], for [0 <= n] and [0 < d]: the quotient
    is taken with at least 64 significant bits and one sticky bit, which
    [binary_normalize] then rounds. *)
Definition of_ratio (neg : bool) (n d : Z) : spec_float :=
  if (n =? 0)%Z then S754_zero neg
  else
    let s := Z.max 0 (64 + Z.log2 d - Z.log2 n) in
    let '(q, r) := Z.div_eucl (Z.shiftl n s) d in
    let m := (2 * q + (if (r =? 0)%Z then 0 else 1))%Z in
    binary_normalize prec emax (if neg then (- m)%Z else m) (- (s + 1))%Z neg.

(** The float nearest to [m * 10^e], for [0 <= m].  Far outside the
    range of binary64 the result is known without computing the power. *)
Definition of_decimal (neg : bool) (m e : Z) : spec_float :=
  if (m =? 0)%Z then S754_zero neg
  else
    let nd := Z.of_nat (String.length (str_of_Z m)) in
    if (310 <? nd + e)%Z then S754_infinity neg
    else if (nd + e <? -330)%Z then S754_zero neg
    else if (0 <=? e)%Z then of_ratio neg (m * 10 ^ e)%Z 1
    else of_ratio neg m (10 ^ (- e))%Z.

Definition digit_val (c : ascii) : Z := Z.of_nat (nat_of_ascii c) - 48.

Definition digits_val (ds : list ascii) : Z :=
  fold_left (fun acc c => (10 * acc + digit_val c)%Z) ds 0%Z.

Definition lower (c : ascii) : ascii :=
  let n := nat_of_ascii c in
  if (65 <=? n)%nat && (n <=? 90)%nat then ascii_of_nat (n + 32) else c.

(** The characters that [float] skips around the number in an ASCII
    text: those of C's [isspace], which are tab, line feed, vertical tab,
    form feed, carriage return and the space.  Unlike [str.isspace] it
    leaves the four separators 28-31, and the text is then not a
    number. *)
Definition is_c_space (c : ascii) : bool :=
  let n := nat_of_ascii c in
  ((9 <=? n)%nat && (n <=? 13)%nat) || (n =? 32)%nat.

Fixpoint drop_space (cs : list ascii) : list ascii :=
  match cs with
  | c :: r => if is_c_space c then drop_space r else cs
  | [] => []
  end.

Definition strip (cs : list ascii) : list ascii :=
  rev (drop_space (rev (drop_space cs))).

(** Underscores may only stand between two digits; they are removed. *)
Fixpoint remove_underscores (prev_digit : bool) (cs : list ascii)
    : option (list ascii) :=
  match cs with
  | [] => Some []
  | "_"%char :: r =>
      match r with
      | d :: _ =>
          if prev_digit && is_digit d then remove_underscores false r
          else None
      | [] => None
      end
  | c :: r =>
      match remove_underscores (is_digit c) r with
      | Some r' => Some (c :: r')
      | None => None
      end
  end.

(** [digits [. digits] [(e|E) [+|-] digits]] with a digit in the
    mantissa: the mantissa as an integer and the power of ten. *)
Definition parse_decimal (cs : list ascii) : option (Z * Z) :=
  let '(ip, r1) := Lexer.span is_digit cs in
  let '(fp, r2) :=
    match r1 with
    | "."%char :: r => Lexer.span is_digit r
    | _ => ([], r1)
    end in
  match app ip fp with
  | [] => None
  | ds =>
      let m := digits_val ds in
      let e0 := (- Z.of_nat (length fp))%Z in
      match r2 with
      | [] => Some (m, e0)
      | c :: r3 =>
          if Ascii.eqb (lower c) "e"%char then
            let '(eneg, r4) :=
              match r3 with
              | "-"%char :: r => (true, r)
              | "+"%char :: r => (false, r)
              | _ => (false, r3)
              end in
            let '(ed, r5) := Lexer.span is_digit r4 in
            match ed, r5 with
            | _ :: _, [] =>
                Some (m, if eneg then (e0 - digits_val ed)%Z
                         else (e0 + digits_val ed)%Z)
            | _, _ => None
            end
          else None
      end
  end.

(** [float(s)] for a string; [None] stands for [ValueError]. *)
Definition of_string (s : string) : option spec_float :=
  match remove_underscores false (strip (list_ascii_of_string s)) with
  | None => None
  | Some cs =>
      let '(neg, body) :=
        match cs with
        | "-"%char :: r => (true, r)
        | "+"%char :: r => (false, r)
        | _ => (false, cs)
        end in
      let word := string_of_list_ascii (map lower body) in
      if (word =? "inf") || (word =? "infinity") then Some (S754_infinity neg)
      else if word =? "nan" then Some S754_nan
      else
        match parse_decimal body with
        | Some (m, e) => Some (of_decimal neg m e)
        | None => None
        end
  end.

(** [int(x)]: truncation towards zero. *)
Definition to_int (x : spec_float) : outcome Z :=
  match x with
  | S754_zero _ => Ok 0%Z
  | S754_infinity _ =>
      Raise (OverflowError "cannot convert float infinity to integer")
  | S754_nan => Raise (ValueError "cannot convert float NaN to integer")
  | S754_finite neg m e =>
      let a := if (0 <=? e)%Z then (Z.pos m * 2 ^ e)%Z
               else (Z.pos m / 2 ^ (- e))%Z in
      Ok (if neg then (- a)%Z else a)
  end.

(** [x == n] for a float and an [int]: the comparison is exact. *)
Definition eq_int (x : spec_float) (n : Z) : bool :=
  match x with
  | S754_zero _ => (n =? 0)%Z
  | S754_finite neg m e =>
      let num := if neg then Z.neg m else Z.pos m in
      if (0 <=? e)%Z then (num * 2 ^ e =? n)%Z
      else (num =? n * 2 ^ (- e))%Z
  | _ => false
  end.

(** *** [repr] *)

(** The least [p] with [n / d < 10^p], for [0 < n / d], searched upwards
    from a first guess that is not above it. *)
Fixpoint decpt_up (fuel : nat) (n d p : Z) : Z :=
  match fuel with
  | O => p
  | S fuel' =>
      let below :=
        if (0 <=? p)%Z then (n <? d * 10 ^ p)%Z
        else (n * 10 ^ (- p) <? d)%Z in
      if below then p else decpt_up fuel' n d (p + 1)%Z
  end.

(** The [k]-digit decimals next to [n / d], whose leading digit stands at
    [10^(p-1)]: the one that reads back as [x], the nearer one if both
    do. *)
Definition candidate (x : spec_float) (n d p k : Z) : option Z :=
  let sc := (k - p)%Z in
  let num := if (0 <=? sc)%Z then (n * 10 ^ sc)%Z else n in
  let den := if (0 <=? sc)%Z then d else (d * 10 ^ (- sc))%Z in
  let lo := (num / den)%Z in
  let hi := (lo + 1)%Z in
  let back (c : Z) := SFeqb (of_decimal false c (- sc)%Z) x in
  let lo_ok := (0 <? lo)%Z && back lo in
  let hi_ok := back hi in
  if lo_ok && hi_ok then
    match (2 * (num - lo * den) ?= den)%Z with
    | Lt => Some lo
    | Gt => Some hi
    | Eq => Some (if Z.even lo then lo else hi)
    end
  else if lo_ok then Some lo
  else if hi_ok then Some hi
  else None.

Fixpoint shortest (fuel : nat) (x : spec_float) (n d p k : Z) : Z * Z :=
  match fuel with
  | O => (0%Z, k)
  | S fuel' =>
      match candidate x n d p k with
      | Some c => (c, k)
      | None => shortest fuel' x n d p (k + 1)%Z
      end
  end.

Fixpoint strip_zeros (fuel : nat) (c : Z) : Z :=
  match fuel with
  | O => c
  | S fuel' => if (c mod 10 =? 0)%Z then strip_zeros fuel' (c / 10)%Z else c
  end.

Definition zeros (n : Z) : string :=
  string_of_list_ascii (repeat "0"%char (Z.to_nat n)).

(** The digits [ds] with the decimal point after the first [decpt] of
    them, in the fixed or the exponent notation [repr] chooses. *)
Definition layout (ds : string) (decpt : Z) : string :=
  let k := Z.of_nat (String.length ds) in
  if (-4 <? decpt)%Z && (decpt <=? 16)%Z then
    if (decpt <=? 0)%Z then "0." ++ zeros (- decpt) ++ ds
    else if (k <=? decpt)%Z then ds ++ zeros (decpt - k) ++ ".0"
    else substring 0 (Z.to_nat decpt) ds ++ "."
         ++ substring (Z.to_nat decpt) (Z.to_nat (k - decpt)) ds
  else
    let e := (decpt - 1)%Z in
    let es := str_of_Z (Z.abs e) in
    substring 0 1 ds
    ++ (if (1 <? k)%Z then "." ++ substring 1 (Z.to_nat (k - 1)) ds else "")
    ++ "e" ++ (if (e <? 0)%Z then "-" else "+")
    ++ (if (String.length es <? 2)%nat then "0" ++ es else es).

(** [repr(x)], which is also [str(x)]. *)
Definition repr (x : spec_float) : string :=
  match x with
  | S754_nan => "nan"
  | S754_infinity neg => if neg then "-inf" else "inf"
  | S754_zero neg => if neg then "-0.0" else "0.0"
  | S754_finite neg m e =>
      let n := if (0 <=? e)%Z then (Z.pos m * 2 ^ e)%Z else Z.pos m in
      let d := if (0 <=? e)%Z then 1%Z else (2 ^ (- e))%Z in
      let p := decpt_up 8 n d
                 ((Z.log2 n - Z.log2 d - 1) * 30103 / 100000 - 2)%Z in
      let '(c, k) := shortest 17 (S754_finite false m e) n d p 1 in
      let ds := str_of_Z (strip_zeros 20 c) in
      let decpt := (p + (Z.of_nat (String.length (str_of_Z c)) - k))%Z in
      (if neg then "-" else "") ++ layout ds decpt
  end.

End PyFloat.

(** ** optimizer.py *)

Module Optimizer.

(** An instruction is the 4-tuple [(op, arg1, arg2, result)] whose
    components are strings or [None]. *)
Definition instr : Type :=
  option string * option string * option string * option string.

(** The value bound to [new_val]: a float, or the [int] that the guarded
    division and the conversion to [int] produce. *)
Inductive number : Type :=
| Float (x : spec_float)
| Int (n : Z).

Definition is_numeric (s : option string) : bool :=
  match s with
  | None => false
  | Some s =>
      match PyFloat.of_string s with
      | Some _ => true
      | None => false
      end
  end.

(** [val2 != 0] *)
Definition nonzero (x : spec_float) : bool := negb (PyFloat.eq_int x 0).

(** [int(new_val) if new_val == int(new_val) else new_val] *)
Definition keep_int (new_val : number) : outcome number :=
  match new_val with
  | Int n => Ok (Int n)
  | Float x =>
      match PyFloat.to_int x with
      | Ok n => if PyFloat.eq_int x n then Ok (Int n) else Ok (Float x)
      | Raise e => Raise e
      | OutOfFuel => OutOfFuel
      | Unmodelled => Unmodelled
      end
  end.

(** [str(new_val)] *)
Definition str (v : number) : string :=
  match v with
  | Int n => str_of_Z n
  | Float x => PyFloat.repr x
  end.

Definition is_arith (op : option string) : bool :=
  match op with
  | Some op => str_in op ["ADD"; "SUB"; "MUL"; "DIV"]
  | None => false
  end.

(** The chain [if op == 'ADD': ... elif op == 'DIV': ...] that binds
    [new_val], for an [op] among the four. *)
Definition compute (op : string) (val1 val2 : spec_float) : number :=
  if op =? "ADD" then Float (PyFloat.fadd val1 val2)
  else if op =? "SUB" then Float (PyFloat.fsub val1 val2)
  else if op =? "MUL" then Float (PyFloat.fmul val1 val2)
  else if nonzero val2 then Float (PyFloat.fdiv val1 val2)
  else Int 0.

(** One iteration of the loop of [constant_folding]; the state is
    [optimized_code]. *)
Definition fold_step (i : instr) : ST (list instr) unit :=
  let '(op, arg1, arg2, result) := i in
  if is_arith op && is_numeric arg1 && is_numeric arg2 then
    match op, arg1, arg2 with
    | Some op, Some arg1, Some arg2 =>
        match PyFloat.of_string arg1, PyFloat.of_string arg2 with
        | Some val1, Some val2 =>
            new_val <- lift (keep_int (compute op val1 val2)) ;;
            modify (fun optimized_code =>
                      app optimized_code
                          [(Some "ASSIGN", Some (str new_val), None, result)])
        | _, _ => unmodelled
        end
    | _, _, _ => unmodelled
    end
  else modify (fun optimized_code => app optimized_code [(op, arg1, arg2, result)]).

(** [constant_folding] on an optimizer holding [ir_code]: the new value
    of [self.ir_code], unless an exception leaves the loop. *)
Definition constant_folding (ir_code : list instr) : outcome (list instr) :=
  match for_each ir_code fold_step [] with
  | Ok (_, optimized_code) => Ok optimized_code
  | Raise e => Raise e
  | OutOfFuel => OutOfFuel
  | Unmodelled => Unmodelled
  end.

(** [Optimizer(ir_code).optimize()] *)
Definition optimize (ir_code : list instr) : outcome (list instr) :=
  constant_folding ir_code.

End Optimizer.

(** ** code_generator.py *)

Module CodeGenerator.

(** [repr(s)] of a string, as it appears in the text of a [KeyError]:
    single quotes unless the string holds a single and no double quote;
    the quote in use, the backslash and the control characters are
    escaped. *)
Definition hex_digit (n : nat) : ascii :=
  if (n <? 10)%nat then ascii_of_nat (48 + n) else ascii_of_nat (87 + n).

Definition escape (quote : ascii) (c : ascii) : list ascii :=
  let n := nat_of_ascii c in
  if Ascii.eqb c quote || Ascii.eqb c "\"%char then ["\"%char; c]
  else if (n =? 9)%nat then ["\"; "t"]%char
  else if (n =? 10)%nat then ["\"; "n"]%char
  else if (n =? 13)%nat then ["\"; "r"]%char
  else if (n <? 32)%nat || (n =? 127)%nat
  then ["\"%char; "x"%char; hex_digit (n / 16); hex_digit (n mod 16)]
  else [c].

Definition repr_str (s : string) : string :=
  let cs := list_ascii_of_string s in
  let quote :=
    if existsb (Ascii.eqb "'"%char) cs && negb (existsb (Ascii.eqb "034"%char) cs)
    then "034"%char else "'"%char in
  string_of_list_ascii (quote :: flat_map (escape quote) cs ++ [quote])%list.

(** [str(e)] for the exceptions an instruction can raise. *)
Definition exn_str (e : exn) : string :=
  match e with
  | NameError m | TypeError m | IndexError m | ValueError m
  | OverflowError m => m
  | AttributeError cls attr =>
      "'" ++ cls ++ "' object has no attribute '" ++ attr ++ "'"
  | KeyError k => repr_str k
  | SemanticError m l => SemanticAnalyzer.SemanticError_str m l
  end.

(** The fields of the generator; an entry of [symbol_table] is the pair
    of the variable's type and frame offset. *)
Record cg_state : Type :=
  mkCg { symbol_table : gmap string (string * Z);
         current_offset : Z;
         float_labels : gmap string string;
         float_label_count : Z;
         data_section : list string;
         text_section : list string }.

Definition C : Type -> Type := ST cg_state.

(** [CodeGenerator.__init__] *)
Definition init : cg_state := mkCg ∅ 0 ∅ 0 ["section .data"] [].

Definition emit (line : string) : C unit :=
  modify (fun s => mkCg (symbol_table s) (current_offset s) (float_labels s)
                        (float_label_count s) (data_section s)
                        (app (text_section s) [line])).

Definition allocate (var_name var_type : string) : C Z :=
  s <- get ;;
  let offset := (current_offset s - 4)%Z in
  put (mkCg (<[var_name := (var_type, offset)]> (symbol_table s)) offset
            (float_labels s) (float_label_count s) (data_section s)
            (text_section s)) ;;
  ret offset.

Definition get_var_offset (var_name : string) : C Z :=
  s <- get ;;
  match symbol_table s !! var_name with
  | Some (_, offset) => ret offset
  | None => allocate var_name "unknown"
  end.

Definition get_float_label (float_val : string) : C string :=
  s <- get ;;
  match float_labels s !! float_val with
  | Some label => ret label
  | None =>
      let label := "__float_" ++ str_of_Z (float_label_count s) in
      put (mkCg (symbol_table s) (current_offset s)
                (<[float_val := label]> (float_labels s))
                (float_label_count s + 1)
                (app (data_section s) ["    " ++ label ++ " dd " ++ float_val])
                (text_section s)) ;;
      ret label
  end.

Definition is_int_literal (val : string) : bool :=
  isdigit val || (startswith "-" val && isdigit (tail_str val)).

Definition is_float_literal (val : string) : bool := contains_char "."%char val.

Definition is_arith (op : string) : bool :=
  str_in op ["ADD"; "SUB"; "MUL"; "DIV"].

Definition part (parts : list string) (i : Z) : C string :=
  lift (index parts i).

(** The scan before the main loop, which enters the float literals into
    the data section; it is not protected by a [try]. *)
Definition prescan_line (line : string) : C unit :=
  let parts := split line in
  match parts with
  | [] => ret tt
  | op :: _ =>
      if op =? "ASSIGN" then
        p2 <- part parts 2 ;;
        if is_float_literal p2 then get_float_label p2 ;; ret tt else ret tt
      else if is_arith op then
        p3 <- part parts 3 ;;
        (if is_float_literal p3 then get_float_label p3 ;; ret tt else ret tt) ;;
        p4 <- part parts 4 ;;
        if is_float_literal p4 then get_float_label p4 ;; ret tt else ret tt
      else ret tt
  end.

Definition ebp (offset : Z) : string := "[ebp" ++ str_of_Z offset ++ "]".

Definition gen_declare (parts : list string) : C unit :=
  var_type <- part parts 1 ;;
  var_name <- part parts 2 ;;
  offset <- allocate var_name var_type ;;
  emit ("    sub esp, 4  ; Allocate space for " ++ var_name ++ " (type: "
        ++ var_type ++ ") at " ++ ebp offset).

Definition gen_assign (parts : list string) : C unit :=
  var_name <- part parts 1 ;;
  value <- part parts 2 ;;
  s <- get ;;
  match symbol_table s !! var_name with
  | None => raise (KeyError var_name)
  | Some (type, offset) =>
      if type =? "int" then
        if is_int_literal value then
          emit ("    mov dword " ++ ebp offset ++ ", " ++ value)
        else
          val_offset <- get_var_offset value ;;
          emit ("    mov eax, dword " ++ ebp val_offset) ;;
          emit ("    mov dword " ++ ebp offset ++ ", eax")
      else if type =? "float" then
        if is_float_literal value then
          label <- get_float_label value ;;
          emit ("    fld dword [" ++ label ++ "]") ;;
          emit ("    fstp dword " ++ ebp offset)
        else
          val_offset <- get_var_offset value ;;
          emit ("    fld dword " ++ ebp val_offset) ;;
          emit ("    fstp dword " ++ ebp offset)
      else ret tt
  end.

(** Loading an operand into the register [reg]. *)
Definition load_int (reg src : string) : C unit :=
  if is_int_literal src then emit ("    mov " ++ reg ++ ", " ++ src)
  else
    offset <- get_var_offset src ;;
    emit ("    mov " ++ reg ++ ", dword " ++ ebp offset).

(** Pushing an operand on the FPU stack. *)
Definition load_float (src : string) : C unit :=
  if is_float_literal src then
    label <- get_float_label src ;;
    emit ("    fld dword [" ++ label ++ "]")
  else
    offset <- get_var_offset src ;;
    emit ("    fld dword " ++ ebp offset).

Definition gen_arith (op : string) (parts : list string) : C unit :=
  op_type <- part parts 1 ;;
  dest <- part parts 2 ;;
  src1 <- part parts 3 ;;
  src2 <- part parts 4 ;;
  dest_offset <- get_var_offset dest ;;
  if op_type =? "int" then
    load_int "eax" src1 ;;
    load_int "ebx" src2 ;;
    (if op =? "ADD" then emit "    add eax, ebx"
     else if op =? "SUB" then emit "    sub eax, ebx"
     else if op =? "MUL" then emit "    imul eax, ebx"
     else if op =? "DIV" then emit "    cdq" ;; emit "    idiv ebx"
     else ret tt) ;;
    emit ("    mov dword " ++ ebp dest_offset ++ ", eax")
  else if op_type =? "float" then
    load_float src1 ;;
    load_float src2 ;;
    (if op =? "ADD" then emit "    faddp st(1), st(0)"
     else if op =? "SUB" then emit "    fsubp st(1), st(0)"
     else if op =? "MUL" then emit "    fmulp st(1), st(0)"
     else if op =? "DIV" then emit "    fdivp st(1), st(0)"
     else ret tt) ;;
    emit ("    fstp dword " ++ ebp dest_offset)
  else ret tt.

Definition gen_cast (parts : list string) : C unit :=
  dest <- part parts 1 ;;
  src <- part parts 2 ;;
  src_offset <- get_var_offset src ;;
  emit ("    fild dword " ++ ebp src_offset) ;;
  dest_offset <- get_var_offset dest ;;
  emit ("    fstp dword " ++ ebp dest_offset).

Definition gen_compare (parts : list string) : C unit :=
  cmp_type <- part parts 1 ;;
  src1 <- part parts 2 ;;
  cmp_op <- part parts 3 ;;
  src2 <- part parts 4 ;;
  if cmp_type =? "int" then
    offset1 <- get_var_offset src1 ;;
    emit ("    mov eax, dword " ++ ebp offset1) ;;
    load_int "ebx" src2 ;;
    emit "    cmp eax, ebx"
  else if cmp_type =? "float" then
    offset1 <- get_var_offset src1 ;;
    emit ("    fld dword " ++ ebp offset1) ;;
    load_float src2 ;;
    emit "    fcomip st(0), st(1)" ;;
    emit "    fstp st(0)"
  else ret tt.

(** The branch that fires when the comparison read from the previous
    instruction is false. *)
Definition jump_op (cmp_type cmp_op : string) : string :=
  if cmp_type =? "int" then
    if cmp_op =? "==" then "jne"
    else if cmp_op =? "!=" then "je"
    else if cmp_op =? ">" then "jle"
    else if cmp_op =? ">=" then "jl"
    else if cmp_op =? "<" then "jge"
    else if cmp_op =? "<=" then "jg"
    else ""
  else if cmp_type =? "float" then
    if cmp_op =? "==" then "jne"
    else if cmp_op =? "!=" then "je"
    else if cmp_op =? ">" then "jbe"
    else if cmp_op =? ">=" then "jb"
    else if cmp_op =? "<" then "jae"
    else if cmp_op =? "<=" then "ja"
    else ""
  else "".

Definition gen_jump_if_false (ir : list string) (i : Z) (parts : list string)
    : C unit :=
  prev_line <- lift (index ir (i - 1)) ;;
  let prev_parts := split prev_line in
  cmp_type <- part prev_parts 1 ;;
  cmp_op <- part prev_parts 3 ;;
  label <- part parts 1 ;;
  emit ("    " ++ jump_op cmp_type cmp_op ++ " " ++ label ++ " ; Jump if "
        ++ cmp_op ++ " was false").

(** The body of the [try] for the instruction at index [i]. *)
Definition gen_instr (ir : list string) (i : Z) (op : string)
    (parts : list string) : C unit :=
  if op =? "DECLARE" then gen_declare parts
  else if op =? "ASSIGN" then gen_assign parts
  else if is_arith op then gen_arith op parts
  else if op =? "CAST_TO_FLOAT" then gen_cast parts
  else if op =? "COMPARE" then gen_compare parts
  else if op =? "JUMP" then
    label <- part parts 1 ;; emit ("    jmp " ++ label)
  else if op =? "JUMP_IF_FALSE" then gen_jump_if_false ir i parts
  else if op =? "LABEL" then
    label <- part parts 1 ;; emit (label ++ ":")
  else ret tt.

Definition error_marker (line : string) (e : exn) : string :=
  String "010" "    ; !!! ERROR GENERATING CODE FOR: '" ++ line ++ "' -> "
  ++ exn_str e ++ " !!!" ++ String "010" "".

(** One iteration of the main loop.  Every exception an instruction can
    raise is raised before the instruction changes the generator, so the
    handler runs in the state the iteration started in. *)
Definition gen_line (ir : list string) (i : Z) (line : string) : C unit :=
  fun s =>
    match split line with
    | [] => Ok (tt, s)
    | (op :: _) as parts =>
        match gen_instr ir i op parts s with
        | Raise e => emit (error_marker line e) s
        | r => r
        end
    end.

Fixpoint main_loop (ir : list string) (i : Z) (lines : list string) : C unit :=
  match lines with
  | [] => ret tt
  | line :: rest => gen_line ir i line ;; main_loop ir (i + 1) rest
  end.

Definition prologue : list string :=
  ["section .text"; "global _start"; "_start:"; "    push ebp";
   "    mov ebp, esp"; "    ; --- Begin user code ---"].

Definition epilogue : list string :=
  ["    ; --- End of user code ---"; "    mov esp, ebp"; "    pop ebp";
   "    mov eax, 1"; "    xor ebx, ebx"; "    int 0x80"].

(** [CodeGenerator(ir).generate()], as the list [self.assembly]. *)
Definition generate_lines (ir : list string) : outcome (list string) :=
  match
    (modify (fun s => mkCg (symbol_table s) (current_offset s)
                           (float_labels s) (float_label_count s)
                           (data_section s) prologue) ;;
     for_each ir prescan_line ;;
     main_loop ir 0 ir ;;
     s <- get ;;
     let assembly := app (text_section s) epilogue in
     if (1 <? length (data_section s))%nat
     then ret (app assembly (data_section s))
     else ret assembly) init
  with
  | Ok (assembly, _) => Ok assembly
  | Raise e => Raise e
  | OutOfFuel => OutOfFuel
  | Unmodelled => Unmodelled
  end.

Definition generate (ir : list string) : outcome string :=
  match generate_lines ir with
  | Ok assembly => Ok (join (String "010" "") assembly)
  | Raise e => Raise e
  | OutOfFuel => OutOfFuel
  | Unmodelled => Unmodelled
  end.

End CodeGenerator.

(** ** The tree the later stages read

    [semantic_analyzer.py] and [ir_generator.py] read the attributes
    [children], [var_type], [var_name], [value], [condition], [if_block],
    [else_block], [left], [op] and [right] of the nine classes they
    dispatch on (the docstrings of [ir_generator.py] list them).  [ast] is
    the type of the trees of that shape and [to_obj] the object each one
    stands for. *)

Module Ast.

Import Lexer.

#[warnings="-register-all"]
Inductive ast : Type :=
| Program (children : list ast)
| VarDecl (var_type var_name : Token) (value : option ast)
| Assign (var_name : Token) (value : ast)
| If (condition if_block : ast) (else_block : option ast)
| Block (children : list ast)
| BinOp (left : ast) (op : Token) (right : ast)
| RelOp (left : ast) (op : Token) (right : ast)
| Number (value : string)
| Id (value : string) (line : Z).

Definition opt_obj (f : ast -> pyval) (o : option ast) : pyval :=
  match o with
  | Some a => f a
  | None => PNone
  end.

Fixpoint to_obj (a : ast) : pyval :=
  match a with
  | Program children =>
      PObj "Program" [("children", PList (map to_obj children))]
  | VarDecl var_type var_name value =>
      PObj "VarDecl" [("var_type", Parser.token_obj var_type);
                      ("var_name", Parser.token_obj var_name);
                      ("value", opt_obj to_obj value)]
  | Assign var_name value =>
      PObj "Assign" [("var_name", Parser.token_obj var_name);
                     ("value", to_obj value)]
  | If condition if_block else_block =>
      PObj "If" [("condition", to_obj condition);
                 ("if_block", to_obj if_block);
                 ("else_block", opt_obj to_obj else_block)]
  | Block children =>
      PObj "Block" [("children", PList (map to_obj children))]
  | BinOp l op r =>
      PObj "BinOp" [("left", to_obj l); ("op", Parser.token_obj op);
                    ("right", to_obj r)]
  | RelOp l op r =>
      PObj "RelOp" [("left", to_obj l); ("op", Parser.token_obj op);
                    ("right", to_obj r)]
  | Number value => PObj "Number" [("value", PStr value)]
  | Id value line => PObj "Id" [("value", PStr value); ("line", PInt line)]
  end.

Definition opt_nat (f : ast -> nat) (o : option ast) : nat :=
  match o with
  | Some a => f a
  | None => 0
  end.

(** The number of nested calls of [visit] a tree needs. *)
Fixpoint depth (a : ast) : nat :=
  match a with
  | Program children | Block children =>
      S (fold_right (fun c n => Nat.max (depth c) n) 0 children)
  | VarDecl _ _ value => S (opt_nat depth value)
  | Assign _ value => S (depth value)
  | If condition if_block else_block =>
      S (Nat.max (depth condition)
           (Nat.max (depth if_block) (opt_nat depth else_block)))
  | BinOp l _ r | RelOp l _ r => S (Nat.max (depth l) (depth r))
  | Number _ | Id _ _ => 1
  end.

Definition opt_bool (f : ast -> bool) (o : option ast) : bool :=
  match o with
  | Some a => f a
  | None => true
  end.

(** Every declaration is at one of the two types of the language. *)
Fixpoint declared_types_ok (a : ast) : bool :=
  match a with
  | Program children | Block children => forallb declared_types_ok children
  | VarDecl var_type _ value =>
      str_in (Lexer.value var_type) ["int"; "float"]
      && opt_bool declared_types_ok value
  | Assign _ value => declared_types_ok value
  | If condition if_block else_block =>
      declared_types_ok condition && declared_types_ok if_block
      && opt_bool declared_types_ok else_block
  | BinOp l _ r | RelOp l _ r => declared_types_ok l && declared_types_ok r
  | Number _ | Id _ _ => true
  end.

Definition is_RelOp (a : ast) : bool :=
  match a with
  | RelOp _ _ _ => true
  | _ => false
  end.

(** The condition of every [If] is a [RelOp] node. *)
Fixpoint conditions_are_RelOp (a : ast) : bool :=
  match a with
  | Program children | Block children => forallb conditions_are_RelOp children
  | VarDecl _ _ value => opt_bool conditions_are_RelOp value
  | Assign _ value => conditions_are_RelOp value
  | If condition if_block else_block =>
      is_RelOp condition && conditions_are_RelOp condition
      && conditions_are_RelOp if_block
      && opt_bool conditions_are_RelOp else_block
  | BinOp l _ r | RelOp l _ r =>
      conditions_are_RelOp l && conditions_are_RelOp r
  | Number _ | Id _ _ => true
  end.

(** A literal or a variable. *)
Definition atom_value (a : ast) : option string :=
  match a with
  | Number value => Some value
  | Id value _ => Some value
  | _ => None
  end.

End Ast.

(** * Vocabulary of the properties *)

(** The source text of the round-trip scenario, and its part before the
    [if]. *)
Definition round_trip_source : string :=
  "int a; a = 3; int b; b = a + 2; if (b > 4) { int c; c = 1; } else { int c; c = 0; }".

Definition round_trip_prefix : string := "int a; a = 3; int b; b = a + 2;".

(** The exception [SymbolTable.declare] raises. *)
Definition duplicate_declaration (name : string) (line : Z) : exn :=
  SemanticError ("Variable '" ++ name ++ "' already declared in this scope.") line.

(** The class names the dispatch of [visit] knows. *)
Definition dispatched : list string :=
  ["Program"; "VarDecl"; "Assign"; "If"; "Block"; "BinOp"; "RelOp"; "Number"; "Id"].

Definition unknown_node (node : pyval) : bool :=
  negb (is_none node) && negb (str_in (class_name node) dispatched).

(** Some object reachable from [v] is an instance of the class [cls]. *)
Fixpoint contains_class (cls : string) (v : pyval) {struct v} : bool :=
  match v with
  | PObj c attrs =>
      (c =? cls)
      || (fix attrs_contain (l : list (string * pyval)) : bool :=
            match l with
            | [] => false
            | (_, x) :: r => contains_class cls x || attrs_contain r
            end) attrs
  | PList l =>
      (fix items_contain (l : list pyval) : bool :=
         match l with
         | [] => false
         | x :: r => contains_class cls x || items_contain r
         end) l
  | _ => false
  end.

(** The tree the parser builds for [int a;]. *)
Definition int_a_tree : pyval :=
  Parser.Program_
    [Parser.VarDecl (Parser.Type_ (Lexer.mkToken "KEYWORD" "int" 1))
       (Parser.Variable_ (Lexer.mkToken "ID" "a" 1)) PNone].

(** The loop of [visit_Program] and [visit_Block] over the children of a
    tree. *)
Definition sem_visit_each (fuel : nat) (children : list Ast.ast)
    : SemanticAnalyzer.M unit :=
  for_each (map Ast.to_obj children)
    (fun statement => SemanticAnalyzer.visit fuel statement ;; ret tt).

(** [Optimizer(Optimizer(ir).optimize()).optimize()] *)
Definition optimize_twice (ir : list Optimizer.instr)
    : outcome (list Optimizer.instr) :=
  match Optimizer.optimize ir with
  | Ok ir' => Optimizer.optimize ir'
  | Raise e => Raise e
  | OutOfFuel => OutOfFuel
  | Unmodelled => Unmodelled
  end.

Definition opcode (i : Optimizer.instr) : option string := fst (fst (fst i)).

(** The literal written as a one followed by two hundred zeros. *)
Definition huge_literal : string := "1" ++ PyFloat.zeros 200.

(** The table of inverted branches, as the specification words it. *)
Definition branch_table : list (string * list (string * string)) :=
  [("int", [("==", "jne"); ("!=", "je"); (">", "jle"); (">=", "jl");
            ("<", "jge"); ("<=", "jg")]);
   ("float", [("==", "jne"); ("!=", "je"); (">", "jbe"); (">=", "jb");
              ("<", "jae"); ("<=", "ja")])].

Definition inverted_branch (cmp_type cmp_op : string) : option string :=
  match assoc cmp_type branch_table with
  | Some row => assoc cmp_op row
  | None => None
  end.

(** The text line of a conditional jump. *)
Definition jump_line (branch label cmp_op : string) : string :=
  "    " ++ branch ++ " " ++ label ++ " ; Jump if " ++ cmp_op ++ " was false".

(** Every [ASSIGN] line has the two fields and every arithmetic line the
    four fields the scan for float literals reads. *)
Definition scan_fields_present (ir : list string) : bool :=
  forallb
    (fun line =>
       match split line with
       | [] => true
       | (op :: _) as parts =>
           if op =? "ASSIGN" then (3 <=? length parts)%nat
           else if CodeGenerator.is_arith op then (5 <=? length parts)%nat
           else true
       end) ir.

(** Every scope maps its names to one of the two types of the
    language. *)
Definition scopes_ok (scopes : list (gmap string string)) : Prop :=
  Forall (map_Forall (fun (_ : string) ty => ty = "int" \/ ty = "float")) scopes.

(** What a successful visit of the tree [a] tells. *)
Definition accepted (a : Ast.ast) (r : pyval) (s' : list (gmap string string)) : Prop :=
  scopes_ok s' /\ Ast.conditions_are_RelOp a = true
  /\ (r = PStr "bool" -> Ast.is_RelOp a = true).

Definition accepts (fuel : nat) (a : Ast.ast) : Prop :=
  forall s r s',
    scopes_ok s -> Ast.declared_types_ok a = true ->
    SemanticAnalyzer.visit fuel (Ast.to_obj a) s = Ok (r, s') -> accepted a r s'.

(** The loop of [visit_Program] and [visit_Block] of the generator. *)
Definition gen_visit_each (fuel : nat) (children : list Ast.ast)
    : IRGenerator.G unit :=
  for_each (map Ast.to_obj children)
    (fun statement => IRGenerator.visit fuel statement ;; ret tt).

(** The label an instruction defines or jumps to. *)
Definition label_of (i : IRGenerator.instr) : option string :=
  match i with
  | IRGenerator.IIfFalse _ label => Some label
  | IRGenerator.IGoto label => Some label
  | IRGenerator.ILabel label => Some label
  | _ => None
  end.

Definition label_name (n : nat) : string := "L" ++ str_of_nat n.
Definition temp_name (n : nat) : string := "t" ++ str_of_nat n.

(** Every label of [code] was minted when the counter stood above [lo]
    and at most at [hi]. *)
Definition labels_between (lo hi : nat) (code : list IRGenerator.instr) : Prop :=
  forall i label,
    In i code -> label_of i = Some label ->
    exists n, label = label_name n /\ lo < n <= hi.

(** Every conditional jump of [code] comes right after the comparison
    that computes the variable it tests; [prev] is the instruction before
    [code]. *)
Fixpoint guarded_from (prev : option IRGenerator.instr)
    (code : list IRGenerator.instr) : Prop :=
  match code with
  | [] => True
  | i :: rest =>
      match i with
      | IRGenerator.IIfFalse c _ =>
          match prev with
          | Some (IRGenerator.IRelOp t _ _ _) => t = c
          | _ => False
          end
      | _ => True
      end /\ guarded_from (Some i) rest
  end.

(** A run of the generator from the counters [tc0] and [lc0] that
    returns [v], appends [code] and leaves the counters at [tc] and
    [lc], whatever [ir_code] held. *)
Definition emits {A : Type} (m : IRGenerator.G A) (tc0 lc0 : nat) (v : A)
    (code : list IRGenerator.instr) (tc lc : nat) : Prop :=
  forall c,
    m (IRGenerator.mkGen c tc0 lc0)
    = Ok (v, IRGenerator.mkGen (c ++ code) tc lc).

Definition formattable (v : pyval) : Prop := v = PNone \/ exists s, v = PStr s.

(** What a run over the tree [a] leaves behind. *)
Definition well_lowered (a : Ast.ast) (tc0 lc0 : nat) (v : pyval)
    (code : list IRGenerator.instr) (tc lc : nat) : Prop :=
  tc0 <= tc /\ lc0 <= lc /\ formattable v /\ labels_between lc0 lc code /\
  (Ast.is_RelOp a = true ->
   exists pre t l op r,
     code = (pre ++ [IRGenerator.IRelOp t l op r])%list /\ v = PStr t) /\
  (Ast.conditions_are_RelOp a = true -> guarded_from None code).

(** Every run over [a] with [fuel] returns and is well lowered. *)
Definition lowers (fuel : nat) (a : Ast.ast) : Prop :=
  forall tc0 lc0,
    exists v code tc lc,
      emits (IRGenerator.visit fuel (Ast.to_obj a)) tc0 lc0 v code tc lc
      /\ well_lowered a tc0 lc0 v code tc lc.

(** A small accepted program with an if-else. *)
Definition sample_program : Ast.ast :=
  Ast.Program
    [Ast.VarDecl (Lexer.mkToken "KEYWORD" "int" 1) (Lexer.mkToken "ID" "a" 1) None;
     Ast.Assign (Lexer.mkToken "ID" "a" 1) (Ast.Number "3");
     Ast.If (Ast.RelOp (Ast.Id "a" 2) (Lexer.mkToken "OP_REL" ">" 2) (Ast.Number "4"))
        (Ast.Block [Ast.Assign (Lexer.mkToken "ID" "a" 2) (Ast.Number "1")])
        (Some (Ast.Block [Ast.Assign (Lexer.mkToken "ID" "a" 3) (Ast.Number "0")]))].

(** The diagnostic for a semicolon missing after a [what]. *)
Definition missing_semicolon (what : string) (t : Lexer.Token) : Parser.ParseError :=
  Parser.mkParseError
    ("Missing ';' after " ++ what ++ ". Encountered " ++ Lexer.type t ++ "('"
     ++ Lexer.value t ++ "')")
    (Lexer.line t)
    (Some ("Did you forget a ';' at the end of the " ++ what ++ "?")).

(** The parser with one more diagnostic and nothing else changed: the
    position and the current token stay. *)
Definition with_error (s : Parser.pstate) (e : Parser.ParseError) : Parser.pstate :=
  Parser.mkPstate (Parser.tokens s) (Parser.pos s) (Parser.current_token s)
    (Parser.errors s ++ [e])%list.

(** What one iteration of the loop of [program] adds to the children. *)
Definition program_item (fuel : nat) : Parser.P (list pyval) :=
  cur <- gets Parser.current_token ;;
  if str_in (Lexer.value cur) ["int"; "float"] then Parser.declaration fuel
  else node <- Parser.statement fuel ;; ret [node].

Definition is_missing_semicolon (e : Parser.ParseError) : bool :=
  String.prefix "Missing ';'" (Parser.message e).

(** The source text in which the statement that lacks its semicolon is
    the body of an [if]. *)
Definition if_body_source : string := "if (x > 1) a = 1 b = 2;".

Definition assign_a : pyval :=
  Parser.Assign (Parser.Variable_ (Lexer.mkToken "ID" "a" 1))
    (Lexer.mkToken "OP_ASSIGN" "=" 1)
    (Parser.Number (Lexer.mkToken "NUMBER" "1" 1)).

Definition assign_b : pyval :=
  Parser.Assign (Parser.Variable_ (Lexer.mkToken "ID" "b" 1))
    (Lexer.mkToken "OP_ASSIGN" "=" 1)
    (Parser.Number (Lexer.mkToken "NUMBER" "2" 1)).

Definition if_with_body : pyval :=
  Parser.If
    (Parser.BinOp (Parser.Variable_ (Lexer.mkToken "ID" "x" 1))
       (Lexer.mkToken "OP_REL" ">" 1)
       (Parser.Number (Lexer.mkToken "NUMBER" "1" 1)))
    assign_a PNone.

(** The body and the condition of the loop of [program]. *)
Definition program_body (fuel : nat) (children : list pyval)
    : Parser.P (list pyval) :=
  cur <- gets Parser.current_token ;;
  if str_in (Lexer.value cur) ["int"; "float"] then
    decls <- Parser.declaration fuel ;; ret (app children decls)
  else
    node <- Parser.statement fuel ;; ret (app children [node]).

Definition not_at_EOF : Parser.P bool :=
  cur <- gets Parser.current_token ;; ret (negb (Lexer.type cur =? "EOF")).

(** The condition and the body of the loop of [block]. *)
Definition in_block : Parser.P bool :=
  cur <- gets Parser.current_token ;;
  ret (negb (Lexer.value cur =? "}") && negb (Lexer.type cur =? "EOF")).

Definition block_body (statement : Parser.P pyval) (statements : list pyval)
    : Parser.P (list pyval) :=
  node <- statement ;; ret (app statements [node]).

(** A step that only ever appends to [text_section], and returns or
    raises. *)
Definition grows {A : Type} (m : CodeGenerator.C A) : Prop :=
  forall s,
    match m s with
    | Ok (_, s') => exists l, CodeGenerator.text_section s' = (CodeGenerator.text_section s ++ l)%list
    | Raise _ => True
    | _ => False
    end.

(** ** Vocabulary of the lexer *)

(** The types of the tokens [tokenize] appends inside its loop. *)
Definition token_types : list string :=
  ["NUMBER"; "ID"; "KEYWORD"; "OP_REL"; "OP_ASSIGN"; "OP_ARITH"; "DELIM"].

(** The number of line feeds in a text. *)
Fixpoint newlines (cs : list ascii) : Z :=
  match cs with
  | [] => 0
  | c :: r => (if Ascii.eqb c "010"%char then 1 else 0) + newlines r
  end.

(** What holds of a token appended while the line counter went from
    [first] to [last]. *)
Definition lexed_token (first last : Z) (t : Lexer.Token) : Prop :=
  str_in (Lexer.type t) token_types = true /\
  Lexer.value t <> "" /\
  (Lexer.type t = "ID" -> str_in (Lexer.value t) Lexer.KEYWORDS = false) /\
  (Lexer.type t = "KEYWORD" -> str_in (Lexer.value t) Lexer.KEYWORDS = true) /\
  (first <= Lexer.line t <= last)%Z.

(** ** Vocabulary of the parser *)

(** The token types the calls of [eat] in [parser.py] ask for. *)
Definition eaten_types : list string := ["ID"; "NUMBER"; "DELIM"; "KEYWORD"; "OP"].

(** The types of the operator tokens of [lexer.py]. *)
Definition operator_types : list string := ["OP_REL"; "OP_ASSIGN"; "OP_ARITH"].

(** [current_token] is the token at [pos], or the last one once [pos]
    has run past the end. *)
Definition at_token (s : Parser.pstate) : Prop :=
  (0 <= Parser.pos s)%Z /\
  nth_error (Parser.tokens s)
    (Nat.min (Z.to_nat (Parser.pos s)) (length (Parser.tokens s) - 1))
  = Some (Parser.current_token s).

(** From [s] to [s']: the parser is at a token of the same list, has not
    moved backwards and has only appended diagnostics. *)
Definition moves (s s' : Parser.pstate) : Prop :=
  at_token s' /\ Parser.tokens s' = Parser.tokens s /\
  (Parser.pos s <= Parser.pos s')%Z /\
  exists new, Parser.errors s' = (Parser.errors s ++ new)%list.

(** The tokens the parser moved past between [s] and [s']. *)
Definition passed (s s' : Parser.pstate) : list Lexer.Token :=
  skipn (Z.to_nat (Parser.pos s))
    (firstn (Z.to_nat (Parser.pos s')) (Parser.tokens s)).

(** A parsing step that, when it returns, has moved forward, and has
    moved only past tokens a call of [eat] accepted unless it recorded a
    diagnostic. *)
Definition keeps {A : Type} (m : Parser.P A) : Prop :=
  forall s, at_token s ->
    match m s with
    | Ok (_, s') =>
        moves s s' /\
        (Parser.errors s' = Parser.errors s ->
         Forall (fun t => str_in (Lexer.type t) eaten_types = true) (passed s s'))
    | _ => True
    end.

(** A step that runs after a diagnostic was recorded. *)
Definition keeps_dirty {A : Type} (m : Parser.P A) : Prop :=
  forall s, at_token s ->
    match m s with
    | Ok (_, s') => moves s s'
    | _ => True
    end.

(** The last token, and only the last, has the type [EOF]. *)
Definition EOF_terminated (tokens : list Lexer.Token) : Prop :=
  exists body eof,
    tokens = (body ++ [eof])%list /\ Lexer.type eof = "EOF" /\
    Forall (fun t => Lexer.type t <> "EOF") body.

(** Where the loop of [Parser.error] stops. *)
Definition at_boundary (t : Lexer.Token) : bool :=
  (Lexer.type t =? "EOF") || str_in (Lexer.value t) [";"; "}"; ")"].

(** The condition of the loop of [Parser.error]. *)
Definition skipping : Parser.P bool :=
  cur <- gets Parser.current_token ;;
  ret (negb (Lexer.type cur =? "EOF")
       && negb (str_in (Lexer.value cur) [";"; "}"; ")"])).

(** Where [Parser.error] leaves the parser: on the [EOF] token, on a
    closing brace or parenthesis, or right after a semicolon. *)
Definition resynchronised (s : Parser.pstate) : Prop :=
  (at_boundary (Parser.current_token s) = true
   /\ Lexer.value (Parser.current_token s) <> ";")
  \/ (exists t,
        (0 < Parser.pos s)%Z /\
        nth_error (Parser.tokens s) (Z.to_nat (Parser.pos s) - 1) = Some t /\
        Lexer.value t = ";").

(** The diagnostic [Parser.error] records. *)
Definition error_diagnostic (message : string) (suggestion : option string)
    (t : Lexer.Token) : Parser.ParseError :=
  Parser.mkParseError
    (message ++ ". Encountered " ++ Lexer.type t ++ "('" ++ Lexer.value t ++ "')")
    (Lexer.line t) suggestion.

(** ** Vocabulary of termination *)

(** A token list as [tokenize] builds it: it ends with the token
    [Token("EOF", "EOF", line)], and no other token has the type
    [EOF]. *)
Definition lexer_shaped (toks : list Lexer.Token) : Prop :=
  exists body last,
    toks = (body ++ [Lexer.mkToken "EOF" "EOF" last])%list /\
    Forall (fun t => Lexer.type t <> "EOF") body.

(** The parser works on [toks] and its position is inside the list. *)
Definition inside (toks : list Lexer.Token) (s : Parser.pstate) : Prop :=
  Parser.tokens s = toks /\ at_token s /\
  (Parser.pos s < Z.of_nat (length toks))%Z.

(** The number of tokens from the current one on, the [EOF] token
    included. *)
Definition tokens_left (toks : list Lexer.Token) (s : Parser.pstate) : Z :=
  Z.of_nat (length toks) - Parser.pos s.

(** An outcome that is a return inside the list, at a later position if
    [strict], or an exception: the step did not run out of
    iterations. *)
Definition fine {A : Type} (toks : list Lexer.Token) (strict : bool)
    (s : Parser.pstate) (o : outcome (A * Parser.pstate)) : Prop :=
  match o with
  | Ok (_, s') =>
      inside toks s' /\
      if strict then (Parser.pos s < Parser.pos s')%Z
      else (Parser.pos s <= Parser.pos s')%Z
  | Raise _ => True
  | _ => False
  end.

(** The step is fine wherever at most [n] tokens are left. *)
Definition terminates {A : Type} (toks : list Lexer.Token) (n : nat)
    (strict : bool) (m : Parser.P A) : Prop :=
  forall s, inside toks s -> (tokens_left toks s <= Z.of_nat n)%Z ->
            fine toks strict s (m s).

(** ** Vocabulary of the analyzer *)

(** From the scope stack [s] to [s']: the enclosing scopes are the same
    and the innermost scope has lost no declaration. *)
Definition keeps_outer (s s' : list (gmap string string)) : Prop :=
  forall outer top,
    s = (outer ++ [top])%list ->
    exists top', s' = (outer ++ [top'])%list /\ top ⊆ top'.

(** A step of the analyzer that, when it returns, has kept the enclosing
    scopes. *)
Definition preserves {A : Type} (m : SemanticAnalyzer.M A) : Prop :=
  forall s r s', m s = Ok (r, s') -> keeps_outer s s'.

(** The exception [SymbolTable.lookup] raises. *)
Definition not_declared (name : string) (line : Z) : exn :=
  SemanticError ("Variable '" ++ name ++ "' not declared.") line.

(** The token of the operator of a node that has one. *)
Definition operator_of (a : Ast.ast) : option Lexer.Token :=
  match a with
  | Ast.BinOp _ op _ | Ast.RelOp _ op _ => Some op
  | _ => None
  end.

(** The type [visit_Number] gives a literal. *)
Definition literal_type (value : string) : string :=
  if contains_char "."%char value then "float" else "int".

(** The type [visit_BinOp] gives two operands of number types. *)
Definition promote (left_type right_type : string) : string :=
  if (left_type =? "float") || (right_type =? "float") then "float" else "int".

(** An arithmetic expression over literals, and its literals from left
    to right. *)
Fixpoint literal_arithmetic (a : Ast.ast) : bool :=
  match a with
  | Ast.Number _ => true
  | Ast.BinOp l _ r => literal_arithmetic l && literal_arithmetic r
  | _ => false
  end.

Fixpoint literals (a : Ast.ast) : list string :=
  match a with
  | Ast.Number value => [value]
  | Ast.BinOp l _ r => (literals l ++ literals r)%list
  | _ => []
  end.

(** ** Vocabulary of the generated code *)

(** The temporary an instruction assigns, the label it defines and the
    label it jumps to. *)
Definition dest (i : IRGenerator.instr) : option string :=
  match i with
  | IRGenerator.IBinOp t _ _ _ | IRGenerator.IRelOp t _ _ _ => Some t
  | _ => None
  end.

Definition defined_label (i : IRGenerator.instr) : option string :=
  match i with
  | IRGenerator.ILabel label => Some label
  | _ => None
  end.

Definition jump_target (i : IRGenerator.instr) : option string :=
  match i with
  | IRGenerator.IIfFalse _ label | IRGenerator.IGoto label => Some label
  | _ => None
  end.

(** The values of [f] on a list, in order. *)
Fixpoint collect {A B : Type} (f : A -> option B) (l : list A) : list B :=
  match l with
  | [] => []
  | x :: r =>
      match f x with
      | Some y => y :: collect f r
      | None => collect f r
      end
  end.

(** The temporaries and the labels minted while a counter went from
    [lo] to [hi]. *)
Definition temp_names (lo hi : nat) : list string :=
  map temp_name (seq (S lo) (hi - lo)).

Definition label_names (lo hi : nat) : list string :=
  map label_name (seq (S lo) (hi - lo)).

(** Every jump of [code] goes to a label defined further down. *)
Fixpoint jumps_forward (code : list IRGenerator.instr) : Prop :=
  match code with
  | [] => True
  | i :: rest =>
      (forall label, jump_target i = Some label -> In (IRGenerator.ILabel label) rest)
      /\ jumps_forward rest
  end.

(** The code appended while the counters went from [tc], [lc] to [tc'],
    [lc']: its operations assign the temporaries minted, in order; its
    labels are the labels minted, each defined once; its jumps go
    forward. *)
Definition well_formed (tc lc : nat) (code : list IRGenerator.instr)
    (tc' lc' : nat) : Prop :=
  tc <= tc' /\ lc <= lc' /\
  collect dest code = temp_names tc tc' /\
  Permutation (collect defined_label code) (label_names lc lc') /\
  jumps_forward code.

(** A step of the generator that, when it returns, has appended well
    formed code. *)
Definition builds {A : Type} (m : IRGenerator.G A) : Prop :=
  forall s r s',
    m s = Ok (r, s') ->
    exists code,
      IRGenerator.ir_code s' = (IRGenerator.ir_code s ++ code)%list /\
      well_formed (IRGenerator.temp_count s) (IRGenerator.label_count s) code
        (IRGenerator.temp_count s') (IRGenerator.label_count s').

(** ** Vocabulary of constant folding *)

(** The guard of the loop of [constant_folding]. *)
Definition foldable (i : Optimizer.instr) : bool :=
  let '(op, arg1, arg2, _) := i in
  Optimizer.is_arith op && Optimizer.is_numeric arg1 && Optimizer.is_numeric arg2.

(** The destination of an instruction. *)
Definition result_of (i : Optimizer.instr) : option string := snd i.

(** What the optimizer makes of one instruction. *)
Definition folded_from (i i' : Optimizer.instr) : Prop :=
  if foldable i
  then exists v, i' = (Some "ASSIGN", Some v, None, result_of i)
  else i' = i.

(** The integer an arithmetic operator computes. *)
Definition exact_result (op : string) (a b : Z) : Z :=
  if op =? "ADD" then a + b
  else if op =? "SUB" then a - b
  else a * b.

(** Folding the literals of [a] and [b] with [op] keeps the exact
    integer. *)
Definition folds_exactly (op : string) (a b : Z) : bool :=
  match PyFloat.of_string (str_of_Z a), PyFloat.of_string (str_of_Z b) with
  | Some v1, Some v2 =>
      match Optimizer.keep_int (Optimizer.compute op v1 v2) with
      | Ok (Optimizer.Int n) => (n =? exact_result op a b)%Z
      | _ => false
      end
  | _, _ => false
  end.

(** The integers from 0 to [n - 1]. *)
Definition below (n : nat) : list Z := map Z.of_nat (seq 0 n).

(** ** Vocabulary of the assembly *)

(** A property of the generator's fields that a step keeps whenever it
    returns. *)
Definition invariant (I : CodeGenerator.cg_state -> Prop) {A : Type}
    (m : CodeGenerator.C A) : Prop :=
  forall s, I s -> match m s with Ok (_, s') => I s' | _ => True end.

(** The label of the [k]-th float literal and its line of the data
    section. *)
Definition float_label (k : Z) : string := "__float_" ++ str_of_Z k.

Definition data_line (k : Z) (v : string) : string :=
  "    " ++ float_label k ++ " dd " ++ v.

Fixpoint data_lines (k : Z) (fl : list string) : list string :=
  match fl with
  | [] => []
  | v :: fl' => data_line k v :: data_lines (k + 1) fl'
  end.

(** The data section as [generate] appends it: nothing when no float
    literal was entered. *)
Definition data_part (fl : list string) : list string :=
  match fl with
  | [] => []
  | _ => "section .data" :: data_lines 0 fl
  end.

(** The frame slots handed out so far: below the frame pointer, four
    bytes apart, none below [current_offset], no two names on one
    slot. *)
Definition slots_ok (s : CodeGenerator.cg_state) : Prop :=
  (CodeGenerator.current_offset s <= 0)%Z /\
  (CodeGenerator.current_offset s mod 4 = 0)%Z /\
  (forall n ty off,
     CodeGenerator.symbol_table s !! n = Some (ty, off) ->
     (CodeGenerator.current_offset s <= off <= -4)%Z /\ (off mod 4 = 0)%Z) /\
  (forall n1 n2 t1 t2 off,
     CodeGenerator.symbol_table s !! n1 = Some (t1, off) ->
     CodeGenerator.symbol_table s !! n2 = Some (t2, off) -> n1 = n2).

(** ** Vocabulary of the two generators *)

(** The first words for which the main loop of the code generator has a
    branch. *)
Definition opcodes : list string :=
  ["DECLARE"; "ASSIGN"; "ADD"; "SUB"; "MUL"; "DIV"; "CAST_TO_FLOAT"; "COMPARE";
   "JUMP"; "JUMP_IF_FALSE"; "LABEL"].

(** A non-empty text without white space: one field for [split]. *)
Definition plain (w : string) : bool :=
  match list_ascii_of_string w with
  | [] => false
  | cs => forallb (fun c => negb (is_space c)) cs
  end.

(** The names of an instruction of the IR generator are single words,
    and the name a copy or an operation starts with is not an opcode of
    the code generator. *)
Definition readable (i : IRGenerator.instr) : bool :=
  match i with
  | IRGenerator.IDeclare var_type var_name => plain var_type && plain var_name
  | IRGenerator.ICopy var_name _ => plain var_name && negb (str_in var_name opcodes)
  | IRGenerator.IBinOp t _ _ _ => plain t && negb (str_in t opcodes)
  | IRGenerator.IRelOp t _ _ _ => plain t && negb (str_in t opcodes)
  | IRGenerator.IIfFalse _ _ => true
  | IRGenerator.IGoto _ => true
  | IRGenerator.ILabel label => plain label
  end.

(** What the code generator makes of the lines of the IR generator: a
    slot for each declaration, a label for each label. *)
Fixpoint lowered (offset : Z) (code : list IRGenerator.instr) : list string :=
  match code with
  | [] => []
  | IRGenerator.IDeclare var_type var_name :: rest =>
      ("    sub esp, 4  ; Allocate space for " ++ var_name ++ " (type: "
       ++ var_type ++ ") at " ++ CodeGenerator.ebp (offset - 4))
        :: lowered (offset - 4) rest
  | IRGenerator.ILabel label :: rest => (label ++ ":") :: lowered offset rest
  | _ :: rest => lowered offset rest
  end.

(** ** Vocabulary of redeclaration *)

(** The diagnostic [analyze] records for a redeclaration. *)
Definition duplicate_diagnostic (name : string) (line : Z) : string :=
  SemanticAnalyzer.SemanticError_str
    ("Variable '" ++ name ++ "' already declared in this scope.") line.

(** ** Vocabulary of the dispatch *)

(** What [visit_VarDecl] does before it looks at the initial value, and
    what [visit_Assign] does before it visits the value. *)
Definition VarDecl_declare (node : pyval) : SemanticAnalyzer.M unit :=
  var_name <- SemanticAnalyzer.getattr2 node "var_name" "value" ;;
  var_type <- SemanticAnalyzer.getattr2 node "var_type" "value" ;;
  line <- SemanticAnalyzer.getattr2 node "var_name" "line" ;;
  var_name <- lift (as_str var_name) ;;
  var_type <- lift (as_str var_type) ;;
  line <- lift (as_int line) ;;
  SemanticAnalyzer.declare var_name var_type line.

Definition Assign_lookup (node : pyval) : SemanticAnalyzer.M string :=
  var_name <- SemanticAnalyzer.getattr2 node "var_name" "value" ;;
  line <- SemanticAnalyzer.getattr2 node "var_name" "line" ;;
  var_name <- lift (as_str var_name) ;;
  line <- lift (as_int line) ;;
  SemanticAnalyzer.lookup var_name line.

(** [calls fuel node s child s1]: the method that the dispatch selects
    for [node], started in the state [s] with [visit fuel] for its
    recursive calls, applies the dispatch to [child] in the state [s1].
    One rule for each place where a method of the analyzer calls
    [self.visit]. *)
Inductive calls (fuel : nat)
    : pyval -> list (gmap string string) -> pyval -> list (gmap string string)
      -> Prop :=
| calls_Program (node children : pyval) (pre post : list pyval) (child : pyval)
    (s s1 : list (gmap string string)) :
    class_name node = "Program" ->
    getattr node "children" = Ok children ->
    SemanticAnalyzer.iter children = Ok (pre ++ child :: post)%list ->
    for_each pre (fun statement => SemanticAnalyzer.visit fuel statement ;; ret tt) s
    = Ok (tt, s1) ->
    calls fuel node s child s1
| calls_Block (node children : pyval) (pre post : list pyval) (child : pyval)
    (s s1 : list (gmap string string)) :
    class_name node = "Block" ->
    getattr node "children" = Ok children ->
    SemanticAnalyzer.iter children = Ok (pre ++ child :: post)%list ->
    for_each pre (fun statement => SemanticAnalyzer.visit fuel statement ;; ret tt)
      (s ++ [∅])%list
    = Ok (tt, s1) ->
    calls fuel node s child s1
| calls_VarDecl (node child : pyval) (s s1 : list (gmap string string)) :
    class_name node = "VarDecl" ->
    VarDecl_declare node s = Ok (tt, s1) ->
    getattr node "value" = Ok child ->
    is_none child = false ->
    calls fuel node s child s1
| calls_Assign (node child : pyval) (var_type : string)
    (s s1 : list (gmap string string)) :
    class_name node = "Assign" ->
    Assign_lookup node s = Ok (var_type, s1) ->
    getattr node "value" = Ok child ->
    calls fuel node s child s1
| calls_If_condition (node child : pyval) (s : list (gmap string string)) :
    class_name node = "If" ->
    getattr node "condition" = Ok child ->
    calls fuel node s child s
| calls_If_block (node condition condition_type child : pyval)
    (s s1 : list (gmap string string)) :
    class_name node = "If" ->
    getattr node "condition" = Ok condition ->
    SemanticAnalyzer.visit fuel condition s = Ok (condition_type, s1) ->
    SemanticAnalyzer.eq_str condition_type "bool" = true ->
    getattr node "if_block" = Ok child ->
    calls fuel node s child s1
| calls_If_else (node condition condition_type if_block r child : pyval)
    (s s1 s2 : list (gmap string string)) :
    class_name node = "If" ->
    getattr node "condition" = Ok condition ->
    SemanticAnalyzer.visit fuel condition s = Ok (condition_type, s1) ->
    SemanticAnalyzer.eq_str condition_type "bool" = true ->
    getattr node "if_block" = Ok if_block ->
    SemanticAnalyzer.visit fuel if_block s1 = Ok (r, s2) ->
    getattr node "else_block" = Ok child ->
    truthy child = true ->
    calls fuel node s child s2
| calls_left (node child : pyval) (s : list (gmap string string)) :
    class_name node = "BinOp" \/ class_name node = "RelOp" ->
    getattr node "left" = Ok child ->
    calls fuel node s child s
| calls_right (node left left_type child : pyval)
    (s s1 : list (gmap string string)) :
    class_name node = "BinOp" \/ class_name node = "RelOp" ->
    getattr node "left" = Ok left ->
    SemanticAnalyzer.visit fuel left s = Ok (left_type, s1) ->
    getattr node "right" = Ok child ->
    calls fuel node s child s1.

(** [reaches fuel node s target]: the analysis of [node], started in the
    state [s], applies the dispatch to [target]: to the root itself, or
    to a node that a method calls the dispatch on, at any depth. *)
Inductive reaches
    : nat -> pyval -> list (gmap string string) -> pyval -> Prop :=
| reaches_root (fuel : nat) (node : pyval) (s : list (gmap string string)) :
    reaches (S fuel) node s node
| reaches_below (fuel : nat) (node child target : pyval)
    (s s1 : list (gmap string string)) :
    calls fuel node s child s1 ->
    reaches fuel child s1 target ->
    reaches (S fuel) node s target.

(** The tree the parser builds for [x + 1;]. *)
Definition x_plus_1_tree : pyval :=
  Parser.Program_
    [Parser.BinOp (Parser.Variable_ (Lexer.mkToken "ID" "x" 1))
       (Lexer.mkToken "OP_ARITH" "+" 1)
       (Parser.Number (Lexer.mkToken "NUMBER" "1" 1))].

(** ** Vocabulary of the loops of the parser *)

(** [iterations continue item s children s']: started in the state [s],
    a loop that tests [continue] and then runs [item] goes through zero
    or more iterations and reaches the state [s']; [children] is what
    the iterations returned, each after the other. *)
Inductive iterations {S A : Type} (continue : ST S bool) (item : ST S (list A))
    : S -> list A -> S -> Prop :=
| iterations_stop (s : S) : iterations continue item s [] s
| iterations_step (s s1 s2 : S) (nodes rest : list A) :
    continue s = Ok (true, s) ->
    item s = Ok (nodes, s1) ->
    iterations continue item s1 rest s2 ->
    iterations continue item s (nodes ++ rest)%list s2.

(** What one iteration of the loop of [block] adds to the statements. *)
Definition block_item (statement : Parser.P pyval) : Parser.P (list pyval) :=
  node <- statement ;; ret [node].

(** The source text in which the second of three statements lacks its
    semicolon, and the parser at its start. *)
Definition second_of_three_source : string := "a; b c;".

Definition second_of_three_start : Parser.pstate :=
  Parser.mkPstate (fst (Lexer.tokenize second_of_three_source)) 0
    (Lexer.mkToken "ID" "a" 1) [].

Definition name_at_line_1 (name : string) : pyval :=
  Parser.Variable_ (Lexer.mkToken "ID" name 1).

(** ** Vocabulary of the float table *)

(** The text starts with the prologue. *)
Definition begun (s : CodeGenerator.cg_state) : Prop :=
  exists body, CodeGenerator.text_section s = (CodeGenerator.prologue ++ body)%list.

(** The word at index [i] of an instruction, when there is one and it is
    a float literal. *)
Definition operand (parts : list string) (i : Z) : list string :=
  match index parts i with
  | Ok v => if CodeGenerator.is_float_literal v then [v] else []
  | _ => []
  end.

(** The float literals that the scan before the main loop looks up in an
    instruction: the source of an [ASSIGN], the two sources of an
    arithmetic instruction. *)
Definition scanned_literals (line : string) : list string :=
  let parts := split line in
  match parts with
  | [] => []
  | op :: _ =>
      if op =? "ASSIGN" then operand parts 2
      else if CodeGenerator.is_arith op then
        (operand parts 3 ++ operand parts 4)%list
      else []
  end.

(** The float literal that only the main loop looks up: the right
    operand of a [COMPARE] of type [float]. *)
Definition compared_literals (line : string) : list string :=
  let parts := split line in
  match parts with
  | [] => []
  | op :: _ =>
      if op =? "COMPARE" then
        match index parts 1 with
        | Ok cmp_type => if cmp_type =? "float" then operand parts 4 else []
        | _ => []
        end
      else []
  end.

(** [get_float_label] on the list of the literals entered so far: a
    literal that is not yet in the list goes to its end. *)
Definition enter (fl : list string) (v : string) : list string :=
  if existsb (String.eqb v) fl then fl else (fl ++ [v])%list.

(** The float literals of a list of instructions, each once, in the
    order in which [generate] first looks them up: the scan runs over
    all the instructions before the main loop starts. *)
Definition float_table (ir : list string) : list string :=
  fold_left enter
    (flat_map scanned_literals ir ++ flat_map compared_literals ir)%list [].

(** The fields of the float table hold exactly the literals [fl], in the
    order in which they were entered. *)
Definition table (fl : list string) (s : CodeGenerator.cg_state) : Prop :=
  CodeGenerator.float_label_count s = Z.of_nat (length fl) /\
  CodeGenerator.data_section s = "section .data" :: data_lines 0 fl /\
  (forall v, CodeGenerator.float_labels s !! v = None <-> ~ In v fl).

(** A step that, started with the table [fl] holding at least the
    literals [known], enters the literals [l] whenever it returns. *)
Definition enters (known l : list string) {A : Type} (m : CodeGenerator.C A)
    : Prop :=
  forall fl s,
    table fl s -> incl known fl ->
    match m s with
    | Ok (_, s') => table (fold_left enter l fl) s'
    | _ => True
    end.

(** A step that always returns. *)
Definition returns {A : Type} (m : CodeGenerator.C A) : Prop :=
  forall s, exists a s', m s = Ok (a, s').

(** * Properties *)

(** ** The round-trip scenario and the parser's placeholder path *)

(** C1 (the code departs from the claim): on the round-trip source the
    lexer reports nothing, but [Parser.parse] does not return: inside the
    block, [int] reaches [primary], whose placeholder path calls the
    unbound name [Token].  On the declarations and assignments before the
    [if], the parser does return, with three diagnostics (every [eat] of an
    operator asks for the type [OP], which the lexer never produces), and
    the semantic analyzer then fails on the first [VarDecl], whose
    attribute [var_name] the parser never sets. *)
Theorem c1_round_trip_source_does_not_parse :
  forall k : nat,
    snd (Lexer.tokenize round_trip_source) = [] /\
    Parser.parse (12 + k) (fst (Lexer.tokenize round_trip_source))
      = Raise (NameError "name 'Token' is not defined") /\
    exists ast,
      Parser.parse (12 + k) (fst (Lexer.tokenize round_trip_prefix))
        = Ok (ast,
              [Parser.mkParseError "Expected '=', but found OP_ASSIGN('=')" 1 None;
               Parser.mkParseError "Expected '=', but found OP_ASSIGN('=')" 1 None;
               Parser.mkParseError "Expected '+', but found OP_ARITH('+')" 1 None]) /\
      SemanticAnalyzer.analyze (3 + k) ast []
        = Raise (AttributeError "VarDecl" "var_name") /\
      IRGenerator.generate (3 + k) ast
        = Raise (AttributeError "VarDecl" "var_type").
Proof.
  intro k. split; [reflexivity|]. split; [vm_compute; reflexivity|].
  eexists. split; [vm_compute; reflexivity|].
  split; vm_compute; reflexivity.
Qed.

(** C2 (the code departs from the claim): for the tokens of [x = ;] the
    parser records the diagnostic for the unparseable primary and then,
    instead of returning a zero literal, raises [NameError]. *)
Theorem c2_placeholder_primary_raises :
  forall k : nat,
    fst (Lexer.tokenize "x = ;")
      = [Lexer.mkToken "ID" "x" 1; Lexer.mkToken "OP_ASSIGN" "=" 1;
         Lexer.mkToken "DELIM" ";" 1; Lexer.mkToken "EOF" "EOF" 1] /\
    Parser.parse (6 + k) (fst (Lexer.tokenize "x = ;"))
      = Raise (NameError "name 'Token' is not defined").
Proof.
  intro k. split; vm_compute; reflexivity.
Qed.


(** ** Facts about the monad and the list primitives *)

Section MonadFacts.

Context {S A B : Type}.

Lemma bind_Ok_inv (c : ST S A) (k : A -> ST S B) (s : S) (r : B * S) :
  bind c k s = Ok r -> exists a s1, c s = Ok (a, s1) /\ k a s1 = Ok r.
Proof.
  unfold bind. destruct (c s) as [[a s1]| | |]; try discriminate.
  intro H. exists a, s1. split; [reflexivity | exact H].
Qed.

Lemma bind_Ok (c : ST S A) (k : A -> ST S B) (s s1 : S) (a : A) :
  c s = Ok (a, s1) -> bind c k s = k a s1.
Proof. unfold bind. intros ->. reflexivity. Qed.

Lemma bind_Raise (c : ST S A) (k : A -> ST S B) (s : S) (e : exn) :
  c s = Raise e -> bind c k s = Raise e.
Proof. unfold bind. intros ->. reflexivity. Qed.

End MonadFacts.

Lemma index_last {A : Type} (l : list A) (x : A) :
  index (l ++ [x])%list (-1) = Ok x.
Proof.
  unfold index. rewrite length_app. simpl length.
  replace (-1 <? 0)%Z with true by reflexivity.
  replace (-1 + Z.of_nat (length l + 1))%Z with (Z.of_nat (length l)) by lia.
  destruct (Z.of_nat (length l) <? 0)%Z eqn:E; [apply Z.ltb_lt in E; lia|].
  rewrite Nat2Z.id, nth_error_app2 by lia.
  rewrite Nat.sub_diag. reflexivity.
Qed.

(** ** The semantic analyzer *)

Section Semantic.

Import SemanticAnalyzer.

Lemma declare_duplicate (outer : list (gmap string string))
    (inner : gmap string string) (name type : string) (line : Z) :
  is_Some (inner !! name) ->
  declare name type line (outer ++ [inner])%list
    = Raise (duplicate_declaration name line).
Proof.
  intros [ty Hty]. unfold declare, bind, get, lift.
  rewrite index_last, Hty. reflexivity.
Qed.

Lemma declare_fresh (outer : list (gmap string string))
    (inner : gmap string string) (name type : string) (line : Z) :
  inner !! name = None ->
  declare name type line (outer ++ [inner])%list
    = Ok (tt, (outer ++ [<[name := type]> inner])%list).
Proof.
  intros Hty. unfold declare, bind, get, lift.
  rewrite index_last, Hty. unfold put. rewrite removelast_last. reflexivity.
Qed.

Arguments SemanticAnalyzer.visit : simpl never.

Lemma sem_visit_each_nil fuel : sem_visit_each fuel [] = ret tt.
Proof. reflexivity. Qed.

Lemma sem_visit_each_cons fuel c cs :
  sem_visit_each fuel (c :: cs)
  = ((visit fuel (Ast.to_obj c) ;; ret tt) ;; sem_visit_each fuel cs).
Proof. reflexivity. Qed.

Lemma visit_Program_eq fuel children :
  visit (S fuel) (Ast.to_obj (Ast.Program children))
  = (sem_visit_each fuel children ;; ret (PStr "void")).
Proof. reflexivity. Qed.

Lemma visit_Block_eq fuel children :
  visit (S fuel) (Ast.to_obj (Ast.Block children))
  = (enter_scope ;; sem_visit_each fuel children ;; exit_scope ;; ret (PStr "void")).
Proof. reflexivity. Qed.

Lemma visit_VarDecl_eq fuel var_type var_name value :
  visit (S fuel) (Ast.to_obj (Ast.VarDecl var_type var_name value))
  = (declare (Lexer.value var_name) (Lexer.value var_type) (Lexer.line var_name) ;;
     match value with
     | Some v =>
         value_type <- visit fuel (Ast.to_obj v) ;;
         if negb (eq_str value_type (Lexer.value var_type))
         then cannot_assign value_type (Lexer.value var_name)
                (Lexer.value var_type) (Lexer.line var_name)
         else ret PNone
     | None => ret PNone
     end ;;
     ret (PStr "void")).
Proof. destruct value as [v|]; [destruct v|]; reflexivity. Qed.

Lemma for_each_app {S A : Type} (xs ys : list A) (body : A -> ST S unit) (s : S) :
  for_each (xs ++ ys)%list body s = (for_each xs body ;; for_each ys body) s.
Proof.
  revert s. induction xs as [|x xs IH]; intro s; simpl.
  - reflexivity.
  - unfold bind in *. destruct (body x s) as [[[] s1]| | |]; try reflexivity.
    apply IH.
Qed.

Lemma str_in_false_cons (x y : string) (ys : list string) :
  str_in x (y :: ys) = false -> (x =? y) = false /\ str_in x ys = false.
Proof. unfold str_in. simpl. apply orb_false_elim. Qed.

Lemma visit_S_eq (fuel : nat) (node : pyval) :
  visit (S fuel) node
  = if is_none node then ret PNone
    else
      let class_name := class_name node in
      if class_name =? "Program" then visit_Program (visit fuel) node
      else if class_name =? "VarDecl" then visit_VarDecl (visit fuel) node
      else if class_name =? "Assign" then visit_Assign (visit fuel) node
      else if class_name =? "If" then visit_If (visit fuel) node
      else if class_name =? "Block" then visit_Block (visit fuel) node
      else if class_name =? "BinOp" then visit_BinOp (visit fuel) node
      else if class_name =? "RelOp" then visit_RelOp (visit fuel) node
      else if class_name =? "Number" then visit_Number node
      else if class_name =? "Id" then visit_Id node
      else raise (TypeError ("Unknown node type: " ++ class_name)).
Proof. reflexivity. Qed.

Lemma visit_unknown (node : pyval) (scopes : list (gmap string string)) (fuel : nat) :
  unknown_node node = true ->
  visit (S fuel) node scopes
    = Raise (TypeError ("Unknown node type: " ++ class_name node)).
Proof.
  unfold unknown_node. intro H. apply andb_prop in H as [Hn Hc].
  apply negb_true_iff in Hn, Hc. unfold dispatched in Hc.
  repeat (apply str_in_false_cons in Hc as [? Hc]).
  rewrite visit_S_eq, Hn. cbv zeta.
  repeat match goal with E : (class_name node =? _) = false |- _ => rewrite E; clear E end.
  reflexivity.
Qed.

(** C10, as stated, fails: the tree the parser builds for [int a;] holds
    a [Type] and a [Variable] node, yet the analyzer raises an
    [AttributeError] on the [VarDecl] and never a [TypeError]. *)
Lemma c10_counterexample :
  Parser.parse 4 (fst (Lexer.tokenize "int a;")) = Ok (int_a_tree, []) /\
  contains_class "Type" int_a_tree = true /\
  contains_class "Variable" int_a_tree = true /\
  str_in "Type" dispatched = false /\
  str_in "Variable" dispatched = false /\
  analyze 2 int_a_tree [] = Raise (AttributeError "VarDecl" "var_name") /\
  forall (fuel : nat) (msg : string),
    analyze fuel int_a_tree [] <> Raise (TypeError msg).
Proof.
  do 6 (split; [vm_compute; reflexivity|]).
  intros fuel msg.
  destruct fuel as [|[|fuel]]; vm_compute; discriminate.
Qed.

(** *** What the analyzer accepts *)

Import Ast.

Lemma lift_Ok_inv {S A : Type} (o : outcome A) (s : S) (r : A * S) :
  lift o s = Ok r -> o = Ok (fst r) /\ snd r = s.
Proof. unfold lift. destruct o; try discriminate. intro H. injection H as <-. auto. Qed.

Lemma cannot_assign_raises (value_type : pyval) (var_name var_type : string)
    (line : Z) (s : list (gmap string string)) (r : pyval * list (gmap string string)) :
  cannot_assign value_type var_name var_type line s <> Ok r.
Proof.
  unfold cannot_assign, bind, lift, raise.
  destruct (format value_type); discriminate.
Qed.

Lemma getattr2_state (node : pyval) (a b : string)
    (s s' : list (gmap string string)) (v : pyval) :
  getattr2 node a b s = Ok (v, s') -> s' = s.
Proof.
  unfold getattr2, bind, lift.
  destruct (getattr node a) as [x| | |]; try discriminate.
  destruct (getattr x b); try discriminate. intro H. injection H as _ <-. reflexivity.
Qed.

Ltac inv_run H :=
  repeat
    match type of H with
    | bind _ _ _ = Ok _ =>
        let a := fresh "a" in
        let s := fresh "s" in
        let H1 := fresh "H" in
        apply bind_Ok_inv in H as (a & s & H1 & H); try inv_run H1
    | ret _ _ = Ok _ => unfold ret in H; injection H as ? ?; subst
    | raise _ _ = Ok _ => discriminate H
    | cannot_assign _ _ _ _ _ = Ok _ => destruct (cannot_assign_raises _ _ _ _ _ _ H)
    | lift (Ok _) _ = Ok _ => unfold lift in H; injection H as ? ?; subst
    | (if ?c then _ else _) _ = Ok _ => destruct c eqn:?
    end.

Lemma scopes_ok_app (s1 s2 : list (gmap string string)) :
  scopes_ok (s1 ++ s2)%list <-> scopes_ok s1 /\ scopes_ok s2.
Proof. unfold scopes_ok. apply Forall_app. Qed.

Lemma list_last_cases {A : Type} (l : list A) :
  l = [] \/ exists outer inner, l = (outer ++ [inner])%list.
Proof.
  induction l as [|x l IH] using rev_ind; [left; reflexivity|].
  right. exists l, x. reflexivity.
Qed.

Lemma scopes_ok_removelast (s : list (gmap string string)) :
  scopes_ok s -> scopes_ok (removelast s).
Proof.
  destruct (list_last_cases s) as [->|(outer & inner & ->)]; [trivial|].
  rewrite removelast_last. intro H. apply scopes_ok_app in H. tauto.
Qed.

Lemma index_last_inv {A : Type} (l : list A) (x : A) :
  index l (-1) = Ok x -> exists outer, l = (outer ++ [x])%list.
Proof.
  destruct (list_last_cases l) as [->|(outer & inner & ->)].
  - discriminate.
  - rewrite index_last. intro H. injection H as ->. exists outer. reflexivity.
Qed.

Lemma declare_Ok_inv (name type : string) (line : Z)
    (s s' : list (gmap string string)) (u : unit) :
  declare name type line s = Ok (u, s') ->
  exists outer inner,
    s = (outer ++ [inner])%list /\ inner !! name = None
    /\ s' = (outer ++ [<[name := type]> inner])%list.
Proof.
  unfold declare. intro H.
  apply bind_Ok_inv in H as (sc & s1 & Hg & H). injection Hg as <- <-.
  apply bind_Ok_inv in H as (scope & s2 & Hi & H).
  apply lift_Ok_inv in Hi as [Hi <-]. simpl in Hi.
  apply index_last_inv in Hi as [outer ->].
  destruct (scope !! name) eqn:E; [discriminate|].
  unfold put in H. injection H as _ <-. rewrite removelast_last.
  exists outer, scope. auto.
Qed.

Lemma lookup_in_ok (scopes : list (gmap string string)) (name ty : string) :
  Forall (map_Forall (fun (_ : string) ty => ty = "int" \/ ty = "float")) scopes ->
  lookup_in scopes name = Some ty -> ty = "int" \/ ty = "float".
Proof.
  induction 1 as [|scope scopes Hs _ IH]; [discriminate|].
  simpl. destruct (scope !! name) as [ty'|] eqn:E.
  - intro H. injection H as <-. exact (Hs name ty' E).
  - exact IH.
Qed.

Lemma lookup_Ok_inv (name : string) (line : Z) (s s' : list (gmap string string))
    (ty : string) :
  scopes_ok s -> lookup name line s = Ok (ty, s') ->
  s' = s /\ (ty = "int" \/ ty = "float").
Proof.
  intros Hs H. unfold lookup in H.
  apply bind_Ok_inv in H as (sc & s1 & Hg & H). injection Hg as <- <-.
  destruct (lookup_in (rev s) name) as [ty'|] eqn:E; [|discriminate].
  injection H as <- <-. split; [reflexivity|].
  apply (lookup_in_ok (rev s) name ty'); [|exact E].
  apply Forall_rev, Hs.
Qed.

Lemma str_in_two (x a b : string) : str_in x [a; b] = true -> x = a \/ x = b.
Proof.
  unfold str_in. simpl. rewrite orb_false_r. intro H.
  apply orb_prop in H as [H|H]; apply String.eqb_eq in H; auto.
Qed.

Lemma eq_str_true (v : pyval) (s : string) : eq_str v s = true -> v = PStr s.
Proof.
  destruct v; try discriminate. simpl. intro H. apply String.eqb_eq in H. congruence.
Qed.

Ltac apply_IH IH :=
  repeat match goal with
         | Hv : visit _ (to_obj ?x) ?s = Ok (_, _), Hs : scopes_ok ?s,
           Hd : declared_types_ok ?x = true |- _ =>
             let Hs' := fresh "Hs" in
             let Hc := fresh "Hc" in
             let Hr := fresh "Hrel" in
             destruct (IH x _ _ _ Hs Hd Hv) as (Hs' & Hc & Hr); clear Hv
         | Hg : getattr2 _ _ _ _ = Ok (_, _) |- _ =>
             apply getattr2_state in Hg; subst
         end.

Ltac accept_tac :=
  unfold accepted; repeat match goal with |- _ /\ _ => split end;
  auto; try (let E := fresh in intro E; discriminate E).

Lemma each_accepted (fuel : nat) (children : list ast) :
  (forall a, accepts fuel a) ->
  forall s u s',
    scopes_ok s -> forallb declared_types_ok children = true ->
    sem_visit_each fuel children s = Ok (u, s') ->
    scopes_ok s' /\ forallb conditions_are_RelOp children = true.
Proof.
  intro IH. induction children as [|c cs IHcs]; intros s u s' Hs Hd H.
  - injection H as _ <-. auto.
  - simpl in Hd. apply andb_prop in Hd as [Hdc Hdcs].
    rewrite sem_visit_each_cons in H. inv_run H.
    destruct (IH c _ _ _ Hs Hdc H1) as (Hs1 & Hc & _).
    destruct (IHcs _ _ _ Hs1 Hdcs H) as [Hs2 Hcs].
    split; [exact Hs2|]. simpl. rewrite Hc, Hcs. reflexivity.
Qed.

Lemma visit_accepts (fuel : nat) (a : ast) : accepts fuel a.
Proof.
  revert a. induction fuel as [|fuel IH]; intros a s r s' Hs Hd H;
    [discriminate|].
  destruct a as [children|vt vn value|vn value|c t e|children
                 |l op r0|l op r0|value|value line].
  - (* Program *)
    rewrite visit_Program_eq in H. inv_run H.
    destruct (each_accepted fuel children IH _ _ _ Hs Hd H0) as [Hs1 Hc].
    accept_tac.
  - (* VarDecl *)
    rewrite visit_VarDecl_eq in H. simpl in Hd. apply andb_prop in Hd as [Hty Hdv].
    apply bind_Ok_inv in H as (u & s1 & Hdecl & H).
    apply declare_Ok_inv in Hdecl as (outer & inner & -> & Hfresh & ->).
    assert (Hs1 : scopes_ok (outer ++ [<[Lexer.value vn := Lexer.value vt]> inner])).
    { apply scopes_ok_app in Hs as [Ho Hi]. apply scopes_ok_app. split; [exact Ho|].
      constructor; [|constructor]. apply map_Forall_insert_2.
      - apply str_in_two, Hty.
      - inversion Hi; assumption. }
    destruct value as [v|].
    + inv_run H. destruct (IH v _ _ _ Hs1 Hdv H1) as (Hs2 & Hc & _).
      accept_tac.
    + inv_run H. accept_tac.
  - (* Assign *)
    rewrite visit_S_eq in H. cbn in H. inv_run H.
    apply (lookup_Ok_inv _ _ _ _ _ Hs) in H0 as [-> _].
    destruct (IH value _ _ _ Hs Hd H1) as (Hs2 & Hc & _).
    accept_tac.
  - (* If *)
    simpl in Hd. apply andb_prop in Hd as [Hd Hde]. apply andb_prop in Hd as [Hdc Hdt].
    rewrite visit_S_eq in H. cbn in H. inv_run H.
    + destruct (IH c _ _ _ Hs Hdc H0) as (Hs1 & Hc & Hrel).
      destruct (IH t _ _ _ Hs1 Hdt H1) as (Hs2 & Ht & _).
      apply negb_false_iff, eq_str_true in Heqb.
      destruct e as [e|]; [|discriminate].
      destruct (IH e _ _ _ Hs2 Hde H2) as (Hs3 & He & _).
      accept_tac. simpl. rewrite (Hrel Heqb), Hc, Ht, He. reflexivity.
    + destruct (IH c _ _ _ Hs Hdc H0) as (Hs1 & Hc & Hrel).
      destruct (IH t _ _ _ Hs1 Hdt H1) as (Hs2 & Ht & _).
      apply negb_false_iff, eq_str_true in Heqb.
      destruct e as [e|]; [destruct e; discriminate|].
      accept_tac. simpl. rewrite (Hrel Heqb), Hc, Ht. reflexivity.
  - (* Block *)
    rewrite visit_Block_eq in H. inv_run H.
    unfold enter_scope, modify in H0. injection H0 as H0. subst s0.
    assert (Hs0 : scopes_ok (s ++ [∅])).
    { apply scopes_ok_app. split; [exact Hs|]. constructor; [|constructor].
      apply map_Forall_empty. }
    destruct (each_accepted fuel children IH _ _ _ Hs0 Hd H1) as [Hs1 Hc].
    unfold exit_scope, modify in H2. injection H2 as H2. subst s'.
    accept_tac.
    destruct (1 <? length s1)%nat; [apply scopes_ok_removelast|]; exact Hs1.
  - (* BinOp *)
    simpl in Hd. apply andb_prop in Hd as [Hdl Hdr].
    rewrite visit_S_eq in H. cbn in H.
    unfold visit_BinOp, check_operands in H. cbn in H. inv_run H.
    all: apply_IH IH; accept_tac.
    all: simpl; rewrite Hc, Hc0; reflexivity.
  - (* RelOp *)
    simpl in Hd. apply andb_prop in Hd as [Hdl Hdr].
    rewrite visit_S_eq in H. cbn in H.
    unfold visit_RelOp, check_operands in H. cbn in H. inv_run H.
    all: apply_IH IH; accept_tac.
    all: simpl; rewrite Hc, Hc0; reflexivity.
  - (* Number *)
    rewrite visit_S_eq in H. cbn in H. inv_run H; accept_tac.
  - (* Id *)
    rewrite visit_S_eq in H. cbn in H. inv_run H.
    apply (lookup_Ok_inv _ _ _ _ _ Hs) in H0 as [-> Hty].
    accept_tac. intro E. injection E as ->.
    destruct Hty; discriminate.
Qed.

End Semantic.

(** ** The optimizer *)

Section Opt.

Import Optimizer.

Lemma keep_int_returns_or_raises (v : number) :
  (exists n, keep_int v = Ok n) \/ (exists e, keep_int v = Raise e).
Proof.
  destruct v as [x|n]; [|left; eexists; reflexivity].
  unfold keep_int.
  destruct x as [s|s| |s m e]; unfold PyFloat.to_int.
  - destruct (PyFloat.eq_int _ _); left; eexists; reflexivity.
  - right; eexists; reflexivity.
  - right; eexists; reflexivity.
  - destruct (PyFloat.eq_int _ _); left; eexists; reflexivity.
Qed.

Lemma fold_step_acc (i : instr) (acc : list instr) :
  fold_step i acc
  = match fold_step i [] with
    | Ok (_, l) => Ok (tt, (acc ++ l)%list)
    | Raise e => Raise e
    | OutOfFuel => OutOfFuel
    | Unmodelled => Unmodelled
    end.
Proof.
  destruct i as [[[op a1] a2] r]. unfold fold_step.
  destruct (is_arith op && is_numeric a1 && is_numeric a2); [|reflexivity].
  destruct op as [op|]; [|reflexivity].
  destruct a1 as [a1|]; [|reflexivity].
  destruct a2 as [a2|]; [|reflexivity].
  destruct (PyFloat.of_string a1); [|reflexivity].
  destruct (PyFloat.of_string a2); [|reflexivity].
  unfold bind, lift, modify.
  destruct (keep_int _); reflexivity.
Qed.

(** What an iteration appends: the folded assignment when the guard holds, the
    instruction itself otherwise. *)
Lemma fold_step_cases (i : instr) :
  (exists v, fold_step i [] = Ok (tt, [(Some "ASSIGN", Some v, None, snd i)])
             /\ is_arith (opcode i) = true)
  \/ fold_step i [] = Ok (tt, [i])
  \/ (exists e, fold_step i [] = Raise e).
Proof.
  destruct i as [[[op a1] a2] r]. unfold fold_step, opcode. simpl fst. simpl snd.
  destruct (is_arith op) eqn:Ha; [|right; left; reflexivity].
  destruct (is_numeric a1) eqn:H1; [|right; left; reflexivity].
  destruct (is_numeric a2) eqn:H2; [|right; left; reflexivity].
  simpl andb. cbv iota.
  destruct op as [op|]; [|discriminate].
  destruct a1 as [a1|]; [|discriminate].
  destruct a2 as [a2|]; [|discriminate].
  unfold is_numeric in H1, H2.
  destruct (PyFloat.of_string a1) as [v1|]; [|discriminate].
  destruct (PyFloat.of_string a2) as [v2|]; [|discriminate].
  unfold bind, lift, modify.
  destruct (keep_int _) as [n|e| |] eqn:Hk.
  - left. eexists. split; reflexivity.
  - right; right. eexists; reflexivity.
  - destruct (keep_int_returns_or_raises
                (compute op v1 v2)) as [[n Hn]|[e He]]; congruence.
  - destruct (keep_int_returns_or_raises
                (compute op v1 v2)) as [[n Hn]|[e He]]; congruence.
Qed.

Lemma constant_folding_cons (i : instr) (ir : list instr) :
  constant_folding (i :: ir)
  = match fold_step i [] with
    | Ok (_, l) =>
        match constant_folding ir with
        | Ok ir' => Ok (l ++ ir')%list
        | Raise e => Raise e
        | OutOfFuel => OutOfFuel
        | Unmodelled => Unmodelled
        end
    | Raise e => Raise e
    | OutOfFuel => OutOfFuel
    | Unmodelled => Unmodelled
    end.
Proof.
  unfold constant_folding. simpl for_each. unfold bind.
  destruct (fold_step i []) as [[[] l]| | |]; try reflexivity.
  assert (H : forall acc,
             for_each ir fold_step acc
             = match for_each ir fold_step [] with
               | Ok (_, l') => Ok (tt, (acc ++ l')%list)
               | Raise e => Raise e
               | OutOfFuel => OutOfFuel
               | Unmodelled => Unmodelled
               end).
  { clear. induction ir as [|j ir IH]; intro acc; simpl for_each.
    - unfold ret. rewrite app_nil_r. reflexivity.
    - unfold bind. rewrite (fold_step_acc j acc).
      destruct (fold_step j []) as [[[] l]| | |]; try reflexivity.
      rewrite (IH (acc ++ l)%list), (IH l).
      destruct (for_each ir fold_step []) as [[[] l']| | |]; try reflexivity.
      rewrite app_assoc. reflexivity. }
  rewrite H. destruct (for_each ir fold_step []) as [[[] l']| | |]; reflexivity.
Qed.

Lemma fold_step_not_arith (i : instr) :
  is_arith (opcode i) = false -> fold_step i [] = Ok (tt, [i]).
Proof.
  destruct i as [[[op a1] a2] r]. unfold opcode, fold_step. simpl.
  intros ->. reflexivity.
Qed.

Lemma fold_step_idempotent (i i' : instr) :
  fold_step i [] = Ok (tt, [i']) -> fold_step i' [] = Ok (tt, [i']).
Proof.
  intro H. destruct (fold_step_cases i) as [(v & Hv & _)|[Hi|[e He]]].
  - rewrite Hv in H. injection H as <-. reflexivity.
  - rewrite Hi in H. injection H as <-. exact Hi.
  - rewrite He in H. discriminate.
Qed.

Lemma fold_step_singleton (i : instr) (u : unit) (l : list instr) :
  fold_step i [] = Ok (u, l) -> exists i', l = [i'] /\ fold_step i [] = Ok (tt, [i']).
Proof.
  intro H. destruct u. destruct (fold_step_cases i) as [(v & Hv & _)|[Hi|[e He]]].
  - rewrite Hv in H. injection H as <-. eexists. split; [reflexivity|exact Hv].
  - rewrite Hi in H. injection H as <-. eexists. split; [reflexivity|exact Hi].
  - rewrite He in H. discriminate.
Qed.

Lemma constant_folding_idempotent (ir ir' : list instr) :
  constant_folding ir = Ok ir' -> constant_folding ir' = Ok ir'.
Proof.
  revert ir'. induction ir as [|i ir IH]; intros ir' H.
  - injection H as <-. reflexivity.
  - rewrite constant_folding_cons in H.
    destruct (fold_step i []) as [[u l]| | |] eqn:Hi; try discriminate.
    destruct (constant_folding ir) as [ir1| | |] eqn:Hir; try discriminate.
    injection H as <-.
    apply fold_step_singleton in Hi as (i' & -> & Hi).
    simpl app. rewrite constant_folding_cons.
    rewrite (fold_step_idempotent _ _ Hi), (IH _ eq_refl). reflexivity.
Qed.

(** C6: instructions that are not arithmetic pass through the optimizer
    unchanged, position by position; what the optimizer returns it
    returns again when run on it; and running it twice gives what running
    it once gives, an exception included. *)
Theorem c6_constant_folding_idempotent :
  (forall ir : list instr,
     forallb (fun i => negb (is_arith (opcode i))) ir = true ->
     optimize ir = Ok ir) /\
  (forall ir ir' : list instr, optimize ir = Ok ir' -> optimize ir' = Ok ir') /\
  (forall ir : list instr, optimize_twice ir = optimize ir) /\
  optimize [(Some "ASSIGN", Some "5", None, Some "x")]
    = Ok [(Some "ASSIGN", Some "5", None, Some "x")].
Proof.
  split; [|split; [|split]].
  - unfold optimize. induction ir as [|i ir IH]; intro H.
    + reflexivity.
    + simpl in H. apply andb_prop in H as [Hi Hr].
      apply negb_true_iff in Hi.
      rewrite constant_folding_cons, (fold_step_not_arith _ Hi), (IH Hr).
      reflexivity.
  - exact constant_folding_idempotent.
  - intro ir. unfold optimize_twice.
    destruct (optimize ir) as [ir'| | |] eqn:H; try reflexivity.
    exact (constant_folding_idempotent _ _ H).
  - reflexivity.
Qed.

Lemma c6_constant_folding_idempotent_witness :
  optimize [(Some "ASSIGN", Some "5", None, Some "x");
            (Some "LABEL", Some "L1", None, None)]
  = Ok [(Some "ASSIGN", Some "5", None, Some "x");
        (Some "LABEL", Some "L1", None, None)].
Proof.
  apply (proj1 c6_constant_folding_idempotent). reflexivity.
Defined.


Lemma uint_text_has_no_dot (d : Decimal.uint) :
  contains_char "."%char (NilEmpty.string_of_uint d) = false.
Proof. induction d; simpl; try reflexivity; exact IHd. Qed.

Lemma str_of_Z_has_no_dot (n : Z) : contains_char "."%char (str_of_Z n) = false.
Proof.
  unfold str_of_Z, NilZero.string_of_int.
  destruct (Z.to_int n) as [d|d]; unfold NilZero.string_of_uint.
  - destruct d; try reflexivity; apply uint_text_has_no_dot.
  - change (contains_char "." (String "-" (match d with
                                            | Decimal.Nil => "0"
                                            | _ => NilEmpty.string_of_uint d
                                            end)) = false).
    destruct d; try reflexivity; apply uint_text_has_no_dot.
Qed.

Lemma optimize_one (op a1 a2 : string) (r : option string) (v1 v2 : spec_float) :
  is_arith (Some op) = true ->
  PyFloat.of_string a1 = Some v1 ->
  PyFloat.of_string a2 = Some v2 ->
  optimize [(Some op, Some a1, Some a2, r)]
  = match keep_int (compute op v1 v2) with
    | Ok v => Ok [(Some "ASSIGN", Some (str v), None, r)]
    | Raise e => Raise e
    | OutOfFuel => OutOfFuel
    | Unmodelled => Unmodelled
    end.
Proof.
  intros Ha H1 H2. unfold optimize, constant_folding. cbn [for_each].
  unfold bind, fold_step, is_numeric. rewrite Ha, H1, H2. cbn [andb].
  unfold bind, lift, modify, ret.
  destruct (keep_int (compute op v1 v2)); reflexivity.
Qed.

(** C5 (the code departs from the claim): an arithmetic instruction on
    two numeric literals becomes the assignment of the computed value,
    printed without a fractional part when it is integral, only when the
    conversion of the value to an integer does not raise; 2 + 3 gives 5,
    5 / 2 gives 2.5 and a division by the literal 0 gives 0; but the
    product of two literals of 201 digits overflows to infinity and the
    optimizer raises [OverflowError]. *)
Theorem c5_folding_policy_and_overflow :
  (forall (op a1 a2 : string) (r : option string) (v1 v2 : spec_float),
     is_arith (Some op) = true ->
     PyFloat.of_string a1 = Some v1 ->
     PyFloat.of_string a2 = Some v2 ->
     match keep_int (compute op v1 v2) with
     | Ok v =>
         optimize [(Some op, Some a1, Some a2, r)]
           = Ok [(Some "ASSIGN", Some (str v), None, r)] /\
         forall n, v = Int n -> contains_char "."%char (str v) = false
     | Raise e => optimize [(Some op, Some a1, Some a2, r)] = Raise e
     | _ => False
     end) /\
  optimize [(Some "ADD", Some "2", Some "3", Some "t")]
    = Ok [(Some "ASSIGN", Some "5", None, Some "t")] /\
  optimize [(Some "DIV", Some "5", Some "2", Some "t")]
    = Ok [(Some "ASSIGN", Some "2.5", None, Some "t")] /\
  (forall (a : string) (r : option string),
     is_numeric (Some a) = true ->
     optimize [(Some "DIV", Some a, Some "0", r)]
       = Ok [(Some "ASSIGN", Some "0", None, r)]) /\
  is_numeric (Some huge_literal) = true /\
  optimize [(Some "MUL", Some huge_literal, Some huge_literal, Some "t")]
    = Raise (OverflowError "cannot convert float infinity to integer").
Proof.
  split; [|split; [|split; [|split; [|split]]]].
  - intros op a1 a2 r v1 v2 Ha H1 H2.
    rewrite (optimize_one op a1 a2 r v1 v2 Ha H1 H2).
    destruct (keep_int_returns_or_raises (compute op v1 v2)) as [[v Hv]|[e He]].
    + rewrite Hv. split; [reflexivity|].
      intros n ->. apply str_of_Z_has_no_dot.
    + rewrite He. reflexivity.
  - vm_compute. reflexivity.
  - vm_compute. reflexivity.
  - intros a r Ha. unfold is_numeric in Ha.
    destruct (PyFloat.of_string a) as [v1|] eqn:H1; [|discriminate].
    rewrite (optimize_one "DIV" a "0" r v1 (S754_zero false) eq_refl H1)
      by (vm_compute; reflexivity).
    reflexivity.
  - vm_compute. reflexivity.
  - vm_compute. reflexivity.
Qed.

Lemma c5_folding_policy_and_overflow_witness :
  optimize [(Some "SUB", Some "7", Some "0.5", Some "t1")]
    = Ok [(Some "ASSIGN", Some "6.5", None, Some "t1")].
Proof.
  pose proof (proj1 c5_folding_policy_and_overflow "SUB" "7" "0.5" (Some "t1")
                (S754_finite false 7881299347898368 (-50))
                (S754_finite false 4503599627370496 (-53))
                eq_refl eq_refl eq_refl) as H.
  exact (proj1 H).
Defined.

End Opt.

(** ** The code generator *)

Section Cg.

Import CodeGenerator.

Lemma index_nth {A : Type} (l : list A) (n : nat) (x : A) :
  nth_error l n = Some x -> index l (Z.of_nat n) = Ok x.
Proof.
  intro H. unfold index.
  destruct (Z.of_nat n <? 0)%Z eqn:E; [apply Z.ltb_lt in E; lia|].
  rewrite E, Nat2Z.id, H. reflexivity.
Qed.

Lemma index_ok_or_raise {A : Type} (l : list A) (i : Z) :
  (exists x, index l i = Ok x) \/ (exists e, index l i = Raise e).
Proof.
  unfold index.
  destruct (_ <? 0)%Z; [right; eexists; reflexivity|].
  destruct (nth_error _ _); [left|right]; eexists; reflexivity.
Qed.

Lemma grows_ret {A : Type} (a : A) : grows (ret a).
Proof. intro s. exists []. simpl. rewrite app_nil_r. reflexivity. Qed.

Lemma grows_bind {A B : Type} (m : C A) (k : A -> C B) :
  grows m -> (forall a, grows (k a)) -> grows (bind m k).
Proof.
  intros Hm Hk s. unfold bind. specialize (Hm s).
  destruct (m s) as [[a s1]| | |]; try exact Hm.
  destruct Hm as [l1 Hl1]. specialize (Hk a s1).
  destruct (k a s1) as [[b s2]| | |]; try exact Hk.
  destruct Hk as [l2 Hl2]. exists (l1 ++ l2)%list.
  rewrite Hl2, Hl1, app_assoc. reflexivity.
Qed.

Lemma grows_emit (line : string) : grows (emit line).
Proof. intro s. exists [line]. reflexivity. Qed.

Lemma grows_get : grows (@get cg_state).
Proof. intro s. exists []. simpl. rewrite app_nil_r. reflexivity. Qed.

Lemma grows_raise {A : Type} (e : exn) : grows (@raise cg_state A e).
Proof. intro s. exact I. Qed.

Lemma grows_part (parts : list string) (i : Z) : grows (part parts i).
Proof.
  intro s. unfold part, lift.
  destruct (index_ok_or_raise parts i) as [[x ->]|[e ->]]; [|exact I].
  exists []. simpl. rewrite app_nil_r. reflexivity.
Qed.

Lemma grows_index (ir : list string) (i : Z) : grows (lift (index ir i)).
Proof. exact (grows_part ir i). Qed.

Lemma grows_allocate (n t : string) : grows (allocate n t).
Proof. intro s. exists []. simpl. rewrite app_nil_r. reflexivity. Qed.

Lemma grows_get_var_offset (n : string) : grows (get_var_offset n).
Proof.
  intro s. unfold get_var_offset, bind, get.
  destruct (symbol_table s !! n) as [[t o]|].
  - exists []. simpl. rewrite app_nil_r. reflexivity.
  - apply grows_allocate.
Qed.

Lemma grows_get_float_label (v : string) : grows (get_float_label v).
Proof.
  intro s. unfold get_float_label, bind, get.
  destruct (float_labels s !! v); exists []; simpl; rewrite app_nil_r; reflexivity.
Qed.

Ltac grows_step :=
  match goal with
  | |- grows (bind _ _) => apply grows_bind; [|intros]
  | |- grows (ret _) => apply grows_ret
  | |- grows (emit _) => apply grows_emit
  | |- grows get => apply grows_get
  | |- grows (raise _) => apply grows_raise
  | |- grows (part _ _) => apply grows_part
  | |- grows (lift (index _ _)) => apply grows_index
  | |- grows (allocate _ _) => apply grows_allocate
  | |- grows (get_var_offset _) => apply grows_get_var_offset
  | |- grows (get_float_label _) => apply grows_get_float_label
  | |- grows (if ?c then _ else _) => destruct c
  | |- grows (match ?x with Some _ => _ | None => _ end) => destruct x
  | |- grows (let '(_, _) := ?x in _) => destruct x
  end.

Lemma grows_load_int (reg src : string) : grows (load_int reg src).
Proof. unfold load_int. repeat grows_step. Qed.

Lemma grows_load_float (src : string) : grows (load_float src).
Proof. unfold load_float. repeat grows_step. Qed.

Lemma grows_gen_instr (ir : list string) (i : Z) (op : string)
    (parts : list string) : grows (gen_instr ir i op parts).
Proof.
  unfold gen_instr, gen_declare, gen_assign, gen_arith, gen_cast, gen_compare,
    gen_jump_if_false.
  repeat first [grows_step | apply grows_load_int | apply grows_load_float].
Qed.

Lemma gen_line_returns (ir : list string) (i : Z) (line : string) (s : cg_state) :
  exists s' l, gen_line ir i line s = Ok (tt, s')
               /\ text_section s' = (text_section s ++ l)%list.
Proof.
  unfold gen_line. destruct (split line) as [|op rest].
  - exists s, []. rewrite app_nil_r. split; reflexivity.
  - pose proof (grows_gen_instr ir i op (op :: rest) s) as H.
    destruct (gen_instr ir i op (op :: rest) s) as [[[] s']|e| |].
    + destruct H as [l Hl]. exists s', l. split; [reflexivity|exact Hl].
    + eexists _, [_]. split; reflexivity.
    + contradiction.
    + contradiction.
Qed.

Lemma main_loop_returns (ir lines : list string) (i : Z) (s : cg_state) :
  exists s' l, main_loop ir i lines s = Ok (tt, s')
               /\ text_section s' = (text_section s ++ l)%list.
Proof.
  revert i s. induction lines as [|line lines IH]; intros i s.
  - exists s, []. rewrite app_nil_r. split; reflexivity.
  - simpl main_loop. unfold bind.
    destruct (gen_line_returns ir i line s) as (s1 & l1 & -> & H1).
    destruct (IH (i + 1)%Z s1) as (s2 & l2 & -> & H2).
    exists s2, (l1 ++ l2)%list. split; [reflexivity|].
    rewrite H2, H1, app_assoc. reflexivity.
Qed.

Lemma main_loop_app (ir l1 l2 : list string) (i : Z) (s : cg_state) :
  main_loop ir i (l1 ++ l2)%list s
  = (main_loop ir i l1 ;; main_loop ir (i + Z.of_nat (length l1)) l2) s.
Proof.
  revert i s. induction l1 as [|x l1 IH]; intros i s.
  - simpl. unfold bind, ret. rewrite Z.add_0_r. reflexivity.
  - simpl app. simpl main_loop. unfold bind in *.
    destruct (gen_line ir i x s) as [[[] s1]| | |]; try reflexivity.
    rewrite IH.
    replace (i + 1 + Z.of_nat (length l1))%Z
      with (i + Z.of_nat (length (x :: l1)))%Z by (simpl length; lia).
    reflexivity.
Qed.

Lemma jump_op_table (cmp_type cmp_op branch : string) :
  inverted_branch cmp_type cmp_op = Some branch ->
  jump_op cmp_type cmp_op = branch.
Proof.
  unfold inverted_branch, branch_table, jump_op. simpl assoc.
  destruct (cmp_type =? "int").
  - simpl assoc.
    repeat match goal with
           | |- context [cmp_op =? ?x] => destruct (cmp_op =? x)
           end; congruence.
  - destruct (cmp_type =? "float"); [|discriminate].
    simpl assoc.
    repeat match goal with
           | |- context [cmp_op =? ?x] => destruct (cmp_op =? x)
           end; congruence.
Qed.

Lemma gen_line_jump_if_false (pre post : list string) (cmp jif : string)
    (ty a op label branch : string) (rest rest' : list string) (s : cg_state) :
  split cmp = "COMPARE" :: ty :: a :: op :: rest ->
  split jif = "JUMP_IF_FALSE" :: label :: rest' ->
  inverted_branch ty op = Some branch ->
  gen_line (pre ++ cmp :: jif :: post)%list (Z.of_nat (S (length pre))) jif s
  = emit (jump_line branch label op) s.
Proof.
  intros Hcmp Hjif Hb. unfold gen_line. rewrite Hjif.
  change (gen_instr ?ir ?i "JUMP_IF_FALSE" ?parts)
    with (gen_jump_if_false ir i parts).
  unfold gen_jump_if_false.
  replace (Z.of_nat (S (length pre)) - 1)%Z with (Z.of_nat (length pre)) by lia.
  rewrite (index_nth _ _ cmp)
    by (rewrite nth_error_app2, Nat.sub_diag by lia; reflexivity).
  unfold bind at 1. unfold lift at 1. rewrite Hcmp.
  change (part ("COMPARE" :: ty :: a :: op :: rest) 1) with (@lift cg_state _ (Ok ty)).
  change (part ("COMPARE" :: ty :: a :: op :: rest) 3) with (@lift cg_state _ (Ok op)).
  change (part ("JUMP_IF_FALSE" :: label :: rest') 1) with (@lift cg_state _ (Ok label)).
  unfold bind, lift. rewrite (jump_op_table _ _ _ Hb). reflexivity.
Qed.

Lemma get_float_label_returns (v : string) (s : cg_state) :
  exists label s', get_float_label v s = Ok (label, s').
Proof.
  unfold get_float_label, bind, get.
  destruct (float_labels s !! v); eexists _, _; reflexivity.
Qed.

Lemma part_in_range (parts : list string) (n : nat) (s : cg_state) :
  (n < length parts)%nat ->
  exists x, part parts (Z.of_nat n) s = Ok (x, s).
Proof.
  intro H. destruct (nth_error parts n) as [x|] eqn:E.
  - exists x. unfold part, lift. rewrite (index_nth _ _ _ E). reflexivity.
  - apply nth_error_None in E. lia.
Qed.

Lemma note_float_returns (p : string) (s : cg_state) :
  exists s',
    (if is_float_literal p then get_float_label p ;; ret tt else ret tt) s
    = Ok (tt, s').
Proof.
  destruct (is_float_literal p); [|eexists; reflexivity].
  unfold bind. destruct (get_float_label_returns p s) as (l & s' & ->).
  eexists; reflexivity.
Qed.

Lemma scan_fields_present_cons (line : string) (ir : list string) :
  scan_fields_present (line :: ir)
  = match split line with
    | [] => true
    | (op :: _) as parts =>
        if op =? "ASSIGN" then (3 <=? length parts)%nat
        else if is_arith op then (5 <=? length parts)%nat
        else true
    end && scan_fields_present ir.
Proof. reflexivity. Qed.

Lemma prescan_returns (ir : list string) (s : cg_state) :
  scan_fields_present ir = true ->
  exists s', for_each ir prescan_line s = Ok (tt, s').
Proof.
  revert s. induction ir as [|line ir IH]; intros s H.
  - eexists; reflexivity.
  - rewrite scan_fields_present_cons in H. apply andb_prop in H as [Hl Hr].
    assert (Hline : exists s1, prescan_line line s = Ok (tt, s1)).
    { unfold prescan_line. destruct (split line) as [|op rest].
      - eexists; reflexivity.
      - destruct (op =? "ASSIGN").
        + apply Nat.leb_le in Hl.
          destruct (part_in_range (op :: rest) 2 s ltac:(lia)) as [p2 H2].
          change (Z.of_nat 2) with 2%Z in H2.
          unfold bind at 1. rewrite H2. apply note_float_returns.
        + destruct (is_arith op); [|eexists; reflexivity].
          apply Nat.leb_le in Hl.
          destruct (part_in_range (op :: rest) 3 s ltac:(lia)) as [p3 H3].
          change (Z.of_nat 3) with 3%Z in H3.
          unfold bind at 1. rewrite H3.
          unfold bind at 1.
          destruct (note_float_returns p3 s) as [s1 ->].
          destruct (part_in_range (op :: rest) 4 s1 ltac:(lia)) as [p4 H4].
          change (Z.of_nat 4) with 4%Z in H4.
          unfold bind at 1. rewrite H4. apply note_float_returns. }
    destruct Hline as [s1 H1]. simpl for_each. unfold bind. rewrite H1.
    apply IH, Hr.
Qed.

(** C4: when a [JUMP_IF_FALSE] line follows a [COMPARE] line whose type
    and operator are in the table, the iteration of the main loop for the
    jump appends exactly the line of the inverted branch read off the
    [COMPARE]; the line is part of whatever assembly [generate] returns,
    and [generate] does return when the lines the float scan reads have
    their fields. *)
Theorem c4_jump_if_false_inverts_the_comparison :
  forall (pre post : list string) (cmp jif : string)
         (ty a op label branch : string) (rest rest' : list string),
    split cmp = "COMPARE" :: ty :: a :: op :: rest ->
    split jif = "JUMP_IF_FALSE" :: label :: rest' ->
    inverted_branch ty op = Some branch ->
    let ir := (pre ++ cmp :: jif :: post)%list in
    (forall s : cg_state,
       gen_line ir (Z.of_nat (S (length pre))) jif s
       = emit (jump_line branch label op) s) /\
    (forall lines : list string,
       generate_lines ir = Ok lines -> In (jump_line branch label op) lines) /\
    (scan_fields_present ir = true ->
     exists lines, generate_lines ir = Ok lines).
Proof.
  intros pre post cmp jif ty a op label branch rest rest' Hcmp Hjif Hb ir.
  assert (Hstep : forall s, gen_line ir (Z.of_nat (S (length pre))) jif s
                            = emit (jump_line branch label op) s)
    by (intro s; exact (gen_line_jump_if_false pre post cmp jif ty a op label
                          branch rest rest' s Hcmp Hjif Hb)).
  assert (Hloop : forall s, exists s' l1 l2,
             main_loop ir 0 ir s = Ok (tt, s')
             /\ text_section s'
                = (l1 ++ jump_line branch label op :: l2)%list).
  { intro s. unfold ir at 2.
    change (pre ++ cmp :: jif :: post)%list
      with (pre ++ [cmp] ++ jif :: post)%list.
    rewrite app_assoc, main_loop_app. unfold bind.
    destruct (main_loop_returns ir (pre ++ [cmp]) 0 s) as (s1 & l1 & -> & H1).
    rewrite length_app. simpl length.
    replace (0 + Z.of_nat (length pre + 1))%Z
      with (Z.of_nat (S (length pre))) by lia.
    simpl main_loop. unfold bind. rewrite Hstep. unfold emit, modify.
    match goal with
    | |- context [main_loop ir ?i post ?st] =>
        destruct (main_loop_returns ir post i st) as (s2 & l2 & -> & H2)
    end.
    exists s2, (text_section s1), l2. split; [reflexivity|].
    rewrite H2. simpl text_section. rewrite <- app_assoc. reflexivity. }
  split; [exact Hstep|]. split.
  - intros lines. unfold generate_lines, bind, modify.
    destruct (for_each ir prescan_line _) as [[[] s1]| | |]; try discriminate.
    destruct (Hloop s1) as (s2 & l1 & l2 & -> & Ht).
    unfold get. rewrite Ht.
    destruct (1 <? length (data_section s2))%nat; unfold ret; intro H;
      injection H as <-; repeat rewrite in_app_iff; simpl; tauto.
  - intro Hsafe. unfold generate_lines, bind, modify.
    match goal with
    | |- context [for_each ir prescan_line ?st] =>
        destruct (prescan_returns ir st Hsafe) as [s1 ->]
    end.
    destruct (Hloop s1) as (s2 & l1 & l2 & -> & Ht).
    unfold get. destruct (1 <? length (data_section s2))%nat;
      eexists; reflexivity.
Qed.

Lemma c4_jump_if_false_inverts_the_comparison_witness :
  In "    jle L1 ; Jump if > was false"
     ["section .text"; "global _start"; "_start:"; "    push ebp";
      "    mov ebp, esp"; "    ; --- Begin user code ---";
      "    sub esp, 4  ; Allocate space for a (type: int) at [ebp-4]";
      "    mov eax, dword [ebp-4]"; "    mov ebx, 4"; "    cmp eax, ebx";
      "    jle L1 ; Jump if > was false"; "L1:";
      "    ; --- End of user code ---"; "    mov esp, ebp"; "    pop ebp";
      "    mov eax, 1"; "    xor ebx, ebx"; "    int 0x80"].
Proof.
  apply (proj1 (proj2 (c4_jump_if_false_inverts_the_comparison
                         ["DECLARE int a"] ["LABEL L1"]
                         "COMPARE int a > 4" "JUMP_IF_FALSE L1"
                         "int" "a" ">" "L1" "jle" ["4"] []
                         eq_refl eq_refl eq_refl))).
  vm_compute. reflexivity.
Defined.

End Cg.

(** ** The IR generator *)

Section Gen.

Import IRGenerator Ast.

Arguments IRGenerator.visit : simpl never.

Lemma gen_Program_eq fuel children :
  visit (S fuel) (to_obj (Program children))
  = (gen_visit_each fuel children ;; ret PNone).
Proof. reflexivity. Qed.

Lemma gen_Block_eq fuel children :
  visit (S fuel) (to_obj (Block children))
  = (gen_visit_each fuel children ;; ret PNone).
Proof. reflexivity. Qed.

Lemma gen_visit_each_nil fuel : gen_visit_each fuel [] = ret tt.
Proof. reflexivity. Qed.

Lemma gen_visit_each_cons fuel c cs :
  gen_visit_each fuel (c :: cs)
  = ((visit fuel (to_obj c) ;; ret tt) ;; gen_visit_each fuel cs).
Proof. reflexivity. Qed.

Lemma gen_VarDecl_eq fuel var_type var_name value :
  visit (S fuel) (to_obj (VarDecl var_type var_name value))
  = (emit (IDeclare (Lexer.value var_type) (Lexer.value var_name)) ;;
     match value with
     | Some v =>
         src <- visit fuel (to_obj v) ;;
         src <- lift (format src) ;;
         emit (ICopy (Lexer.value var_name) src)
     | None => ret tt
     end ;;
     ret PNone).
Proof. destruct value as [v|]; [destruct v|]; reflexivity. Qed.

Lemma gen_Assign_eq fuel var_name value :
  visit (S fuel) (to_obj (Assign var_name value))
  = (src <- visit fuel (to_obj value) ;;
     src <- lift (format src) ;;
     emit (ICopy (Lexer.value var_name) src) ;;
     ret PNone).
Proof. reflexivity. Qed.

Lemma gen_If_eq fuel condition if_block else_block :
  visit (S fuel) (to_obj (If condition if_block else_block))
  = (condition_var <- visit fuel (to_obj condition) ;;
     end_label <- new_label ;;
     match else_block with
     | Some else_block =>
         else_label <- new_label ;;
         condition_var <- lift (format condition_var) ;;
         emit (IIfFalse condition_var else_label) ;;
         visit fuel (to_obj if_block) ;;
         emit (IGoto end_label) ;;
         emit (ILabel else_label) ;;
         visit fuel (to_obj else_block) ;;
         ret tt
     | None =>
         condition_var <- lift (format condition_var) ;;
         emit (IIfFalse condition_var end_label) ;;
         visit fuel (to_obj if_block) ;;
         ret tt
     end ;;
     emit (ILabel end_label) ;;
     ret PNone).
Proof. destruct else_block as [e|]; [destruct e|]; reflexivity. Qed.

Lemma gen_BinOp_eq fuel l op r :
  visit (S fuel) (to_obj (BinOp l op r))
  = (left_src <- visit fuel (to_obj l) ;;
     right_src <- visit fuel (to_obj r) ;;
     result_temp <- new_temp ;;
     left_src <- lift (format left_src) ;;
     right_src <- lift (format right_src) ;;
     emit (IBinOp result_temp left_src (Lexer.value op) right_src) ;;
     ret (PStr result_temp)).
Proof. reflexivity. Qed.

Lemma gen_RelOp_eq fuel l op r :
  visit (S fuel) (to_obj (RelOp l op r))
  = (left_src <- visit fuel (to_obj l) ;;
     right_src <- visit fuel (to_obj r) ;;
     result_temp <- new_temp ;;
     left_src <- lift (format left_src) ;;
     right_src <- lift (format right_src) ;;
     emit (IRelOp result_temp left_src (Lexer.value op) right_src) ;;
     ret (PStr result_temp)).
Proof. reflexivity. Qed.

Lemma gen_Number_eq fuel value :
  visit (S fuel) (to_obj (Number value)) = ret (PStr value).
Proof. reflexivity. Qed.

Lemma gen_Id_eq fuel value line :
  visit (S fuel) (to_obj (Id value line)) = ret (PStr value).
Proof. reflexivity. Qed.


(** *** Composing runs *)

Lemma emits_ret {A : Type} (a : A) (tc lc : nat) : emits (ret a) tc lc a [] tc lc.
Proof. intro c. unfold ret. rewrite app_nil_r. reflexivity. Qed.

Lemma emits_lift {A : Type} (a : A) (tc lc : nat) :
  emits (lift (Ok a)) tc lc a [] tc lc.
Proof. exact (emits_ret a tc lc). Qed.

Lemma emits_bind {A B : Type} (m : G A) (k : A -> G B) (tc0 lc0 : nat) (a : A)
    (c1 : list instr) (tc1 lc1 : nat) (b : B) (c2 : list instr) (tc2 lc2 : nat) :
  emits m tc0 lc0 a c1 tc1 lc1 ->
  emits (k a) tc1 lc1 b c2 tc2 lc2 ->
  emits (bind m k) tc0 lc0 b (c1 ++ c2) tc2 lc2.
Proof.
  intros Hm Hk c. unfold bind. rewrite Hm, Hk, app_assoc. reflexivity.
Qed.

Lemma emits_emit (i : instr) (tc lc : nat) : emits (emit i) tc lc tt [i] tc lc.
Proof. intro c. reflexivity. Qed.

Lemma emits_new_temp (tc lc : nat) :
  emits new_temp tc lc (temp_name (tc + 1)) [] (tc + 1) lc.
Proof. intro c. unfold new_temp, bind, get, put, ret. simpl. rewrite app_nil_r. reflexivity. Qed.

Lemma emits_new_label (tc lc : nat) :
  emits new_label tc lc (label_name (lc + 1)) [] tc (lc + 1).
Proof. intro c. unfold new_label, bind, get, put, ret. simpl. rewrite app_nil_r. reflexivity. Qed.

(** *** Label names *)

Lemma to_uint_not_Nil (n : nat) : Nat.to_uint n <> Decimal.Nil.
Proof.
  intro E. assert (Hn : n = 0%nat).
  { rewrite <- (DecimalNat.Unsigned.of_to n), E. reflexivity. }
  subst n. discriminate E.
Qed.

Lemma str_of_nat_injective (m n : nat) : str_of_nat m = str_of_nat n -> m = n.
Proof.
  unfold str_of_nat. intro H.
  apply (f_equal NilZero.uint_of_string) in H.
  rewrite !NilZero.usu in H by apply to_uint_not_Nil.
  injection H as H. apply DecimalNat.Unsigned.to_uint_inj, H.
Qed.

Lemma label_name_injective (m n : nat) : label_name m = label_name n -> m = n.
Proof. unfold label_name. intro H. injection H as H. apply str_of_nat_injective, H. Qed.

Lemma labels_between_nil (lo hi : nat) : labels_between lo hi [].
Proof. intros i l []. Qed.

Lemma labels_between_app (lo hi : nat) (c1 c2 : list instr) :
  labels_between lo hi c1 -> labels_between lo hi c2 ->
  labels_between lo hi (c1 ++ c2).
Proof.
  intros H1 H2 i l Hin. apply in_app_or in Hin as [Hin|Hin]; eauto.
Qed.

Lemma labels_between_weaken (lo hi lo' hi' : nat) (c : list instr) :
  labels_between lo hi c -> lo' <= lo -> hi <= hi' -> labels_between lo' hi' c.
Proof.
  intros H Hlo Hhi i l Hin Hl. destruct (H i l Hin Hl) as (n & -> & Hn).
  exists n. split; [reflexivity|lia].
Qed.

Lemma labels_between_one (lo hi : nat) (i : instr) :
  match label_of i with
  | Some l => exists n, l = label_name n /\ lo < n <= hi
  | None => True
  end ->
  labels_between lo hi [i].
Proof.
  intros H j l [<-|[]] Hl. rewrite Hl in H. exact H.
Qed.

Lemma labels_between_cons (lo hi : nat) (i : instr) (code : list instr) :
  match label_of i with
  | Some l => exists n, l = label_name n /\ lo < n <= hi
  | None => True
  end ->
  labels_between lo hi code -> labels_between lo hi (i :: code).
Proof.
  intros Hi Hc. change (i :: code) with ([i] ++ code)%list.
  apply labels_between_app; [apply labels_between_one, Hi|exact Hc].
Qed.

Ltac labels_tac :=
  cbn [app]; rewrite ?app_nil_r;
  repeat first
    [ apply labels_between_nil
    | eapply labels_between_weaken; [eassumption|lia|lia]
    | apply labels_between_cons;
      [simpl; first [exact I | eexists; split; [reflexivity|lia]]|]
    | apply labels_between_app ].

(** *** Guarded jumps *)

Lemma guarded_from_None (prev : option instr) (code : list instr) :
  guarded_from None code -> guarded_from prev code.
Proof.
  destruct code as [|i rest]; [trivial|]. simpl.
  intros [Hi Hr]. split; [|exact Hr]. destruct i; try exact I. contradiction.
Qed.

Lemma guarded_from_app (prev : option instr) (c1 c2 : list instr) :
  guarded_from prev c1 -> guarded_from None c2 -> guarded_from prev (c1 ++ c2).
Proof.
  revert prev. induction c1 as [|i c1 IH]; intros prev H1 H2.
  - apply guarded_from_None, H2.
  - destruct H1 as [Hi Hr]. split; [exact Hi|]. apply IH; assumption.
Qed.

Lemma guarded_from_jump (prev : option instr) (pre : list instr)
    (t l op r label : string) :
  guarded_from prev (pre ++ [IRelOp t l op r]) ->
  guarded_from prev ((pre ++ [IRelOp t l op r]) ++ [IIfFalse t label]).
Proof.
  revert prev. induction pre as [|i pre IH]; intros prev H.
  - simpl. auto.
  - destruct H as [Hi Hr]. split; [exact Hi|]. apply IH, Hr.
Qed.

Lemma guarded_from_cons (i : instr) (code : list instr) :
  match i with IIfFalse _ _ => False | _ => True end ->
  guarded_from None code -> guarded_from None (i :: code).
Proof.
  intros Hi Hc. split; [destruct i; auto|apply guarded_from_None, Hc].
Qed.

Lemma guarded_from_jump_then (pre rest : list instr) (t l op r label : string) :
  guarded_from None (pre ++ [IRelOp t l op r]) ->
  guarded_from None rest ->
  guarded_from None ((pre ++ [IRelOp t l op r]) ++ IIfFalse t label :: rest).
Proof.
  intros Hp Hr.
  change (IIfFalse t label :: rest) with ([IIfFalse t label] ++ rest)%list.
  rewrite app_assoc. apply guarded_from_app; [apply guarded_from_jump, Hp|exact Hr].
Qed.

Ltac guarded_tac :=
  cbn [app]; rewrite ?app_nil_r;
  repeat first
    [ exact I
    | solve [auto]
    | apply guarded_from_jump_then; [solve [auto]|]
    | apply guarded_from_cons; [exact I|]
    | apply guarded_from_app ].

Lemma guarded_from_nth (code : list instr) :
  guarded_from None code ->
  forall i c label,
    nth_error code i = Some (IIfFalse c label) ->
    exists j l op r, i = S j /\ nth_error code j = Some (IRelOp c l op r).
Proof.
  assert (H : forall code prev, guarded_from prev code ->
            forall i c label,
              nth_error code i = Some (IIfFalse c label) ->
              match i with
              | O => exists l op r, prev = Some (IRelOp c l op r)
              | S j => exists l op r, nth_error code j = Some (IRelOp c l op r)
              end).
  { clear. induction code as [|x code IH]; intros prev Hg i c label Hn.
    - destruct i; discriminate.
    - destruct Hg as [Hx Hr]. destruct i as [|i].
      + injection Hn as ->. destruct prev as [[]|]; try contradiction.
        subst. eauto.
      + simpl in Hn. specialize (IH _ Hr i c label Hn).
        destruct i as [|j].
        * destruct IH as (l & op & r & E). injection E as ->.
          exists l, op, r. reflexivity.
        * exact IH. }
  intros Hg i c label Hn. specialize (H code None Hg i c label Hn).
  destruct i as [|j].
  - destruct H as (l & op & r & E). discriminate.
  - destruct H as (l & op & r & E). exists j, l, op, r. split; [reflexivity|exact E].
Qed.


(** *** Every tree is lowered *)

Ltac conjuncts := repeat match goal with |- _ /\ _ => split end.

Lemma format_formattable (v : pyval) :
  formattable v -> exists s, format v = Ok s.
Proof. intros [->|[s ->]]; eexists; reflexivity. Qed.

Lemma depth_children (fuel : nat) (children : list ast) :
  fold_right (fun c n => Nat.max (depth c) n) 0 children <= fuel ->
  Forall (fun c => depth c <= fuel) children.
Proof.
  induction children as [|c cs IH]; intro H; constructor; simpl in H.
  - lia.
  - apply IH. lia.
Qed.

Lemma lowers_children (fuel : nat) (children : list ast) :
  (forall a, depth a <= fuel -> lowers fuel a) ->
  fold_right (fun c n => Nat.max (depth c) n) 0 children <= fuel ->
  Forall (lowers fuel) children.
Proof.
  intros IH H. apply depth_children in H.
  induction H as [|c cs Hc _ IHcs]; constructor; auto.
Qed.

Lemma each_lowers (fuel : nat) (children : list ast) :
  Forall (lowers fuel) children ->
  forall tc0 lc0,
    exists code tc lc,
      emits (gen_visit_each fuel children) tc0 lc0 tt code tc lc
      /\ tc0 <= tc /\ lc0 <= lc /\ labels_between lc0 lc code
      /\ (forallb conditions_are_RelOp children = true -> guarded_from None code).
Proof.
  induction 1 as [|c cs Hc _ IH]; intros tc0 lc0.
  - exists [], tc0, lc0. rewrite gen_visit_each_nil.
    split; [apply emits_ret|].
    conjuncts; try lia; [apply labels_between_nil|intros _; exact I].
  - destruct (Hc tc0 lc0) as (v & code1 & tc1 & lc1 & He1 & H1).
    destruct H1 as (Ht1 & Hl1 & _ & Hb1 & _ & Hg1).
    destruct (IH tc1 lc1) as (code2 & tc2 & lc2 & He2 & Ht2 & Hl2 & Hb2 & Hg2).
    exists (code1 ++ code2)%list, tc2, lc2. rewrite gen_visit_each_cons.
    split.
    { replace (code1 ++ code2)%list with ((code1 ++ []) ++ code2)%list
        by (rewrite app_nil_r; reflexivity).
      eapply emits_bind; [|exact He2].
      eapply emits_bind; [exact He1|apply emits_ret]. }
    unfold well_lowered; conjuncts; try lia.
    + apply labels_between_app.
      * eapply labels_between_weaken; [exact Hb1|lia|lia].
      * eapply labels_between_weaken; [exact Hb2|lia|lia].
    + intro Hc'. simpl in Hc'. apply andb_prop in Hc' as [Hc1 Hc2].
      apply guarded_from_app; auto.
Qed.

Ltac emits_chain :=
  repeat first
    [ match goal with
      | H : format ?v = Ok _ |- context [format ?v] => rewrite H
      end
    | apply emits_ret
    | apply emits_lift
    | apply emits_emit
    | apply emits_new_temp
    | apply emits_new_label
    | eassumption
    | eapply emits_bind; [solve [emits_chain]|cbv beta] ].

Lemma guarded_single (i : instr) :
  label_of i = None \/ (exists l, i = IGoto l) \/ (exists l, i = ILabel l) ->
  guarded_from None [i].
Proof.
  intros [H|[[l ->]|[l ->]]]; simpl; auto.
  destruct i; simpl; try discriminate; auto.
Qed.

Lemma visit_lowers (fuel : nat) (a : ast) : depth a <= fuel -> lowers fuel a.
Proof.
  revert a. induction fuel as [|fuel IH]; intros a Hd.
  { destruct a; simpl in Hd; lia. }
  intros tc0 lc0. destruct a as [children|vt vn value|vn value|c t e|children
                                 |l op r|l op r|value|value line];
    simpl in Hd.
  - (* Program *)
    assert (Hall : Forall (lowers fuel) children).
    { apply lowers_children; [exact IH|lia]. }
    destruct (each_lowers fuel children Hall tc0 lc0)
      as (code & tc & lc & He & Ht & Hl & Hb & Hg).
    exists PNone, (code ++ [])%list, tc, lc. rewrite gen_Program_eq.
    split; [emits_chain|]. rewrite app_nil_r.
    unfold well_lowered; conjuncts; try lia; try (left; reflexivity); auto.
    discriminate.
  - (* VarDecl *)
    rewrite gen_VarDecl_eq. destruct value as [v|].
    + destruct (IH v ltac:(simpl in Hd; lia) tc0 lc0)
        as (x & code & tc & lc & He & Ht & Hl & Hf & Hb & _ & Hg).
      destruct (format_formattable x Hf) as [src Hsrc].
      eexists PNone, _, tc, lc. split; [emits_chain|].
      unfold well_lowered; conjuncts; try lia; try (left; reflexivity).
      * labels_tac.
      * discriminate.
      * intro Hc. specialize (Hg Hc). guarded_tac.
    + eexists PNone, _, tc0, lc0. split; [emits_chain|].
      unfold well_lowered; conjuncts; try lia; try (left; reflexivity).
      * labels_tac.
      * discriminate.
      * intros _. simpl. auto.
  - (* Assign *)
    rewrite gen_Assign_eq.
    destruct (IH value ltac:(lia) tc0 lc0)
      as (x & code & tc & lc & He & Ht & Hl & Hf & Hb & _ & Hg).
    destruct (format_formattable x Hf) as [src Hsrc].
    eexists PNone, _, tc, lc. split; [emits_chain|].
    unfold well_lowered; conjuncts; try lia; try (left; reflexivity).
    + labels_tac.
    + discriminate.
    + intro Hc. specialize (Hg Hc). guarded_tac.
  - (* If *)
    rewrite gen_If_eq.
    destruct (IH c ltac:(lia) tc0 lc0)
      as (xc & codec & tcc & lcc & Hec & Htc & Hlc & Hfc & Hbc & Hrc & Hgc).
    destruct (format_formattable xc Hfc) as [cv Hcv].
    destruct e as [e|].
    + destruct (IH t ltac:(simpl in Hd; lia) tcc (lcc + 1 + 1))
        as (xt & codet & tct & lct & Het & Htt & Hlt & _ & Hbt & _ & Hgt).
      destruct (IH e ltac:(simpl in Hd; lia) tct lct)
        as (xe & codee & tce & lce & Hee & Hte & Hle & _ & Hbe & _ & Hge).
      eexists PNone, _, tce, lce. split; [emits_chain|].
      unfold well_lowered; conjuncts; try lia; try (left; reflexivity).
      * labels_tac.
      * discriminate.
      * intro Hc. simpl in Hc.
        apply andb_prop in Hc as [Hc He']. apply andb_prop in Hc as [Hc Ht'].
        apply andb_prop in Hc as [Hrel Hc].
        destruct (Hrc Hrel) as (pre & tv & lv & ov & rv & -> & ->).
        injection Hcv as <-.
        specialize (Hgc Hc). specialize (Hgt Ht'). specialize (Hge He').
        guarded_tac.
    + destruct (IH t ltac:(simpl in Hd; lia) tcc (lcc + 1))
        as (xt & codet & tct & lct & Het & Htt & Hlt & _ & Hbt & _ & Hgt).
      eexists PNone, _, tct, lct. split; [emits_chain|].
      unfold well_lowered; conjuncts; try lia; try (left; reflexivity).
      * labels_tac.
      * discriminate.
      * intro Hc. simpl in Hc.
        apply andb_prop in Hc as [Hc _]. apply andb_prop in Hc as [Hc Ht'].
        apply andb_prop in Hc as [Hrel Hc].
        destruct (Hrc Hrel) as (pre & tv & lv & ov & rv & -> & ->).
        injection Hcv as <-.
        specialize (Hgc Hc). specialize (Hgt Ht').
        guarded_tac.
  - (* Block *)
    assert (Hall : Forall (lowers fuel) children).
    { apply lowers_children; [exact IH|lia]. }
    destruct (each_lowers fuel children Hall tc0 lc0)
      as (code & tc & lc & He & Ht & Hl & Hb & Hg).
    exists PNone, (code ++ [])%list, tc, lc. rewrite gen_Block_eq.
    split; [emits_chain|]. rewrite app_nil_r.
    unfold well_lowered; conjuncts; try lia; try (left; reflexivity); auto.
    discriminate.
  - (* BinOp *)
    rewrite gen_BinOp_eq.
    destruct (IH l ltac:(lia) tc0 lc0)
      as (xl & codel & tcl & lcl & Hel & Htl & Hll & Hfl & Hbl & _ & Hgl).
    destruct (IH r ltac:(lia) tcl lcl)
      as (xr & coder & tcr & lcr & Her & Htr & Hlr & Hfr & Hbr & _ & Hgr).
    destruct (format_formattable xl Hfl) as [sl Hsl].
    destruct (format_formattable xr Hfr) as [sr Hsr].
    eexists _, _, (tcr + 1), lcr. split; [emits_chain|].
    unfold well_lowered; conjuncts; try lia.
    + right. eexists; reflexivity.
    + labels_tac.
    + discriminate.
    + intro Hc. simpl in Hc. apply andb_prop in Hc as [Hcl Hcr].
      specialize (Hgl Hcl). specialize (Hgr Hcr). guarded_tac.
  - (* RelOp *)
    rewrite gen_RelOp_eq.
    destruct (IH l ltac:(lia) tc0 lc0)
      as (xl & codel & tcl & lcl & Hel & Htl & Hll & Hfl & Hbl & _ & Hgl).
    destruct (IH r ltac:(lia) tcl lcl)
      as (xr & coder & tcr & lcr & Her & Htr & Hlr & Hfr & Hbr & _ & Hgr).
    destruct (format_formattable xl Hfl) as [sl Hsl].
    destruct (format_formattable xr Hfr) as [sr Hsr].
    eexists _, _, (tcr + 1), lcr. split; [emits_chain|].
    unfold well_lowered; conjuncts; try lia.
    + right. eexists; reflexivity.
    + labels_tac.
    + intros _. simpl. rewrite ?app_nil_r.
      exists (codel ++ coder)%list. do 4 eexists.
      split; [rewrite <- app_assoc; reflexivity|reflexivity].
    + intro Hc. simpl in Hc. apply andb_prop in Hc as [Hcl Hcr].
      specialize (Hgl Hcl). specialize (Hgr Hcr). guarded_tac.
  - (* Number *)
    rewrite gen_Number_eq. exists (PStr value), [], tc0, lc0.
    split; [apply emits_ret|].
    unfold well_lowered; conjuncts; try lia; try discriminate.
    + right. eexists; reflexivity.
    + apply labels_between_nil.
    + intros _. exact I.
  - (* Id *)
    rewrite gen_Id_eq. exists (PStr value), [], tc0, lc0.
    split; [apply emits_ret|].
    unfold well_lowered; conjuncts; try lia; try discriminate.
    + right. eexists; reflexivity.
    + apply labels_between_nil.
    + intros _. exact I.
Qed.


(** *** The lowering of an if-else *)

Lemma emits_atom (fuel : nat) (a : ast) (va : string) (tc lc : nat) :
  atom_value a = Some va ->
  emits (visit (S fuel) (to_obj a)) tc lc (PStr va) [] tc lc.
Proof.
  destruct a; try discriminate; intro H; injection H as <-.
  - rewrite gen_Number_eq. apply emits_ret.
  - rewrite gen_Id_eq. apply emits_ret.
Qed.

Lemma atom_depth (a : ast) (va : string) : atom_value a = Some va -> depth a = 1.
Proof. destruct a; try discriminate; reflexivity. Qed.

Lemma labels_between_not (lo hi n : nat) (code : list instr) (i : instr) :
  labels_between lo hi code -> In i code -> n <= lo \/ hi < n ->
  label_of i <> Some (label_name n).
Proof.
  intros Hb Hin Hn E. destruct (Hb i _ Hin E) as (m & Em & Hm).
  apply label_name_injective in Em. lia.
Qed.

(** C9: an if-else whose condition compares two atoms is lowered to the
    comparison, the conditional jump to the else label, the lowering of
    the first branch, the jump to the end label, the else label, the
    lowering of the second branch and the end label, and to nothing else;
    the two labels differ from each other, from every label of the two
    lowerings, from every label minted before and from every label minted
    later, so each is the target of exactly one jump. *)
Theorem c9_if_else_lowering :
  forall (fuel : nat) (a b s1 s2 : ast) (op : Lexer.Token) (va vb : string)
         (code0 : list instr) (tc0 lc0 : nat),
    atom_value a = Some va ->
    atom_value b = Some vb ->
    depth (If (RelOp a op b) s1 (Some s2)) <= S fuel ->
    let t := temp_name (tc0 + 1) in
    let end_label := label_name (lc0 + 1) in
    let else_label := label_name (lc0 + 2) in
    exists lo1 lo2 v1 v2 tc1 lc1 tc2 lc2,
      visit fuel (to_obj s1) (mkGen [] (tc0 + 1) (lc0 + 2))
        = Ok (v1, mkGen lo1 tc1 lc1) /\
      visit fuel (to_obj s2) (mkGen [] tc1 lc1) = Ok (v2, mkGen lo2 tc2 lc2) /\
      visit (S fuel) (to_obj (If (RelOp a op b) s1 (Some s2)))
        (mkGen code0 tc0 lc0)
        = Ok (PNone,
              mkGen (code0
                     ++ [IRelOp t va (Lexer.value op) vb; IIfFalse t else_label]
                     ++ lo1
                     ++ [IGoto end_label; ILabel else_label]
                     ++ lo2
                     ++ [ILabel end_label])%list tc2 lc2) /\
      end_label <> else_label /\
      (forall i, In i (lo1 ++ lo2)%list ->
                 label_of i <> Some end_label /\ label_of i <> Some else_label) /\
      (labels_between 0 lc0 code0 ->
       forall i, In i code0 ->
                 label_of i <> Some end_label /\ label_of i <> Some else_label) /\
      lc0 + 2 <= lc2 /\
      (forall n, lc2 < n ->
                 label_name n <> end_label /\ label_name n <> else_label).
Proof.
  intros fuel a b s1 s2 op va vb code0 tc0 lc0 Ha Hb Hd t end_label else_label.
  simpl in Hd. rewrite (atom_depth a va Ha), (atom_depth b vb Hb) in Hd.
  destruct fuel as [|[|fuel]]; try (simpl in Hd; lia).
  assert (Hcond : emits (visit (S (S fuel)) (to_obj (RelOp a op b))) tc0 lc0
                    (PStr t) [IRelOp t va (Lexer.value op) vb] (tc0 + 1) lc0).
  { rewrite gen_RelOp_eq.
    pose proof (emits_atom fuel a va tc0 lc0 Ha) as Hea.
    pose proof (emits_atom fuel b vb tc0 lc0 Hb) as Heb.
    change [IRelOp t va (Lexer.value op) vb]
      with ([] ++ [] ++ [] ++ [] ++ [] ++ [IRelOp t va (Lexer.value op) vb] ++ [])%list.
    eapply emits_bind; [exact Hea|]. eapply emits_bind; [exact Heb|].
    eapply emits_bind; [apply emits_new_temp|].
    eapply emits_bind; [apply emits_lift|]. eapply emits_bind; [apply emits_lift|].
    eapply emits_bind; [apply emits_emit|]. apply emits_ret. }
  destruct (visit_lowers (S (S fuel)) s1 ltac:(lia) (tc0 + 1) (lc0 + 1 + 1))
    as (v1 & lo1 & tc1 & lc1 & He1 & Ht1 & Hl1 & _ & Hb1 & _).
  destruct (visit_lowers (S (S fuel)) s2 ltac:(lia) tc1 lc1)
    as (v2 & lo2 & tc2 & lc2 & He2 & Ht2 & Hl2 & _ & Hb2 & _).
  subst else_label. replace (lc0 + 2) with (lc0 + 1 + 1) in * by lia.
  set (else_label := label_name (lc0 + 1 + 1)).
  exists lo1, lo2, v1, v2, tc1, lc1, tc2, lc2.
  split; [exact (He1 [])|]. split; [exact (He2 [])|]. split.
  { rewrite gen_If_eq.
    assert (Hall : emits
              (condition_var <- visit (S (S fuel)) (to_obj (RelOp a op b)) ;;
               end_label <- new_label ;;
               (else_label <- new_label ;;
                condition_var <- lift (format condition_var) ;;
                emit (IIfFalse condition_var else_label) ;;
                visit (S (S fuel)) (to_obj s1) ;;
                emit (IGoto end_label) ;;
                emit (ILabel else_label) ;;
                visit (S (S fuel)) (to_obj s2) ;;
                ret tt) ;;
               emit (ILabel end_label) ;;
               ret PNone) tc0 lc0 PNone
              ([IRelOp t va (Lexer.value op) vb]
               ++ []
               ++ ([] ++ [] ++ [IIfFalse t else_label] ++ lo1
                   ++ [IGoto end_label] ++ [ILabel else_label] ++ lo2 ++ [])
               ++ [ILabel end_label] ++ [])%list tc2 lc2).
    { eapply emits_bind; [exact Hcond|].
      eapply emits_bind; [apply emits_new_label|].
      eapply emits_bind.
      - eapply emits_bind; [apply emits_new_label|].
        eapply emits_bind; [apply emits_lift|].
        eapply emits_bind; [apply emits_emit|].
        eapply emits_bind; [exact He1|].
        eapply emits_bind; [apply emits_emit|].
        eapply emits_bind; [apply emits_emit|].
        eapply emits_bind; [exact He2|].
        apply emits_ret.
      - eapply emits_bind; [apply emits_emit|]. apply emits_ret. }
    rewrite (Hall code0). cbn [app]. rewrite ?app_nil_r.
    do 3 f_equal. rewrite <- !app_assoc. reflexivity. }
  assert (Hne : end_label <> else_label).
  { intro E. apply label_name_injective in E. lia. }
  split; [exact Hne|]. split.
  { intros i Hin. apply in_app_or in Hin as [Hin|Hin]; split.
    - apply (labels_between_not _ _ _ _ _ Hb1 Hin). lia.
    - apply (labels_between_not _ _ _ _ _ Hb1 Hin). lia.
    - apply (labels_between_not _ _ _ _ _ Hb2 Hin). lia.
    - apply (labels_between_not _ _ _ _ _ Hb2 Hin). lia. }
  split.
  { intros H0 i Hin. split.
    - apply (labels_between_not _ _ _ _ _ H0 Hin). lia.
    - apply (labels_between_not _ _ _ _ _ H0 Hin). lia. }
  split; [lia|].
  intros n Hn. split; intro E; apply label_name_injective in E; lia.
Qed.

End Gen.

(** ** From the analyzer to the generator *)

Section Pipeline.

Import Ast.

(** C3: in the IR generated from a tree of the language's two types that
    the analyzer accepts without a diagnostic, every conditional jump
    stands right after the comparison instruction whose result it
    tests. *)
Theorem c3_jump_follows_its_comparison :
  forall (fuel : nat) (a : ast),
    declared_types_ok a = true ->
    depth a <= fuel ->
    SemanticAnalyzer.analyze fuel (to_obj a) [] = Ok ("void", []) ->
    exists ir : list IRGenerator.instr,
      IRGenerator.generate_instrs fuel (to_obj a) = Ok ir /\
      IRGenerator.generate fuel (to_obj a) = Ok (map IRGenerator.render ir) /\
      forall (i : nat) (c label : string),
        nth_error ir i = Some (IRGenerator.IIfFalse c label) ->
        exists (j : nat) (l op r : string),
          i = S j /\ nth_error ir j = Some (IRGenerator.IRelOp c l op r).
Proof.
  intros fuel a Hty Hd Hsem.
  assert (Hconds : conditions_are_RelOp a = true).
  { unfold SemanticAnalyzer.analyze, SemanticAnalyzer.analyze_from in Hsem.
    destruct (SemanticAnalyzer.visit fuel (to_obj a) SemanticAnalyzer.initial_scopes)
      as [[r s']|e| |] eqn:Hv; try discriminate.
    - assert (Hs : scopes_ok SemanticAnalyzer.initial_scopes).
      { constructor; [apply map_Forall_empty|constructor]. }
      destruct (visit_accepts fuel a _ _ _ Hs Hty Hv) as (_ & Hc & _). exact Hc.
    - destruct e; discriminate. }
  destruct (visit_lowers fuel a Hd 0 0)
    as (v & code & tc & lc & He & _ & _ & _ & _ & _ & Hg).
  exists code.
  assert (Hgen : IRGenerator.generate_instrs fuel (to_obj a) = Ok code).
  { unfold IRGenerator.generate_instrs, IRGenerator.generate_from.
    rewrite (He []). reflexivity. }
  split; [exact Hgen|]. split.
  - unfold IRGenerator.generate. rewrite Hgen. reflexivity.
  - apply guarded_from_nth, Hg, Hconds.
Qed.

Lemma c3_jump_follows_its_comparison_witness :
  exists ir : list IRGenerator.instr,
    IRGenerator.generate_instrs 5 (to_obj sample_program) = Ok ir /\
    IRGenerator.generate 5 (to_obj sample_program) = Ok (map IRGenerator.render ir) /\
    forall (i : nat) (c label : string),
      nth_error ir i = Some (IRGenerator.IIfFalse c label) ->
      exists (j : nat) (l op r : string),
        i = S j /\ nth_error ir j = Some (IRGenerator.IRelOp c l op r).
Proof.
  apply (c3_jump_follows_its_comparison 5 sample_program).
  - reflexivity.
  - simpl. lia.
  - vm_compute. reflexivity.
Defined.

Lemma c9_if_else_lowering_witness :
  IRGenerator.generate 3
    (to_obj (If (RelOp (Id "a" 1) (Lexer.mkToken "OP_REL" ">" 1) (Id "b" 1))
               (Assign (Lexer.mkToken "ID" "x" 1) (Number "1"))
               (Some (Assign (Lexer.mkToken "ID" "x" 2) (Number "0")))))
  = Ok ["t1 = a > b"; "IF_FALSE t1 GOTO L2"; "x = 1"; "GOTO L1"; "LABEL L2";
        "x = 0"; "LABEL L1"].
Proof.
  destruct (c9_if_else_lowering 2 (Id "a" 1) (Id "b" 1)
              (Assign (Lexer.mkToken "ID" "x" 1) (Number "1"))
              (Assign (Lexer.mkToken "ID" "x" 2) (Number "0"))
              (Lexer.mkToken "OP_REL" ">" 1) "a" "b" [] 0 0
              eq_refl eq_refl ltac:(simpl; lia))
    as (lo1 & lo2 & v1 & v2 & tc1 & lc1 & tc2 & lc2 & H1 & H2 & H & _).
  vm_compute in H1. injection H1 as <- <- <- <-.
  vm_compute in H2. injection H2 as <- <- <- <-.
  unfold IRGenerator.generate, IRGenerator.generate_instrs,
    IRGenerator.generate_from.
  rewrite H. vm_compute. reflexivity.
Defined.

End Pipeline.

(** ** The parser and the missing semicolon *)

Section Parse.

Import Lexer Parser.

(** C8, as stated, fails: in [if (x > 1) a = 1 b = 2;] the assignment
    to [a] lacks its semicolon and an identifier follows; the parser
    records one missing-semicolon diagnostic, but the assignment to [a]
    is the body of the [If] node and the assignment to [b] is the next
    child of the program: the two are not siblings. *)
Lemma c8_counterexample :
  exists errs : list ParseError,
    parse 10 (fst (tokenize if_body_source))
      = Ok (Program_ [if_with_body; assign_b], errs) /\
    filter is_missing_semicolon errs
      = [missing_semicolon "statement" (mkToken "ID" "b" 1)] /\
    ~ In assign_a [if_with_body; assign_b].
Proof.
  eexists. split; [vm_compute; reflexivity|]. split; [vm_compute; reflexivity|].
  intros [H|[H|[]]]; discriminate H.
Qed.


Lemma statement_S_eq (fuel : nat) :
  statement (S fuel)
  = (cur <- gets current_token ;;
     if value cur =? "if" then if_statement fuel (statement fuel)
     else if value cur =? "{" then block fuel (statement fuel)
     else
       node <- expression fuel ;;
       semicolon fuel "statement" "expression statement" ;;
       ret node).
Proof. reflexivity. Qed.

Lemma semicolon_missing (fuel : nat) (what after : string) (s : pstate) :
  value (current_token s) <> ";" ->
  starts_statement (current_token s) = true ->
  semicolon fuel what after s
  = Ok (tt, with_error s (missing_semicolon what (current_token s))).
Proof.
  intros Hsemi Hstart. unfold semicolon, bind, gets.
  apply String.eqb_neq in Hsemi. rewrite Hsemi, Hstart. reflexivity.
Qed.

Lemma statement_missing_semicolon (fuel : nat) (s s1 : pstate) (node : pyval) :
  value (current_token s) <> "if" ->
  value (current_token s) <> "{" ->
  expression fuel s = Ok (node, s1) ->
  value (current_token s1) <> ";" ->
  starts_statement (current_token s1) = true ->
  statement (S fuel) s
  = Ok (node, with_error s1 (missing_semicolon "statement" (current_token s1))).
Proof.
  intros Hif Hbrace Hexpr Hsemi Hstart. rewrite statement_S_eq.
  apply String.eqb_neq in Hif, Hbrace.
  unfold bind at 1, gets at 1. rewrite Hif, Hbrace.
  unfold bind at 1. rewrite Hexpr.
  unfold bind. rewrite (semicolon_missing _ _ _ _ Hsemi Hstart). reflexivity.
Qed.

Lemma declaration_missing_semicolon (fuel : nat) (s s1 s2 : pstate)
    (type_node : pyval) (declarations : list pyval) :
  type_specifier s = Ok (type_node, s1) ->
  declaration_loop fuel type_node [] s1 = Ok (declarations, s2) ->
  value (current_token s2) <> ";" ->
  starts_statement (current_token s2) = true ->
  declaration fuel s
  = Ok (declarations,
        with_error s2 (missing_semicolon "declaration" (current_token s2))).
Proof.
  intros Hty Hloop Hsemi Hstart. unfold declaration.
  unfold bind at 1. rewrite Hty. unfold bind at 1. rewrite Hloop.
  unfold bind. rewrite (semicolon_missing _ _ _ _ Hsemi Hstart). reflexivity.
Qed.

Lemma program_eq (fuel : nat) :
  program fuel
  = (children <- while fuel not_at_EOF (program_body fuel) [] ;;
     ret (Program_ children)).
Proof. reflexivity. Qed.

Lemma program_body_item (fuel : nat) (children : list pyval) (s : pstate) :
  program_body fuel children s
  = match program_item fuel s with
    | Ok (nodes, s') => Ok ((children ++ nodes)%list, s')
    | Raise e => Raise e
    | OutOfFuel => OutOfFuel
    | Unmodelled => Unmodelled
    end.
Proof.
  unfold program_body, program_item, bind, gets.
  destruct (str_in _ _).
  - destruct (declaration fuel s) as [[d s']| | |]; reflexivity.
  - destruct (statement fuel s) as [[n s']| | |]; reflexivity.
Qed.

Lemma not_at_EOF_true (s : pstate) :
  type (current_token s) <> "EOF" -> not_at_EOF s = Ok (true, s).
Proof.
  intro H. apply String.eqb_neq in H. unfold not_at_EOF, bind, gets, ret.
  rewrite H. reflexivity.
Qed.

Lemma block_eq (fuel : nat) (statement : P pyval) :
  block fuel statement
  = (eat "DELIM" (Some "{") ;;
     statements <- while fuel in_block (block_body statement) [] ;;
     cur <- gets current_token ;;
     (if value cur =? "}" then eat "DELIM" (Some "}")
      else
        append_error
          (mkParseError
             ("Missing '}' to close block. Encountered " ++ type cur ++ "('"
              ++ value cur ++ "')") (Lexer.line cur) None)) ;;
     ret (Block statements)).
Proof. reflexivity. Qed.

Lemma in_block_true (s : pstate) :
  value (current_token s) <> "}" -> type (current_token s) <> "EOF" ->
  in_block s = Ok (true, s).
Proof.
  intros Hv Ht. apply String.eqb_neq in Hv, Ht.
  unfold in_block, bind, gets, ret. rewrite Hv, Ht. reflexivity.
Qed.

End Parse.

(** ** The lexer *)

Section Lex.

Import Lexer.

Lemma span_app (p : ascii -> bool) (cs : list ascii) :
  cs = (fst (span p cs) ++ snd (span p cs))%list /\ Forall (fun c => p c = true) (fst (span p cs)).
Proof.
  induction cs as [|c r IH]; simpl.
  - split; [reflexivity | constructor].
  - destruct (p c) eqn:E.
    + destruct (span p r) as [a b]. simpl in *. destruct IH as [IH1 IH2].
      split; [f_equal; exact IH1 | constructor; assumption].
    + simpl. split; [reflexivity | constructor].
Qed.

Lemma newlines_app (a b : list ascii) : newlines (a ++ b) = (newlines a + newlines b)%Z.
Proof. induction a as [|c a IH]; cbn [newlines app]; [reflexivity | rewrite IH; lia]. Qed.

Lemma newlines_none (p : ascii -> bool) (cs : list ascii) :
  p "010"%char = false -> Forall (fun c => p c = true) cs -> newlines cs = 0%Z.
Proof.
  intros Hp H. induction H as [|c r Hc _ IH]; [reflexivity|].
  cbn [newlines]. rewrite IH.
  destruct (Ascii.eqb_spec c "010"%char) as [->|_]; [congruence | reflexivity].
Qed.

(** What one match consumes: a non-empty prefix of the input, holding a
    line feed exactly when the match is a [NEWLINE]. *)
Lemma match_token_consumes (c : ascii) (r : list ascii) :
  exists used : list ascii,
    c :: r = app used (snd (match_token c r)) /\ used <> [] /\
    newlines used = (match fst (match_token c r) with NEWLINE => 1 | _ => 0 end)%Z.
Proof.
  unfold match_token.
  destruct (is_digit c) eqn:Hd.
  - destruct (span_app is_digit r) as [Hr Hf].
    destruct (span is_digit r) as [ds r1] eqn:Es. cbn [fst snd] in Hr, Hf.
    assert (Hds : newlines (c :: ds) = 0%Z).
    { apply (newlines_none is_digit); [reflexivity | constructor; assumption]. }
    assert (Hplain : exists used : list ascii,
               c :: r = app used r1 /\ used <> [] /\ newlines used = 0%Z).
    { exists (c :: ds). rewrite Hr. split; [reflexivity|]. split; [discriminate | exact Hds]. }
    destruct r1 as [|d1 [|d r2]]; try exact Hplain.
    + destruct d1 as [[] [] [] [] [] [] [] []]; exact Hplain.
    + destruct (Ascii.eqb_spec d1 "."%char) as [->|Hne].
      * destruct (is_digit d) eqn:Hd2.
        -- destruct (span_app is_digit r2) as [Hr2 Hf2].
           destruct (span is_digit r2) as [fs r3] eqn:Es2. cbn [fst snd] in Hr2, Hf2 |- *.
           exists (c :: ds ++ "."%char :: d :: fs)%list. split; [|split; [discriminate|]].
           ++ rewrite Hr, Hr2 at 1. cbn [app]. rewrite <- !app_assoc. reflexivity.
           ++ change (c :: ds ++ "."%char :: d :: fs)%list
                with ((c :: ds) ++ "."%char :: d :: fs)%list.
              rewrite newlines_app, Hds. cbn [newlines].
              rewrite (newlines_none is_digit fs) by (reflexivity || assumption).
              destruct (Ascii.eqb_spec d "010"%char) as [->|_]; [discriminate Hd2 | reflexivity].
        -- exact Hplain.
      * destruct d1 as [[] [] [] [] [] [] [] []]; try exact Hplain. congruence.
  - destruct (is_alpha_ c) eqn:Ha.
    + destruct (span_app is_word r) as [Hr Hf].
      destruct (span is_word r) as [ws r1] eqn:Es. cbn [fst snd] in Hr, Hf |- *.
      exists (c :: ws). rewrite Hr at 1. split; [reflexivity|]. split; [discriminate|].
      apply (newlines_none is_word); [reflexivity|].
      constructor; [unfold is_word; rewrite Ha; reflexivity | assumption].
    + destruct (span_app (fun x => existsb (Ascii.eqb x) [" "; "009"]%char) r) as [Hr Hf].
      destruct (span (fun x => existsb (Ascii.eqb x) [" "; "009"]%char) r) as [sp r1] eqn:Es.
      cbn [fst snd] in Hr, Hf.
      assert (Hsp : newlines sp = 0%Z)
        by (apply (newlines_none (fun x => existsb (Ascii.eqb x) [" "; "009"]%char));
            [reflexivity | assumption]).
      destruct c as [[] [] [] [] [] [] [] []]; try discriminate Hd; try discriminate Ha;
        cbn;
        try (eexists [_]; cbn; split; [reflexivity|]; split; [discriminate | reflexivity]).
      all: try (destruct r as [|[[] [] [] [] [] [] [] []] r']; cbn;
             first [ eexists [_]; cbn; split; [reflexivity|]; split; [discriminate | reflexivity]
                   | eexists [_; _]; cbn; split; [reflexivity|]; split; [discriminate | reflexivity] ]).
      all: match goal with |- exists _, ?c :: _ = _ /\ _ => exists (c :: sp) end;
        rewrite Hr at 1; (split; [reflexivity|]); (split; [discriminate|]);
        cbn [newlines]; rewrite Hsp; reflexivity.
Qed.

Lemma match_token_shorter (c : ascii) (r rest : list ascii) (lx : lexeme) :
  match_token c r = (lx, rest) -> length rest <= length r.
Proof.
  intro E. destruct (match_token_consumes c r) as (used & Hu & Hne & _).
  rewrite E in Hu. cbn [snd] in Hu.
  apply (f_equal (@length ascii)) in Hu. rewrite length_app in Hu. cbn [length] in Hu.
  destruct used; [congruence | cbn [length] in Hu; lia].
Qed.

Lemma match_token_newlines (c : ascii) (r rest : list ascii) (lx : lexeme) :
  match_token c r = (lx, rest) ->
  newlines (c :: r) = ((match lx with NEWLINE => 1 | _ => 0 end) + newlines rest)%Z.
Proof.
  intro E. destruct (match_token_consumes c r) as (used & Hu & _ & Hn).
  rewrite E in Hu, Hn. cbn [fst snd] in Hu, Hn. rewrite Hu, newlines_app, Hn. reflexivity.
Qed.

Lemma newlines_nonneg (cs : list ascii) : (0 <= newlines cs)%Z.
Proof.
  induction cs as [|c r IH]; cbn [newlines]; [lia|].
  destruct (Ascii.eqb c "010"%char); lia.
Qed.

(** The text of a lexeme is never empty. *)
Lemma match_token_text (c : ascii) (r : list ascii) :
  match fst (match_token c r) with
  | NUMBER v | ID v | OP_REL v | OP_ASSIGN v | OP_ARITH v | DELIM v | MISMATCH v => v <> ""
  | NEWLINE | SKIP => True
  end.
Proof.
  unfold match_token.
  destruct (is_digit c).
  - destruct (span is_digit r) as [ds r1].
    destruct r1 as [|d1 [|d r2]]; cbn; try discriminate.
    + destruct d1 as [[] [] [] [] [] [] [] []]; cbn; discriminate.
    + destruct d1 as [[] [] [] [] [] [] [] []]; cbn; try discriminate.
      destruct (is_digit d); [destruct (span is_digit r2)|]; cbn; discriminate.
  - destruct (is_alpha_ c).
    + destruct (span is_word r). cbn. discriminate.
    + destruct c as [[] [] [] [] [] [] [] []]; cbn; try discriminate; trivial.
      all: destruct r as [|[[] [] [] [] [] [] [] []] r']; cbn; try discriminate; trivial.
Qed.

(** The loop of [tokenize] does not depend on the tokens and errors
    found so far, nor on the iterations left once there are enough. *)
Lemma scan_acc (n : nat) :
  forall (cs : list ascii), length cs <= n ->
  forall (fuel : nat) (line_num : Z) (tokens : list Token) (errors : list string),
    length cs <= fuel ->
    scan fuel cs line_num tokens errors
    = let '(t, e, l) := scan (length cs) cs line_num [] [] in
      (app tokens t, app errors e, l).
Proof.
  induction n as [|n IH]; intros cs Hn fuel line_num tokens errors Hf.
  - destruct cs; [|cbn [length] in Hn; lia].
    destruct fuel; cbn; rewrite !app_nil_r; reflexivity.
  - destruct cs as [|c r].
    + destruct fuel; cbn; rewrite !app_nil_r; reflexivity.
    + destruct fuel as [|fuel]; [cbn [length] in Hf; lia|].
      cbn [length] in *. cbn [scan].
      destruct (match_token c r) as [lx rest] eqn:E.
      pose proof (match_token_shorter _ _ _ _ E) as Hs.
      assert (H1 : forall l t e,
                 scan fuel rest l t e
                 = let '(t', e', l') := scan (length rest) rest l [] [] in
                   (app t t', app e e', l'))
        by (intros; apply IH; lia).
      assert (H2 : forall l t e,
                 scan (length r) rest l t e
                 = let '(t', e', l') := scan (length rest) rest l [] [] in
                   (app t t', app e e', l'))
        by (intros; apply IH; lia).
      destruct lx; try destruct (str_in text KEYWORDS);
        rewrite H1, H2;
        match goal with |- context [scan (length rest) rest ?l [] []] =>
          destruct (scan (length rest) rest l [] []) as [[t' e'] l'] end;
        cbn [app]; rewrite <- ?app_assoc; reflexivity.
Qed.

Lemma lexed_token_weaken (a b a' b' : Z) (t : Token) :
  (a' <= a)%Z -> (b <= b')%Z -> lexed_token a b t -> lexed_token a' b' t.
Proof. unfold lexed_token. intros ? ? (? & ? & ? & ? & ?). repeat split; auto; lia. Qed.

(** What the loop of [tokenize] computes: the line counter advances by
    the number of line feeds and every token appended is well formed. *)
Lemma scan_spec (n : nat) :
  forall (cs : list ascii), length cs <= n ->
  forall (line_num : Z),
    let '(t, e, l) := scan (length cs) cs line_num [] [] in
    l = (line_num + newlines cs)%Z /\ Forall (lexed_token line_num l) t.
Proof.
  induction n as [|n IH]; intros cs Hn line_num.
  - destruct cs; [|cbn [length] in Hn; lia]. cbn. split; [lia | constructor].
  - destruct cs as [|c r]; [cbn; split; [lia | constructor]|].
    cbn [length] in *. cbn [scan].
    destruct (match_token c r) as [lx rest] eqn:E.
    pose proof (match_token_shorter _ _ _ _ E) as Hs.
    pose proof (match_token_newlines _ _ _ _ E) as Hnl.
    pose proof (match_token_text c r) as Htx. rewrite E in Htx. cbn [fst] in Htx.
    pose proof (newlines_nonneg rest) as Hpos.
    assert (H2 : forall l t e,
               scan (length r) rest l t e
               = let '(t', e', l') := scan (length rest) rest l [] [] in
                 (app t t', app e e', l'))
      by (intros; apply (scan_acc (length r)); lia).
    assert (Hrest : forall l,
               let '(t, e, l') := scan (length rest) rest l [] [] in
               l' = (l + newlines rest)%Z /\ Forall (lexed_token l l') t)
      by (intro l; apply IH; lia).
    destruct lx; try destruct (str_in text KEYWORDS) eqn:Ek;
      rewrite H2;
      match goal with |- context [scan (length rest) rest ?l [] []] =>
        specialize (Hrest l);
        destruct (scan (length rest) rest l [] []) as [[t' e'] l'] end;
      destruct Hrest as [Hl Ht]; rewrite Hnl; (split; [lia|]); cbn [app];
      try (constructor;
           [unfold lexed_token; cbn [type value line];
            repeat split; try assumption; try discriminate; try reflexivity;
            try (intros _; exact Ek); try lia
           |]);
      (eapply Forall_impl; [exact Ht|]; intros t0 H0;
       eapply lexed_token_weaken; [| |exact H0]; lia).
Qed.

(** The shape of what [tokenize] returns. *)
Lemma tokenize_shape (code : string) :
  exists (body : list Token) (last : Z),
    fst (tokenize code) = app body [mkToken "EOF" "EOF" last] /\
    Forall (lexed_token 1 last) body.
Proof.
  unfold tokenize.
  pose proof (scan_spec _ (list_ascii_of_string code) (le_n _) 1%Z) as H.
  destruct (scan _ _ 1%Z [] []) as [[t e] l]. destruct H as [_ H].
  exists t, l. cbn [fst]. split; [reflexivity | exact H].
Qed.

(** X1: every token [tokenize] returns before the final [EOF] token has
    one of the seven token types (never the type [OP] the parser asks
    for), a non-empty text and a line between 1 and the line of the
    [EOF] token; an [ID] token is never a keyword and a [KEYWORD] token
    always is. *)
Theorem tokenize_tokens_well_formed :
  forall code : string,
    exists (body : list Token) (last : Z),
      fst (tokenize code) = app body [mkToken "EOF" "EOF" last] /\
      Forall (lexed_token 1 last) body /\
      Forall (fun t => type t <> "OP" /\ type t <> "EOF") body.
Proof.
  intro code. destruct (tokenize_shape code) as (body & last & E & H).
  exists body, last. split; [exact E|]. split; [exact H|].
  eapply Forall_impl; [exact H|]. intros tok (Hty & _).
  split; intro E'; rewrite E' in Hty; discriminate Hty.
Qed.

(** X2: the line of the final [EOF] token is one more than the number of
    line feeds in the source text. *)
Theorem tokenize_counts_lines :
  forall code : string,
    exists body : list Token,
      fst (tokenize code)
      = app body [mkToken "EOF" "EOF" (1 + newlines (list_ascii_of_string code))].
Proof.
  intro code. unfold tokenize.
  pose proof (scan_spec _ (list_ascii_of_string code) (le_n _) 1%Z) as H.
  destruct (scan _ _ 1%Z [] []) as [[t e] l]. destruct H as [-> _].
  exists t. reflexivity.
Qed.

(** X3: a comment is not skipped.  The two slashes are lexed as two
    arithmetic operators, and the text after them as if it stood alone. *)
Theorem tokenize_comment_is_not_skipped :
  forall rest : string,
    tokenize ("//" ++ rest)
    = (mkToken "OP_ARITH" "/" 1 :: mkToken "OP_ARITH" "/" 1 :: fst (tokenize rest),
       snd (tokenize rest)).
Proof.
  intro rest. unfold tokenize.
  change (list_ascii_of_string ("//" ++ rest))
    with ("/"%char :: "/"%char :: list_ascii_of_string rest).
  set (cs := list_ascii_of_string rest).
  change (scan (length ("/"%char :: "/"%char :: cs)) ("/"%char :: "/"%char :: cs) 1 [] [])
    with (scan (length cs) cs 1 [mkToken "OP_ARITH" "/" 1; mkToken "OP_ARITH" "/" 1] []).
  rewrite (scan_acc (length cs)) by lia.
  destruct (scan (length cs) cs 1 [] []) as [[t e] l]. reflexivity.
Qed.

End Lex.

(** ** What the parser keeps *)

Section ParseInv.

Import Lexer Parser.

Lemma index_nonneg {A : Type} (l : list A) (i : Z) (x : A) :
  (0 <= i)%Z -> nth_error l (Z.to_nat i) = Some x -> index l i = Ok x.
Proof.
  intros Hi H. unfold index.
  destruct (i <? 0)%Z eqn:E; [apply Z.ltb_lt in E; lia|]. rewrite E, H. reflexivity.
Qed.

Lemma index_minus_one {A : Type} (l : list A) (x : A) :
  nth_error l (length l - 1) = Some x -> index l (-1) = Ok x.
Proof.
  intro H. assert (Hl : (0 < length l)%nat).
  { destruct l; [cbn in H; discriminate H | cbn; lia]. }
  unfold index. replace (-1 <? 0)%Z with true by reflexivity.
  destruct (-1 + Z.of_nat (length l) <? 0)%Z eqn:E; [apply Z.ltb_lt in E; lia|].
  replace (Z.to_nat (-1 + Z.of_nat (length l))) with (length l - 1)%nat by lia.
  rewrite H. reflexivity.
Qed.

(** [advance] never fails on a parser that is at a token: it moves the
    position by one and stays on the last token at the end. *)
Lemma advance_spec (s : pstate) :
  at_token s ->
  exists t,
    advance s = Ok (tt, mkPstate (tokens s) (pos s + 1) t (errors s)) /\
    at_token (mkPstate (tokens s) (pos s + 1) t (errors s)).
Proof.
  intros [Hpos Hcur].
  assert (Hl : (0 < length (tokens s))%nat).
  { destruct (tokens s); [rewrite nth_error_nil in Hcur; discriminate | cbn; lia]. }
  unfold advance, bind, get, put, lift.
  destruct (pos s + 1 <? Z.of_nat (length (tokens s)))%Z eqn:E.
  - apply Z.ltb_lt in E.
    destruct (nth_error (tokens s) (Z.to_nat (pos s + 1))) as [t|] eqn:En.
    + exists t. rewrite (index_nonneg _ _ t) by (lia || assumption).
      split; [reflexivity|]. split; cbn [pos tokens current_token]; [lia|].
      rewrite Nat.min_l by lia. exact En.
    + apply nth_error_None in En. lia.
  - apply Z.ltb_ge in E.
    destruct (nth_error (tokens s) (length (tokens s) - 1)) as [t|] eqn:En.
    + exists t. rewrite (index_minus_one _ t En).
      split; [reflexivity|]. split; cbn [pos tokens current_token]; [lia|].
      rewrite Nat.min_r by lia. exact En.
    + apply nth_error_None in En. lia.
Qed.

Lemma firstn_succ_nth {A : Type} (l : list A) (n : nat) (x : A) :
  nth_error l n = Some x -> firstn (S n) l = (firstn n l ++ [x])%list.
Proof.
  revert l. induction n as [|n IH]; intros [|y l] H; try discriminate H.
  - injection H as ->. reflexivity.
  - cbn [firstn]. cbn [nth_error] in H. rewrite (IH _ H). reflexivity.
Qed.

Lemma skipn_firstn_split {A : Type} (l : list A) (a b c : nat) :
  a <= b -> b <= c ->
  skipn a (firstn c l) = (skipn a (firstn b l) ++ skipn b (firstn c l))%list.
Proof.
  intros Hab Hbc.
  rewrite <- (firstn_skipn b (firstn c l)) at 1.
  rewrite firstn_firstn, Nat.min_l by lia.
  rewrite skipn_app. f_equal.
  rewrite length_firstn.
  destruct (Nat.le_gt_cases b (length l)) as [H|H].
  - rewrite Nat.min_l by lia. replace (a - b) with 0 by lia. reflexivity.
  - rewrite (skipn_all2 (n := b)) by (rewrite length_firstn; lia).
    apply skipn_nil.
Qed.

Lemma moves_refl (s : pstate) : at_token s -> moves s s.
Proof.
  intro H. split; [exact H|]. split; [reflexivity|]. split; [lia|].
  exists []. rewrite app_nil_r. reflexivity.
Qed.

Lemma moves_trans (s s1 s2 : pstate) : moves s s1 -> moves s1 s2 -> moves s s2.
Proof.
  intros (_ & Ht1 & Hp1 & n1 & He1) (Hat & Ht2 & Hp2 & n2 & He2).
  split; [exact Hat|]. split; [congruence|]. split; [lia|].
  exists (n1 ++ n2)%list. rewrite He2, He1, app_assoc. reflexivity.
Qed.

Lemma passed_refl (s : pstate) : passed s s = [].
Proof.
  unfold passed. apply skipn_all2. rewrite length_firstn. lia.
Qed.

Lemma passed_trans (s s1 s2 : pstate) :
  moves s s1 -> moves s1 s2 -> passed s s2 = (passed s s1 ++ passed s1 s2)%list.
Proof.
  intros (_ & Ht1 & Hp1 & _) (_ & Ht2 & Hp2 & _). unfold passed. rewrite Ht1.
  apply skipn_firstn_split; lia.
Qed.

Lemma app_eq_self {A : Type} (l n : list A) : (l ++ n)%list = l -> n = [].
Proof.
  intro H. apply (f_equal (@length A)) in H. rewrite length_app in H.
  destruct n; [reflexivity | cbn in H; lia].
Qed.

(** Moving past the current token. *)
Lemma advance_moves (s : pstate) :
  at_token s ->
  match advance s with
  | Ok (_, s') =>
      moves s s' /\ errors s' = errors s /\
      (passed s s' = [] \/ passed s s' = [current_token s])
  | _ => False
  end.
Proof.
  intros Hat. destruct (advance_spec s Hat) as (t & -> & Hat').
  split; [|split; [reflexivity|]].
  - split; [exact Hat'|]. split; [reflexivity|]. cbn [pos errors]. split; [lia|].
    exists []. rewrite app_nil_r. reflexivity.
  - unfold passed. cbn [pos tokens]. destruct Hat as [Hpos Hcur].
    replace (Z.to_nat (pos s + 1)) with (S (Z.to_nat (pos s))) by lia.
    destruct (Nat.lt_ge_cases (Z.to_nat (pos s)) (length (tokens s))) as [Hlt|Hge].
    + right. rewrite Nat.min_l in Hcur by lia.
      rewrite (firstn_succ_nth _ _ _ Hcur), skipn_app.
      rewrite (skipn_all2 (n := Z.to_nat (pos s))) by (rewrite length_firstn; lia).
      rewrite length_firstn, Nat.min_l by lia. rewrite Nat.sub_diag. reflexivity.
    + left. apply skipn_all2. rewrite length_firstn. lia.
Qed.

Lemma advance_dirty : keeps_dirty advance.
Proof.
  intros s Hat. pose proof (advance_moves s Hat) as H.
  destruct (advance s) as [[[] s']| | |]; try exact I. apply H.
Qed.

(** *** The invariants through the monad *)

Lemma keeps_ret {A : Type} (a : A) : keeps (ret a).
Proof.
  intros s H. cbn. split; [apply moves_refl, H|]. intros _. rewrite passed_refl. constructor.
Qed.

Lemma keeps_raise {A : Type} (e : exn) : keeps (@raise pstate A e).
Proof. intros s H. exact I. Qed.

Lemma keeps_out_of_fuel {A : Type} : keeps (@out_of_fuel pstate A).
Proof. intros s H. exact I. Qed.

Lemma keeps_get : keeps (@get pstate).
Proof. intros s H. exact (keeps_ret s s H). Qed.

Lemma keeps_gets {A : Type} (f : pstate -> A) : keeps (gets f).
Proof. intros s H. exact (keeps_ret (f s) s H). Qed.

Lemma keeps_lift {A : Type} (o : outcome A) : keeps (@lift pstate A o).
Proof. intros s H. unfold lift. destruct o; try exact I. exact (keeps_ret a s H). Qed.

Lemma keeps_bind {A B : Type} (m : P A) (k : A -> P B) :
  keeps m -> (forall a, keeps (k a)) -> keeps (bind m k).
Proof.
  intros Hm Hk s Hs. unfold bind. specialize (Hm s Hs).
  destruct (m s) as [[a s1]| | |]; try exact I.
  destruct Hm as (Hm1 & Hc1). specialize (Hk a s1 (proj1 Hm1)).
  destruct (k a s1) as [[b s2]| | |]; try exact I.
  destruct Hk as (Hm2 & Hc2).
  split; [exact (moves_trans _ _ _ Hm1 Hm2)|].
  intro He. rewrite (passed_trans _ _ _ Hm1 Hm2).
  destruct Hm1 as (_ & _ & _ & n1 & He1). destruct Hm2 as (_ & _ & _ & n2 & He2).
  rewrite He2, He1, <- app_assoc in He. apply app_eq_self in He.
  apply app_eq_nil in He as [-> ->]. rewrite app_nil_r in He1, He2.
  apply Forall_app. split; [apply Hc1; exact He1 | apply Hc2; exact He2].
Qed.

Lemma keeps_while {A : Type} (cond : P bool) (body : A -> P A) :
  keeps cond -> (forall a, keeps (body a)) ->
  forall fuel acc, keeps (while fuel cond body acc).
Proof.
  intros Hc Hb. induction fuel as [|fuel IH]; intro acc; [apply keeps_out_of_fuel|].
  cbn [while]. apply keeps_bind; [exact Hc|]. intros [|].
  - apply keeps_bind; [apply Hb | intro; apply IH].
  - apply keeps_ret.
Qed.

Lemma dirty_ret {A : Type} (a : A) : keeps_dirty (ret a).
Proof. intros s H. cbn. apply moves_refl, H. Qed.

Lemma dirty_gets {A : Type} (f : pstate -> A) : keeps_dirty (gets f).
Proof. intros s H. cbn. apply moves_refl, H. Qed.

Lemma dirty_bind {A B : Type} (m : P A) (k : A -> P B) :
  keeps_dirty m -> (forall a, keeps_dirty (k a)) -> keeps_dirty (bind m k).
Proof.
  intros Hm Hk s Hs. unfold bind. specialize (Hm s Hs).
  destruct (m s) as [[a s1]| | |]; try exact I.
  specialize (Hk a s1 (proj1 Hm)).
  destruct (k a s1) as [[b s2]| | |]; try exact I.
  exact (moves_trans _ _ _ Hm Hk).
Qed.

Lemma dirty_while {A : Type} (cond : P bool) (body : A -> P A) :
  keeps_dirty cond -> (forall a, keeps_dirty (body a)) ->
  forall fuel acc, keeps_dirty (while fuel cond body acc).
Proof.
  intros Hc Hb. induction fuel as [|fuel IH]; intro acc; [intros s H; exact I|].
  cbn [while]. apply dirty_bind; [exact Hc|]. intros [|].
  - apply dirty_bind; [apply Hb | intro; apply IH].
  - apply dirty_ret.
Qed.

(** Recording a diagnostic and going on. *)
Lemma keeps_after_error {A : Type} (e : ParseError) (m : P A) :
  keeps_dirty m -> keeps (append_error e ;; m).
Proof.
  intros Hm s Hat. unfold bind, append_error, modify.
  set (s1 := mkPstate (tokens s) (pos s) (current_token s) (errors s ++ [e])).
  specialize (Hm s1 Hat).
  destruct (m s1) as [[a s2]| | |]; try exact I.
  destruct Hm as (Hat2 & Ht2 & Hp2 & n2 & He2). cbn [tokens pos errors s1] in *.
  split.
  - split; [exact Hat2|]. split; [exact Ht2|]. split; [exact Hp2|].
    exists ([e] ++ n2)%list. rewrite He2, <- app_assoc. reflexivity.
  - intro He. rewrite He2, <- app_assoc in He. apply app_eq_self in He. discriminate He.
Qed.

Lemma keeps_append_error (e : ParseError) : keeps (append_error e).
Proof.
  intros s Hat. cbn. split.
  - split; [exact Hat|]. split; [reflexivity|]. split; [cbn; lia|]. exists [e]. reflexivity.
  - cbn. intro He. apply app_eq_self in He. discriminate He.
Qed.

(** *** The functions of the parser *)

Lemma keeps_eat (token_type : string) (token_value : option string) :
  str_in token_type eaten_types = true -> keeps (eat token_type token_value).
Proof.
  intros Hty s Hs. unfold eat. unfold bind at 1. cbn [gets].
  destruct ((type (current_token s) =? token_type) && _) eqn:E.
  - pose proof (advance_moves s Hs) as H.
    destruct (advance s) as [[[] s']| | |]; try exact I.
    destruct H as (Hm & _ & Hp). split; [exact Hm|]. intros _.
    destruct Hp as [-> | ->]; constructor; [|constructor].
    apply andb_prop in E as [E _]. apply String.eqb_eq in E. rewrite E. exact Hty.
  - apply (keeps_after_error _ (if negb (type (current_token s) =? "EOF") then advance else ret tt));
      [|exact Hs].
    destruct (negb _); [apply advance_dirty | apply dirty_ret].
Qed.

Lemma keeps_error (fuel : nat) (message : string) (suggestion : option string) :
  keeps (error fuel message suggestion).
Proof.
  intros s Hs. unfold error. unfold bind at 1. cbn [gets].
  match goal with |- match (append_error ?e ;; ?m) s with _ => _ end =>
    apply (keeps_after_error e m); [|exact Hs] end.
  apply dirty_bind.
  - apply dirty_while; [|intro; apply advance_dirty].
    apply dirty_bind; [apply dirty_gets | intro; apply dirty_ret].
  - intros _. apply dirty_bind; [apply dirty_gets|]. intro cur.
    destruct (value cur =? ";"); [apply advance_dirty | apply dirty_ret].
Qed.

Ltac keeps_step :=
  repeat first
    [ assumption
    | apply keeps_ret
    | apply keeps_raise
    | apply keeps_out_of_fuel
    | apply keeps_get
    | apply keeps_gets
    | apply keeps_lift
    | apply keeps_append_error
    | apply keeps_error
    | apply keeps_eat; reflexivity
    | apply keeps_bind; [|intro]
    | apply keeps_while; [|intro]
    | match goal with
      | |- keeps (if ?b then _ else _) => destruct b
      | |- keeps (match ?x with _ => _ end) => destruct x
      end ].

Lemma keeps_variable : keeps variable.
Proof. unfold variable. keeps_step. Qed.

Lemma keeps_primary (expression : P pyval) : keeps expression -> keeps (primary expression).
Proof. intro H. unfold primary, Token_global. pose proof keeps_variable. keeps_step. Qed.

Lemma keeps_binop_loop (fuel : nat) (ops : list string) (operand : P pyval) (node : pyval) :
  keeps operand -> keeps (binop_loop fuel ops operand node).
Proof. intro H. unfold binop_loop. keeps_step. Qed.

Lemma keeps_factor (fuel : nat) (expression : P pyval) :
  keeps expression -> keeps (factor fuel expression).
Proof.
  intro H. unfold factor. pose proof (keeps_primary _ H).
  apply keeps_bind; [assumption | intro; apply keeps_binop_loop; assumption].
Qed.

Lemma keeps_term (fuel : nat) (expression : P pyval) :
  keeps expression -> keeps (term fuel expression).
Proof.
  intro H. unfold term. pose proof (keeps_factor fuel _ H).
  apply keeps_bind; [assumption | intro; apply keeps_binop_loop; assumption].
Qed.

Lemma keeps_comparison (fuel : nat) (expression : P pyval) :
  keeps expression -> keeps (comparison fuel expression).
Proof.
  intro H. unfold comparison. pose proof (keeps_term fuel _ H).
  apply keeps_bind; [assumption | intro; apply keeps_binop_loop; assumption].
Qed.

Lemma keeps_expression (fuel : nat) : keeps (expression fuel).
Proof.
  induction fuel as [|fuel IH]; [apply keeps_out_of_fuel|].
  cbn [expression]. pose proof keeps_variable.
  pose proof (keeps_comparison fuel _ IH). keeps_step.
Qed.

Lemma keeps_type_specifier : keeps type_specifier.
Proof. unfold type_specifier, Token_global. keeps_step. Qed.

Lemma keeps_semicolon (fuel : nat) (what after : string) : keeps (semicolon fuel what after).
Proof. unfold semicolon. keeps_step. Qed.

Lemma keeps_declaration_loop (fuel : nat) :
  forall type_node declarations, keeps (declaration_loop fuel type_node declarations).
Proof.
  induction fuel as [|fuel IH]; intros; [apply keeps_out_of_fuel|].
  cbn [declaration_loop]. pose proof keeps_variable. pose proof (keeps_expression fuel).
  keeps_step. apply IH.
Qed.

Lemma keeps_declaration (fuel : nat) : keeps (declaration fuel).
Proof.
  unfold declaration. pose proof keeps_type_specifier.
  pose proof (keeps_semicolon fuel "declaration" "declaration").
  keeps_step. apply keeps_declaration_loop.
Qed.

Lemma keeps_if_statement (fuel : nat) (statement : P pyval) :
  keeps statement -> keeps (if_statement fuel statement).
Proof. intro H. unfold if_statement. pose proof (keeps_expression fuel). keeps_step. Qed.

Lemma keeps_block (fuel : nat) (statement : P pyval) :
  keeps statement -> keeps (block fuel statement).
Proof. intro H. unfold block. keeps_step. Qed.

Lemma keeps_statement (fuel : nat) : keeps (statement fuel).
Proof.
  induction fuel as [|fuel IH]; [apply keeps_out_of_fuel|].
  cbn [statement]. pose proof (keeps_expression fuel).
  pose proof (keeps_if_statement fuel _ IH). pose proof (keeps_block fuel _ IH).
  pose proof (keeps_semicolon fuel "statement" "expression statement").
  keeps_step.
Qed.

Lemma keeps_program (fuel : nat) : keeps (program fuel).
Proof.
  unfold program. pose proof (keeps_declaration fuel). pose proof (keeps_statement fuel).
  keeps_step.
Qed.


(** A loop whose condition only reads the current token is left where
    the condition fails. *)
Lemma while_exit {A : Type} (f : Token -> bool) (body : A -> P A) :
  forall fuel acc s r s',
    while fuel (cur <- gets current_token ;; ret (f cur)) body acc s = Ok (r, s') ->
    f (current_token s') = false.
Proof.
  induction fuel as [|fuel IH]; intros acc s r s' H; [discriminate H|].
  cbn [while] in H. unfold bind at 1 in H. cbn in H.
  destruct (f (current_token s)) eqn:E.
  - apply bind_Ok_inv in H as (a & s1 & _ & H). exact (IH _ _ _ _ H).
  - injection H as _ <-. exact E.
Qed.

(** What a return of [parse] tells: the diagnostics are those [program]
    recorded and the parser stands on a token of type [EOF]. *)
Lemma parse_Ok_inv (fuel : nat) (toks : list Token) (ast : pyval) (errs : list ParseError) :
  parse fuel toks = Ok (ast, errs) ->
  exists t0 s1,
    nth_error toks 0 = Some t0 /\
    program fuel (mkPstate toks 0 t0 []) = Ok (ast, s1) /\
    errs = errors s1 /\ type (current_token s1) = "EOF".
Proof.
  unfold parse, init. intro H.
  destruct toks as [|t0 rest]; [discriminate H|].
  change (index (t0 :: rest) 0) with (Ok t0) in H. cbv iota in H.
  set (s0 := mkPstate (t0 :: rest) 0 t0 []) in *.
  destruct (program fuel s0) as [[a s1]| | |] eqn:Ep;
    unfold bind at 1 in H; rewrite Ep in H; try discriminate H.
  assert (Heof : type (current_token s1) = "EOF").
  { unfold program in Ep. apply bind_Ok_inv in Ep as (ch & s1' & Hw & Hr).
    injection Hr as _ <-.
    apply (while_exit (fun cur => negb (type cur =? "EOF"))) in Hw.
    apply negb_false_iff, String.eqb_eq in Hw. exact Hw. }
  unfold bind, get, gets, ret in H. rewrite Heof in H. cbn in H. injection H as <- <-.
  exists t0, s1. split; [reflexivity|]. split; [exact Ep|]. split; [reflexivity | exact Heof].
Qed.

Lemma EOF_terminated_last (toks : list Token) (i : nat) (t : Token) :
  EOF_terminated toks -> nth_error toks i = Some t -> type t = "EOF" ->
  i = length toks - 1.
Proof.
  intros (body & eof & -> & He & Hb) Hn Ht. rewrite length_app. cbn [length].
  destruct (Nat.lt_ge_cases i (length body)) as [Hlt|Hge].
  - rewrite nth_error_app1 in Hn by lia.
    apply nth_error_In in Hn. elim (proj1 (List.Forall_forall _ _) Hb _ Hn Ht).
  - assert (i < length (body ++ [eof])) by (apply nth_error_Some; congruence).
    rewrite length_app in *. cbn [length] in *. lia.
Qed.


Lemma EOF_terminated_at_last (toks : list Token) :
  EOF_terminated toks ->
  exists eof, nth_error toks (length toks - 1) = Some eof /\ type eof = "EOF".
Proof.
  intros (body & eof & -> & He & _). exists eof. split; [|exact He].
  rewrite length_app. cbn [length]. rewrite nth_error_app2 by lia.
  replace (length body + 1 - 1 - length body) with 0 by lia. reflexivity.
Qed.

Lemma tokenize_EOF_terminated (code : string) : EOF_terminated (fst (tokenize code)).
Proof.
  destruct (tokenize_shape code) as (body & last & E & H).
  exists body, (mkToken "EOF" "EOF" last). split; [exact E|]. split; [reflexivity|].
  eapply Forall_impl; [exact H|]. intros t (Hty & _) E'. rewrite E' in Hty. discriminate Hty.
Qed.

(** The loop of [Parser.error] on a list that ends with the [EOF]
    token: it stops, at a boundary inside the list. *)
Lemma skip_loop (fuel : nat) :
  forall s,
    at_token s -> EOF_terminated (tokens s) ->
    (pos s < Z.of_nat (length (tokens s)))%Z ->
    length (tokens s) - Z.to_nat (pos s) <= fuel ->
    exists s',
      while fuel skipping (fun _ => advance) tt s = Ok (tt, s') /\
      moves s s' /\ errors s' = errors s /\
      at_boundary (current_token s') = true /\
      (pos s' < Z.of_nat (length (tokens s')))%Z.
Proof.
  induction fuel as [|fuel IH]; intros s Hat Heof Hpos Hfuel; [destruct Hat; lia|].
  cbn [while]. unfold bind at 1. unfold skipping at 1. cbn [gets bind ret].
  destruct (negb (type (current_token s) =? "EOF")
            && negb (str_in (value (current_token s)) [";"; "}"; ")"])) eqn:E.
  - apply andb_prop in E as [E1 E2].
    apply negb_true_iff in E1. apply String.eqb_neq in E1.
    destruct Hat as [Hp Hcur]. rewrite Nat.min_l in Hcur by lia.
    assert (Hnl : Z.to_nat (pos s) <> length (tokens s) - 1).
    { intro Hl. destruct (EOF_terminated_at_last _ Heof) as (eof & Hn & He).
      rewrite <- Hl, Hcur in Hn. injection Hn as <-. contradiction. }
    destruct (advance_spec s) as (t & Ha & Hat1).
    { split; [exact Hp|]. rewrite Nat.min_l by lia. exact Hcur. }
    unfold bind at 1. rewrite Ha.
    set (s1 := mkPstate (tokens s) (pos s + 1) t (errors s)) in *.
    destruct (IH s1) as (s' & Hw & Hm & He & Hb & Hp'); try assumption.
    + cbn [pos tokens s1]. lia.
    + cbn [pos tokens s1]. lia.
    + exists s'. split; [exact Hw|]. split; [|split; [exact He | split; assumption]].
      apply (moves_trans _ s1); [|exact Hm].
      split; [exact Hat1|]. split; [reflexivity|]. split; [cbn; lia|].
      exists []. cbn. rewrite app_nil_r. reflexivity.
  - exists s. split; [reflexivity|]. split; [apply moves_refl, Hat|].
    split; [reflexivity|]. split; [|exact Hpos].
    unfold at_boundary. apply andb_false_iff in E as [E|E];
      apply negb_false_iff in E; rewrite E; [reflexivity | apply orb_true_r].
Qed.

(** X4: a source text that holds an operator never parses without a
    diagnostic: whenever [parse] returns on the tokens of a text with an
    assignment, arithmetic or relational operator, its list of
    diagnostics is not empty. *)
Theorem parse_with_operator_reports_diagnostics :
  forall (code : string) (fuel : nat) (ast : pyval) (errs : list ParseError),
    parse fuel (fst (tokenize code)) = Ok (ast, errs) ->
    (exists t, In t (fst (tokenize code)) /\ str_in (type t) operator_types = true) ->
    errs <> [].
Proof.
  intros code fuel ast errs Hparse (t & Hin & Hop) Hnil.
  pose proof (tokenize_EOF_terminated code) as Hterm.
  set (toks := fst (tokenize code)) in *.
  apply parse_Ok_inv in Hparse as (t0 & s1 & Ht0 & Hprog & Herrs & Heof).
  set (s0 := mkPstate toks 0 t0 []) in *.
  assert (Hat0 : at_token s0) by (split; [cbn; lia | exact Ht0]).
  pose proof (keeps_program fuel s0 Hat0) as Hk. rewrite Hprog in Hk.
  destruct Hk as ((Hat1 & Htok & Hpos & _) & Hclean).
  assert (Hpassed : Forall (fun t => str_in (type t) eaten_types = true)
                      (firstn (Z.to_nat (pos s1)) toks)).
  { apply Hclean. rewrite <- Herrs, Hnil. reflexivity. }
  destruct Hat1 as [_ Hcur]. rewrite Htok in Hcur. cbn [tokens s0] in Hcur.
  pose proof (EOF_terminated_last _ _ _ Hterm Hcur Heof) as Hlast.
  destruct Hterm as (body & eof & Etoks & He & Hb).
  rewrite Etoks in Hin, Hpassed, Hlast. rewrite length_app in Hlast. cbn [length] in Hlast.
  apply in_app_or in Hin as [Hin | [<- | []]].
  - rewrite firstn_app in Hpassed. apply Forall_app in Hpassed as [Hpassed _].
    rewrite firstn_all2 in Hpassed by lia.
    pose proof (proj1 (List.Forall_forall _ _) Hpassed _ Hin) as Heaten.
    cbv beta in Heaten. unfold operator_types in Hop. cbn [str_in existsb] in Hop.
    repeat (apply orb_prop in Hop as [Hop|Hop];
            [apply String.eqb_eq in Hop; rewrite Hop in Heaten; vm_compute in Heaten;
             discriminate Heaten|]).
    discriminate Hop.
  - rewrite He in Hop. discriminate Hop.
Qed.

Lemma parse_with_operator_reports_diagnostics_witness :
  exists ast errs,
    parse 10 (fst (tokenize "a = 3;")) = Ok (ast, errs) /\ errs <> [].
Proof.
  eexists. eexists. split; [vm_compute; reflexivity|].
  eapply (parse_with_operator_reports_diagnostics "a = 3;" 10).
  - vm_compute. reflexivity.
  - exists (mkToken "OP_ASSIGN" "=" 1). split; [vm_compute; auto | reflexivity].
Defined.

(** X5: started on a token of its list, every parsing function that
    returns leaves the parser on a token of the same list, at the same
    or a later position, with the earlier diagnostics kept in front of
    the new ones. *)
Theorem parser_moves_forward :
  forall (fuel : nat) (s : pstate),
    at_token s ->
    (forall r s', expression fuel s = Ok (r, s') -> moves s s') /\
    (forall r s', statement fuel s = Ok (r, s') -> moves s s') /\
    (forall r s', declaration fuel s = Ok (r, s') -> moves s s') /\
    (forall r s', program fuel s = Ok (r, s') -> moves s s').
Proof.
  intros fuel s Hat.
  pose proof (keeps_expression fuel s Hat) as H1.
  pose proof (keeps_statement fuel s Hat) as H2.
  pose proof (keeps_declaration fuel s Hat) as H3.
  pose proof (keeps_program fuel s Hat) as H4.
  split; [|split; [|split]]; intros r s' E;
    match goal with H : match ?m s with _ => _ end |- _ =>
      match type of E with m s = _ => rewrite E in H; exact (proj1 H) end end.
Qed.

Lemma parser_moves_forward_witness :
  let s := mkPstate (fst (tokenize "a = 1 b = 2;")) 0 (mkToken "ID" "a" 1) [] in
  exists r s', statement 5 s = Ok (r, s') /\ moves s s'.
Proof.
  intro s.
  assert (Hat : at_token s) by (split; [vm_compute; discriminate | vm_compute; reflexivity]).
  eexists. eexists. split; [vm_compute; reflexivity|].
  eapply (proj1 (proj2 (parser_moves_forward 5 s Hat))). vm_compute. reflexivity.
Defined.

(** What [Parser.error] does on a list that ends with its only [EOF]
    token, given an iteration for each token left. *)
Lemma error_spec :
  forall (fuel : nat) (message : string) (suggestion : option string) (s : pstate),
    at_token s -> EOF_terminated (tokens s) ->
    (pos s < Z.of_nat (length (tokens s)))%Z ->
    length (tokens s) - Z.to_nat (pos s) <= fuel ->
    exists s',
      error fuel message suggestion s = Ok (tt, s') /\
      tokens s' = tokens s /\ (pos s <= pos s')%Z /\
      errors s' = (errors s ++ [error_diagnostic message suggestion (current_token s)])%list /\
      resynchronised s'.
Proof.
  intros fuel message suggestion s Hat Heof Hpos Hfuel.
  unfold error. unfold bind at 1. cbn [gets].
  unfold bind at 1. unfold append_error at 1. cbn [modify].
  fold (error_diagnostic message suggestion (current_token s)).
  set (e := error_diagnostic message suggestion (current_token s)).
  fold (with_error s e). fold skipping.
  destruct (skip_loop fuel (with_error s e)) as (s2 & Hw & Hm & He & Hb & Hp2);
    try assumption.
  unfold bind at 1. rewrite Hw. unfold bind at 1. cbn [gets].
  destruct Hm as (Hat2 & Ht2 & Hpos2 & _). cbn [with_error tokens pos errors] in *.
  destruct (value (current_token s2) =? ";") eqn:Esemi.
  - destruct (advance_spec s2 Hat2) as (t & -> & Hat3).
    eexists. split; [reflexivity|]. cbn [tokens pos errors].
    split; [exact Ht2|]. split; [lia|]. split; [exact He|].
    right. exists (current_token s2). cbn [pos tokens]. split; [destruct Hat2; lia|].
    split; [|apply String.eqb_eq, Esemi].
    destruct Hat2 as [Hp Hcur]. rewrite Nat.min_l in Hcur by lia.
    replace (Z.to_nat (pos s2 + 1) - 1) with (Z.to_nat (pos s2)) by lia. exact Hcur.
  - exists s2. split; [reflexivity|]. split; [exact Ht2|]. split; [exact Hpos2|].
    split; [exact He|]. left. split; [exact Hb | apply String.eqb_neq, Esemi].
Qed.

(** X6: error recovery stops.  On a token list that ends with its only
    [EOF] token, [Parser.error] returns when given an iteration for each
    token from the current one on; it records exactly its diagnostic,
    and leaves the parser on the [EOF] token, on a closing brace or
    parenthesis, or right after a semicolon. *)
Theorem error_recovery_resynchronises :
  forall (fuel : nat) (message : string) (suggestion : option string) (s : pstate),
    at_token s -> EOF_terminated (tokens s) ->
    (pos s < Z.of_nat (length (tokens s)))%Z ->
    length (tokens s) - Z.to_nat (pos s) <= fuel ->
    exists s',
      error fuel message suggestion s = Ok (tt, s') /\
      tokens s' = tokens s /\ (pos s <= pos s')%Z /\
      errors s' = (errors s ++ [error_diagnostic message suggestion (current_token s)])%list /\
      resynchronised s'.
Proof. exact error_spec. Qed.

Lemma error_recovery_resynchronises_witness :
  let s := mkPstate (fst (tokenize "a = 1 b = 2;")) 0 (mkToken "ID" "a" 1) [] in
  exists s',
    error 8 "Expected ')' after if-condition" None s = Ok (tt, s') /\
    tokens s' = tokens s /\ (pos s <= pos s')%Z /\
    errors s' = [error_diagnostic "Expected ')' after if-condition" None (mkToken "ID" "a" 1)] /\
    resynchronised s'.
Proof.
  intro s.
  apply (error_recovery_resynchronises 8 "Expected ')' after if-condition" None s).
  - split; [vm_compute; discriminate | vm_compute; reflexivity].
  - apply (tokenize_EOF_terminated "a = 1 b = 2;").
  - vm_compute. reflexivity.
  - vm_compute. lia.
Defined.

(** X7: [parse] returns only with the parser on a token of type [EOF],
    and its diagnostics are exactly those [program] recorded: the check
    for unexpected tokens at the end of the file never adds one. *)
Theorem parse_returns_at_EOF :
  forall (fuel : nat) (toks : list Token) (ast : pyval) (errs : list ParseError),
    parse fuel toks = Ok (ast, errs) ->
    exists t0 s1,
      nth_error toks 0 = Some t0 /\
      program fuel (mkPstate toks 0 t0 []) = Ok (ast, s1) /\
      errs = errors s1 /\ type (current_token s1) = "EOF".
Proof. exact parse_Ok_inv. Qed.

Lemma parse_returns_at_EOF_witness :
  exists t0 s1,
    nth_error (fst (tokenize "int a;")) 0 = Some t0 /\
    program 4 (mkPstate (fst (tokenize "int a;")) 0 t0 []) = Ok (int_a_tree, s1) /\
    [] = errors s1 /\ type (current_token s1) = "EOF".
Proof.
  apply (parse_returns_at_EOF 4 (fst (tokenize "int a;")) int_a_tree []).
  vm_compute. reflexivity.
Defined.

End ParseInv.

(** ** The parser stops *)

Section Termination.

Import Lexer Parser.

Variable toks : list Token.
Hypothesis Hshape : lexer_shaped toks.

Lemma lexer_shaped_EOF_terminated : EOF_terminated toks.
Proof.
  destruct Hshape as (body & last & E & H).
  exists body, (mkToken "EOF" "EOF" last). auto.
Qed.

Lemma inside_current (s : pstate) :
  inside toks s -> nth_error toks (Z.to_nat (pos s)) = Some (current_token s).
Proof.
  intros (Ht & [Hp Hcur] & Hlt). rewrite Ht in Hcur.
  rewrite Nat.min_l in Hcur by lia. exact Hcur.
Qed.

(** The current token is before the [EOF] token, or it is that token. *)
Lemma current_cases (s : pstate) :
  inside toks s ->
  (type (current_token s) <> "EOF" /\ (pos s + 1 < Z.of_nat (length toks))%Z)
  \/ (type (current_token s) = "EOF" /\ value (current_token s) = "EOF").
Proof.
  intro Hin. pose proof (inside_current s Hin) as Hcur.
  destruct Hin as (Ht & [Hp _] & Hlt).
  destruct Hshape as (body & last & E & Hb). rewrite E in Hcur, Hlt |- *.
  rewrite length_app in *. cbn [length] in *.
  destruct (Nat.lt_ge_cases (Z.to_nat (pos s)) (length body)) as [H|H].
  - left. rewrite nth_error_app1 in Hcur by lia. apply nth_error_In in Hcur.
    split; [exact (proj1 (List.Forall_forall _ _) Hb _ Hcur) | lia].
  - right. rewrite nth_error_app2 in Hcur by lia.
    replace (Z.to_nat (pos s) - length body) with 0 in Hcur by lia.
    injection Hcur as <-. split; reflexivity.
Qed.

Lemma value_not_EOF (s : pstate) :
  inside toks s -> value (current_token s) <> "EOF" ->
  type (current_token s) <> "EOF".
Proof. intros Hin Hv. destruct (current_cases s Hin) as [[H _]|[_ H]]; [exact H | contradiction]. Qed.

Lemma tokens_left_pos (s : pstate) : inside toks s -> (1 <= tokens_left toks s)%Z.
Proof. intros (_ & _ & H). unfold tokens_left. lia. Qed.

(** *** Outcomes *)

Lemma fine_weaken {A : Type} (s : pstate) (o : outcome (A * pstate)) :
  fine toks true s o -> fine toks false s o.
Proof. destruct o as [[a s']| | |]; cbn; try tauto. intros [H1 H2]. split; [exact H1 | lia]. Qed.

Lemma fine_any {A : Type} (strict : bool) (s : pstate) (o : outcome (A * pstate)) :
  fine toks true s o -> fine toks strict s o.
Proof. destruct strict; [tauto | apply fine_weaken]. Qed.

Lemma fine_ret {A : Type} (a : A) (s : pstate) : inside toks s -> fine toks false s (ret a s).
Proof. intro H. cbn. split; [exact H | lia]. Qed.

Lemma fine_raise {A : Type} (strict : bool) (e : exn) (s : pstate) :
  fine toks strict s (@raise pstate A e s).
Proof. exact I. Qed.

(** Sequencing: the second step runs where the first one returned. *)
Lemma fine_bind {A B : Type} (st1 st2 : bool) (m : P A) (k : A -> P B) (s : pstate) :
  fine toks st1 s (m s) ->
  (forall a s1, m s = Ok (a, s1) -> inside toks s1 ->
                (if st1 then pos s < pos s1 else pos s <= pos s1)%Z ->
                fine toks st2 s1 (k a s1)) ->
  fine toks (st1 || st2) s (bind m k s).
Proof.
  intros Hm Hk. unfold bind. destruct (m s) as [[a s1]| | |]; try exact Hm.
  destruct Hm as [Hin Hp]. specialize (Hk a s1 eq_refl Hin Hp).
  destruct (k a s1) as [[b s2]| | |]; try exact Hk.
  destruct Hk as [Hin2 Hp2]. split; [exact Hin2|].
  destruct st1, st2; cbn; lia.
Qed.

Lemma fine_bind_ff {A B : Type} (m : P A) (k : A -> P B) (s : pstate) :
  fine toks false s (m s) ->
  (forall a s1, m s = Ok (a, s1) -> inside toks s1 -> (pos s <= pos s1)%Z ->
                fine toks false s1 (k a s1)) ->
  fine toks false s (bind m k s).
Proof. exact (fine_bind false false m k s). Qed.

Lemma fine_bind_tf {A B : Type} (m : P A) (k : A -> P B) (s : pstate) :
  fine toks true s (m s) ->
  (forall a s1, m s = Ok (a, s1) -> inside toks s1 -> (pos s < pos s1)%Z ->
                fine toks false s1 (k a s1)) ->
  fine toks true s (bind m k s).
Proof. exact (fine_bind true false m k s). Qed.

Lemma fine_bind_ft {A B : Type} (m : P A) (k : A -> P B) (s : pstate) :
  fine toks false s (m s) ->
  (forall a s1, m s = Ok (a, s1) -> inside toks s1 -> (pos s <= pos s1)%Z ->
                fine toks true s1 (k a s1)) ->
  fine toks true s (bind m k s).
Proof. exact (fine_bind false true m k s). Qed.

Lemma fine_lift_index {A : Type} (l : list Token) (i : Z) (k : Token -> P A)
    (strict : bool) (s : pstate) :
  (forall t, fine toks strict s (k t s)) ->
  fine toks strict s (bind (lift (index l i)) k s).
Proof.
  intro Hk. unfold bind, lift.
  destruct (index_ok_or_raise l i) as [[x ->] | [e ->]]; [apply Hk | exact I].
Qed.

(** *** The primitives *)

Lemma advance_inside (s : pstate) :
  inside toks s -> type (current_token s) <> "EOF" ->
  fine toks true s (advance s).
Proof.
  intros Hin Hne. destruct (current_cases s Hin) as [[_ Hlt]|[He _]]; [|contradiction].
  destruct Hin as (Ht & Hat & _).
  destruct (advance_spec s Hat) as (t & -> & Hat').
  split; [|cbn; lia]. split; [exact Ht|]. split; [exact Hat' | cbn; lia].
Qed.

Lemma append_error_fine (e : ParseError) (s : pstate) :
  inside toks s -> fine toks false s (append_error e s).
Proof.
  intros (Ht & Hat & Hlt). cbn. split; [|lia]. split; [exact Ht|]. split; [exact Hat | exact Hlt].
Qed.

Lemma eat_fine (token_type : string) (token_value : option string) (s : pstate) :
  token_type <> "EOF" -> inside toks s ->
  fine toks false s (eat token_type token_value s) /\
  (type (current_token s) <> "EOF" -> fine toks true s (eat token_type token_value s)).
Proof.
  intros HT Hin. unfold eat. unfold bind at 1 3. cbn [gets].
  destruct ((type (current_token s) =? token_type) && _) eqn:E.
  - assert (Hne : type (current_token s) <> "EOF").
    { apply andb_prop in E as [E _]. apply String.eqb_eq in E. congruence. }
    split; [apply fine_weaken|intros _]; apply advance_inside; assumption.
  - unfold bind, append_error, modify.
    set (s1 := mkPstate _ _ _ _).
    assert (Hin1 : inside toks s1) by (destruct Hin as (? & [? ?] & ?); repeat split; assumption).
    destruct (type (current_token s) =? "EOF") eqn:Ee; cbn [negb].
    + apply String.eqb_eq in Ee. split; [|intro; contradiction].
      cbn. split; [exact Hin1 | cbn; lia].
    + apply String.eqb_neq in Ee.
      assert (H : fine toks true s1 (advance s1)) by (apply advance_inside; assumption).
      split; [apply fine_weaken|intros _]; exact H.
Qed.

Lemma eat_any (token_type : string) (token_value : option string) (s : pstate) :
  token_type <> "EOF" -> inside toks s -> fine toks false s (eat token_type token_value s).
Proof. intros. apply eat_fine; assumption. Qed.

Lemma eat_strict (token_type : string) (token_value : option string) (s : pstate) :
  token_type <> "EOF" -> inside toks s -> type (current_token s) <> "EOF" ->
  fine toks true s (eat token_type token_value s).
Proof. intros. apply eat_fine; assumption. Qed.

Lemma error_fine (fuel : nat) (message : string) (suggestion : option string) (s : pstate) :
  inside toks s -> (tokens_left toks s <= Z.of_nat fuel)%Z ->
  fine toks false s (error fuel message suggestion s).
Proof.
  intros Hin Hleft. pose proof Hin as (Ht & Hat & Hlt). unfold tokens_left in Hleft.
  unfold error. unfold bind at 1. cbn [gets].
  unfold bind at 1. unfold append_error at 1. cbn [modify].
  set (s1 := mkPstate _ _ _ _). fold skipping.
  destruct (skip_loop fuel s1) as (s2 & Hw & Hm & He & Hb & Hp2).
  - exact Hat.
  - cbn [tokens s1]. rewrite Ht. exact lexer_shaped_EOF_terminated.
  - cbn [tokens pos s1]. rewrite Ht. exact Hlt.
  - cbn [tokens pos s1]. rewrite Ht. destruct Hat. lia.
  - unfold bind at 1. rewrite Hw. unfold bind at 1. cbn [gets].
    destruct Hm as (Hat2 & Ht2 & Hpos2 & _). cbn [tokens pos s1] in *.
    assert (Hin2 : inside toks s2).
    { split; [congruence|]. split; [exact Hat2|]. rewrite Ht2, Ht in Hp2. exact Hp2. }
    destruct (value (current_token s2) =? ";") eqn:Esemi.
    + apply String.eqb_eq in Esemi.
      assert (H : fine toks true s2 (advance s2)).
      { apply advance_inside; [exact Hin2|]. apply value_not_EOF; [exact Hin2|].
        rewrite Esemi. discriminate. }
      destruct (advance s2) as [[[] s3]| | |]; try exact H.
      destruct H as [Hin3 Hp3]. split; [exact Hin3 | lia].
    + cbn. split; [exact Hin2 | exact Hpos2].
Qed.

(** A loop whose condition only reads the current token and whose body
    moves forward stops within as many iterations as tokens are
    left. *)
Lemma while_terminates {A : Type} (f : Token -> bool) (body : A -> P A) :
  forall (fuel n : nat),
    (forall a, terminates toks n true (body a)) -> n <= fuel ->
    forall acc,
      terminates toks n false
        (while fuel (cur <- gets current_token ;; ret (f cur)) body acc).
Proof.
  induction fuel as [|fuel IH]; intros n Hbody Hn acc s Hin Hleft.
  - pose proof (tokens_left_pos s Hin). lia.
  - cbn [while]. unfold bind at 1. cbn [gets bind ret].
    destruct (f (current_token s)); [|apply fine_ret, Hin].
    apply fine_weaken, fine_bind_tf; [apply Hbody; assumption|].
    intros a s1 _ Hin1 Hp.
    assert (Hleft1 : (tokens_left toks s1 <= Z.of_nat (n - 1))%Z).
    { unfold tokens_left in *. pose proof (tokens_left_pos s1 Hin1). unfold tokens_left in *. lia. }
    apply (IH (n - 1)); [|lia|exact Hin1|exact Hleft1].
    intros a' s' Hin' Hleft'. apply Hbody; [exact Hin' | lia].
Qed.


(** *** The functions of the parser *)

Lemma variable_fine (s : pstate) :
  inside toks s -> type (current_token s) = "ID" -> fine toks true s (variable s).
Proof.
  intros Hin Hid. unfold variable. unfold bind at 1. cbn [gets].
  apply fine_bind_tf.
  - apply eat_strict; [discriminate | exact Hin | rewrite Hid; discriminate].
  - intros _ s1 _ Hin1 _. apply fine_ret, Hin1.
Qed.

Lemma eat_then_ret {A : Type} (token_type : string) (token_value : option string)
    (a : A) (s : pstate) :
  token_type <> "EOF" -> inside toks s -> type (current_token s) <> "EOF" ->
  fine toks true s ((eat token_type token_value ;; ret a) s).
Proof.
  intros HT Hin Hne. apply fine_bind_tf; [apply eat_strict; assumption|].
  intros. apply fine_ret. assumption.
Qed.

Lemma primary_terminates (expression : P pyval) (n : nat) :
  terminates toks n true expression -> terminates toks (S n) true (primary expression).
Proof.
  intros Hexpr s Hin Hleft. unfold primary. unfold bind at 1. cbn [gets].
  destruct (type (current_token s) =? "NUMBER") eqn:En.
  { apply String.eqb_eq in En. apply eat_then_ret; [discriminate | exact Hin|].
    rewrite En. discriminate. }
  destruct (type (current_token s) =? "ID") eqn:Ei.
  { apply String.eqb_eq in Ei. apply variable_fine; assumption. }
  destruct (value (current_token s) =? "(") eqn:Ep.
  - apply String.eqb_eq in Ep. apply fine_bind_tf.
    + apply eat_strict; [discriminate | exact Hin|].
      apply value_not_EOF; [exact Hin | rewrite Ep; discriminate].
    + intros _ s1 _ Hin1 Hp. apply fine_bind_ff.
      * apply fine_weaken, Hexpr; [exact Hin1|]. unfold tokens_left in *. lia.
      * intros node s2 _ Hin2 _. apply fine_bind_ff; [apply eat_any; [discriminate | exact Hin2]|].
        intros. apply fine_ret. assumption.
  - apply fine_bind_ft; [apply append_error_fine, Hin|]. intros. exact I.
Qed.

Lemma binop_loop_terminates (fuel : nat) (ops : list string) (operand : P pyval) (n : nat) :
  terminates toks n true operand -> n <= fuel ->
  forall node, terminates toks n false (binop_loop fuel ops operand node).
Proof.
  intros Hop Hn node. unfold binop_loop.
  apply (while_terminates (fun cur => str_in (value cur) ops)); [|exact Hn].
  intros a s Hin Hleft. unfold bind at 1. cbn [gets].
  apply fine_bind_ft; [apply eat_any; [discriminate | exact Hin]|].
  intros _ s1 _ Hin1 Hp. apply fine_bind_tf.
  - apply Hop; [exact Hin1|]. unfold tokens_left in *. lia.
  - intros. apply fine_ret. assumption.
Qed.

(** The shape shared by [factor], [term] and [comparison]. *)
Lemma chain_terminates (fuel : nat) (ops : list string) (operand : P pyval) (n : nat) :
  terminates toks n true operand -> n <= fuel ->
  terminates toks n true (node <- operand ;; binop_loop fuel ops operand node).
Proof.
  intros Hop Hn s Hin Hleft. apply fine_bind_tf; [apply Hop; assumption|].
  intros node s1 _ Hin1 Hp.
  apply (binop_loop_terminates fuel ops operand n Hop Hn node s1 Hin1).
  unfold tokens_left in *. lia.
Qed.

Lemma comparison_terminates (fuel : nat) (expression : P pyval) (n : nat) :
  terminates toks n true expression -> S n <= fuel ->
  terminates toks (S n) true (comparison fuel expression).
Proof.
  intros Hexpr Hn. unfold comparison, term, factor.
  repeat (apply chain_terminates; [|exact Hn]).
  apply primary_terminates, Hexpr.
Qed.

Lemma terminates_zero {A : Type} (strict : bool) (m : P A) : terminates toks 0 strict m.
Proof. intros s Hin Hleft. pose proof (tokens_left_pos s Hin). lia. Qed.

Lemma expression_terminates (n : nat) :
  forall fuel, n + 1 <= fuel -> terminates toks n true (expression fuel).
Proof.
  induction n as [|n IH]; intros fuel Hf; [apply terminates_zero|].
  destruct fuel as [|fuel]; [lia|]. intros s Hin Hleft.
  cbn [expression]. unfold bind at 1. cbn [get].
  assert (Hcmp : fine toks true s (comparison fuel (expression fuel) s)).
  { refine (comparison_terminates fuel (expression fuel) n _ _ s Hin Hleft); [apply IH; lia | lia]. }
  destruct (type (current_token s) =? "ID") eqn:Eid.
  - apply String.eqb_eq in Eid.
    destruct (index_ok_or_raise (tokens s) (pos s + 1)) as [[next Hx] | [e He]].
    + erewrite bind_Ok by (unfold bind, lift; rewrite Hx; reflexivity).
      destruct (value next =? "="); [|exact Hcmp].
      apply fine_bind_tf; [apply variable_fine; assumption|].
      intros var_node s1 _ Hin1 Hp. unfold bind at 1. cbn [gets].
      apply fine_bind_ff; [apply eat_any; [discriminate | exact Hin1]|].
      intros _ s2 _ Hin2 Hp2. apply fine_bind_ff.
      * apply fine_weaken. refine (IH fuel _ s2 Hin2 _); [lia | unfold tokens_left in *; lia].
      * intros. apply fine_ret. assumption.
    + erewrite bind_Raise by (unfold bind, lift; rewrite He; reflexivity). exact I.
  - unfold bind at 1. cbn [ret]. exact Hcmp.
Qed.

Lemma type_specifier_fine (s : pstate) :
  inside toks s -> fine toks true s (type_specifier s).
Proof.
  intro Hin. unfold type_specifier. unfold bind at 1. cbn [gets].
  destruct (str_in (value (current_token s)) ["int"; "float"]) eqn:E.
  - apply eat_then_ret; [discriminate | exact Hin|].
    apply value_not_EOF; [exact Hin|]. intro Hv. rewrite Hv in E. discriminate E.
  - apply fine_bind_ft; [apply append_error_fine, Hin|]. intros. exact I.
Qed.

Lemma semicolon_fine (fuel : nat) (what after : string) (s : pstate) :
  inside toks s -> (tokens_left toks s <= Z.of_nat fuel)%Z ->
  fine toks false s (semicolon fuel what after s).
Proof.
  intros Hin Hleft. unfold semicolon. unfold bind at 1. cbn [gets].
  destruct (value (current_token s) =? ";"); [apply eat_any; [discriminate | exact Hin]|].
  destruct (starts_statement (current_token s));
    [apply append_error_fine, Hin | apply error_fine; assumption].
Qed.

Lemma declaration_loop_terminates (n : nat) :
  forall fuel, n + 1 <= fuel ->
  forall type_node declarations,
    terminates toks n false (declaration_loop fuel type_node declarations).
Proof.
  induction n as [|n IH]; intros fuel Hf type_node declarations; [apply terminates_zero|].
  destruct fuel as [|fuel]; [lia|]. intros s Hin Hleft.
  cbn [declaration_loop]. unfold bind at 1. cbn [gets].
  destruct (type (current_token s) =? "ID") eqn:Eid; [|apply fine_ret, Hin].
  apply String.eqb_eq in Eid.
  apply fine_weaken, fine_bind_tf; [apply variable_fine; assumption|].
  intros var_node s1 _ Hin1 Hp. unfold bind at 1. cbn [gets].
  assert (Hleft1 : (tokens_left toks s1 <= Z.of_nat n)%Z) by (unfold tokens_left in *; lia).
  apply fine_bind_ff.
  - destruct (value (current_token s1) =? "="); [|apply fine_ret, Hin1].
    apply fine_bind_ff; [apply eat_any; [discriminate | exact Hin1]|].
    intros _ s2 _ Hin2 Hp2. apply fine_bind_ff.
    + apply fine_weaken.
      refine (expression_terminates n fuel _ s2 Hin2 _); [lia | unfold tokens_left in *; lia].
    + intros. apply fine_ret. assumption.
  - intros assign_node s2 _ Hin2 Hp2. unfold bind at 1. cbn [gets].
    destruct (value (current_token s2) =? ","); [|apply fine_ret, Hin2].
    apply fine_bind_ff; [apply eat_any; [discriminate | exact Hin2]|].
    intros _ s3 _ Hin3 Hp3.
    refine (IH fuel _ _ _ s3 Hin3 _); [lia | unfold tokens_left in *; lia].
Qed.

Lemma declaration_terminates (n fuel : nat) :
  n + 1 <= fuel -> terminates toks n true (declaration fuel).
Proof.
  intros Hf s Hin Hleft. unfold declaration.
  apply fine_bind_tf; [apply type_specifier_fine, Hin|].
  intros type_node s1 _ Hin1 Hp. apply fine_bind_ff.
  - refine (declaration_loop_terminates n fuel _ _ _ s1 Hin1 _);
      [lia | unfold tokens_left in *; lia].
  - intros declarations s2 _ Hin2 Hp2. apply fine_bind_ff.
    + apply semicolon_fine; [exact Hin2|]. unfold tokens_left in *. lia.
    + intros. apply fine_ret. assumption.
Qed.

Lemma if_statement_fine (fuel n : nat) (statement : P pyval) (s : pstate) :
  terminates toks n true statement -> n + 1 <= fuel ->
  inside toks s -> (tokens_left toks s <= Z.of_nat (S n))%Z ->
  value (current_token s) = "if" ->
  fine toks true s (if_statement fuel statement s).
Proof.
  intros Hst Hf Hin Hleft Hif. unfold if_statement.
  apply fine_bind_tf.
  { apply eat_strict; [discriminate | exact Hin|].
    apply value_not_EOF; [exact Hin | rewrite Hif; discriminate]. }
  intros _ s1 _ Hin1 Hp1.
  assert (Hleft1 : (tokens_left toks s1 <= Z.of_nat n)%Z) by (unfold tokens_left in *; lia).
  assert (Hstmt : forall s', inside toks s' -> (pos s1 <= pos s')%Z ->
                             fine toks false s' (statement s')).
  { intros s' Hin' Hp'. apply fine_weaken, Hst; [exact Hin'|]. unfold tokens_left in *. lia. }
  apply fine_bind_ff; [apply eat_any; [discriminate | exact Hin1]|].
  intros _ s2 _ Hin2 Hp2. apply fine_bind_ff.
  { apply fine_weaken.
    refine (expression_terminates n fuel _ s2 Hin2 _); [lia | unfold tokens_left in *; lia]. }
  intros condition s3 _ Hin3 Hp3. unfold bind at 1. cbn [gets].
  apply fine_bind_ff.
  { destruct (value (current_token s3) =? ")"); [apply eat_any; [discriminate | exact Hin3]|].
    destruct (value (current_token s3) =? "{"); [apply append_error_fine, Hin3|].
    apply error_fine; [exact Hin3|]. unfold tokens_left in *. lia. }
  intros _ s4 _ Hin4 Hp4. unfold bind at 1. cbn [gets].
  apply fine_bind_ff.
  { destruct (value (current_token s4) =? ";"); [|apply Hstmt; [exact Hin4 | lia]].
    apply fine_bind_ff; [apply append_error_fine, Hin4|].
    intros _ s5 _ Hin5 Hp5.
    apply fine_bind_ff; [apply eat_any; [discriminate | exact Hin5]|].
    intros _ s6 _ Hin6 Hp6. apply Hstmt; [exact Hin6 | lia]. }
  intros if_block s5 _ Hin5 Hp5. unfold bind at 1. cbn [gets].
  apply fine_bind_ff.
  { destruct (value (current_token s5) =? "else"); [|apply fine_ret, Hin5].
    apply fine_bind_ff; [apply eat_any; [discriminate | exact Hin5]|].
    intros _ s6 _ Hin6 Hp6. apply Hstmt; [exact Hin6 | lia]. }
  intros. apply fine_ret. assumption.
Qed.

Lemma block_fine (fuel n : nat) (statement : P pyval) (s : pstate) :
  terminates toks n true statement -> n <= fuel ->
  inside toks s -> (tokens_left toks s <= Z.of_nat (S n))%Z ->
  value (current_token s) = "{" ->
  fine toks true s (block fuel statement s).
Proof.
  intros Hst Hf Hin Hleft Hb. unfold block.
  apply fine_bind_tf.
  { apply eat_strict; [discriminate | exact Hin|].
    apply value_not_EOF; [exact Hin | rewrite Hb; discriminate]. }
  intros _ s1 _ Hin1 Hp1. apply fine_bind_ff.
  { apply (while_terminates
             (fun cur => negb (value cur =? "}") && negb (type cur =? "EOF"))
             (fun statements => node <- statement ;; ret (statements ++ [node])%list)
             fuel n); [|exact Hf|exact Hin1|unfold tokens_left in *; lia].
    intros a s' Hin' Hleft'. apply fine_bind_tf; [apply Hst; assumption|].
    intros. apply fine_ret. assumption. }
  intros statements s2 _ Hin2 Hp2. unfold bind at 1. cbn [gets].
  apply fine_bind_ff.
  { destruct (value (current_token s2) =? "}");
      [apply eat_any; [discriminate | exact Hin2] | apply append_error_fine, Hin2]. }
  intros. apply fine_ret. assumption.
Qed.

Lemma statement_terminates (n : nat) :
  forall fuel, n + 2 <= fuel -> terminates toks n true (statement fuel).
Proof.
  induction n as [|n IH]; intros fuel Hf; [apply terminates_zero|].
  destruct fuel as [|fuel]; [lia|]. intros s Hin Hleft.
  cbn [statement]. unfold bind at 1. cbn [gets].
  destruct (value (current_token s) =? "if") eqn:Eif.
  { apply String.eqb_eq in Eif.
    apply (if_statement_fine fuel n); [apply IH; lia | lia | exact Hin | exact Hleft | exact Eif]. }
  destruct (value (current_token s) =? "{") eqn:Eb.
  { apply String.eqb_eq in Eb.
    apply (block_fine fuel n); [apply IH; lia | lia | exact Hin | exact Hleft | exact Eb]. }
  apply fine_bind_tf.
  { refine (expression_terminates (S n) fuel _ s Hin Hleft). lia. }
  intros node s1 _ Hin1 Hp1. apply fine_bind_ff.
  { apply semicolon_fine; [exact Hin1|]. unfold tokens_left in *. lia. }
  intros. apply fine_ret. assumption.
Qed.

Lemma program_terminates (n fuel : nat) :
  n + 2 <= fuel -> terminates toks n false (program fuel).
Proof.
  intros Hf s Hin Hleft. unfold program.
  apply fine_bind_ff; [|intros; apply fine_ret; assumption].
  refine (while_terminates (fun cur => negb (type cur =? "EOF")) _ fuel n _ _ [] s Hin Hleft);
    [|lia].
  intros children s' Hin' Hleft'. unfold bind at 1. cbn [gets].
  destruct (str_in (value (current_token s')) ["int"; "float"]).
  - apply fine_bind_tf; [refine (declaration_terminates n fuel _ s' Hin' Hleft'); lia|].
    intros. apply fine_ret. assumption.
  - apply fine_bind_tf; [refine (statement_terminates n fuel _ s' Hin' Hleft'); lia|].
    intros. apply fine_ret. assumption.
Qed.

(** [parse] on a lexer-shaped list returns or raises once it is given
    two iterations more than there are tokens. *)
Lemma parse_terminates (fuel : nat) :
  length toks + 2 <= fuel ->
  (exists r, parse fuel toks = Ok r) \/ (exists e, parse fuel toks = Raise e).
Proof.
  intro Hf.
  assert (H0 : exists t0, nth_error toks 0 = Some t0).
  { destruct Hshape as (body & last & E & _). rewrite E. destruct body; eexists; reflexivity. }
  destruct H0 as [t0 Ht0].
  assert (Hlen : 0 < length toks) by (apply nth_error_Some; congruence).
  unfold parse, init. rewrite (index_nonneg toks 0 t0) by (lia || exact Ht0).
  set (s0 := mkPstate toks 0 t0 []).
  assert (Hin : inside toks s0).
  { split; [reflexivity|]. split; [split; [cbn; lia | exact Ht0]|]. cbn. lia. }
  pose proof (program_terminates (length toks) fuel Hf s0 Hin) as H.
  assert (Hleft : (tokens_left toks s0 <= Z.of_nat (length toks))%Z)
    by (unfold tokens_left; cbn; lia).
  specialize (H Hleft).
  destruct (program fuel s0) as [[ast s1]| | |] eqn:Ep.
  - left. erewrite bind_Ok by exact Ep.
    unfold bind, get, gets, ret, append_error, modify.
    destruct (negb _ && _); eexists; reflexivity.
  - right. erewrite bind_Raise by exact Ep. eexists. reflexivity.
  - elim H.
  - elim H.
Qed.

End Termination.

Lemma tokenize_lexer_shaped (code : string) : lexer_shaped (fst (Lexer.tokenize code)).
Proof.
  destruct (tokenize_shape code) as (body & last & E & H).
  exists body, last. split; [exact E|].
  eapply Forall_impl; [exact H|]. intros t (Hty & _) E'. rewrite E' in Hty. discriminate Hty.
Qed.

(** X8: the parser always stops on the output of the lexer.  Given two
    iterations more than there are tokens, [parse] returns a tree with
    its diagnostics or raises an exception (the bound on the recursion
    depth of the interpreter is not modelled). *)
Theorem parse_terminates_on_lexer_output :
  forall (code : string) (fuel : nat),
    length (fst (Lexer.tokenize code)) + 2 <= fuel ->
    (exists r, Parser.parse fuel (fst (Lexer.tokenize code)) = Ok r)
    \/ (exists e, Parser.parse fuel (fst (Lexer.tokenize code)) = Raise e).
Proof.
  intros code fuel H. apply parse_terminates; [apply tokenize_lexer_shaped | exact H].
Qed.

Lemma parse_terminates_on_lexer_output_witness :
  (exists r, Parser.parse 12 (fst (Lexer.tokenize "a = 1 b = 2;")) = Ok r)
  \/ (exists e, Parser.parse 12 (fst (Lexer.tokenize "a = 1 b = 2;")) = Raise e).
Proof.
  apply (parse_terminates_on_lexer_output "a = 1 b = 2;" 12). vm_compute. lia.
Defined.

(** ** Scopes, lookups and types in the analyzer *)

Section Scopes.

Import SemanticAnalyzer.

Lemma keeps_outer_refl (s : list (gmap string string)) : keeps_outer s s.
Proof. intros outer top ->. exists top. split; [reflexivity | done]. Qed.

Lemma keeps_outer_trans (s s1 s2 : list (gmap string string)) :
  keeps_outer s s1 -> keeps_outer s1 s2 -> keeps_outer s s2.
Proof.
  intros H1 H2 outer top E. destruct (H1 _ _ E) as (top1 & E1 & Hsub1).
  destruct (H2 _ _ E1) as (top2 & E2 & Hsub2).
  exists top2. split; [exact E2 | etrans; eassumption].
Qed.

Lemma preserves_ret {A : Type} (a : A) : preserves (ret a).
Proof. intros s r s' H. injection H as _ <-. apply keeps_outer_refl. Qed.

Lemma preserves_raise {A : Type} (e : exn) : preserves (@raise _ A e).
Proof. intros s r s' H. discriminate H. Qed.

Lemma preserves_out_of_fuel {A : Type} : preserves (@out_of_fuel _ A).
Proof. intros s r s' H. discriminate H. Qed.

Lemma preserves_lift {A : Type} (o : outcome A) : preserves (lift o).
Proof.
  intros s r s' H. apply lift_Ok_inv in H as [_ H]. cbn in H. subst s'.
  apply keeps_outer_refl.
Qed.

Lemma preserves_bind {A B : Type} (m : M A) (k : A -> M B) :
  preserves m -> (forall a, preserves (k a)) -> preserves (bind m k).
Proof.
  intros Hm Hk s r s' H. apply bind_Ok_inv in H as (a & s1 & H1 & H2).
  exact (keeps_outer_trans _ _ _ (Hm _ _ _ H1) (Hk a _ _ _ H2)).
Qed.

Lemma preserves_getattr2 (node : pyval) (a b : string) : preserves (getattr2 node a b).
Proof. unfold getattr2. apply preserves_bind; [|intro]; apply preserves_lift. Qed.

Lemma preserves_lookup (name : string) (line : Z) : preserves (lookup name line).
Proof.
  intros s r s' H. unfold lookup, bind, get in H.
  destruct (lookup_in (rev s) name); [|discriminate H].
  injection H as _ <-. apply keeps_outer_refl.
Qed.

Lemma preserves_declare (name type : string) (line : Z) : preserves (declare name type line).
Proof.
  intros s [] s' H. apply declare_Ok_inv in H as (outer & inner & -> & Hfresh & ->).
  intros outer' top E. apply app_inj_tail in E as [<- <-].
  exists (<[name := type]> inner). split; [reflexivity|].
  apply insert_subseteq, Hfresh.
Qed.

Lemma preserves_cannot_assign (value_type : pyval) (var_name var_type : string) (line : Z) :
  preserves (cannot_assign value_type var_name var_type line).
Proof. intros s r s' H. destruct (cannot_assign_raises _ _ _ _ _ _ H). Qed.

Lemma preserves_for_each {A : Type} (xs : list A) (body : A -> M unit) :
  (forall x, preserves (body x)) -> preserves (for_each xs body).
Proof.
  intro Hb. induction xs as [|x xs IH]; cbn [for_each]; [apply preserves_ret|].
  apply preserves_bind; [apply Hb | intro; exact IH].
Qed.

Ltac preserves_step :=
  repeat first
    [ assumption
    | apply preserves_ret
    | apply preserves_raise
    | apply preserves_lift
    | apply preserves_getattr2
    | apply preserves_lookup
    | apply preserves_declare
    | apply preserves_cannot_assign
    | apply preserves_for_each; intro
    | apply preserves_bind; [|intro]
    | match goal with
      | H : forall node, preserves (?v node) |- preserves (?v _) => apply H
      | |- preserves (if ?b then _ else _) => destruct b
      | |- preserves (match ?x with _ => _ end) => destruct x
      end ].

(** What visiting a block does to the scope stack. *)
Lemma visit_Block_scopes (visit : pyval -> M pyval) (node : pyval)
    (s s' : list (gmap string string)) (r : pyval) :
  (forall node, preserves (visit node)) ->
  visit_Block visit node s = Ok (r, s') ->
  s' = s \/ (s = [] /\ exists top, s' = [top]).
Proof.
  intros Hv H. unfold visit_Block in H.
  apply bind_Ok_inv in H as ([] & s0 & He & H). injection He as <-.
  apply bind_Ok_inv in H as (children & s1 & H1 & H).
  apply lift_Ok_inv in H1 as [_ H1]. cbn in H1. subst s1.
  apply bind_Ok_inv in H as (statements & s1 & H1 & H).
  apply lift_Ok_inv in H1 as [_ H1]. cbn in H1. subst s1.
  apply bind_Ok_inv in H as ([] & s1 & Hfor & H).
  assert (Hp : preserves (for_each statements (fun statement => visit statement ;; ret tt)))
    by preserves_step.
  destruct (Hp _ _ _ Hfor s ∅ eq_refl) as (top1 & -> & _).
  apply bind_Ok_inv in H as ([] & s2 & Hx & H). injection H as _ <-.
  unfold exit_scope, modify in Hx. injection Hx as <-.
  rewrite length_app. cbn [length].
  destruct s as [|x s]; [right; split; [reflexivity | exists top1; reflexivity]|].
  left. replace (1 <? length (x :: s) + 1)%nat with true
    by (symmetry; apply Nat.ltb_lt; cbn; lia).
  apply removelast_last.
Qed.

Lemma preserves_visit_Block (visit : pyval -> M pyval) (node : pyval) :
  (forall node, preserves (visit node)) -> preserves (visit_Block visit node).
Proof.
  intros Hv s r s' H. destruct (visit_Block_scopes _ _ _ _ _ Hv H) as [-> | [-> _]].
  - apply keeps_outer_refl.
  - intros outer top E. destruct outer; discriminate E.
Qed.

Lemma preserves_visit (fuel : nat) : forall node, preserves (visit fuel node).
Proof.
  induction fuel as [|fuel IH]; intro node; [apply preserves_out_of_fuel|].
  rewrite visit_S_eq. cbv zeta.
  destruct (is_none node); [apply preserves_ret|].
  destruct (class_name node =? "Program");
    [unfold visit_Program; preserves_step|].
  destruct (class_name node =? "VarDecl");
    [unfold visit_VarDecl; preserves_step|].
  destruct (class_name node =? "Assign");
    [unfold visit_Assign; preserves_step|].
  destruct (class_name node =? "If");
    [unfold visit_If; preserves_step|].
  destruct (class_name node =? "Block");
    [apply preserves_visit_Block, IH|].
  destruct (class_name node =? "BinOp");
    [unfold visit_BinOp, check_operands; preserves_step|].
  destruct (class_name node =? "RelOp");
    [unfold visit_RelOp, check_operands; preserves_step|].
  destruct (class_name node =? "Number");
    [unfold visit_Number; preserves_step|].
  destruct (class_name node =? "Id");
    [unfold visit_Id; preserves_step|].
  apply preserves_raise.
Qed.

(** X9: the scope discipline of the analyzer.  Whatever the node, a
    visit that returns leaves the enclosing scopes untouched and removes
    no declaration from the innermost scope; a visit of a [Block] node
    that returns leaves the whole symbol table as it found it. *)
Theorem visit_keeps_enclosing_scopes :
  forall (fuel : nat) (node : pyval) (outer : list (gmap string string))
         (top : gmap string string) (r : pyval) (s' : list (gmap string string)),
    visit fuel node (outer ++ [top])%list = Ok (r, s') ->
    (exists top', s' = (outer ++ [top'])%list /\ top ⊆ top') /\
    (class_name node = "Block" -> s' = (outer ++ [top])%list).
Proof.
  intros fuel node outer top r s' H. split.
  - exact (preserves_visit fuel node _ _ _ H outer top eq_refl).
  - intro Hcls. destruct fuel as [|fuel]; [discriminate H|].
    rewrite visit_S_eq in H. cbv zeta in H.
    destruct node as [| | | |cls attrs]; try discriminate Hcls.
    cbn [class_name] in Hcls. subst cls.
    change (visit_Block (visit fuel) (PObj "Block" attrs) (outer ++ [top])%list = Ok (r, s')) in H.
    destruct (visit_Block_scopes _ _ _ _ _ (preserves_visit fuel) H) as [E | [E _]];
      [exact E | destruct outer; discriminate E].
Qed.

Lemma visit_keeps_enclosing_scopes_witness :
  exists r s',
    visit 3
      (Ast.to_obj
         (Ast.Block [Ast.VarDecl (Lexer.mkToken "KEYWORD" "int" 1)
                       (Lexer.mkToken "ID" "a" 1) None]))
      ([] ++ [∅])%list = Ok (r, s') /\
    s' = ([] ++ [∅])%list.
Proof.
  set (node := Ast.to_obj
         (Ast.Block [Ast.VarDecl (Lexer.mkToken "KEYWORD" "int" 1)
                       (Lexer.mkToken "ID" "a" 1) None])).
  assert (H : visit 3 node ([] ++ [∅])%list = Ok (PStr "void", [∅]))
    by (vm_compute; reflexivity).
  exists (PStr "void"), [∅]. split; [exact H|].
  exact (proj2 (visit_keeps_enclosing_scopes 3 node [] ∅ _ _ H) eq_refl).
Defined.


Import Ast.

(** X10: declaring and looking up.  After a declaration that succeeds,
    [lookup] finds the name at the declared type, whatever the enclosing
    scopes hold for it, and every other name is looked up as before. *)
Theorem declare_then_lookup :
  forall (name type : string) (line line' : Z) (s s' : list (gmap string string)),
    declare name type line s = Ok (tt, s') ->
    lookup name line' s' = Ok (type, s') /\
    forall other, other <> name -> lookup_in (rev s') other = lookup_in (rev s) other.
Proof.
  intros name type line line' s s' H.
  apply declare_Ok_inv in H as (outer & inner & -> & Hfresh & ->).
  rewrite !rev_app_distr. cbn [rev app]. split.
  - unfold lookup, bind, get. rewrite rev_app_distr. cbn [rev app lookup_in].
    rewrite lookup_insert_eq. reflexivity.
  - intros other Hne. cbn [lookup_in]. rewrite lookup_insert_ne by congruence. reflexivity.
Qed.

Lemma declare_then_lookup_witness :
  lookup "a" 7 [{["a" := "float"]}; {["a" := "int"]}]
  = Ok ("int", [{["a" := "float"]}; {["a" := "int"]}]).
Proof.
  refine (proj1 (declare_then_lookup "a" "int" 3 7 [{["a" := "float"]}; ∅] _ _)).
  vm_compute. reflexivity.
Defined.

Lemma lookup_in_none (scopes : list (gmap string string)) (name : string) :
  Forall (fun scope : gmap string string => scope !! name = None) scopes ->
  lookup_in scopes name = None.
Proof. induction 1 as [|scope scopes H _ IH]; [reflexivity|]. cbn. rewrite H. exact IH. Qed.

Lemma lookup_undeclared (s : list (gmap string string)) (name : string) (line : Z) :
  Forall (fun scope : gmap string string => scope !! name = None) s ->
  lookup name line s = Raise (not_declared name line).
Proof.
  intro H. unfold lookup, bind, get.
  rewrite lookup_in_none by (apply Forall_rev, H). reflexivity.
Qed.

Lemma visit_Assign_eq (fuel : nat) (var_name : Lexer.Token) (value : ast) :
  visit (S fuel) (to_obj (Assign var_name value))
  = (var_type <- lookup (Lexer.value var_name) (Lexer.line var_name) ;;
     value_type <- visit fuel (to_obj value) ;;
     (if negb (eq_str value_type var_type)
      then cannot_assign value_type (Lexer.value var_name) var_type (Lexer.line var_name)
      else ret PNone) ;;
     ret (PStr "void")).
Proof. reflexivity. Qed.

Lemma visit_Id_eq (fuel : nat) (name : string) (line : Z) :
  visit (S fuel) (to_obj (Id name line))
  = (ty <- lookup name line ;; ret (PStr ty)).
Proof. reflexivity. Qed.

(** X12: a variable that no scope declares.  Assigning to it, or reading
    it, makes [analyze] record the diagnostic that the variable is not
    declared, at the line of the variable; the right-hand side of the
    assignment is not looked at. *)
Theorem undeclared_variable_is_reported :
  forall (fuel : nat) (s : list (gmap string string)) (var_name : Lexer.Token)
         (value : ast) (errors : list string),
    Forall (fun scope : gmap string string => scope !! Lexer.value var_name = None) s ->
    let diagnostic :=
      SemanticError_str ("Variable '" ++ Lexer.value var_name ++ "' not declared.")
        (Lexer.line var_name) in
    analyze_from s (S fuel) (to_obj (Assign var_name value)) errors
      = Ok ("void", (errors ++ [diagnostic])%list) /\
    analyze_from s (S fuel) (to_obj (Id (Lexer.value var_name) (Lexer.line var_name))) errors
      = Ok ("void", (errors ++ [diagnostic])%list).
Proof.
  intros fuel s var_name value errors H diagnostic.
  pose proof (lookup_undeclared s _ (Lexer.line var_name) H) as Hl.
  unfold analyze_from. rewrite visit_Assign_eq, visit_Id_eq.
  rewrite !(bind_Raise _ _ _ _ Hl). split; reflexivity.
Qed.

Lemma undeclared_variable_is_reported_witness :
  analyze 1 (to_obj (Assign (Lexer.mkToken "ID" "x" 4) (Number "1"))) []
  = Ok ("void", ["Semantic Error on line 4: Variable 'x' not declared."]).
Proof.
  refine (proj1 (undeclared_variable_is_reported 0 initial_scopes
                   (Lexer.mkToken "ID" "x" 4) (Number "1") [] _)).
  repeat constructor.
Defined.

Lemma visit_If_eq (fuel : nat) (condition if_block : ast) (else_block : option ast) :
  visit (S fuel) (to_obj (If condition if_block else_block))
  = visit_If (visit fuel) (to_obj (If condition if_block else_block)).
Proof. reflexivity. Qed.

(** X11: an [if] whose condition is not a comparison.  When the visit of
    the condition returns a type other than [bool], the analyzer reads
    the line of the condition's operator to build its diagnostic: for an
    arithmetic operation [analyze] records that the condition must be a
    boolean expression; for a node without operator (a variable, a
    literal) the read raises [AttributeError], which [analyze] lets
    through. *)
Theorem if_condition_must_be_comparison :
  forall (fuel : nat) (condition if_block : ast) (else_block : option ast)
         (s s1 : list (gmap string string)) (ty : string) (errors : list string),
    visit fuel (to_obj condition) s = Ok (PStr ty, s1) ->
    ty <> "bool" ->
    analyze_from s (S fuel) (to_obj (If condition if_block else_block)) errors
    = match operator_of condition with
      | Some op =>
          Ok ("void",
              (errors ++ [SemanticError_str
                            ("If condition must be a boolean expression (e.g., a > b), but got '"
                             ++ ty ++ "'.") (Lexer.line op)])%list)
      | None => Raise (AttributeError (class_name (to_obj condition)) "op")
      end.
Proof.
  intros fuel condition if_block else_block s s1 ty errors Hc Hty.
  unfold analyze_from. rewrite visit_If_eq. unfold visit_If.
  unfold bind at 1. cbn [to_obj getattr assoc String.eqb Ascii.eqb Bool.eqb lift].
  unfold bind at 1. rewrite Hc.
  assert (E : eq_str (PStr ty) "bool" = false) by (apply String.eqb_neq, Hty).
  unfold bind at 1. rewrite E. cbn [negb].
  unfold bind at 1. cbn [format lift].
  unfold bind at 1. cbn [to_obj getattr assoc String.eqb Ascii.eqb Bool.eqb lift].
  destruct condition; reflexivity.
Qed.

Lemma if_condition_must_be_comparison_witness :
  analyze_from [{["a" := "int"]}] 2
    (to_obj (If (Id "a" 1) (Block []) None)) []
  = Raise (AttributeError "Id" "op").
Proof.
  refine (if_condition_must_be_comparison 1 (Id "a" 1) (Block []) None
            [{["a" := "int"]}] [{["a" := "int"]}] "int" [] _ _).
  - vm_compute. reflexivity.
  - discriminate.
Defined.


Lemma visit_Number_eq (fuel : nat) (value : string) (s : list (gmap string string)) :
  visit (S fuel) (to_obj (Number value)) s = Ok (PStr (literal_type value), s).
Proof.
  change (visit (S fuel) (to_obj (Number value)) s)
    with ((if contains_char "."%char value then ret (PStr "float") else ret (PStr "int")) s).
  unfold literal_type. destruct (contains_char "."%char value); reflexivity.
Qed.

Lemma visit_BinOp_eq (fuel : nat) (l r : ast) (op : Lexer.Token) :
  visit (S fuel) (to_obj (BinOp l op r))
  = visit_BinOp (visit fuel) (to_obj (BinOp l op r)).
Proof. reflexivity. Qed.

Lemma number_type (t : string) :
  str_in t ["int"; "float"] = true -> is_number_type (PStr t) = true.
Proof. intro H. unfold is_number_type, eq_str. cbn in H. rewrite orb_false_r in H. exact H. Qed.

(** The operand check on operands of number types. *)
Lemma check_operands_numbers (fuel : nat) (what : string) (node lo ro : pyval)
    (op : Lexer.Token) (s s1 s2 : list (gmap string string)) (tl tr : string) :
  getattr node "left" = Ok lo -> getattr node "right" = Ok ro ->
  getattr node "op" = Ok (Parser.token_obj op) ->
  visit fuel lo s = Ok (PStr tl, s1) ->
  visit fuel ro s1 = Ok (PStr tr, s2) ->
  str_in tl ["int"; "float"] = true -> str_in tr ["int"; "float"] = true ->
  check_operands (visit fuel) what node s = Ok ((PStr tl, PStr tr), s2).
Proof.
  intros Gl Gr Go Hl Hr Htl Htr. unfold check_operands.
  erewrite bind_Ok by (unfold lift; rewrite Gl; reflexivity).
  erewrite bind_Ok by exact Hl.
  erewrite bind_Ok by (unfold lift; rewrite Gr; reflexivity).
  erewrite bind_Ok by exact Hr.
  erewrite bind_Ok by (unfold getattr2, bind, lift; rewrite Go; reflexivity).
  rewrite (number_type _ Htl), (number_type _ Htr). reflexivity.
Qed.

(** An arithmetic operation whose operands have number types. *)
Lemma visit_BinOp_numbers (fuel : nat) (l r : ast) (op : Lexer.Token)
    (s s1 s2 : list (gmap string string)) (tl tr : string) :
  visit fuel (to_obj l) s = Ok (PStr tl, s1) ->
  visit fuel (to_obj r) s1 = Ok (PStr tr, s2) ->
  str_in tl ["int"; "float"] = true -> str_in tr ["int"; "float"] = true ->
  visit (S fuel) (to_obj (BinOp l op r)) s = Ok (PStr (promote tl tr), s2).
Proof.
  intros Hl Hr Htl Htr. rewrite visit_BinOp_eq. unfold visit_BinOp.
  erewrite bind_Ok
    by (eapply (check_operands_numbers fuel _ _ _ _ op); try eassumption; reflexivity).
  cbn [fst snd eq_str]. unfold promote.
  destruct ((tl =? "float") || (tr =? "float")); reflexivity.
Qed.

Lemma literal_type_number (value : string) :
  str_in (literal_type value) ["int"; "float"] = true.
Proof. unfold literal_type. destruct (contains_char "."%char value); reflexivity. Qed.

Lemma promote_number (tl tr : string) : str_in (promote tl tr) ["int"; "float"] = true.
Proof. unfold promote. destruct (_ || _); reflexivity. Qed.

(** The text of the type of an arithmetic expression over literals. *)
Lemma literal_arithmetic_visit (a : ast) :
  forall (fuel : nat) (s : list (gmap string string)),
    literal_arithmetic a = true -> depth a <= fuel ->
    visit fuel (to_obj a) s
    = Ok (PStr (if existsb (contains_char "."%char) (literals a) then "float" else "int"), s).
Proof.
  induction a as [| | | | |l IHl op r IHr| | |]; intros fuel s Hlit Hd; try discriminate Hlit.
  - cbn [literal_arithmetic] in Hlit. apply andb_prop in Hlit as [Hl Hr].
    cbn [depth] in Hd. destruct fuel as [|fuel]; [lia|].
    assert (Hdl : depth l <= fuel) by lia. assert (Hdr : depth r <= fuel) by lia.
    rewrite (visit_BinOp_numbers fuel l r op s s s _ _ (IHl fuel s Hl Hdl) (IHr fuel s Hr Hdr)).
    + cbn [literals]. rewrite existsb_app. unfold promote.
      destruct (existsb _ (literals l)), (existsb _ (literals r)); reflexivity.
    + destruct (existsb _ (literals l)); reflexivity.
    + destruct (existsb _ (literals r)); reflexivity.
  - destruct fuel as [|fuel]; [cbn [depth] in Hd; lia|].
    rewrite visit_Number_eq. cbn [literals existsb]. rewrite orb_false_r. reflexivity.
Qed.

(** X13: the type of arithmetic over literals.  An arithmetic expression
    built from literals only is always accepted, leaves the symbol table
    as it is, and has the type [float] exactly when one of its literals
    holds a dot, and [int] otherwise. *)
Theorem literal_arithmetic_type :
  forall (a : ast) (fuel : nat) (s : list (gmap string string)),
    literal_arithmetic a = true -> depth a <= fuel ->
    visit fuel (to_obj a) s
    = Ok (PStr (if existsb (contains_char "."%char) (literals a) then "float" else "int"), s).
Proof. exact literal_arithmetic_visit. Qed.

Lemma literal_arithmetic_type_witness :
  visit 2 (to_obj (BinOp (Number "1") (Lexer.mkToken "OP_ARITH" "+" 1) (Number "2.5"))) [∅]
  = Ok (PStr "float", [∅]).
Proof.
  apply (literal_arithmetic_type
           (BinOp (Number "1") (Lexer.mkToken "OP_ARITH" "+" 1) (Number "2.5")) 2 [∅]).
  - reflexivity.
  - vm_compute. lia.
Defined.

(** X14: assignments do not convert.  Assigning an arithmetic expression
    over literals to a declared variable is accepted exactly when the
    type of the expression is the declared type; otherwise [analyze]
    records that the type cannot be assigned, also for an [int] value and
    a [float] variable. *)
Theorem assignment_types_must_agree :
  forall (fuel : nat) (s : list (gmap string string)) (var_name : Lexer.Token)
         (value : ast) (errors : list string) (var_type : string),
    lookup_in (rev s) (Lexer.value var_name) = Some var_type ->
    literal_arithmetic value = true -> depth value <= fuel ->
    let value_type :=
      if existsb (contains_char "."%char) (literals value) then "float" else "int" in
    analyze_from s (S fuel) (to_obj (Assign var_name value)) errors
    = if value_type =? var_type then Ok ("void", errors)
      else Ok ("void",
               (errors ++ [SemanticError_str
                             ("Cannot assign type '" ++ value_type ++ "' to variable '"
                              ++ Lexer.value var_name ++ "' of type '" ++ var_type ++ "'.")
                             (Lexer.line var_name)])%list).
Proof.
  intros fuel s var_name value errors var_type Hlook Hlit Hd value_type.
  unfold analyze_from. rewrite visit_Assign_eq.
  erewrite bind_Ok by (unfold lookup, bind, get; rewrite Hlook; reflexivity).
  erewrite bind_Ok by (apply literal_arithmetic_visit; assumption).
  fold value_type. cbn [eq_str].
  destruct (value_type =? var_type); reflexivity.
Qed.

Lemma assignment_types_must_agree_witness :
  analyze_from [{["f" := "float"]}] 2
    (to_obj (Assign (Lexer.mkToken "ID" "f" 3) (Number "1"))) []
  = Ok ("void",
        ["Semantic Error on line 3: Cannot assign type 'int' to variable 'f' of type 'float'."]).
Proof.
  apply (assignment_types_must_agree 1 [{["f" := "float"]}] (Lexer.mkToken "ID" "f" 3)
           (Number "1") [] "float").
  - vm_compute. reflexivity.
  - reflexivity.
  - vm_compute. lia.
Defined.

End Scopes.

(** ** Temporaries, labels and jumps of the generated code *)

Section Build.

Import IRGenerator.

Lemma collect_app {A B : Type} (f : A -> option B) (l1 l2 : list A) :
  collect f (l1 ++ l2) = (collect f l1 ++ collect f l2)%list.
Proof.
  induction l1 as [|x l1 IH]; [reflexivity|]. cbn [app collect].
  destruct (f x); rewrite IH; reflexivity.
Qed.

Lemma seq_split (a b c : nat) :
  a <= b -> b <= c -> seq (S a) (c - a) = (seq (S a) (b - a) ++ seq (S b) (c - b))%list.
Proof.
  intros Hab Hbc. replace (c - a) with ((b - a) + (c - b)) by lia.
  rewrite List.seq_app. do 2 f_equal. lia.
Qed.

Lemma temp_names_split (a b c : nat) :
  a <= b -> b <= c -> temp_names a c = (temp_names a b ++ temp_names b c)%list.
Proof. intros. unfold temp_names. rewrite (seq_split a b c), map_app by assumption. reflexivity. Qed.

Lemma label_names_split (a b c : nat) :
  a <= b -> b <= c -> label_names a c = (label_names a b ++ label_names b c)%list.
Proof. intros. unfold label_names. rewrite (seq_split a b c), map_app by assumption. reflexivity. Qed.

Lemma label_names_refl (a : nat) : label_names a a = [].
Proof. unfold label_names. rewrite Nat.sub_diag. reflexivity. Qed.

Lemma temp_names_refl (a : nat) : temp_names a a = [].
Proof. unfold temp_names. rewrite Nat.sub_diag. reflexivity. Qed.

Lemma label_names_one (a : nat) : label_names a (S a) = [label_name (S a)].
Proof. unfold label_names. replace (S a - a) with 1 by lia. reflexivity. Qed.

Lemma temp_names_one (a : nat) : temp_names a (S a) = [temp_name (S a)].
Proof. unfold temp_names. replace (S a - a) with 1 by lia. reflexivity. Qed.

Lemma jumps_forward_app (c1 c2 : list instr) :
  jumps_forward c1 -> jumps_forward c2 -> jumps_forward (c1 ++ c2).
Proof.
  intros H1 H2. induction c1 as [|i c1 IH]; [exact H2|].
  destruct H1 as [Hi H1]. cbn [app jumps_forward]. split; [|exact (IH H1)].
  intros label Hl. apply in_or_app. left. exact (Hi label Hl).
Qed.

(** A jump whose label is defined in what follows. *)
Lemma jumps_forward_jump (i : instr) (rest : list instr) :
  (forall label, jump_target i = Some label -> In (ILabel label) rest) ->
  jumps_forward rest -> jumps_forward (i :: rest).
Proof. intros. split; assumption. Qed.

Lemma jumps_forward_plain (i : instr) (rest : list instr) :
  jump_target i = None -> jumps_forward rest -> jumps_forward (i :: rest).
Proof. intros Hi H. split; [intros label E; congruence | exact H]. Qed.

Lemma well_formed_nil (tc lc : nat) : well_formed tc lc [] tc lc.
Proof.
  unfold well_formed. rewrite temp_names_refl, label_names_refl.
  repeat split; try lia. constructor.
Qed.

Lemma well_formed_app (tc lc : nat) (c1 : list instr) (tc1 lc1 : nat)
    (c2 : list instr) (tc2 lc2 : nat) :
  well_formed tc lc c1 tc1 lc1 -> well_formed tc1 lc1 c2 tc2 lc2 ->
  well_formed tc lc (c1 ++ c2) tc2 lc2.
Proof.
  intros (Ht1 & Hl1 & Hd1 & Hp1 & Hj1) (Ht2 & Hl2 & Hd2 & Hp2 & Hj2).
  split; [lia|]. split; [lia|]. split; [|split].
  - rewrite collect_app, Hd1, Hd2. symmetry. apply temp_names_split; assumption.
  - rewrite collect_app, (label_names_split lc lc1 lc2) by assumption.
    apply Permutation_app; assumption.
  - apply jumps_forward_app; assumption.
Qed.

(** An instruction that assigns no temporary and names no label. *)
Lemma well_formed_plain (tc lc : nat) (i : instr) :
  dest i = None -> defined_label i = None -> jump_target i = None ->
  well_formed tc lc [i] tc lc.
Proof.
  intros Hd Hl Hj. unfold well_formed. cbn [collect]. rewrite Hd, Hl.
  rewrite temp_names_refl, label_names_refl.
  split; [lia|]. split; [lia|]. split; [reflexivity|]. split; [constructor|].
  apply jumps_forward_plain; [exact Hj | exact I].
Qed.

Lemma builds_ret {A : Type} (a : A) : builds (ret a).
Proof.
  intros s r s' H. injection H as _ <-. exists []. rewrite app_nil_r.
  split; [reflexivity | apply well_formed_nil].
Qed.

Lemma builds_raise {A : Type} (e : exn) : builds (@raise _ A e).
Proof. intros s r s' H. discriminate H. Qed.

Lemma builds_out_of_fuel {A : Type} : builds (@out_of_fuel _ A).
Proof. intros s r s' H. discriminate H. Qed.

Lemma builds_lift {A : Type} (o : outcome A) : builds (lift o).
Proof.
  intros s r s' H. apply lift_Ok_inv in H as [_ H]. cbn in H. subst s'.
  exact (builds_ret r s r s eq_refl).
Qed.

Lemma builds_bind {A B : Type} (m : G A) (k : A -> G B) :
  builds m -> (forall a, builds (k a)) -> builds (bind m k).
Proof.
  intros Hm Hk s r s' H. apply bind_Ok_inv in H as (a & s1 & H1 & H2).
  destruct (Hm _ _ _ H1) as (c1 & E1 & W1). destruct (Hk a _ _ _ H2) as (c2 & E2 & W2).
  exists (c1 ++ c2)%list. split; [rewrite E2, E1, app_assoc; reflexivity|].
  exact (well_formed_app _ _ _ _ _ _ _ _ W1 W2).
Qed.

Lemma builds_getattr2 (node : pyval) (a b : string) : builds (getattr2 _ node a b).
Proof.
  unfold getattr2, SemanticAnalyzer.getattr2.
  apply builds_bind; [|intro]; apply builds_lift.
Qed.

Lemma builds_for_each {A : Type} (xs : list A) (body : A -> G unit) :
  (forall x, builds (body x)) -> builds (for_each xs body).
Proof.
  intro Hb. induction xs as [|x xs IH]; cbn [for_each]; [apply builds_ret|].
  apply builds_bind; [apply Hb | intro; exact IH].
Qed.

Lemma builds_emit_plain (i : instr) :
  dest i = None -> defined_label i = None -> jump_target i = None -> builds (emit i).
Proof.
  intros Hd Hl Hj s r s' H. injection H as _ <-. exists [i].
  split; [reflexivity | apply well_formed_plain; assumption].
Qed.

Ltac builds_step :=
  repeat first
    [ assumption
    | apply builds_ret
    | apply builds_raise
    | apply builds_lift
    | apply builds_getattr2
    | apply builds_emit_plain; reflexivity
    | apply builds_for_each; intro
    | apply builds_bind; [|intro]
    | match goal with
      | H : forall node, builds (?v node) |- builds (?v _) => apply H
      | |- builds (if ?b then _ else _) => destruct b
      | |- builds (match ?x with _ => _ end) => destruct x
      end ].

(** Minting a temporary and assigning it. *)
Lemma builds_operation_tail (mk : string -> string -> string -> string -> instr)
    (left_src op right_src : pyval) :
  (forall t l o r, dest (mk t l o r) = Some t) ->
  (forall t l o r, defined_label (mk t l o r) = None) ->
  (forall t l o r, jump_target (mk t l o r) = None) ->
  builds (result_temp <- new_temp ;;
          left_src <- lift (format left_src) ;;
          op <- lift (format op) ;;
          right_src <- lift (format right_src) ;;
          emit (mk result_temp left_src op right_src) ;;
          ret (PStr result_temp)).
Proof.
  intros Hd Hl Hj s r s' H.
  apply bind_Ok_inv in H as (t & s1 & Ht & H).
  unfold new_temp, bind, get, put, ret in Ht. injection Ht as <- <-.
  apply bind_Ok_inv in H as (l & s2 & H1 & H). apply lift_Ok_inv in H1 as [_ H1].
  cbn [snd] in H1. subst s2.
  apply bind_Ok_inv in H as (o & s2 & H1 & H). apply lift_Ok_inv in H1 as [_ H1].
  cbn [snd] in H1. subst s2.
  apply bind_Ok_inv in H as (r0 & s2 & H1 & H). apply lift_Ok_inv in H1 as [_ H1].
  cbn [snd] in H1. subst s2.
  apply bind_Ok_inv in H as ([] & s2 & H1 & H). injection H1 as <-. injection H as _ <-.
  eexists [_]. cbn [ir_code temp_count label_count]. split; [reflexivity|].
  unfold well_formed. cbn [collect]. rewrite Hd, Hl.
  replace (temp_count s + 1) with (S (temp_count s)) by lia.
  rewrite temp_names_one, label_names_refl.
  split; [lia|]. split; [lia|]. split; [reflexivity|]. split; [constructor|].
  apply jumps_forward_plain; [apply Hj | exact I].
Qed.

Lemma builds_visit_operation (mk : string -> string -> string -> string -> instr)
    (visit : pyval -> G pyval) (node : pyval) :
  (forall t l o r, dest (mk t l o r) = Some t) ->
  (forall t l o r, defined_label (mk t l o r) = None) ->
  (forall t l o r, jump_target (mk t l o r) = None) ->
  (forall node, builds (visit node)) ->
  builds (visit_operation mk visit node).
Proof.
  intros Hd Hl Hj Hv. unfold visit_operation.
  do 5 (apply builds_bind; [builds_step | intro]).
  apply builds_operation_tail; assumption.
Qed.


Lemma collect_cons_none {A B : Type} (f : A -> option B) (x : A) (l : list A) :
  f x = None -> collect f (x :: l) = collect f l.
Proof. intro H. cbn [collect]. rewrite H. reflexivity. Qed.

Lemma collect_cons_some {A B : Type} (f : A -> option B) (x : A) (y : B) (l : list A) :
  f x = Some y -> collect f (x :: l) = y :: collect f l.
Proof. intro H. cbn [collect]. rewrite H. reflexivity. Qed.

(** The code of an [if] with an [else]. *)
Lemma well_formed_if_else (tc0 lc0 : nat) (cc : list instr) (tc1 lc1 : nat)
    (c_if : list instr) (tc2 lc2 : nat) (c_else : list instr) (tc3 lc3 : nat)
    (cv : string) :
  well_formed tc0 lc0 cc tc1 lc1 ->
  well_formed tc1 (S (S lc1)) c_if tc2 lc2 ->
  well_formed tc2 lc2 c_else tc3 lc3 ->
  well_formed tc0 lc0
    (cc ++ IIfFalse cv (label_name (S (S lc1))) :: c_if
        ++ IGoto (label_name (S lc1)) :: ILabel (label_name (S (S lc1))) :: c_else
        ++ [ILabel (label_name (S lc1))])
    tc3 lc3.
Proof.
  intros (Ht1 & Hl1 & Hd1 & Hp1 & Hj1) (Ht2 & Hl2 & Hd2 & Hp2 & Hj2)
         (Ht3 & Hl3 & Hd3 & Hp3 & Hj3).
  split; [lia|]. split; [lia|]. split; [|split].
  - rewrite collect_app, collect_cons_none, collect_app by reflexivity.
    rewrite !collect_cons_none, collect_app by reflexivity.
    cbn [collect dest]. rewrite app_nil_r, Hd1, Hd2, Hd3.
    rewrite (temp_names_split tc0 tc1 tc3), (temp_names_split tc1 tc2 tc3) by lia.
    reflexivity.
  - rewrite collect_app, collect_cons_none, collect_app by reflexivity.
    rewrite collect_cons_none by reflexivity.
    rewrite (collect_cons_some _ _ (label_name (S (S lc1)))) by reflexivity.
    rewrite collect_app. cbn [collect defined_label].
    rewrite Hp1, Hp2, Hp3.
    rewrite (label_names_split lc0 lc1 lc3), (label_names_split lc1 (S lc1) lc3),
      (label_names_split (S lc1) (S (S lc1)) lc3),
      (label_names_split (S (S lc1)) lc2 lc3) by lia.
    rewrite !label_names_one. apply Permutation_app_head. cbn [app].
    set (N2 := label_names (S (S lc1)) lc2). set (N3 := label_names lc2 lc3).
    set (e := label_name (S lc1)). set (f := label_name (S (S lc1))).
    transitivity (f :: N2 ++ N3 ++ [e])%list.
    + symmetry. apply Permutation_middle.
    + transitivity ((f :: N2 ++ N3) ++ [e])%list.
      * cbn [app]. rewrite <- app_assoc. reflexivity.
      * symmetry. apply Permutation_cons_append.
  - apply jumps_forward_app; [exact Hj1|].
    apply jumps_forward_jump.
    + intros label E. injection E as <-. apply in_or_app. right. right. left. reflexivity.
    + apply jumps_forward_app; [exact Hj2|].
      apply jumps_forward_jump.
      * intros label E. injection E as <-. right. apply in_or_app. right. left. reflexivity.
      * apply jumps_forward_plain; [reflexivity|].
        apply jumps_forward_app; [exact Hj3|].
        apply jumps_forward_plain; [reflexivity | exact I].
Qed.

(** The code of an [if] without [else]. *)
Lemma well_formed_if (tc0 lc0 : nat) (cc : list instr) (tc1 lc1 : nat)
    (c_if : list instr) (tc2 lc2 : nat) (cv : string) :
  well_formed tc0 lc0 cc tc1 lc1 ->
  well_formed tc1 (S lc1) c_if tc2 lc2 ->
  well_formed tc0 lc0
    (cc ++ IIfFalse cv (label_name (S lc1)) :: c_if ++ [ILabel (label_name (S lc1))])
    tc2 lc2.
Proof.
  intros (Ht1 & Hl1 & Hd1 & Hp1 & Hj1) (Ht2 & Hl2 & Hd2 & Hp2 & Hj2).
  split; [lia|]. split; [lia|]. split; [|split].
  - rewrite collect_app, collect_cons_none, collect_app by reflexivity.
    cbn [collect dest]. rewrite app_nil_r, Hd1, Hd2.
    rewrite (temp_names_split tc0 tc1 tc2) by lia. reflexivity.
  - rewrite collect_app, collect_cons_none, collect_app by reflexivity.
    cbn [collect defined_label]. rewrite Hp1, Hp2.
    rewrite (label_names_split lc0 lc1 lc2), (label_names_split lc1 (S lc1) lc2) by lia.
    rewrite label_names_one. apply Permutation_app_head. cbn [app].
    symmetry. apply Permutation_cons_append.
  - apply jumps_forward_app; [exact Hj1|].
    apply jumps_forward_jump.
    + intros label E. injection E as <-. apply in_or_app. right. left. reflexivity.
    + apply jumps_forward_app; [exact Hj2|].
      apply jumps_forward_plain; [reflexivity | exact I].
Qed.

Ltac inv_gen H :=
  repeat
    match type of H with
    | bind (lift _) _ _ = Ok _ =>
        let a := fresh "a" in
        let s := fresh "s" in
        let H1 := fresh "H" in
        apply bind_Ok_inv in H as (a & s & H1 & H);
        apply lift_Ok_inv in H1 as [_ H1]; cbn [snd] in H1; subst s
    | bind new_label _ _ = Ok _ =>
        let a := fresh "label" in
        let s := fresh "s" in
        let H1 := fresh "H" in
        apply bind_Ok_inv in H as (a & s & H1 & H);
        unfold new_label, bind, get, put, ret in H1; injection H1 as <- <-
    | bind (emit _) _ _ = Ok _ =>
        let a := fresh "u" in
        let s := fresh "s" in
        let H1 := fresh "H" in
        apply bind_Ok_inv in H as (a & s & H1 & H);
        unfold emit, modify in H1; injection H1 as _ <-
    | bind _ _ _ = Ok _ =>
        let a := fresh "a" in
        let s := fresh "s" in
        let H1 := fresh "Hv" in
        apply bind_Ok_inv in H as (a & s & H1 & H)
    end.

Lemma builds_visit_If (visit : pyval -> G pyval) (node : pyval) :
  (forall node, builds (visit node)) -> builds (visit_If visit node).
Proof.
  intros Hv s r s' H. unfold visit_If in H.
  apply bind_Ok_inv in H as (condition & s0 & H0 & H).
  apply lift_Ok_inv in H0 as [_ H0]. cbn [snd] in H0. subst s0.
  apply bind_Ok_inv in H as (condition_var & s1 & Hc & H).
  destruct (Hv _ _ _ _ Hc) as (cc & Ec & Wc).
  apply bind_Ok_inv in H as (end_label & s2 & Hl & H).
  unfold new_label, bind, get, put, ret in Hl. injection Hl as <- <-.
  apply bind_Ok_inv in H as (else_block & s2 & H0 & H).
  apply lift_Ok_inv in H0 as [_ H0]. cbn [snd] in H0. subst s2.
  apply bind_Ok_inv in H as ([] & s3 & Hbody & H).
  apply bind_Ok_inv in H as ([] & s4 & He & H).
  unfold emit, modify in He. injection He as <-. injection H as _ <-.
  cbn [ir_code temp_count label_count].
  replace (label_count s1 + 1) with (S (label_count s1)) in * by lia.
  destruct (truthy else_block).
  - inv_gen Hbody. unfold ret in Hbody. injection Hbody as <-.
    replace (label_count s1 + 1) with (S (label_count s1)) in * by lia.
    match goal with
    | H1 : visit _ _ = Ok (_, ?sa),
      H2 : visit _ {| ir_code := (ir_code ?sa ++ _) ++ _; temp_count := _;
                      label_count := _ |} = Ok _ |- _ =>
        destruct (Hv _ _ _ _ H1) as (c_if & Ei & Wi);
        destruct (Hv _ _ _ _ H2) as (c_else & Ee & We)
    end.
    cbn [ir_code temp_count label_count] in *.
    eexists. split.
    + rewrite Ee, Ei, Ec. rewrite <- !app_assoc. cbn [app]. reflexivity.
    + eapply well_formed_if_else; eassumption.
  - inv_gen Hbody. unfold ret in Hbody. injection Hbody as <-.
    match goal with
    | H1 : visit _ {| ir_code := _; temp_count := _; label_count := _ |} = Ok _ |- _ =>
        destruct (Hv _ _ _ _ H1) as (c_if & Ei & Wi)
    end.
    cbn [ir_code temp_count label_count] in *.
    eexists. split.
    + rewrite Ei, Ec. rewrite <- !app_assoc. cbn [app]. reflexivity.
    + eapply well_formed_if; eassumption.
Qed.

Lemma builds_visit (fuel : nat) : forall node, builds (visit fuel node).
Proof.
  induction fuel as [|fuel IH]; intro node; [apply builds_out_of_fuel|].
  cbn [visit].
  destruct (is_none node); [apply builds_ret|]. cbv zeta.
  destruct (class_name node =? "Program");
    [unfold visit_Program; builds_step|].
  destruct (class_name node =? "VarDecl");
    [unfold visit_VarDecl; builds_step|].
  destruct (class_name node =? "Assign");
    [unfold visit_Assign; builds_step|].
  destruct (class_name node =? "If");
    [apply builds_visit_If, IH|].
  destruct (class_name node =? "Block");
    [unfold visit_Block; builds_step|].
  destruct (class_name node =? "BinOp");
    [apply builds_visit_operation; (reflexivity || exact IH)|].
  destruct (class_name node =? "RelOp");
    [apply builds_visit_operation; (reflexivity || exact IH)|].
  destruct (class_name node =? "Number");
    [unfold visit_Number; builds_step|].
  destruct (class_name node =? "Id");
    [unfold visit_Id; builds_step|].
  apply builds_raise.
Qed.


Lemma NoDup_names (f : nat -> string) (start len : nat) :
  (forall m n, f m = f n -> m = n) -> List.NoDup (map f (seq start len)).
Proof.
  intro Hinj. revert start. induction len as [|len IH]; intro start; [apply List.NoDup_nil|].
  cbn [seq map]. apply List.NoDup_cons; [|apply IH].
  intro Hin. apply List.in_map_iff in Hin as (n & E & Hn). apply Hinj in E. subst n.
  apply List.in_seq in Hn. lia.
Qed.

Lemma temp_name_injective (m n : nat) : temp_name m = temp_name n -> m = n.
Proof. unfold temp_name. intro H. injection H as H. apply str_of_nat_injective, H. Qed.

Lemma jumps_forward_nth (code : list instr) :
  jumps_forward code ->
  forall i ins label,
    nth_error code i = Some ins -> jump_target ins = Some label ->
    exists j, i < j /\ nth_error code j = Some (ILabel label).
Proof.
  induction code as [|x code IH]; intros Hj i ins label Hn Ht.
  - destruct i; discriminate Hn.
  - destruct Hj as [Hx Hj]. destruct i as [|i].
    + injection Hn as ->. apply Hx, In_nth_error in Ht as [j Ej].
      exists (S j). split; [lia | exact Ej].
    + destruct (IH Hj i ins label Hn Ht) as (j & Hlt & Ej).
      exists (S j). split; [lia | exact Ej].
Qed.

(** What a run of [generate] returns. *)
Lemma generate_from_builds (tc lc fuel : nat) (node : pyval) (ir : list instr) :
  generate_from tc lc fuel node = Ok ir ->
  exists tc' lc', well_formed tc lc ir tc' lc'.
Proof.
  unfold generate_from. intro H.
  destruct (visit fuel node (mkGen [] tc lc)) as [[r s']| | |] eqn:E; try discriminate H.
  injection H as <-. destruct (builds_visit fuel node _ _ _ E) as (code & Ec & W).
  cbn [ir_code temp_count label_count app] in Ec, W. rewrite Ec. eauto.
Qed.

(** X15: temporaries are minted in order.  In the code [generate]
    returns, the results of the arithmetic and relational operations are,
    from first to last, the temporaries numbered from the counter the
    generator started at, one by one; so no temporary is assigned
    twice. *)
Theorem temporaries_are_numbered_in_order :
  forall (tc lc fuel : nat) (node : pyval) (ir : list instr),
    generate_from tc lc fuel node = Ok ir ->
    (exists n, collect dest ir = map temp_name (seq (S tc) n)) /\
    List.NoDup (collect dest ir).
Proof.
  intros tc lc fuel node ir H.
  destruct (generate_from_builds _ _ _ _ _ H) as (tc' & lc' & _ & _ & Hd & _).
  rewrite Hd. split; [exists (tc' - tc); reflexivity|].
  apply NoDup_names, temp_name_injective.
Qed.

Lemma temporaries_are_numbered_in_order_witness :
  exists ir,
    generate_instrs 5 (Ast.to_obj sample_program) = Ok ir /\
    (exists n, collect dest ir = map temp_name (seq 1 n)) /\
    List.NoDup (collect dest ir).
Proof.
  eexists. split; [vm_compute; reflexivity|].
  apply (temporaries_are_numbered_in_order 0 0 5 (Ast.to_obj sample_program)).
  vm_compute. reflexivity.
Defined.

(** X16: labels and jumps.  In the code [generate] returns no label is
    defined twice, every label defined was minted by this run, and every
    jump, conditional or not, goes to a label that is defined further
    down in the code. *)
Theorem jumps_go_forward_to_defined_labels :
  forall (tc lc fuel : nat) (node : pyval) (ir : list instr),
    generate_from tc lc fuel node = Ok ir ->
    List.NoDup (collect defined_label ir) /\
    (forall label, In label (collect defined_label ir) ->
                   exists n, lc < n /\ label = label_name n) /\
    (forall i ins label,
       nth_error ir i = Some ins -> jump_target ins = Some label ->
       exists j, i < j /\ nth_error ir j = Some (ILabel label)).
Proof.
  intros tc lc fuel node ir H.
  destruct (generate_from_builds _ _ _ _ _ H) as (tc' & lc' & _ & _ & _ & Hp & Hj).
  split; [|split].
  - apply (Permutation_NoDup (Permutation_sym Hp)).
    apply NoDup_names, label_name_injective.
  - intros label Hin. apply (Permutation_in _ Hp) in Hin.
    apply List.in_map_iff in Hin as (n & <- & Hn). apply List.in_seq in Hn.
    exists n. split; [lia | reflexivity].
  - exact (jumps_forward_nth ir Hj).
Qed.

Lemma jumps_go_forward_to_defined_labels_witness :
  exists ir,
    generate_instrs 5 (Ast.to_obj sample_program) = Ok ir /\
    List.NoDup (collect defined_label ir) /\
    (forall label, In label (collect defined_label ir) ->
                   exists n, 0 < n /\ label = label_name n) /\
    (forall i ins label,
       nth_error ir i = Some ins -> jump_target ins = Some label ->
       exists j, i < j /\ nth_error ir j = Some (ILabel label)).
Proof.
  eexists. split; [vm_compute; reflexivity|].
  apply (jumps_go_forward_to_defined_labels 0 0 5 (Ast.to_obj sample_program)).
  vm_compute. reflexivity.
Defined.

End Build.

(** ** Properties of constant folding *)

Section Fold.

Import Optimizer.

Lemma fold_step_folded (i : instr) (l : list instr) :
  fold_step i [] = Ok (tt, l) -> exists i', l = [i'] /\ folded_from i i'.
Proof.
  destruct i as [[[op a1] a2] r]. unfold fold_step, folded_from, foldable, result_of.
  cbn [snd].
  destruct (is_arith op && is_numeric a1 && is_numeric a2).
  - destruct op as [op|]; [|discriminate]. destruct a1 as [a1|]; [|discriminate].
    destruct a2 as [a2|]; [|discriminate].
    destruct (PyFloat.of_string a1); [|discriminate].
    destruct (PyFloat.of_string a2); [|discriminate].
    unfold bind, lift, modify. destruct (keep_int _); try discriminate.
    intro H. injection H as <-. eexists. split; [reflexivity|]. eexists. reflexivity.
  - unfold modify. intro H. injection H as <-. eexists. split; reflexivity.
Qed.

Lemma folded_not_foldable (i i' : instr) : folded_from i i' -> foldable i' = false.
Proof.
  unfold folded_from. destruct (foldable i) eqn:E.
  - intros [v ->]. reflexivity.
  - intros ->. exact E.
Qed.

Lemma folded_result (i i' : instr) : folded_from i i' -> result_of i' = result_of i.
Proof.
  unfold folded_from. destruct (foldable i); [intros [v ->] | intros ->]; reflexivity.
Qed.

Lemma constant_folding_pointwise (ir : list instr) :
  forall ir', constant_folding ir = Ok ir' -> Forall2 folded_from ir ir'.
Proof.
  induction ir as [|i ir IH]; intros ir' H.
  - injection H as <-. constructor.
  - rewrite constant_folding_cons in H.
    destruct (fold_step i []) as [[[] l]| | |] eqn:Hi; try discriminate H.
    destruct (constant_folding ir) as [ir1| | |] eqn:Hir; try discriminate H.
    injection H as <-. apply fold_step_folded in Hi as (i' & -> & Hf).
    constructor; [exact Hf | apply IH; reflexivity].
Qed.

(** X17: what constant folding keeps.  When the optimizer returns, its
    result has one instruction for each instruction of the input, in the
    same order and with the same destination: an arithmetic instruction
    on two numeric operands has become an [ASSIGN], every other
    instruction is unchanged; and no instruction of the result can be
    folded further. *)
Theorem constant_folding_is_pointwise :
  forall ir ir' : list instr,
    optimize ir = Ok ir' ->
    Forall2 folded_from ir ir' /\
    length ir' = length ir /\
    map result_of ir' = map result_of ir /\
    Forall (fun i' => foldable i' = false) ir'.
Proof.
  intros ir ir' H. apply constant_folding_pointwise in H.
  split; [exact H|]. induction H as [|i i' ir ir' Hf _ (IH1 & IH2 & IH3)].
  - repeat split; constructor.
  - split; [cbn; congruence|]. split.
    + cbn [map]. rewrite (folded_result _ _ Hf), IH2. reflexivity.
    + constructor; [exact (folded_not_foldable _ _ Hf) | exact IH3].
Qed.

Lemma constant_folding_is_pointwise_witness :
  optimize [(Some "ADD", Some "2", Some "3", Some "t1");
            (Some "ADD", Some "a", Some "3", Some "t2")]
  = Ok [(Some "ASSIGN", Some "5", None, Some "t1");
        (Some "ADD", Some "a", Some "3", Some "t2")] /\
  map result_of [(Some "ASSIGN", Some "5", None, Some "t1");
                 (Some "ADD", Some "a", Some "3", Some "t2")]
  = map result_of [(Some "ADD", Some "2", Some "3", Some "t1");
                   (Some "ADD", Some "a", Some "3", Some "t2")].
Proof.
  assert (H : optimize [(Some "ADD", Some "2", Some "3", Some "t1");
                        (Some "ADD", Some "a", Some "3", Some "t2")]
              = Ok [(Some "ASSIGN", Some "5", None, Some "t1");
                    (Some "ADD", Some "a", Some "3", Some "t2")])
    by (vm_compute; reflexivity).
  split; [exact H|].
  exact (proj1 (proj2 (proj2 (constant_folding_is_pointwise _ _ H)))).
Defined.

Lemma compute_nan_right (op : string) (x : spec_float) :
  str_in op ["ADD"; "SUB"; "MUL"; "DIV"] = true ->
  compute op x S754_nan = Float S754_nan.
Proof.
  intro H. unfold compute.
  destruct (op =? "ADD") eqn:E1; [destruct x; reflexivity|].
  destruct (op =? "SUB") eqn:E2; [destruct x; reflexivity|].
  destruct (op =? "MUL") eqn:E3; [destruct x; reflexivity|].
  destruct x; reflexivity.
Qed.

Lemma compute_nan_left (op : string) (x : spec_float) :
  str_in op ["ADD"; "SUB"; "MUL"] = true ->
  compute op S754_nan x = Float S754_nan.
Proof.
  intro H. unfold compute.
  destruct (op =? "ADD") eqn:E1; [reflexivity|].
  destruct (op =? "SUB") eqn:E2; [reflexivity|].
  destruct (op =? "MUL") eqn:E3; [reflexivity|].
  cbn in H. rewrite E1, E2, E3 in H. discriminate.
Qed.

Lemma constant_folding_app_raise (ir1 ir2 : list instr) (i : instr) (e : exn) :
  forall ir1',
    constant_folding ir1 = Ok ir1' ->
    fold_step i [] = Raise e ->
    constant_folding (ir1 ++ i :: ir2) = Raise e.
Proof.
  induction ir1 as [|j ir1 IH]; intros ir1' H1 Hi.
  - cbn [app]. rewrite constant_folding_cons, Hi. reflexivity.
  - cbn [app]. rewrite constant_folding_cons in *.
    destruct (fold_step j []) as [[[] l]| | |]; try discriminate H1.
    destruct (constant_folding ir1) as [ir'| | |] eqn:E; try discriminate H1.
    rewrite (IH ir' eq_refl Hi). reflexivity.
Qed.

Lemma fold_step_nan (op a1 a2 : string) (r : option string) (v1 v2 : spec_float) :
  is_arith (Some op) = true ->
  PyFloat.of_string a1 = Some v1 ->
  PyFloat.of_string a2 = Some v2 ->
  compute op v1 v2 = Float S754_nan ->
  fold_step (Some op, Some a1, Some a2, r) []
  = Raise (ValueError "cannot convert float NaN to integer").
Proof.
  intros Ha H1 H2 Hc. unfold fold_step, is_numeric. rewrite Ha, H1, H2. cbn [andb].
  rewrite Hc. reflexivity.
Qed.

(** X18: a variable called [nan] stops the optimizer.  [is_numeric]
    asks [float], which accepts the text [nan]: an arithmetic
    instruction that has the name [nan] for one operand and a numeric
    literal for the other is folded, the value is not a number and its
    conversion to [int] raises [ValueError], wherever the instruction
    stands in a program whose earlier instructions fold (for a division,
    when [nan] is the divisor). *)
Theorem operand_named_nan_raises :
  forall (op a : string) (r : option string) (ir1 ir1' ir2 : list instr),
    is_numeric (Some a) = true ->
    optimize ir1 = Ok ir1' ->
    (str_in op ["ADD"; "SUB"; "MUL"; "DIV"] = true ->
     optimize (ir1 ++ (Some op, Some a, Some "nan", r) :: ir2)
     = Raise (ValueError "cannot convert float NaN to integer")) /\
    (str_in op ["ADD"; "SUB"; "MUL"] = true ->
     optimize (ir1 ++ (Some op, Some "nan", Some a, r) :: ir2)
     = Raise (ValueError "cannot convert float NaN to integer")).
Proof.
  intros op a r ir1 ir1' ir2 Ha H1. unfold is_numeric in Ha.
  destruct (PyFloat.of_string a) as [v|] eqn:Hv; [|discriminate].
  assert (Hn : PyFloat.of_string "nan" = Some S754_nan) by (vm_compute; reflexivity).
  split; intro Hop; unfold optimize; eapply constant_folding_app_raise;
    try exact H1.
  - eapply fold_step_nan; [exact Hop | exact Hv | exact Hn |].
    apply compute_nan_right, Hop.
  - eapply fold_step_nan; [| exact Hn | exact Hv |].
    + unfold is_arith. cbn in Hop |- *.
      destruct (op =? "ADD"); [reflexivity|].
      destruct (op =? "SUB"); [reflexivity|].
      destruct (op =? "MUL"); [reflexivity|discriminate].
    + apply compute_nan_left, Hop.
Qed.

Lemma operand_named_nan_raises_witness :
  optimize ([(Some "ADD", Some "2", Some "3", Some "t1")]
            ++ (Some "MUL", Some "nan", Some "2", Some "t2") :: [])
  = Raise (ValueError "cannot convert float NaN to integer").
Proof.
  refine (proj2 (operand_named_nan_raises "MUL" "2" (Some "t2")
                   [(Some "ADD", Some "2", Some "3", Some "t1")]
                   [(Some "ASSIGN", Some "5", None, Some "t1")] [] _ _) _);
    vm_compute; reflexivity.
Defined.

Lemma forallb_below (n : nat) (f : Z -> bool) (a : Z) :
  forallb f (below n) = true -> (0 <= a < Z.of_nat n)%Z -> f a = true.
Proof.
  intros H Ha. rewrite forallb_forall in H. apply H. unfold below.
  apply List.in_map_iff. exists (Z.to_nat a). split; [lia|].
  apply List.in_seq. lia.
Qed.

Lemma small_literals_fold_exactly :
  forallb (fun op =>
             forallb (fun a => forallb (folds_exactly op a) (below 128)) (below 128))
          ["ADD"; "SUB"; "MUL"] = true.
Proof. vm_compute. reflexivity. Qed.

(** X19: folding is exact on small integers.  The sum, the difference
    and the product of two integer literals from 0 to 127 are folded to
    the assignment of the decimal text of the exact integer (negative for
    a difference below zero), although the optimizer computes in floating
    point. *)
Theorem folding_small_integers_is_exact :
  forall (op : string) (a b : Z) (r : option string),
    In op ["ADD"; "SUB"; "MUL"] ->
    (0 <= a < 128)%Z -> (0 <= b < 128)%Z ->
    optimize [(Some op, Some (str_of_Z a), Some (str_of_Z b), r)]
    = Ok [(Some "ASSIGN", Some (str_of_Z (exact_result op a b)), None, r)].
Proof.
  intros op a b r Hop Ha Hb.
  pose proof small_literals_fold_exactly as H.
  rewrite forallb_forall in H. specialize (H op Hop).
  apply (fun H => forallb_below 128 _ a H Ha) in H.
  apply (fun H => forallb_below 128 _ b H Hb) in H.
  unfold folds_exactly in H.
  destruct (PyFloat.of_string (str_of_Z a)) as [v1|] eqn:H1; [|discriminate].
  destruct (PyFloat.of_string (str_of_Z b)) as [v2|] eqn:H2; [|discriminate].
  assert (Harith : is_arith (Some op) = true).
  { cbn in Hop. destruct Hop as [<-|[<-|[<-|[]]]]; reflexivity. }
  rewrite (optimize_one op _ _ r v1 v2 Harith H1 H2).
  destruct (keep_int (compute op v1 v2)) as [[x|n]| | |]; try discriminate.
  apply Z.eqb_eq in H. subst n. reflexivity.
Qed.

Lemma folding_small_integers_is_exact_witness :
  optimize [(Some "SUB", Some (str_of_Z 3), Some (str_of_Z 100), Some "t1")]
  = Ok [(Some "ASSIGN", Some (str_of_Z (exact_result "SUB" 3 100)), None, Some "t1")].
Proof.
  apply folding_small_integers_is_exact; [cbn; tauto | lia | lia].
Defined.

End Fold.

(** ** Properties of the code generator *)

Section Invariants.

Import CodeGenerator.

Variable I : cg_state -> Prop.
Hypothesis Hemit : forall line, invariant I (emit line).
Hypothesis Hallocate : forall n t, invariant I (allocate n t).
Hypothesis Hfloat :
  forall v, is_float_literal v = true -> invariant I (get_float_label v).

Lemma invariant_ret {A : Type} (a : A) : invariant I (ret a).
Proof. intros s H. exact H. Qed.

Lemma invariant_bind {A B : Type} (m : C A) (k : A -> C B) :
  invariant I m -> (forall a, invariant I (k a)) -> invariant I (bind m k).
Proof.
  intros Hm Hk s H. unfold bind. specialize (Hm s H).
  destruct (m s) as [[a s1]| | |]; try exact Logic.I. exact (Hk a s1 Hm).
Qed.

Lemma invariant_get : invariant I (@get cg_state).
Proof. intros s H. exact H. Qed.

Lemma invariant_raise {A : Type} (e : exn) : invariant I (@raise cg_state A e).
Proof. intros s H. exact Logic.I. Qed.

Lemma invariant_lift {A : Type} (o : outcome A) : invariant I (@lift cg_state A o).
Proof. intros s H. unfold lift. destruct o; try exact Logic.I. exact H. Qed.

Lemma invariant_part (parts : list string) (i : Z) : invariant I (part parts i).
Proof. apply invariant_lift. Qed.

Lemma invariant_get_var_offset (n : string) : invariant I (get_var_offset n).
Proof.
  intros s H. unfold get_var_offset, bind, get.
  destruct (symbol_table s !! n) as [[t o]|]; [exact H | exact (Hallocate n _ s H)].
Qed.

Ltac invariant_step :=
  match goal with
  | |- invariant _ (bind _ _) => apply invariant_bind; [|intros]
  | |- invariant _ (ret _) => apply invariant_ret
  | |- invariant _ (emit _) => apply Hemit
  | |- invariant _ get => apply invariant_get
  | |- invariant _ (raise _) => apply invariant_raise
  | |- invariant _ (part _ _) => apply invariant_part
  | |- invariant _ (lift _) => apply invariant_lift
  | |- invariant _ (allocate _ _) => apply Hallocate
  | |- invariant _ (get_var_offset _) => apply invariant_get_var_offset
  | |- invariant _ (get_float_label _) => apply Hfloat; assumption
  | |- invariant _ (if ?c then _ else _) => destruct c eqn:?
  | |- invariant _ (match ?x with Some _ => _ | None => _ end) => destruct x
  | |- invariant _ (let '(_, _) := ?x in _) => destruct x
  end.

Lemma invariant_load_int (reg src : string) : invariant I (load_int reg src).
Proof. unfold load_int. repeat invariant_step. Qed.

Lemma invariant_load_float (src : string) : invariant I (load_float src).
Proof. unfold load_float. repeat invariant_step. Qed.

Lemma invariant_gen_instr (ir : list string) (i : Z) (op : string)
    (parts : list string) : invariant I (gen_instr ir i op parts).
Proof.
  unfold gen_instr, gen_declare, gen_assign, gen_arith, gen_cast, gen_compare,
    gen_jump_if_false.
  repeat first [invariant_step | apply invariant_load_int
               | apply invariant_load_float].
Qed.

Lemma invariant_gen_line (ir : list string) (i : Z) (line : string) :
  invariant I (gen_line ir i line).
Proof.
  intros s H. unfold gen_line. destruct (split line) as [|op rest]; [exact H|].
  pose proof (invariant_gen_instr ir i op (op :: rest) s H) as Hi.
  destruct (gen_instr ir i op (op :: rest) s) as [[[] s']|e| |];
    try exact Logic.I; [exact Hi|].
  exact (Hemit _ s H).
Qed.

Lemma invariant_main_loop (ir lines : list string) :
  forall i, invariant I (main_loop ir i lines).
Proof.
  induction lines as [|line lines IH]; intro i; cbn [main_loop].
  - apply invariant_ret.
  - apply invariant_bind; [apply invariant_gen_line | intros _; apply IH].
Qed.

Lemma invariant_prescan_line (line : string) : invariant I (prescan_line line).
Proof.
  unfold prescan_line. destruct (split line) as [|op rest]; [apply invariant_ret|].
  repeat invariant_step.
Qed.

Lemma invariant_prescan (ir : list string) : invariant I (for_each ir prescan_line).
Proof.
  induction ir as [|line ir IH]; cbn [for_each].
  - apply invariant_ret.
  - apply invariant_bind; [apply invariant_prescan_line | intros _; exact IH].
Qed.

End Invariants.

Section Scan.

Import CodeGenerator.

Lemma part_out_of_range (parts : list string) (n : nat) (s : cg_state) :
  (length parts <= n)%nat ->
  part parts (Z.of_nat n) s = Raise (IndexError "list index out of range").
Proof.
  intro H. unfold part, lift, index.
  destruct (Z.of_nat n <? 0)%Z eqn:E; [apply Z.ltb_lt in E; lia|].
  rewrite E, Nat2Z.id. apply nth_error_None in H. rewrite H. reflexivity.
Qed.

Lemma prescan_line_raises (line : string) (s : cg_state) :
  scan_fields_present [line] = false ->
  prescan_line line s = Raise (IndexError "list index out of range").
Proof.
  rewrite scan_fields_present_cons, andb_true_r. unfold prescan_line.
  destruct (split line) as [|op rest]; [discriminate|].
  destruct (op =? "ASSIGN").
  - intro H. apply Nat.leb_gt in H. unfold bind at 1.
    change 2%Z with (Z.of_nat 2). rewrite part_out_of_range by lia. reflexivity.
  - destruct (is_arith op); [|discriminate].
    intro H. apply Nat.leb_gt in H.
    destruct (le_lt_dec (length (op :: rest)) 3) as [Hle|Hgt].
    + unfold bind at 1. change 3%Z with (Z.of_nat 3).
      rewrite part_out_of_range by lia. reflexivity.
    + destruct (part_in_range (op :: rest) 3 s ltac:(lia)) as [p3 H3].
      change (Z.of_nat 3) with 3%Z in H3.
      unfold bind at 1. rewrite H3. unfold bind at 1.
      destruct (note_float_returns p3 s) as [s1 ->].
      unfold bind at 1. change 4%Z with (Z.of_nat 4).
      rewrite part_out_of_range by lia. reflexivity.
Qed.

Lemma prescan_line_returns (line : string) (s : cg_state) :
  scan_fields_present [line] = true ->
  exists s', prescan_line line s = Ok (tt, s').
Proof.
  intro H. destruct (prescan_returns [line] s H) as [s' Hs'].
  cbn [for_each] in Hs'. unfold bind in Hs'.
  destruct (prescan_line line s) as [[[] s1]| | |]; try discriminate.
  exists s1. reflexivity.
Qed.

Lemma prescan_raises (ir : list string) :
  scan_fields_present ir = false ->
  forall s, for_each ir prescan_line s
            = Raise (IndexError "list index out of range").
Proof.
  induction ir as [|line ir IH]; [discriminate|].
  intros H s. cbn [for_each]. unfold bind.
  destruct (scan_fields_present [line]) eqn:E.
  - destruct (prescan_line_returns line s E) as [s1 ->].
    apply IH. rewrite scan_fields_present_cons in H, E.
    rewrite andb_true_r in E. rewrite E in H. exact H.
  - rewrite (prescan_line_raises line s E). reflexivity.
Qed.

(** X21: when [generate] fails.  [generate] returns the assembly text
    exactly when every [ASSIGN] line of the input has the two fields and
    every arithmetic line the four fields that the scan for float
    literals reads; otherwise it raises [IndexError], from the scan, and
    no text is produced.  Nothing the main loop meets can make it
    fail. *)
Theorem generate_fails_only_in_the_scan :
  forall ir : list string,
    if scan_fields_present ir
    then exists asm, generate ir = Ok asm
    else generate ir = Raise (IndexError "list index out of range").
Proof.
  intro ir. destruct (scan_fields_present ir) eqn:E.
  - unfold generate, generate_lines, bind at 1, modify. unfold bind at 1.
    match goal with
    | |- context [for_each ir prescan_line ?st] =>
        destruct (prescan_returns ir st E) as [s1 ->]
    end.
    unfold bind at 1.
    destruct (main_loop_returns ir ir 0 s1) as (s2 & l & -> & _).
    unfold bind, get.
    destruct (1 <? length (data_section s2))%nat; eexists; reflexivity.
  - unfold generate, generate_lines, bind at 1, modify. unfold bind at 1.
    rewrite (prescan_raises ir E). reflexivity.
Qed.

End Scan.

Section Slots.

Import CodeGenerator.

Lemma slots_emit (line : string) : invariant slots_ok (emit line).
Proof. intros s H. exact H. Qed.

Lemma slots_get_float_label (v : string) : invariant slots_ok (get_float_label v).
Proof.
  intros s H. unfold get_float_label, bind, get.
  destruct (float_labels s !! v); exact H.
Qed.

Lemma slots_allocate (n t : string) : invariant slots_ok (allocate n t).
Proof.
  intros s (H0 & H4 & Hin & Hinj). unfold allocate, bind, get, put, ret.
  unfold slots_ok. cbn [symbol_table current_offset].
  split; [lia|]. split; [Z.div_mod_to_equations; lia|]. split.
  - intros m ty off Hm. destruct (decide (m = n)) as [->|Hne].
    + rewrite lookup_insert_eq in Hm. injection Hm as <- <-.
      split; [lia | Z.div_mod_to_equations; lia].
    + rewrite lookup_insert_ne in Hm by congruence.
      destruct (Hin _ _ _ Hm) as [? ?]. split; [lia | assumption].
  - intros n1 n2 t1 t2 off H1 H2.
    destruct (decide (n1 = n)) as [->|Hne1]; destruct (decide (n2 = n)) as [->|Hne2].
    + reflexivity.
    + rewrite lookup_insert_eq in H1. injection H1 as <- <-.
      rewrite lookup_insert_ne in H2 by congruence.
      destruct (Hin _ _ _ H2) as [? ?]. lia.
    + rewrite lookup_insert_eq in H2. injection H2 as <- <-.
      rewrite lookup_insert_ne in H1 by congruence.
      destruct (Hin _ _ _ H1) as [? ?]. lia.
    + rewrite lookup_insert_ne in H1, H2 by congruence.
      exact (Hinj _ _ _ _ _ H1 H2).
Qed.

Lemma slots_ok_init : slots_ok init.
Proof.
  unfold slots_ok, init. cbn [symbol_table current_offset].
  split; [lia|]. split; [reflexivity|].
  split; intros *; rewrite lookup_empty; discriminate.
Qed.

(** X22: the frame slots.  The main loop keeps the table of variables
    in order: every variable it knows has a slot below the frame pointer
    at a multiple of four bytes, not below the last slot handed out, and
    no two variables share a slot, whatever the instructions are
    (declarations, redeclarations, and the names that [get_var_offset]
    enters on first use). *)
Theorem frame_slots_stay_distinct :
  forall (ir lines : list string) (i : Z) (s s' : cg_state),
    slots_ok s ->
    main_loop ir i lines s = Ok (tt, s') ->
    slots_ok s'.
Proof.
  intros ir lines i s s' H Hrun.
  assert (Hinv : invariant slots_ok (main_loop ir i lines)).
  { apply invariant_main_loop.
    - exact slots_emit.
    - exact slots_allocate.
    - intros v _. apply slots_get_float_label. }
  specialize (Hinv s H). rewrite Hrun in Hinv. exact Hinv.
Qed.

Lemma frame_slots_stay_distinct_witness :
  slots_ok
    (mkCg (<["t1" := ("unknown", -12)%Z]>
             (<["b" := ("int", -8)%Z]> (<["a" := ("int", -4)%Z]> ∅)))
          (-12) ∅ 0 ["section .data"]
          ["    sub esp, 4  ; Allocate space for a (type: int) at [ebp-4]";
           "    sub esp, 4  ; Allocate space for b (type: int) at [ebp-8]";
           "    mov eax, dword [ebp-4]"; "    mov ebx, dword [ebp-8]";
           "    add eax, ebx"; "    mov dword [ebp-12], eax"]).
Proof.
  apply (frame_slots_stay_distinct
           ["DECLARE int a"; "DECLARE int b"; "ADD int t1 a b"]
           ["DECLARE int a"; "DECLARE int b"; "ADD int t1 a b"] 0 init).
  - exact slots_ok_init.
  - vm_compute. reflexivity.
Defined.

End Slots.

Section Lines.

Import CodeGenerator.

(** X23: a conditional jump in the first line.  [JUMP_IF_FALSE] reads
    the line before it as [ir[i - 1]] and does not check that it is a
    [COMPARE]: for the very first line of the input the index is [-1],
    so the type and the operator of the branch are the second and the
    fourth field of the last line of the input, whatever that line is,
    and no error is reported. *)
Theorem first_jump_reads_the_last_line :
  forall (front : list string) (jif lastl label f0 f1 f2 f3 : string)
         (more more' : list string) (s : cg_state),
    split jif = "JUMP_IF_FALSE" :: label :: more' ->
    split lastl = f0 :: f1 :: f2 :: f3 :: more ->
    gen_line (front ++ [lastl]) 0 jif s
    = emit ("    " ++ jump_op f1 f3 ++ " " ++ label ++ " ; Jump if " ++ f3
            ++ " was false") s.
Proof.
  intros front jif lastl label f0 f1 f2 f3 more more' s Hjif Hlast.
  unfold gen_line. rewrite Hjif.
  change (gen_instr ?ir ?i "JUMP_IF_FALSE" ?parts)
    with (gen_jump_if_false ir i parts).
  unfold gen_jump_if_false. change (0 - 1)%Z with (-1)%Z.
  rewrite index_last. unfold bind at 1. unfold lift at 1. rewrite Hlast.
  change (part (f0 :: f1 :: f2 :: f3 :: more) 1) with (@lift cg_state _ (Ok f1)).
  change (part (f0 :: f1 :: f2 :: f3 :: more) 3) with (@lift cg_state _ (Ok f3)).
  change (part ("JUMP_IF_FALSE" :: label :: more') 1) with (@lift cg_state _ (Ok label)).
  reflexivity.
Qed.

Lemma first_jump_reads_the_last_line_witness :
  gen_line (["JUMP_IF_FALSE L1"; "LABEL L1"] ++ ["ADD float t1 < b"]) 0
           "JUMP_IF_FALSE L1" init
  = emit "    jae L1 ; Jump if < was false" init.
Proof.
  exact (first_jump_reads_the_last_line
           ["JUMP_IF_FALSE L1"; "LABEL L1"] "JUMP_IF_FALSE L1" "ADD float t1 < b"
           "L1" "ADD" "float" "t1" "<" ["b"] [] init eq_refl eq_refl).
Defined.

Lemma uint_text_is_digits (d : Decimal.uint) :
  forallb is_digit (list_ascii_of_string (NilEmpty.string_of_uint d)) = true.
Proof. induction d; cbn [NilEmpty.string_of_uint list_ascii_of_string forallb];
         try reflexivity; exact IHd. Qed.

Lemma isdigit_uint (d : Decimal.uint) :
  d <> Decimal.Nil -> isdigit (NilEmpty.string_of_uint d) = true.
Proof.
  intro H. unfold isdigit. pose proof (uint_text_is_digits d) as Hd.
  destruct d; [congruence| ..];
    cbn [NilEmpty.string_of_uint list_ascii_of_string] in Hd |- *; exact Hd.
Qed.

Lemma is_int_literal_str_of_Z (z : Z) : is_int_literal (str_of_Z z) = true.
Proof.
  unfold str_of_Z. destruct z as [|p|p]; [reflexivity| |];
    cbn [Z.to_int NilZero.string_of_int];
    pose proof (DecimalPos.Unsigned.to_uint_nonnil p) as Hp;
    pose proof (isdigit_uint _ Hp) as Hd;
    unfold NilZero.string_of_uint; destruct (Pos.to_uint p); try congruence;
    unfold is_int_literal; try (rewrite Hd; reflexivity);
    cbn [tail_str]; rewrite Hd; apply orb_true_r.
Qed.

(** X24: storing an integer constant.  For a variable that the table
    holds with the type [int], the line [ASSIGN x n], where [n] is the
    decimal text of any integer, negative or not, is translated to the
    one instruction [mov dword [ebp<offset>], n] on the variable's slot,
    and nothing else of the generator changes. *)
Theorem assign_integer_constant_is_one_mov :
  forall (ir : list string) (i : Z) (line x : string) (z off : Z)
         (rest : list string) (s : cg_state),
    split line = "ASSIGN" :: x :: str_of_Z z :: rest ->
    symbol_table s !! x = Some ("int", off) ->
    gen_line ir i line s
    = emit ("    mov dword " ++ ebp off ++ ", " ++ str_of_Z z) s.
Proof.
  intros ir i line x z off rest s Hline Hx. unfold gen_line. rewrite Hline.
  change (gen_instr ?ir ?i "ASSIGN" ?parts) with (gen_assign parts).
  unfold gen_assign.
  change (part ("ASSIGN" :: x :: str_of_Z z :: rest) 1) with (@lift cg_state _ (Ok x)).
  change (part ("ASSIGN" :: x :: str_of_Z z :: rest) 2)
    with (@lift cg_state _ (Ok (str_of_Z z))).
  unfold bind, lift, get. rewrite Hx. change ("int" =? "int") with true. cbv iota.
  rewrite is_int_literal_str_of_Z. reflexivity.
Qed.

Lemma assign_integer_constant_is_one_mov_witness :
  gen_line ["DECLARE int a"; "ASSIGN a -7"] 1 "ASSIGN a -7"
           (mkCg (<["a" := ("int", -4)%Z]> ∅) (-4) ∅ 0 ["section .data"] prologue)
  = emit ("    mov dword " ++ ebp (-4) ++ ", " ++ str_of_Z (-7))
         (mkCg (<["a" := ("int", -4)%Z]> ∅) (-4) ∅ 0 ["section .data"] prologue).
Proof.
  apply (assign_integer_constant_is_one_mov _ _ _ "a" (-7) (-4) []).
  - vm_compute. reflexivity.
  - vm_compute. reflexivity.
Defined.

(** X25: assigning to a name the table does not hold.  [ASSIGN] looks
    the destination up with [self.symbol_table[var_name]]: for a name
    that was never declared nor entered by [get_var_offset] the lookup
    raises [KeyError], the handler of the main loop appends the error
    line quoting the instruction and the name, nothing else of the
    generator changes, and the loop goes on. *)
Theorem assign_to_unknown_name_is_reported :
  forall (ir : list string) (i : Z) (line x v : string)
         (rest : list string) (s : cg_state),
    split line = "ASSIGN" :: x :: v :: rest ->
    symbol_table s !! x = None ->
    gen_line ir i line s = emit (error_marker line (KeyError x)) s.
Proof.
  intros ir i line x v rest s Hline Hx. unfold gen_line. rewrite Hline.
  change (gen_instr ?ir ?i "ASSIGN" ?parts) with (gen_assign parts).
  unfold gen_assign.
  change (part ("ASSIGN" :: x :: v :: rest) 1) with (@lift cg_state _ (Ok x)).
  change (part ("ASSIGN" :: x :: v :: rest) 2) with (@lift cg_state _ (Ok v)).
  unfold bind, lift, get. rewrite Hx. reflexivity.
Qed.

Lemma assign_to_unknown_name_is_reported_witness :
  gen_line ["ASSIGN t1 5"] 0 "ASSIGN t1 5" init
  = emit (error_marker "ASSIGN t1 5" (KeyError "t1")) init.
Proof.
  apply (assign_to_unknown_name_is_reported _ _ _ "t1" "5" []).
  - vm_compute. reflexivity.
  - vm_compute. reflexivity.
Defined.

End Lines.

(** ** The IR generator and the code generator *)

Section Stages.

Import CodeGenerator.

Lemma list_ascii_of_string_app (a b : string) :
  list_ascii_of_string (a ++ b)
  = (list_ascii_of_string a ++ list_ascii_of_string b)%list.
Proof.
  induction a as [|c a IH]; [reflexivity|].
  change (list_ascii_of_string (String c a ++ b))
    with (c :: list_ascii_of_string (a ++ b)).
  rewrite IH. reflexivity.
Qed.

Lemma split_ws_plain (w rest cur : list ascii) :
  forallb (fun c => negb (is_space c)) w = true ->
  split_ws (w ++ rest) cur = split_ws rest (rev w ++ cur).
Proof.
  revert cur. induction w as [|c w IH]; intros cur H; [reflexivity|].
  cbn [forallb] in H. apply andb_prop in H as [Hc Hw].
  cbn [app split_ws rev]. apply negb_true_iff in Hc. rewrite Hc.
  rewrite IH by exact Hw. rewrite <- List.app_assoc. reflexivity.
Qed.

Lemma plain_chars (w : string) :
  plain w = true ->
  list_ascii_of_string w <> [] /\
  forallb (fun c => negb (is_space c)) (list_ascii_of_string w) = true.
Proof.
  unfold plain. destruct (list_ascii_of_string w); [discriminate|].
  intro H. split; [discriminate | exact H].
Qed.

Lemma split_plain_space (w rest : string) :
  plain w = true -> split (w ++ " " ++ rest) = w :: split rest.
Proof.
  intro H. apply plain_chars in H as [Hne Hall]. unfold split.
  rewrite list_ascii_of_string_app, (split_ws_plain _ _ _ Hall), app_nil_r.
  change (list_ascii_of_string (" " ++ rest))
    with (" "%char :: list_ascii_of_string rest).
  cbn [split_ws]. change (is_space " ") with true. cbv iota.
  destruct (rev (list_ascii_of_string w)) as [|c cs] eqn:E.
  - apply (f_equal (@rev ascii)) in E. rewrite rev_involutive in E.
    contradiction.
  - rewrite <- E, rev_involutive, string_of_list_ascii_of_string. reflexivity.
Qed.

Lemma split_plain (w : string) : plain w = true -> split w = [w].
Proof.
  intro H. apply plain_chars in H as [Hne Hall]. unfold split.
  rewrite <- (app_nil_r (list_ascii_of_string w)).
  rewrite (split_ws_plain _ _ _ Hall), app_nil_r. cbn [split_ws].
  destruct (rev (list_ascii_of_string w)) as [|c cs] eqn:E.
  - apply (f_equal (@rev ascii)) in E. rewrite rev_involutive in E.
    contradiction.
  - rewrite <- E, rev_involutive, string_of_list_ascii_of_string. reflexivity.
Qed.

Lemma split_declare (var_type var_name : string) :
  plain var_type = true -> plain var_name = true ->
  split (IRGenerator.render (IRGenerator.IDeclare var_type var_name))
  = ["DECLARE"; var_type; var_name].
Proof.
  intros Ht Hn. cbn [IRGenerator.render].
  change ("DECLARE " ++ var_type ++ " " ++ var_name)
    with ("DECLARE" ++ " " ++ var_type ++ " " ++ var_name).
  rewrite split_plain_space by reflexivity.
  rewrite split_plain_space by exact Ht.
  rewrite split_plain by exact Hn. reflexivity.
Qed.

Lemma split_label (label : string) :
  plain label = true ->
  split (IRGenerator.render (IRGenerator.ILabel label)) = ["LABEL"; label].
Proof.
  intro H. cbn [IRGenerator.render].
  change ("LABEL " ++ label) with ("LABEL" ++ " " ++ label).
  rewrite split_plain_space by reflexivity.
  rewrite split_plain by exact H. reflexivity.
Qed.

Lemma split_other (i : IRGenerator.instr) :
  readable i = true ->
  match i with
  | IRGenerator.IDeclare _ _ | IRGenerator.ILabel _ => True
  | _ => exists h rest,
           split (IRGenerator.render i) = h :: rest /\ str_in h opcodes = false
  end.
Proof.
  destruct i as [ty n|n src|t l op r|t l op r|c label|label|label];
    cbn [readable IRGenerator.render]; intro H; try exact Logic.I.
  - apply andb_prop in H as [Hp Hn]. apply negb_true_iff in Hn.
    exists n. eexists. split; [|exact Hn].
    change (n ++ " = " ++ src) with (n ++ " " ++ "= " ++ src).
    apply split_plain_space, Hp.
  - apply andb_prop in H as [Hp Hn]. apply negb_true_iff in Hn.
    exists t. eexists. split; [|exact Hn].
    change (t ++ " = " ++ l ++ " " ++ op ++ " " ++ r)
      with (t ++ " " ++ "= " ++ l ++ " " ++ op ++ " " ++ r).
    apply split_plain_space, Hp.
  - apply andb_prop in H as [Hp Hn]. apply negb_true_iff in Hn.
    exists t. eexists. split; [|exact Hn].
    change (t ++ " = " ++ l ++ " " ++ op ++ " " ++ r)
      with (t ++ " " ++ "= " ++ l ++ " " ++ op ++ " " ++ r).
    apply split_plain_space, Hp.
  - exists "IF_FALSE". eexists. split; [|reflexivity].
    change ("IF_FALSE " ++ c ++ " GOTO " ++ label)
      with ("IF_FALSE" ++ " " ++ c ++ " GOTO " ++ label).
    apply split_plain_space. reflexivity.
  - exists "GOTO". eexists. split; [|reflexivity].
    change ("GOTO " ++ label) with ("GOTO" ++ " " ++ label).
    apply split_plain_space. reflexivity.
Qed.

Lemma gen_line_no_opcode (ir : list string) (i : Z) (line h : string)
    (rest : list string) (s : cg_state) :
  split line = h :: rest -> str_in h opcodes = false ->
  gen_line ir i line s = Ok (tt, s).
Proof.
  intros Hs H. unfold gen_line. rewrite Hs. unfold gen_instr, is_arith.
  unfold str_in, opcodes in H. cbn [existsb] in H.
  repeat match type of H with
         | (_ || _) = false => apply orb_false_elim in H as [? H]
         end.
  cbn [str_in existsb].
  repeat match goal with
         | E : (h =? _) = false |- _ => rewrite E; clear E
         end.
  reflexivity.
Qed.

Lemma prescan_line_no_opcode (line h : string) (rest : list string) (s : cg_state) :
  split line = h :: rest ->
  str_in h ["ASSIGN"; "ADD"; "SUB"; "MUL"; "DIV"] = false ->
  prescan_line line s = Ok (tt, s).
Proof.
  intros Hs H. unfold prescan_line. rewrite Hs. unfold is_arith.
  cbn [str_in existsb] in H. apply orb_false_elim in H as [-> H].
  unfold str_in. cbn [existsb]. rewrite H. reflexivity.
Qed.

Lemma not_opcode_not_scanned (h : string) :
  str_in h opcodes = false ->
  str_in h ["ASSIGN"; "ADD"; "SUB"; "MUL"; "DIV"] = false.
Proof.
  unfold str_in, opcodes. cbn [existsb]. intro H.
  repeat match type of H with
         | (_ || _) = false => apply orb_false_elim in H as [? H]
         end.
  repeat match goal with
         | E : (h =? _) = false |- _ => rewrite E; clear E
         end.
  reflexivity.
Qed.

Lemma prescan_readable (code : list IRGenerator.instr) (s : cg_state) :
  forallb readable code = true ->
  for_each (map IRGenerator.render code) prescan_line s = Ok (tt, s).
Proof.
  induction code as [|i code IH]; intro H; [reflexivity|].
  cbn [forallb] in H. apply andb_prop in H as [Hi Hc].
  cbn [map for_each]. unfold bind.
  assert (Hline : prescan_line (IRGenerator.render i) s = Ok (tt, s)).
  { pose proof (split_other i Hi) as Ho.
    destruct i as [ty n|n src|t l op r|t l op r|c label|label|label];
      try (destruct Ho as (h & rest & Hs & Hh);
           exact (prescan_line_no_opcode _ _ _ s Hs (not_opcode_not_scanned _ Hh))).
    - cbn [readable] in Hi. apply andb_prop in Hi as [Ht Hn].
      exact (prescan_line_no_opcode _ _ _ s (split_declare _ _ Ht Hn) eq_refl).
    - exact (prescan_line_no_opcode _ _ _ s (split_label _ Hi) eq_refl). }
  rewrite Hline. exact (IH Hc).
Qed.

Lemma main_loop_readable (ir : list string) (code : list IRGenerator.instr) :
  forallb readable code = true ->
  forall (i : Z) (s : cg_state),
    exists s',
      main_loop ir i (map IRGenerator.render code) s = Ok (tt, s') /\
      text_section s' = (text_section s ++ lowered (current_offset s) code)%list /\
      data_section s' = data_section s.
Proof.
  induction code as [|ins code IH]; intros H i s.
  - exists s. cbn. rewrite app_nil_r. repeat split; reflexivity.
  - cbn [forallb] in H. apply andb_prop in H as [Hi Hc].
    cbn [map main_loop]. unfold bind.
    pose proof (split_other ins Hi) as Ho.
    destruct ins as [ty n|n src|t l op r|t l op r|c label|label|label];
      try (destruct Ho as (h & rest & Hs & Hh);
           rewrite (gen_line_no_opcode ir i _ h rest s Hs Hh);
           destruct (IH Hc (i + 1)%Z s) as (s' & -> & Ht & Hd);
           exists s'; repeat split; assumption).
    + cbn [readable] in Hi. apply andb_prop in Hi as [Hty Hn].
      unfold gen_line. rewrite (split_declare _ _ Hty Hn).
      change (gen_instr ir i "DECLARE" ?parts) with (gen_declare parts).
      unfold gen_declare.
      change (part ["DECLARE"; ty; n] 1) with (@lift cg_state _ (Ok ty)).
      change (part ["DECLARE"; ty; n] 2) with (@lift cg_state _ (Ok n)).
      unfold bind, lift, allocate, bind, get, put, ret, emit, modify.
      cbn [symbol_table current_offset float_labels float_label_count
             data_section text_section].
      match goal with
      | |- context [main_loop ir (i + 1) _ ?st] =>
          destruct (IH Hc (i + 1)%Z st) as (s' & -> & Ht & Hd)
      end.
      exists s'. split; [reflexivity|]. split; [|exact Hd].
      rewrite Ht. cbn [text_section current_offset lowered].
      rewrite <- List.app_assoc. reflexivity.
    + unfold gen_line. rewrite (split_label _ Hi).
      change (gen_instr ir i "LABEL" ?parts)
        with (label <- part parts 1 ;; emit (label ++ ":")).
      change (part ["LABEL"; label] 1) with (@lift cg_state _ (Ok label)).
      unfold bind, lift, emit, modify.
      match goal with
      | |- context [main_loop ir (i + 1) _ ?st] =>
          destruct (IH Hc (i + 1)%Z st) as (s' & -> & Ht & Hd)
      end.
      exists s'. split; [reflexivity|]. split; [|exact Hd].
      rewrite Ht. cbn [text_section current_offset lowered].
      rewrite <- List.app_assoc. reflexivity.
Qed.

(** X26: the two generators do not speak the same language.  Given the
    lines the IR generator produces (for instructions whose names are
    single words, the names assigned to not being opcodes), the code
    generator returns the prologue, one [sub esp, 4] line for each
    [DECLARE] with slots handed out in order, one label line for each
    [LABEL], and the epilogue, and reports no error: the copies, the
    arithmetic and relational operations and the jumps of the IR leave
    no trace in the assembly, and there is no data section. *)
Theorem generated_ir_keeps_only_slots_and_labels :
  forall code : list IRGenerator.instr,
    forallb readable code = true ->
    generate_lines (map IRGenerator.render code)
    = Ok (prologue ++ lowered 0 code ++ epilogue)%list.
Proof.
  intros code H. unfold generate_lines, bind at 1, modify. unfold bind at 1.
  rewrite (prescan_readable code _ H). unfold bind at 1.
  match goal with
  | |- context [main_loop ?ir 0 _ ?st] =>
      destruct (main_loop_readable ir code H 0%Z st) as (s' & -> & Ht & Hd)
  end.
  unfold bind, get. rewrite Ht, Hd. cbn [text_section data_section current_offset init].
  change (1 <? length ["section .data"])%nat with false. cbv iota.
  unfold ret. rewrite <- List.app_assoc. reflexivity.
Qed.

Lemma generated_ir_keeps_only_slots_and_labels_witness :
  IRGenerator.generate_instrs 5 (Ast.to_obj sample_program)
  = Ok [IRGenerator.IDeclare "int" "a"; IRGenerator.ICopy "a" "3";
         IRGenerator.IRelOp "t1" "a" ">" "4"; IRGenerator.IIfFalse "t1" "L2";
         IRGenerator.ICopy "a" "1"; IRGenerator.IGoto "L1";
         IRGenerator.ILabel "L2"; IRGenerator.ICopy "a" "0";
         IRGenerator.ILabel "L1"] /\
  generate_lines (map IRGenerator.render [IRGenerator.IDeclare "int" "a"; IRGenerator.ICopy "a" "3";
         IRGenerator.IRelOp "t1" "a" ">" "4"; IRGenerator.IIfFalse "t1" "L2";
         IRGenerator.ICopy "a" "1"; IRGenerator.IGoto "L1";
         IRGenerator.ILabel "L2"; IRGenerator.ICopy "a" "0";
         IRGenerator.ILabel "L1"])
  = Ok (prologue ++ lowered 0 [IRGenerator.IDeclare "int" "a"; IRGenerator.ICopy "a" "3";
         IRGenerator.IRelOp "t1" "a" ">" "4"; IRGenerator.IIfFalse "t1" "L2";
         IRGenerator.ICopy "a" "1"; IRGenerator.IGoto "L1";
         IRGenerator.ILabel "L2"; IRGenerator.ICopy "a" "0";
         IRGenerator.ILabel "L1"] ++ epilogue)%list.
Proof.
  split; [vm_compute; reflexivity|].
  apply generated_ir_keeps_only_slots_and_labels. vm_compute. reflexivity.
Defined.

End Stages.

(** ** Redeclaration and shadowing *)

Section Redeclaration.

Import SemanticAnalyzer Ast.

Lemma sem_visit_each_app (fuel : nat) (xs ys : list ast)
    (s : list (gmap string string)) :
  sem_visit_each fuel (xs ++ ys)%list s
  = (sem_visit_each fuel xs ;; sem_visit_each fuel ys) s.
Proof. unfold sem_visit_each. rewrite map_app. apply for_each_app. Qed.

Lemma preserves_sem_visit_each (fuel : nat) (xs : list ast) :
  preserves (sem_visit_each fuel xs).
Proof.
  unfold sem_visit_each. apply preserves_for_each. intro x.
  apply preserves_bind; [apply preserves_visit | intro; apply preserves_ret].
Qed.

Lemma analyze_records (scopes : list (gmap string string)) (fuel : nat)
    (node : pyval) (errors : list string) (name : string) (line : Z) :
  visit fuel node scopes = Raise (duplicate_declaration name line) ->
  analyze_from scopes fuel node errors
  = Ok ("void", (errors ++ [duplicate_diagnostic name line])%list).
Proof. intro H. unfold analyze_from. rewrite H. reflexivity. Qed.

(** Once the innermost scope holds a name, it holds it after any
    statements that return, and a declaration of the name raises. *)
Lemma redeclaration_raises (fuel : nat) (var_type var_name : Lexer.Token)
    (value : option ast) (outer : list (gmap string string))
    (inner : gmap string string) (mid : list ast)
    (s1 : list (gmap string string)) :
  is_Some (inner !! Lexer.value var_name) ->
  sem_visit_each fuel mid (outer ++ [inner])%list = Ok (tt, s1) ->
  forall fuel', visit (S fuel') (to_obj (VarDecl var_type var_name value)) s1
  = Raise (duplicate_declaration (Lexer.value var_name) (Lexer.line var_name)).
Proof.
  intros [ty Hty] Hmid fuel'.
  destruct (preserves_sem_visit_each fuel mid _ _ _ Hmid outer inner eq_refl)
    as (inner' & -> & Hsub).
  rewrite visit_VarDecl_eq. apply bind_Raise, declare_duplicate.
  exists ty. exact (lookup_weaken _ _ _ _ Hty Hsub).
Qed.

(** After a declaration that returns, the innermost scope holds the
    name. *)
Lemma declared_after (fuel : nat) (var_type var_name : Lexer.Token)
    (value : option ast) (s s' : list (gmap string string)) (r : pyval) :
  visit (S fuel) (to_obj (VarDecl var_type var_name value)) s = Ok (r, s') ->
  exists outer inner,
    s' = (outer ++ [inner])%list /\ is_Some (inner !! Lexer.value var_name).
Proof.
  intro H. rewrite visit_VarDecl_eq in H.
  apply bind_Ok_inv in H as ([] & s1 & Hd & H).
  apply declare_Ok_inv in Hd as (outer & inner & -> & Hfresh & ->).
  assert (Hrest : preserves
            (match value with
             | Some v =>
                 value_type <- visit fuel (to_obj v) ;;
                 if negb (eq_str value_type (Lexer.value var_type))
                 then cannot_assign value_type (Lexer.value var_name)
                        (Lexer.value var_type) (Lexer.line var_name)
                 else ret PNone
             | None => ret PNone
             end ;; ret (PStr "void"))).
  { apply preserves_bind; [|intro; apply preserves_ret].
    destruct value as [v|]; [|apply preserves_ret].
    apply preserves_bind; [apply preserves_visit|]. intro vt.
    destruct (negb _); [apply preserves_cannot_assign | apply preserves_ret]. }
  destruct (Hrest _ _ _ H outer _ eq_refl) as (inner' & -> & Hsub).
  exists outer, inner'. split; [reflexivity|].
  exists (Lexer.value var_type).
  apply (lookup_weaken _ _ _ _ (lookup_insert_eq _ _ _) Hsub).
Qed.

Lemma program_reaches (fuel : nat) (pre post : list ast) (decl : ast)
    (s s1 : list (gmap string string)) (e : exn) :
  sem_visit_each fuel pre s = Ok (tt, s1) ->
  visit fuel (to_obj decl) s1 = Raise e ->
  visit (S fuel) (to_obj (Program (pre ++ decl :: post)%list)) s = Raise e.
Proof.
  intros Hpre Hd. rewrite visit_Program_eq. apply bind_Raise.
  rewrite sem_visit_each_app. erewrite bind_Ok by exact Hpre.
  rewrite sem_visit_each_cons. apply bind_Raise, bind_Raise, Hd.
Qed.

Lemma block_reaches (fuel : nat) (pre post : list ast) (decl : ast)
    (s s1 : list (gmap string string)) (e : exn) :
  sem_visit_each fuel pre (s ++ [∅])%list = Ok (tt, s1) ->
  visit fuel (to_obj decl) s1 = Raise e ->
  visit (S fuel) (to_obj (Block (pre ++ decl :: post)%list)) s = Raise e.
Proof.
  intros Hpre Hd. rewrite visit_Block_eq.
  unfold bind at 1. unfold enter_scope at 1, modify at 1.
  apply bind_Raise.
  rewrite sem_visit_each_app. erewrite bind_Ok by exact Hpre.
  rewrite sem_visit_each_cons. apply bind_Raise, bind_Raise, Hd.
Qed.

Lemma second_declaration_raises (fuel : nat)
    (first_type first_name var_type var_name : Lexer.Token)
    (first_value value : option ast) (pre mid : list ast)
    (s s1 : list (gmap string string)) :
  Lexer.value first_name = Lexer.value var_name ->
  sem_visit_each (S fuel) (pre ++ VarDecl first_type first_name first_value :: mid)%list s
  = Ok (tt, s1) ->
  visit (S fuel) (to_obj (VarDecl var_type var_name value)) s1
  = Raise (duplicate_declaration (Lexer.value var_name) (Lexer.line var_name)).
Proof.
  intros Hname H. rewrite sem_visit_each_app in H.
  apply bind_Ok_inv in H as ([] & sa & _ & H).
  rewrite sem_visit_each_cons in H.
  apply bind_Ok_inv in H as ([] & sb & Hfirst & Hmid).
  apply bind_Ok_inv in Hfirst as (r & sb' & Hfirst & Hret).
  injection Hret as <-.
  apply declared_after in Hfirst as (outer & inner & -> & Hin).
  rewrite Hname in Hin.
  exact (redeclaration_raises _ _ _ _ _ _ _ _ Hin Hmid fuel).
Qed.

(** C7: declaring a name that the innermost scope already holds raises
    the duplicate-declaration error, which [analyze] records as a
    diagnostic.  This is so for a declaration anywhere among the children
    of a [Program] or of a [Block], once the statements before it have
    been visited: when the scope held the name from the start, and when
    an earlier declaration among the same children entered it, whatever
    statements stand between the two.  Declaring a name that the
    innermost scope does not hold succeeds whatever the enclosing scopes
    hold: inside a block, after statements that left the name out of the
    block's own scope, the declaration enters the name there and the
    visit goes on with the rest of the block. *)
Theorem c7_duplicate_or_shadowing :
  forall (fuel : nat) (var_type var_name : Lexer.Token) (value : option ast),
    let name := Lexer.value var_name in
    let line := Lexer.line var_name in
    let decl := VarDecl var_type var_name value in
    (forall (outer : list (gmap string string)) (inner : gmap string string)
            (pre post : list ast) (s1 : list (gmap string string))
            (errors : list string),
       is_Some (inner !! name) ->
       sem_visit_each (S fuel) pre (outer ++ [inner])%list = Ok (tt, s1) ->
       visit (S fuel) (to_obj decl) s1 = Raise (duplicate_declaration name line) /\
       visit (S (S fuel)) (to_obj (Program (pre ++ decl :: post)%list)) (outer ++ [inner])%list
       = Raise (duplicate_declaration name line) /\
       analyze_from (outer ++ [inner])%list (S (S fuel))
         (to_obj (Program (pre ++ decl :: post)%list)) errors
       = Ok ("void", (errors ++ [duplicate_diagnostic name line])%list))
    /\
    (forall (first_type first_name : Lexer.Token) (first_value : option ast)
            (pre mid post : list ast) (scopes s1 : list (gmap string string))
            (errors : list string),
       Lexer.value first_name = name ->
       let children :=
         (pre ++ VarDecl first_type first_name first_value
              :: mid ++ decl :: post)%list in
       (sem_visit_each (S fuel)
          (pre ++ VarDecl first_type first_name first_value :: mid)%list scopes
        = Ok (tt, s1) ->
        visit (S (S fuel)) (to_obj (Program children)) scopes
        = Raise (duplicate_declaration name line) /\
        analyze_from scopes (S (S fuel)) (to_obj (Program children)) errors
        = Ok ("void", (errors ++ [duplicate_diagnostic name line])%list)) /\
       (sem_visit_each (S fuel)
          (pre ++ VarDecl first_type first_name first_value :: mid)%list
          (scopes ++ [∅])%list = Ok (tt, s1) ->
        visit (S (S fuel)) (to_obj (Block children)) scopes
        = Raise (duplicate_declaration name line) /\
        analyze_from scopes (S (S fuel)) (to_obj (Block children)) errors
        = Ok ("void", (errors ++ [duplicate_diagnostic name line])%list)))
    /\
    (forall (scopes : list (gmap string string)) (inner : gmap string string)
            (pre post : list ast),
       inner !! name = None ->
       declare name (Lexer.value var_type) line (scopes ++ [inner])%list
       = Ok (tt, (scopes ++ [<[name := Lexer.value var_type]> inner])%list) /\
       visit (S fuel) (to_obj (VarDecl var_type var_name None)) (scopes ++ [inner])%list
       = Ok (PStr "void",
             (scopes ++ [<[name := Lexer.value var_type]> inner])%list) /\
       (sem_visit_each (S fuel) pre (scopes ++ [∅])%list
        = Ok (tt, (scopes ++ [inner])%list) ->
        visit (S (S fuel))
          (to_obj (Block (pre ++ VarDecl var_type var_name None :: post)%list)) scopes
        = (sem_visit_each (S fuel) post ;; exit_scope ;; ret (PStr "void"))
            (scopes ++ [<[name := Lexer.value var_type]> inner])%list))
    /\
    (forall (outer : list (gmap string string)) (inner : gmap string string),
       visit (S (S fuel)) (to_obj (Block [VarDecl var_type var_name None]))
         (outer ++ [inner])%list
       = Ok (PStr "void", (outer ++ [inner])%list)).
Proof.
  intros fuel var_type var_name value name line decl.
  assert (Hfresh : forall scopes inner,
             inner !! name = None ->
             visit (S fuel) (to_obj (VarDecl var_type var_name None))
               (scopes ++ [inner])%list
             = Ok (PStr "void",
                   (scopes ++ [<[name := Lexer.value var_type]> inner])%list)).
  { intros scopes inner Hnone. rewrite visit_VarDecl_eq.
    erewrite bind_Ok by (apply declare_fresh; exact Hnone). reflexivity. }
  split; [|split; [|split]].
  - intros outer inner pre post s1 errors Hin Hpre.
    assert (Hd : visit (S fuel) (to_obj decl) s1
                 = Raise (duplicate_declaration name line))
      by exact (redeclaration_raises _ _ _ _ _ _ _ _ Hin Hpre fuel).
    split; [exact Hd|].
    pose proof (program_reaches _ pre post decl _ _ _ Hpre Hd) as Hp.
    split; [exact Hp | apply analyze_records, Hp].
  - intros first_type first_name first_value pre mid post scopes s1 errors
      Hname children.
    unfold children.
    replace (pre ++ VarDecl first_type first_name first_value
                 :: mid ++ decl :: post)%list
      with ((pre ++ VarDecl first_type first_name first_value :: mid)%list
              ++ decl :: post)%list
      by (rewrite <- List.app_assoc; reflexivity).
    split; intro Hpre.
    + pose proof (second_declaration_raises fuel _ _ var_type var_name _ value
                    _ _ _ _ Hname Hpre) as Hd.
      pose proof (program_reaches _ _ post decl _ _ _ Hpre Hd) as Hp.
      split; [exact Hp | apply analyze_records, Hp].
    + pose proof (second_declaration_raises fuel _ _ var_type var_name _ value
                    _ _ _ _ Hname Hpre) as Hd.
      pose proof (block_reaches _ _ post decl _ _ _ Hpre Hd) as Hp.
      split; [exact Hp | apply analyze_records, Hp].
  - intros scopes inner pre post Hnone.
    split; [apply declare_fresh; exact Hnone|].
    split; [apply Hfresh; exact Hnone|].
    intro Hpre. rewrite visit_Block_eq.
    unfold bind at 1. unfold enter_scope at 1, modify at 1.
    unfold bind at 1. rewrite sem_visit_each_app. unfold bind at 1.
    rewrite Hpre, sem_visit_each_cons. unfold bind.
    rewrite (Hfresh _ _ Hnone). reflexivity.
  - intros outer inner.
    rewrite visit_Block_eq, sem_visit_each_cons, sem_visit_each_nil.
    unfold bind, enter_scope, modify.
    rewrite (Hfresh (outer ++ [inner])%list ∅ (lookup_empty _)).
    unfold ret, exit_scope, modify.
    rewrite length_app, removelast_last, length_app. simpl length.
    destruct (1 <? length outer + 1 + 1)%nat eqn:E; [reflexivity|].
    apply Nat.ltb_ge in E. lia.
Qed.

Lemma c7_duplicate_or_shadowing_witness :
  analyze_from ([] ++ [∅])%list 3
    (to_obj
       (Program
          ([] ++ VarDecl (Lexer.mkToken "KEYWORD" "int" 1)
                   (Lexer.mkToken "ID" "x" 1) None
              :: [Assign (Lexer.mkToken "ID" "x" 2) (Number "1")]
              ++ VarDecl (Lexer.mkToken "KEYWORD" "float" 3)
                   (Lexer.mkToken "ID" "x" 3) None
              :: [Assign (Lexer.mkToken "ID" "x" 4) (Number "2")]))) []
  = Ok ("void", ([] ++ [duplicate_diagnostic "x" 3])%list).
Proof.
  refine (proj2 (proj1 (proj1 (proj2 (c7_duplicate_or_shadowing 1
            (Lexer.mkToken "KEYWORD" "float" 3) (Lexer.mkToken "ID" "x" 3) None))
            (Lexer.mkToken "KEYWORD" "int" 1) (Lexer.mkToken "ID" "x" 1) None
            [] [Assign (Lexer.mkToken "ID" "x" 2) (Number "1")]
            [Assign (Lexer.mkToken "ID" "x" 4) (Number "2")]
            ([] ++ [∅])%list _ [] eq_refl) _)).
  vm_compute. reflexivity.
Defined.

End Redeclaration.

(** ** The dispatch on an unknown node *)

Section Dispatch.

Import SemanticAnalyzer.

Lemma class_not_none (node : pyval) :
  class_name node <> "NoneType" -> is_none node = false.
Proof. destruct node; cbn; congruence. Qed.

Ltac split_head H :=
  repeat match type of H with
         | bind _ _ _ = Ok _ =>
             let a := fresh "a" in
             let s := fresh "s" in
             let E := fresh "E" in
             apply bind_Ok_inv in H as (a & s & E & H)
         end.

Lemma visit_at_class (fuel : nat) (node : pyval) (cls : string) :
  class_name node = cls -> cls <> "NoneType" ->
  visit (S fuel) node
  = if cls =? "Program" then visit_Program (visit fuel) node
    else if cls =? "VarDecl" then visit_VarDecl (visit fuel) node
    else if cls =? "Assign" then visit_Assign (visit fuel) node
    else if cls =? "If" then visit_If (visit fuel) node
    else if cls =? "Block" then visit_Block (visit fuel) node
    else if cls =? "BinOp" then visit_BinOp (visit fuel) node
    else if cls =? "RelOp" then visit_RelOp (visit fuel) node
    else if cls =? "Number" then visit_Number node
    else if cls =? "Id" then visit_Id node
    else raise (TypeError ("Unknown node type: " ++ cls)).
Proof.
  intros <- Hn. rewrite visit_S_eq, (class_not_none _ Hn). reflexivity.
Qed.

Lemma children_raise (fuel : nat) (pre post : list pyval) (child : pyval)
    (s s1 : list (gmap string string)) (e : exn) {A : Type} (k : unit -> M A) :
  for_each pre (fun statement => visit fuel statement ;; ret tt) s = Ok (tt, s1) ->
  visit fuel child s1 = Raise e ->
  bind (for_each (pre ++ child :: post)%list
          (fun statement => visit fuel statement ;; ret tt)) k s = Raise e.
Proof.
  intros Hpre Hc. apply bind_Raise. rewrite for_each_app.
  erewrite bind_Ok by exact Hpre.
  cbn [for_each]. apply bind_Raise, bind_Raise, Hc.
Qed.

Lemma check_operands_left (fuel : nat) (what : string) (node child : pyval)
    (s : list (gmap string string)) (e : exn) :
  getattr node "left" = Ok child ->
  visit fuel child s = Raise e ->
  check_operands (visit fuel) what node s = Raise e.
Proof.
  intros Hl Hc. unfold check_operands. unfold bind at 1, lift at 1.
  rewrite Hl. apply bind_Raise, Hc.
Qed.

Lemma check_operands_right (fuel : nat) (what : string)
    (node left left_type child : pyval) (s s1 : list (gmap string string))
    (e : exn) :
  getattr node "left" = Ok left ->
  visit fuel left s = Ok (left_type, s1) ->
  getattr node "right" = Ok child ->
  visit fuel child s1 = Raise e ->
  check_operands (visit fuel) what node s = Raise e.
Proof.
  intros Hl Hv Hr Hc. unfold check_operands. unfold bind at 1, lift at 1.
  rewrite Hl. erewrite bind_Ok by exact Hv.
  unfold bind at 1, lift at 1. rewrite Hr. apply bind_Raise, Hc.
Qed.

(** An exception that the visit of a child raises leaves the method that
    called it: no method of the analyzer has a handler. *)
Lemma calls_propagates (fuel : nat) (node child : pyval)
    (s s1 : list (gmap string string)) (e : exn) :
  calls fuel node s child s1 ->
  visit fuel child s1 = Raise e ->
  visit (S fuel) node s = Raise e.
Proof.
  intros Hcalls Hc.
  destruct Hcalls as
    [node children pre post child s s1 Hcls Hch Hit Hpre
    |node children pre post child s s1 Hcls Hch Hit Hpre
    |node child s s1 Hcls Hhead Hval Hnone
    |node child var_type s s1 Hcls Hhead Hval
    |node child s Hcls Hcond
    |node condition condition_type child s s1 Hcls Hcond Hv Hbool Hblock
    |node condition condition_type if_block r child s s1 s2 Hcls Hcond Hv Hbool
       Hblock Hvb Helse Htruthy
    |node child s Hcls Hleft
    |node left left_type child s s1 Hcls Hleft Hv Hright].
  - rewrite (visit_at_class fuel node _ Hcls) by discriminate. cbn [String.eqb].
    change (visit_Program (visit fuel) node s = Raise e).
    unfold visit_Program. unfold bind at 1, lift at 1. rewrite Hch.
    unfold bind at 1, lift at 1. rewrite Hit.
    exact (children_raise fuel pre post child s s1 e _ Hpre Hc).
  - rewrite (visit_at_class fuel node _ Hcls) by discriminate.
    change (visit_Block (visit fuel) node s = Raise e).
    unfold visit_Block. unfold bind at 1, enter_scope at 1, modify at 1.
    unfold bind at 1, lift at 1. rewrite Hch.
    unfold bind at 1, lift at 1. rewrite Hit.
    exact (children_raise fuel pre post child _ s1 e _ Hpre Hc).
  - rewrite (visit_at_class fuel node _ Hcls) by discriminate.
    change (visit_VarDecl (visit fuel) node s = Raise e).
    unfold VarDecl_declare in Hhead. split_head Hhead.
    unfold visit_VarDecl.
    repeat match goal with
           | E : ?c ?st = Ok (?a, ?st') |- bind ?c _ ?st = _ =>
               rewrite (bind_Ok c _ st st' a E); clear E
           end.
    unfold bind at 1, lift at 1. rewrite Hval, Hnone. cbn [negb].
    apply bind_Raise. unfold bind at 1, lift at 1.
    apply bind_Raise, Hc.
  - rewrite (visit_at_class fuel node _ Hcls) by discriminate.
    change (visit_Assign (visit fuel) node s = Raise e).
    unfold Assign_lookup in Hhead. split_head Hhead.
    unfold visit_Assign.
    repeat match goal with
           | E : ?c ?st = Ok (?a, ?st') |- bind ?c _ ?st = _ =>
               rewrite (bind_Ok c _ st st' a E); clear E
           end.
    unfold bind at 1, lift at 1. rewrite Hval. apply bind_Raise, Hc.
  - rewrite (visit_at_class fuel node _ Hcls) by discriminate.
    change (visit_If (visit fuel) node s = Raise e).
    unfold visit_If. unfold bind at 1, lift at 1. rewrite Hcond.
    apply bind_Raise, Hc.
  - rewrite (visit_at_class fuel node _ Hcls) by discriminate.
    change (visit_If (visit fuel) node s = Raise e).
    unfold visit_If. unfold bind at 1, lift at 1. rewrite Hcond.
    erewrite bind_Ok by exact Hv. rewrite Hbool. cbn [negb].
    unfold bind at 1, ret at 1.
    unfold bind at 1, lift at 1. rewrite Hblock. apply bind_Raise, Hc.
  - rewrite (visit_at_class fuel node _ Hcls) by discriminate.
    change (visit_If (visit fuel) node s = Raise e).
    unfold visit_If. unfold bind at 1, lift at 1. rewrite Hcond.
    erewrite bind_Ok by exact Hv. rewrite Hbool. cbn [negb].
    unfold bind at 1, ret at 1.
    unfold bind at 1, lift at 1. rewrite Hblock.
    erewrite bind_Ok by exact Hvb.
    unfold bind at 1, lift at 1. rewrite Helse, Htruthy.
    apply bind_Raise. unfold bind at 1, lift at 1. exact Hc.
  - destruct Hcls as [Hcls|Hcls];
      rewrite (visit_at_class fuel node _ Hcls) by discriminate.
    + change (visit_BinOp (visit fuel) node s = Raise e).
      unfold visit_BinOp. apply bind_Raise.
      exact (check_operands_left _ _ _ _ _ _ Hleft Hc).
    + change (visit_RelOp (visit fuel) node s = Raise e).
      unfold visit_RelOp. apply bind_Raise.
      exact (check_operands_left _ _ _ _ _ _ Hleft Hc).
  - destruct Hcls as [Hcls|Hcls];
      rewrite (visit_at_class fuel node _ Hcls) by discriminate.
    + change (visit_BinOp (visit fuel) node s = Raise e).
      unfold visit_BinOp. apply bind_Raise.
      exact (check_operands_right _ _ _ _ _ _ _ _ _ Hleft Hv Hright Hc).
    + change (visit_RelOp (visit fuel) node s = Raise e).
      unfold visit_RelOp. apply bind_Raise.
      exact (check_operands_right _ _ _ _ _ _ _ _ _ Hleft Hv Hright Hc).
Qed.

(** C10, amended: whenever the analysis applies the dispatch to a node
    of an unknown class, at the root or at any depth below it, the visit
    of the whole tree raises [TypeError] naming that class, and [analyze]
    lets it through to its caller. *)
Theorem c10_unknown_node_raises_when_visited :
  forall (fuel : nat) (node target : pyval) (scopes : list (gmap string string))
         (errors : list string),
    reaches fuel node scopes target ->
    unknown_node target = true ->
    let unknown := TypeError ("Unknown node type: " ++ class_name target) in
    visit fuel node scopes = Raise unknown /\
    analyze_from scopes fuel node errors = Raise unknown.
Proof.
  intros fuel node target scopes errors Hreach Hu unknown.
  assert (Hv : visit fuel node scopes = Raise unknown).
  { induction Hreach as [fuel node s|fuel node child target s s1 Hcalls _ IH].
    - apply visit_unknown, Hu.
    - exact (calls_propagates _ _ _ _ _ _ Hcalls (IH Hu)). }
  split; [exact Hv|]. unfold analyze_from. rewrite Hv. reflexivity.
Qed.

Lemma c10_unknown_node_raises_when_visited_witness :
  (exists errs, Parser.parse 4 (fst (Lexer.tokenize "x + 1;"))
                = Ok (x_plus_1_tree, errs)) /\
  analyze 3 x_plus_1_tree [] = Raise (TypeError "Unknown node type: Variable").
Proof.
  split; [eexists; vm_compute; reflexivity|].
  refine (proj2 (c10_unknown_node_raises_when_visited 3 x_plus_1_tree
                   (Parser.Variable_ (Lexer.mkToken "ID" "x" 1))
                   initial_scopes [] _ eq_refl)).
  eapply reaches_below.
  - eapply (calls_Program 2 _ _ [] []); reflexivity.
  - eapply reaches_below.
    + eapply calls_left; [left; reflexivity | reflexivity].
    + apply reaches_root.
Defined.

End Dispatch.

(** ** The loops of the parser *)

Section Loops.

Import Lexer Parser.

Lemma iterations_app {S A : Type} (continue : ST S bool) (item : ST S (list A))
    (s s1 s2 : S) (l1 l2 : list A) :
  iterations continue item s l1 s1 ->
  iterations continue item s1 l2 s2 ->
  iterations continue item s (l1 ++ l2)%list s2.
Proof.
  intros H1 H2. induction H1 as [s|s sa sb nodes rest Hc Hi _ IH].
  - exact H2.
  - rewrite <- List.app_assoc. exact (iterations_step _ _ _ _ _ _ _ Hc Hi (IH H2)).
Qed.

(** The loop is a function of the state it starts in: a run that reaches
    the end of the loop goes through every shorter run. *)
Lemma iterations_prefix {S A : Type} (continue : ST S bool) (item : ST S (list A))
    (s sk s' : S) (pre children : list A) :
  iterations continue item s pre sk ->
  iterations continue item s children s' ->
  continue s' = Ok (false, s') ->
  exists more, children = (pre ++ more)%list /\ iterations continue item sk more s'.
Proof.
  intros Hpre. revert children.
  induction Hpre as [s|s sa sb nodes rest Hc Hi _ IH]; intros children Hall Hend.
  - exists children. split; [reflexivity | exact Hall].
  - destruct Hall as [s|s sa' sb' nodes' rest' Hc' Hi' Hall].
    + rewrite Hc in Hend. discriminate Hend.
    + rewrite Hi in Hi'. injection Hi' as <- <-.
      destruct (IH _ Hall Hend) as (more & -> & Hmore).
      exists more. split; [apply List.app_assoc | exact Hmore].
Qed.

(** A [while] loop whose test leaves the state alone and whose body
    appends what [item] returns: when it returns, it has gone through
    [iterations] and the test is false in the state it returns. *)
Lemma while_iterations {S A : Type} (cond : ST S bool) (item : ST S (list A))
    (body : list A -> ST S (list A)) :
  (forall s b s1, cond s = Ok (b, s1) -> s1 = s) ->
  (forall acc s acc' s',
     body acc s = Ok (acc', s') ->
     exists nodes, item s = Ok (nodes, s') /\ acc' = (acc ++ nodes)%list) ->
  forall fuel acc s r s',
    while fuel cond body acc s = Ok (r, s') ->
    exists l, r = (acc ++ l)%list /\ iterations cond item s l s' /\
              cond s' = Ok (false, s').
Proof.
  intros Hcond Hbody.
  induction fuel as [|fuel IH]; intros acc s r s' H; [discriminate|].
  simpl in H. apply bind_Ok_inv in H as (c & s1 & Hc & H).
  pose proof (Hcond _ _ _ Hc) as ->. destruct c.
  - apply bind_Ok_inv in H as (acc' & s2 & Hb & H).
    destruct (Hbody _ _ _ _ Hb) as (nodes & Hi & ->).
    destruct (IH _ _ _ _ H) as (l & -> & Hit & Hend).
    exists (nodes ++ l)%list. split; [symmetry; apply List.app_assoc|].
    split; [exact (iterations_step _ _ _ _ _ _ _ Hc Hi Hit) | exact Hend].
  - injection H as <- <-. exists []. rewrite app_nil_r.
    split; [reflexivity|]. split; [apply iterations_stop | exact Hc].
Qed.

Lemma not_at_EOF_state (s : pstate) (b : bool) (s1 : pstate) :
  not_at_EOF s = Ok (b, s1) -> s1 = s.
Proof. unfold not_at_EOF, bind, gets, ret. intro H. injection H as _ <-. reflexivity. Qed.

Lemma in_block_state (s : pstate) (b : bool) (s1 : pstate) :
  in_block s = Ok (b, s1) -> s1 = s.
Proof. unfold in_block, bind, gets, ret. intro H. injection H as _ <-. reflexivity. Qed.

Lemma not_at_EOF_false (s : pstate) :
  not_at_EOF s = Ok (false, s) -> type (current_token s) = "EOF".
Proof.
  unfold not_at_EOF, bind, gets, ret. intro H. injection H as H.
  apply negb_false_iff, String.eqb_eq in H. exact H.
Qed.

Lemma program_body_runs_item (fuel : nat) (acc : list pyval) (s : pstate)
    (acc' : list pyval) (s' : pstate) :
  program_body fuel acc s = Ok (acc', s') ->
  exists nodes, program_item fuel s = Ok (nodes, s') /\ acc' = (acc ++ nodes)%list.
Proof.
  rewrite program_body_item.
  destruct (program_item fuel s) as [[nodes s1]| | |]; try discriminate.
  intro H. injection H as <- <-. exists nodes. split; reflexivity.
Qed.

Lemma block_body_runs_item (statement : P pyval) (acc : list pyval) (s : pstate)
    (acc' : list pyval) (s' : pstate) :
  block_body statement acc s = Ok (acc', s') ->
  exists nodes, block_item statement s = Ok (nodes, s') /\
                acc' = (acc ++ nodes)%list.
Proof.
  unfold block_body, block_item, bind, ret.
  destruct (statement s) as [[n s1]| | |]; try discriminate.
  intro H. injection H as <- <-. exists [n]. split; reflexivity.
Qed.

Lemma block_item_statement (statement : P pyval) (s s1 : pstate) (node : pyval) :
  statement s = Ok (node, s1) -> block_item statement s = Ok ([node], s1).
Proof. unfold block_item, bind, ret. intros ->. reflexivity. Qed.

(** The children of the [Program] node are what the iterations of the
    loop returned, all of them and in their order, and the loop ends at
    the end-of-input token. *)
Lemma program_children (fuel : nat) (s s' : pstate) (tree : pyval) :
  program fuel s = Ok (tree, s') ->
  exists children,
    tree = Program_ children /\
    iterations not_at_EOF (program_item fuel) s children s' /\
    type (current_token s') = "EOF".
Proof.
  intro Hp. rewrite program_eq in Hp.
  apply bind_Ok_inv in Hp as (children & s1 & Hw & Hr).
  injection Hr as <- <-.
  destruct (while_iterations _ (program_item fuel) _ not_at_EOF_state
              (program_body_runs_item fuel) _ _ _ _ _ Hw)
    as (l & -> & Hit & Hend).
  exists l. split; [reflexivity|]. split; [exact Hit|].
  exact (not_at_EOF_false _ Hend).
Qed.

(** The statements of the [Block] node are what the iterations of the
    loop returned, all of them and in their order. *)
Lemma block_statements (fuel : nat) (statement : P pyval) (s0 s s' : pstate)
    (tree : pyval) :
  eat "DELIM" (Some "{") s0 = Ok (tt, s) ->
  block fuel statement s0 = Ok (tree, s') ->
  exists statements s1,
    tree = Block statements /\
    iterations in_block (block_item statement) s statements s1 /\
    in_block s1 = Ok (false, s1).
Proof.
  intros Heat Hb. rewrite block_eq in Hb.
  unfold bind at 1 in Hb. rewrite Heat in Hb.
  apply bind_Ok_inv in Hb as (statements & s1 & Hw & Hr).
  destruct (while_iterations _ (block_item statement) _ in_block_state
              (block_body_runs_item statement) _ _ _ _ _ Hw)
    as (l & -> & Hit & Hend).
  apply bind_Ok_inv in Hr as (cur & s2 & _ & Hr).
  apply bind_Ok_inv in Hr as (u & s3 & _ & Hr).
  injection Hr as <- _.
  exists l, s1. split; [reflexivity|]. split; [exact Hit | exact Hend].
Qed.

Lemma program_neighbours (fuel : nat) (s0 sk sk1 sk2 s' : pstate)
    (pre nodes1 nodes2 : list pyval) (tree : pyval) :
  iterations not_at_EOF (program_item fuel) s0 pre sk ->
  type (current_token sk) <> "EOF" ->
  program_item fuel sk = Ok (nodes1, sk1) ->
  type (current_token sk1) <> "EOF" ->
  program_item fuel sk1 = Ok (nodes2, sk2) ->
  program fuel s0 = Ok (tree, s') ->
  exists more,
    tree = Program_ (pre ++ nodes1 ++ nodes2 ++ more)%list /\
    iterations not_at_EOF (program_item fuel) sk2 more s' /\
    type (current_token s') = "EOF".
Proof.
  intros Hpre He1 Hi1 He2 Hi2 Hp.
  destruct (program_children _ _ _ _ Hp) as (children & -> & Hall & Heof).
  assert (Hrun : iterations not_at_EOF (program_item fuel) s0
                   (pre ++ nodes1 ++ nodes2 ++ [])%list sk2).
  { apply (iterations_app _ _ _ _ _ _ _ Hpre).
    apply (iterations_step _ _ _ _ _ _ _ (not_at_EOF_true _ He1) Hi1).
    apply (iterations_step _ _ _ _ _ _ _ (not_at_EOF_true _ He2) Hi2).
    apply iterations_stop. }
  assert (Hend : not_at_EOF s' = Ok (false, s')).
  { unfold not_at_EOF, bind, gets, ret. rewrite Heof. reflexivity. }
  destruct (iterations_prefix _ _ _ _ _ _ _ Hrun Hall Hend) as (more & -> & Hmore).
  exists more. split; [|split; [exact Hmore | exact Heof]].
  rewrite app_nil_r, <- !List.app_assoc. reflexivity.
Qed.

Lemma block_neighbours (fuel : nat) (statement : P pyval)
    (s0 s sk sk1 sk2 s' : pstate) (pre : list pyval) (node1 node2 tree : pyval) :
  eat "DELIM" (Some "{") s0 = Ok (tt, s) ->
  iterations in_block (block_item statement) s pre sk ->
  value (current_token sk) <> "}" -> type (current_token sk) <> "EOF" ->
  statement sk = Ok (node1, sk1) ->
  value (current_token sk1) <> "}" -> type (current_token sk1) <> "EOF" ->
  statement sk1 = Ok (node2, sk2) ->
  block fuel statement s0 = Ok (tree, s') ->
  exists more s3,
    tree = Block (pre ++ node1 :: node2 :: more)%list /\
    iterations in_block (block_item statement) sk2 more s3 /\
    in_block s3 = Ok (false, s3).
Proof.
  intros Heat Hpre Hv1 He1 H1 Hv2 He2 H2 Hb.
  destruct (block_statements _ _ _ _ _ _ Heat Hb)
    as (statements & s3 & -> & Hall & Hend).
  assert (Hrun : iterations in_block (block_item statement) s
                   (pre ++ [node1] ++ [node2] ++ [])%list sk2).
  { apply (iterations_app _ _ _ _ _ _ _ Hpre).
    apply (iterations_step _ _ _ _ _ _ _ (in_block_true _ Hv1 He1)
             (block_item_statement _ _ _ _ H1)).
    apply (iterations_step _ _ _ _ _ _ _ (in_block_true _ Hv2 He2)
             (block_item_statement _ _ _ _ H2)).
    apply iterations_stop. }
  destruct (iterations_prefix _ _ _ _ _ _ _ Hrun Hall Hend) as (more & -> & Hmore).
  exists more, s3. split; [|split; [exact Hmore | exact Hend]].
  rewrite <- !List.app_assoc. reflexivity.
Qed.

(** C8, amended: when the expression of a statement, or the declarators
    of a declaration, are followed by a token other than a semicolon that
    is a keyword, an identifier, a brace or the end-of-input token,
    [statement] and [declaration] return with one missing-semicolon
    diagnostic carrying a suggestion appended and with the position and
    the current token unchanged; and when the loop of [program], or of
    [block], after any number of iterations, goes through two more, what
    these two return are neighbours among the children of the node the
    loop builds: the children are what the iterations before returned,
    then what the two return, then what the rest of the loop returns. *)
Theorem c8_missing_semicolon_recovery :
  (forall (fuel : nat) (s s1 : pstate) (node : pyval),
     value (current_token s) <> "if" ->
     value (current_token s) <> "{" ->
     expression fuel s = Ok (node, s1) ->
     value (current_token s1) <> ";" ->
     starts_statement (current_token s1) = true ->
     statement (S fuel) s
     = Ok (node,
           with_error s1 (missing_semicolon "statement" (current_token s1)))) /\
  (forall (fuel : nat) (s s1 s2 : pstate) (type_node : pyval)
          (declarations : list pyval),
     type_specifier s = Ok (type_node, s1) ->
     declaration_loop fuel type_node [] s1 = Ok (declarations, s2) ->
     value (current_token s2) <> ";" ->
     starts_statement (current_token s2) = true ->
     declaration fuel s
     = Ok (declarations,
           with_error s2 (missing_semicolon "declaration" (current_token s2)))) /\
  (forall (fuel : nat) (s0 sk sk1 sk2 s' : pstate)
          (pre nodes1 nodes2 : list pyval) (tree : pyval),
     iterations not_at_EOF (program_item fuel) s0 pre sk ->
     type (current_token sk) <> "EOF" ->
     program_item fuel sk = Ok (nodes1, sk1) ->
     type (current_token sk1) <> "EOF" ->
     program_item fuel sk1 = Ok (nodes2, sk2) ->
     program fuel s0 = Ok (tree, s') ->
     exists more,
       tree = Program_ (pre ++ nodes1 ++ nodes2 ++ more)%list /\
       iterations not_at_EOF (program_item fuel) sk2 more s' /\
       type (current_token s') = "EOF") /\
  (forall (fuel : nat) (statement : P pyval) (s0 s sk sk1 sk2 s' : pstate)
          (pre : list pyval) (node1 node2 tree : pyval),
     eat "DELIM" (Some "{") s0 = Ok (tt, s) ->
     iterations in_block (block_item statement) s pre sk ->
     value (current_token sk) <> "}" -> type (current_token sk) <> "EOF" ->
     statement sk = Ok (node1, sk1) ->
     value (current_token sk1) <> "}" -> type (current_token sk1) <> "EOF" ->
     statement sk1 = Ok (node2, sk2) ->
     block fuel statement s0 = Ok (tree, s') ->
     exists more s3,
       tree = Block (pre ++ node1 :: node2 :: more)%list /\
       iterations in_block (block_item statement) sk2 more s3 /\
       in_block s3 = Ok (false, s3)).
Proof.
  split; [exact statement_missing_semicolon|].
  split; [exact declaration_missing_semicolon|].
  split; [exact program_neighbours|exact block_neighbours].
Qed.

(** In [a; b c;] the semicolon is missing after the second statement:
    the loop of [program] has gone through one iteration when it meets
    it, and the tree has the three statements as children, the second
    and the third next to each other. *)
Lemma c8_missing_semicolon_recovery_witness :
  exists (sk sk1 sk2 s' : pstate),
    iterations not_at_EOF (program_item 6) second_of_three_start
      [name_at_line_1 "a"] sk /\
    program_item 6 sk = Ok ([name_at_line_1 "b"], sk1) /\
    errors sk1 = [missing_semicolon "statement" (mkToken "ID" "c" 1)] /\
    program_item 6 sk1 = Ok ([name_at_line_1 "c"], sk2) /\
    program 6 second_of_three_start
    = Ok (Program_ [name_at_line_1 "a"; name_at_line_1 "b"; name_at_line_1 "c"],
          s') /\
    exists more,
      Program_ [name_at_line_1 "a"; name_at_line_1 "b"; name_at_line_1 "c"]
      = Program_ ([name_at_line_1 "a"] ++ [name_at_line_1 "b"]
                    ++ [name_at_line_1 "c"] ++ more)%list /\
      iterations not_at_EOF (program_item 6) sk2 more s' /\
      type (current_token s') = "EOF".
Proof.
  do 4 eexists.
  split.
  { refine (iterations_step _ _ _ _ _ [name_at_line_1 "a"] [] _ _
              (iterations_stop _ _ _)); vm_compute; reflexivity. }
  split; [vm_compute; reflexivity|].
  split; [vm_compute; reflexivity|].
  split; [vm_compute; reflexivity|].
  split; [vm_compute; reflexivity|].
  refine (proj1 (proj2 (proj2 c8_missing_semicolon_recovery))
            6 second_of_three_start _ _ _ _
            [name_at_line_1 "a"] [name_at_line_1 "b"] [name_at_line_1 "c"] _
            _ _ _ _ _ _).
  - refine (iterations_step _ _ _ _ _ [name_at_line_1 "a"] [] _ _
              (iterations_stop _ _ _)); vm_compute; reflexivity.
  - intro H; discriminate H.
  - vm_compute. reflexivity.
  - intro H; discriminate H.
  - vm_compute. reflexivity.
  - vm_compute. reflexivity.
Defined.

End Loops.

(** ** The frame of the assembly *)

Section Frame.

Import CodeGenerator.

Lemma data_lines_app (fl1 fl2 : list string) :
  forall k, data_lines k (fl1 ++ fl2)
            = (data_lines k fl1 ++ data_lines (k + Z.of_nat (length fl1)) fl2)%list.
Proof.
  induction fl1 as [|v fl1 IH]; intro k.
  - cbn. rewrite Z.add_0_r. reflexivity.
  - cbn [app data_lines length]. rewrite IH.
    replace (k + 1 + Z.of_nat (length fl1))%Z
      with (k + Z.of_nat (S (length fl1)))%Z by lia.
    reflexivity.
Qed.

Lemma begun_emit (line : string) : invariant begun (emit line).
Proof.
  intros s [body Hb]. unfold emit, modify.
  exists (body ++ [line])%list. cbn [text_section]. rewrite Hb.
  symmetry. apply List.app_assoc.
Qed.

Lemma begun_allocate (n t : string) : invariant begun (allocate n t).
Proof. intros s [body Hb]. cbn. exists body. exact Hb. Qed.

Lemma begun_get_float_label (v : string) :
  is_float_literal v = true -> invariant begun (get_float_label v).
Proof.
  intros _ s [body Hb]. unfold get_float_label, bind, get.
  destruct (float_labels s !! v); cbn; exists body; exact Hb.
Qed.

(** *** The list of the literals *)

Lemma existsb_eqb_In (v : string) (fl : list string) :
  existsb (String.eqb v) fl = true <-> In v fl.
Proof.
  rewrite existsb_exists. split.
  - intros (x & Hx & E). apply String.eqb_eq in E. subst. exact Hx.
  - intro H. exists v. split; [exact H | apply String.eqb_refl].
Qed.

Lemma enter_known (fl : list string) (v : string) : In v fl -> enter fl v = fl.
Proof. intro H. unfold enter. apply existsb_eqb_In in H. rewrite H. reflexivity. Qed.

Lemma enter_new (fl : list string) (v : string) :
  ~ In v fl -> enter fl v = (fl ++ [v])%list.
Proof.
  intro H. unfold enter. destruct (existsb _ _) eqn:E; [|reflexivity].
  apply existsb_eqb_In in E. contradiction.
Qed.

Lemma In_enter (fl : list string) (v x : string) :
  In x (enter fl v) <-> In x fl \/ x = v.
Proof.
  destruct (in_dec string_dec v fl) as [Hin|Hnot].
  - rewrite (enter_known _ _ Hin). split; [auto|]. intros [H| ->]; assumption.
  - rewrite (enter_new _ _ Hnot), in_app_iff. cbn. split.
    + intros [H|[<-|[]]]; auto.
    + intros [H| ->]; auto.
Qed.

Lemma In_fold_enter (l fl : list string) (x : string) :
  In x (fold_left enter l fl) <-> In x fl \/ In x l.
Proof.
  revert fl. induction l as [|v l IH]; intro fl; cbn [fold_left].
  - cbn. tauto.
  - rewrite IH, In_enter. cbn. split.
    + intros [[H| ->]|H]; auto.
    + intros [H|[<-|H]]; auto.
Qed.

Lemma incl_fold_enter (known l fl : list string) :
  incl known fl -> incl known (fold_left enter l fl).
Proof. intros H x Hx. apply In_fold_enter. left. exact (H x Hx). Qed.

Lemma NoDup_enter (fl : list string) (v : string) :
  List.NoDup fl -> List.NoDup (enter fl v).
Proof.
  intro H. destruct (in_dec string_dec v fl) as [Hin|Hnot].
  - rewrite (enter_known _ _ Hin). exact H.
  - rewrite (enter_new _ _ Hnot). apply List.NoDup_app; [exact H| |].
    + apply List.NoDup_cons; [intros [] | apply List.NoDup_nil].
    + intros x Hx [<-|[]]. exact (Hnot Hx).
Qed.

Lemma NoDup_fold_enter (l fl : list string) :
  List.NoDup fl -> List.NoDup (fold_left enter l fl).
Proof.
  revert fl. induction l as [|v l IH]; intros fl H; cbn [fold_left]; [exact H|].
  apply IH, NoDup_enter, H.
Qed.

Lemma operand_float (parts : list string) (i : Z) (v : string) :
  In v (operand parts i) -> is_float_literal v = true.
Proof.
  unfold operand. destruct (index parts i) as [x| | |]; try (intros []).
  destruct (is_float_literal x) eqn:E; [|intros []].
  intros [<-|[]]. exact E.
Qed.

Lemma scanned_float (line v : string) :
  In v (scanned_literals line) -> is_float_literal v = true.
Proof.
  unfold scanned_literals. destruct (split line) as [|op rest]; [intros []|].
  destruct (op =? "ASSIGN"); [apply operand_float|].
  destruct (is_arith op); [|intros []].
  intro H. apply in_app_or in H as [H|H]; exact (operand_float _ _ _ H).
Qed.

Lemma compared_float (line v : string) :
  In v (compared_literals line) -> is_float_literal v = true.
Proof.
  unfold compared_literals. destruct (split line) as [|op rest]; [intros []|].
  destruct (op =? "COMPARE"); [|intros []].
  destruct (index _ 1) as [t| | |]; try (intros []).
  destruct (t =? "float"); [apply operand_float | intros []].
Qed.

(** *** The steps of the generator on the table *)

Lemma table_get_float_label (v : string) (fl : list string) (s : cg_state) :
  table fl s ->
  exists label s', get_float_label v s = Ok (label, s') /\ table (enter fl v) s'.
Proof.
  intros (Hc & Hd & Hl). unfold get_float_label, bind, get.
  destruct (float_labels s !! v) as [label|] eqn:E.
  - exists label, s. split; [reflexivity|].
    assert (Hin : In v fl).
    { destruct (in_dec string_dec v fl) as [H|H]; [exact H|].
      apply Hl in H. congruence. }
    rewrite (enter_known _ _ Hin). repeat split; try assumption; apply Hl.
  - apply Hl in E. rewrite (enter_new _ _ E). eexists _, _.
    split; [reflexivity|]. unfold table. cbn. split; [|split].
    + rewrite length_app. cbn. lia.
    + rewrite Hd, data_lines_app. cbn. rewrite Hc. reflexivity.
    + intro x. rewrite in_app_iff. cbn.
      destruct (decide (x = v)) as [->|Hne].
      * rewrite lookup_insert_eq. split; [discriminate|]. intro H. exfalso.
        apply H. right. left. reflexivity.
      * rewrite lookup_insert_ne by congruence. rewrite Hl. split.
        -- intros H [H'|[H'|[]]]; [exact (H H') | congruence].
        -- intros H H'. apply H. left. exact H'.
Qed.

Lemma enters_ret (known : list string) {A : Type} (a : A) :
  enters known [] (ret a).
Proof. intros fl s H _. exact H. Qed.

Lemma enters_bind (known l1 l2 : list string) {A B : Type} (m : C A)
    (k : A -> C B) :
  enters known l1 m -> (forall a, enters known l2 (k a)) ->
  enters known (l1 ++ l2) (bind m k).
Proof.
  intros Hm Hk fl s H Hin. unfold bind. specialize (Hm fl s H Hin).
  destruct (m s) as [[a s1]| | |]; try exact Logic.I.
  rewrite fold_left_app.
  exact (Hk a _ s1 Hm (incl_fold_enter _ _ _ Hin)).
Qed.

Lemma enters_then (known l : list string) {A B : Type} (m : C A) (k : A -> C B) :
  enters known [] m -> (forall a, enters known l (k a)) ->
  enters known l (bind m k).
Proof. exact (enters_bind known [] l m k). Qed.

Lemma enters_first (known l : list string) {A B : Type} (m : C A) (k : A -> C B) :
  enters known l m -> (forall a, enters known [] (k a)) ->
  enters known l (bind m k).
Proof.
  intros Hm Hk. pose proof (enters_bind known l [] m k Hm Hk) as H.
  rewrite app_nil_r in H. exact H.
Qed.

Lemma enters_get (known l : list string) {B : Type} (k : cg_state -> C B) :
  (forall s0, enters known l (k s0)) -> enters known l (bind get k).
Proof. intros Hk fl s H Hin. unfold bind, get. exact (Hk s fl s H Hin). Qed.

Lemma enters_raise (known l : list string) {A : Type} (e : exn) :
  enters known l (@raise cg_state A e).
Proof. intros fl s _ _. exact Logic.I. Qed.

Lemma enters_part (known l : list string) {B : Type} (parts : list string)
    (i : Z) (k : string -> C B) :
  (forall v, index parts i = Ok v -> enters known l (k v)) ->
  enters known l (bind (part parts i) k).
Proof.
  intros Hk fl s H Hin. unfold bind, part, lift.
  destruct (index parts i) as [v| | |] eqn:E; try exact Logic.I.
  exact (Hk v eq_refl fl s H Hin).
Qed.

Lemma enters_lift_index (known l : list string) {B : Type} (ir : list string)
    (i : Z) (k : string -> C B) :
  (forall v, enters known l (k v)) ->
  enters known l (bind (lift (index ir i)) k).
Proof.
  intros Hk fl s H Hin. unfold bind, lift.
  destruct (index ir i) as [v| | |]; try exact Logic.I.
  exact (Hk v fl s H Hin).
Qed.

Lemma enters_emit (known : list string) (line : string) :
  enters known [] (emit line).
Proof. intros fl s H _. exact H. Qed.

Lemma enters_allocate (known : list string) (n t : string) :
  enters known [] (allocate n t).
Proof. intros fl s H _. exact H. Qed.

Lemma enters_get_var_offset (known : list string) (n : string) :
  enters known [] (get_var_offset n).
Proof.
  intros fl s H Hin. unfold get_var_offset, bind, get.
  destruct (symbol_table s !! n) as [[t o]|]; [exact H|].
  exact (enters_allocate known n _ fl s H Hin).
Qed.

Lemma enters_get_float_label (known : list string) (v : string) :
  enters known [v] (get_float_label v).
Proof.
  intros fl s H _. destruct (table_get_float_label v fl s H) as (l & s' & -> & H').
  exact H'.
Qed.

Lemma enters_known_float_label (known : list string) (v : string) :
  In v known -> enters known [] (get_float_label v).
Proof.
  intros Hv fl s H Hin.
  destruct (table_get_float_label v fl s H) as (l & s' & -> & H').
  rewrite (enter_known fl v (Hin v Hv)) in H'. exact H'.
Qed.

Ltac enters_step :=
  match goal with
  | |- enters _ _ (bind (part _ _) _) =>
      apply enters_part; let v := fresh "v" in let E := fresh "E" in intros v E
  | |- enters _ _ (bind get _) => apply enters_get; intro
  | |- enters _ [] (bind _ _) => apply enters_then; [|intro]
  | |- enters _ [] (ret _) => apply enters_ret
  | |- enters _ [] (emit _) => apply enters_emit
  | |- enters _ _ (raise _) => apply enters_raise
  | |- enters _ [] (allocate _ _) => apply enters_allocate
  | |- enters _ [] (get_var_offset _) => apply enters_get_var_offset
  | |- enters _ _ (if ?c then _ else _) => destruct c eqn:?
  | |- enters _ _ (match ?x with Some _ => _ | None => _ end) => destruct x
  | |- enters _ _ (let '(_, _) := ?x in _) => destruct x
  end.

Lemma enters_load_int (known : list string) (reg src : string) :
  enters known [] (load_int reg src).
Proof. unfold load_int. repeat enters_step. Qed.

Lemma enters_known_load_float (known : list string) (src : string) :
  (is_float_literal src = true -> In src known) ->
  enters known [] (load_float src).
Proof.
  intro H. unfold load_float. destruct (is_float_literal src).
  - apply enters_then; [apply enters_known_float_label, H; reflexivity|].
    intro. apply enters_emit.
  - repeat enters_step.
Qed.

Lemma enters_load_float (known : list string) (src : string) :
  enters known (if is_float_literal src then [src] else []) (load_float src).
Proof.
  unfold load_float. destruct (is_float_literal src).
  - apply enters_first; [apply enters_get_float_label|].
    intro. apply enters_emit.
  - repeat enters_step.
Qed.

Lemma operand_at (parts : list string) (i : Z) (v : string) :
  index parts i = Ok v ->
  operand parts i = if is_float_literal v then [v] else [].
Proof. unfold operand. intros ->. reflexivity. Qed.

Lemma enters_gen_assign (parts : list string) :
  enters (operand parts 2) [] (gen_assign parts).
Proof.
  unfold gen_assign. enters_step. enters_step.
  rewrite (operand_at _ _ _ E0).
  repeat enters_step.
  apply enters_known_float_label. left. reflexivity.
Qed.

Lemma enters_gen_arith (op : string) (parts : list string) :
  enters (operand parts 3 ++ operand parts 4)%list [] (gen_arith op parts).
Proof.
  unfold gen_arith. do 4 enters_step.
  rewrite (operand_at _ _ _ E1), (operand_at _ _ _ E2).
  enters_step; [apply enters_get_var_offset|].
  enters_step; [|enters_step; [|apply enters_ret]].
  - apply enters_then; [apply enters_load_int|intro].
    apply enters_then; [apply enters_load_int|intro].
    repeat enters_step.
  - apply enters_then.
    { apply enters_known_load_float. intros ->. left. reflexivity. }
    intro.
    apply enters_then.
    { apply enters_known_load_float. intros ->. apply in_or_app. right.
      left. reflexivity. }
    intro. repeat enters_step.
Qed.

Lemma enters_gen_compare (known parts : list string) :
  enters known
    (match index parts 1 with
     | Ok cmp_type => if cmp_type =? "float" then operand parts 4 else []
     | _ => []
     end)
    (gen_compare parts).
Proof.
  unfold gen_compare. do 4 enters_step.
  rewrite E, (operand_at _ _ _ E2).
  destruct (v =? "int") eqn:Ei.
  - apply String.eqb_eq in Ei. subst v. cbn.
    enters_step; [apply enters_get_var_offset|].
    enters_step; [apply enters_emit|].
    enters_step; [apply enters_load_int|].
    apply enters_emit.
  - destruct (v =? "float"); [|apply enters_ret].
    apply enters_then; [apply enters_get_var_offset|intro].
    apply enters_then; [apply enters_emit|intro].
    apply enters_first; [apply enters_load_float|intro].
    repeat enters_step.
Qed.

Lemma enters_gen_instr (ir : list string) (i : Z) (line op : string)
    (rest : list string) :
  split line = op :: rest ->
  enters (scanned_literals line) (compared_literals line)
    (gen_instr ir i op (op :: rest)).
Proof.
  intro Hs. unfold scanned_literals, compared_literals. rewrite Hs. cbv zeta.
  unfold gen_instr.
  destruct (op =? "COMPARE") eqn:Ec.
  - apply String.eqb_eq in Ec. subst op. cbn [String.eqb Ascii.eqb Bool.eqb].
    apply enters_gen_compare.
  - destruct (op =? "DECLARE").
    { unfold gen_declare. repeat enters_step. }
    destruct (op =? "ASSIGN"); [apply enters_gen_assign|].
    destruct (is_arith op); [apply enters_gen_arith|].
    destruct (op =? "CAST_TO_FLOAT").
    { unfold gen_cast. repeat enters_step. }
    destruct (op =? "JUMP"); [repeat enters_step|].
    destruct (op =? "JUMP_IF_FALSE").
    { unfold gen_jump_if_false. apply enters_lift_index. intro.
      repeat enters_step. }
    destruct (op =? "LABEL"); repeat enters_step.
Qed.

(** *** Steps that cannot fail *)

Lemma returns_ret {A : Type} (a : A) : returns (ret (S := cg_state) a).
Proof. intro s. exists a, s. reflexivity. Qed.

Lemma returns_bind {A B : Type} (m : C A) (k : A -> C B) :
  returns m -> (forall a, returns (k a)) -> returns (bind m k).
Proof.
  intros Hm Hk s. destruct (Hm s) as (a & s1 & E). unfold bind. rewrite E.
  apply Hk.
Qed.

Lemma returns_emit (line : string) : returns (emit line).
Proof. intro s. eexists _, _. reflexivity. Qed.

Lemma returns_get_var_offset (n : string) : returns (get_var_offset n).
Proof.
  intro s. unfold get_var_offset, bind, get.
  destruct (symbol_table s !! n) as [[t o]|]; eexists _, _; cbn; reflexivity.
Qed.

Lemma returns_get_float_label (v : string) : returns (get_float_label v).
Proof.
  intro s. unfold get_float_label, bind, get.
  destruct (float_labels s !! v); eexists _, _; cbn; reflexivity.
Qed.

Lemma returns_load_int (reg src : string) : returns (load_int reg src).
Proof.
  unfold load_int. destruct (is_int_literal src); [apply returns_emit|].
  apply returns_bind; [apply returns_get_var_offset | intro; apply returns_emit].
Qed.

Lemma returns_load_float (src : string) : returns (load_float src).
Proof.
  unfold load_float. destruct (is_float_literal src);
    (apply returns_bind;
     [first [apply returns_get_float_label | apply returns_get_var_offset]
     | intro; apply returns_emit]).
Qed.

(** An instruction that fails enters nothing: a [COMPARE] that has its
    five words does not fail. *)
Lemma failing_instr_enters_nothing (ir : list string) (i : Z) (line op : string)
    (rest : list string) (s : cg_state) (e : exn) :
  split line = op :: rest ->
  gen_instr ir i op (op :: rest) s = Raise e ->
  compared_literals line = [].
Proof.
  intros Hs Hr. unfold compared_literals. rewrite Hs. cbv zeta.
  destruct (op =? "COMPARE") eqn:Ec; [|reflexivity].
  apply String.eqb_eq in Ec. subst op.
  destruct rest as [|t [|a [|c [|v rest]]]]; try reflexivity.
  - change (operand ["COMPARE"; t] 4) with (@nil string).
    destruct (index _ 1) as [x| | |]; [destruct (x =? "float")|..]; reflexivity.
  - change (operand ["COMPARE"; t; a] 4) with (@nil string).
    destruct (index _ 1) as [x| | |]; [destruct (x =? "float")|..]; reflexivity.
  - change (operand ["COMPARE"; t; a; c] 4) with (@nil string).
    destruct (index _ 1) as [x| | |]; [destruct (x =? "float")|..]; reflexivity.
  - exfalso. revert Hr.
    change (gen_instr ir i "COMPARE" ("COMPARE" :: t :: a :: c :: v :: rest))
      with (gen_compare ("COMPARE" :: t :: a :: c :: v :: rest)).
    assert (H : returns (gen_compare ("COMPARE" :: t :: a :: c :: v :: rest))).
    { unfold gen_compare.
      change (part ("COMPARE" :: t :: a :: c :: v :: rest) 1) with (ret (S := cg_state) t).
      change (part ("COMPARE" :: t :: a :: c :: v :: rest) 2) with (ret (S := cg_state) a).
      change (part ("COMPARE" :: t :: a :: c :: v :: rest) 3) with (ret (S := cg_state) c).
      change (part ("COMPARE" :: t :: a :: c :: v :: rest) 4) with (ret (S := cg_state) v).
      repeat (apply returns_bind; [apply returns_ret | intro]).
      repeat first
        [ apply returns_ret | apply returns_emit | apply returns_get_var_offset
        | apply returns_load_int | apply returns_load_float
        | apply returns_bind; [|intro]
        | match goal with |- returns (if ?b then _ else _) => destruct b end ]. }
    destruct (H s) as (u & s' & ->). discriminate.
Qed.

Lemma gen_line_enters (ir : list string) (i : Z) (line : string)
    (fl : list string) (s : cg_state) :
  table fl s -> incl (scanned_literals line) fl ->
  match gen_line ir i line s with
  | Ok (_, s') => table (fold_left enter (compared_literals line) fl) s'
  | _ => True
  end.
Proof.
  intros H Hin. unfold gen_line.
  destruct (split line) as [|op rest] eqn:Hs.
  - unfold compared_literals. rewrite Hs. exact H.
  - pose proof (enters_gen_instr ir i line op rest Hs fl s H Hin) as Hi.
    destruct (gen_instr ir i op (op :: rest) s) as [[[] s']|e| |] eqn:E;
      try exact Logic.I; [exact Hi|].
    rewrite (failing_instr_enters_nothing _ _ _ _ _ _ _ Hs E). exact H.
Qed.

Lemma main_loop_enters (ir lines : list string) :
  forall (i : Z) (fl : list string) (s : cg_state),
    table fl s -> incl (flat_map scanned_literals lines) fl ->
    match main_loop ir i lines s with
    | Ok (_, s') => table (fold_left enter (flat_map compared_literals lines) fl) s'
    | _ => True
    end.
Proof.
  induction lines as [|line lines IH]; intros i fl s H Hin; cbn [main_loop flat_map].
  - exact H.
  - unfold bind.
    assert (Hin1 : incl (scanned_literals line) fl)
      by (intros x Hx; apply Hin; cbn; apply in_or_app; left; exact Hx).
    assert (Hin2 : incl (flat_map scanned_literals lines) fl)
      by (intros x Hx; apply Hin; cbn; apply in_or_app; right; exact Hx).
    pose proof (gen_line_enters ir i line fl s H Hin1) as H1.
    destruct (gen_line ir i line s) as [[[] s1]| | |]; try exact Logic.I.
    rewrite fold_left_app.
    exact (IH _ _ s1 H1 (incl_fold_enter _ _ _ Hin2)).
Qed.

Lemma prescan_line_enters (line : string) (fl : list string) (s : cg_state) :
  table fl s ->
  match prescan_line line s with
  | Ok (_, s') => table (fold_left enter (scanned_literals line) fl) s'
  | _ => True
  end.
Proof.
  intro H. unfold prescan_line, scanned_literals.
  destruct (split line) as [|op rest]; [exact H|]. cbv zeta.
  set (parts := op :: rest).
  assert (Hin : incl [] fl) by (intros x []).
  destruct (op =? "ASSIGN").
  - refine (_ : match bind (part parts 2) _ s with Ok _ => _ | _ => _ end).
    refine (enters_part [] _ parts 2 _ _ fl s H Hin). intros v E.
    rewrite (operand_at _ _ _ E). destruct (is_float_literal v).
    + apply enters_first; [apply enters_get_float_label | intro; apply enters_ret].
    + apply enters_ret.
  - destruct (is_arith op); [|exact H].
    refine (enters_part [] _ parts 3 _ _ fl s H Hin). intros v3 E3.
    rewrite (operand_at _ _ _ E3).
    apply enters_bind.
    + destruct (is_float_literal v3).
      * apply enters_first; [apply enters_get_float_label | intro; apply enters_ret].
      * apply enters_ret.
    + intros _. apply enters_part. intros v4 E4.
      rewrite (operand_at _ _ _ E4). destruct (is_float_literal v4).
      * apply enters_first; [apply enters_get_float_label | intro; apply enters_ret].
      * apply enters_ret.
Qed.

Lemma prescan_enters (ir : list string) :
  forall (fl : list string) (s : cg_state),
    table fl s ->
    match for_each ir prescan_line s with
    | Ok (_, s') => table (fold_left enter (flat_map scanned_literals ir) fl) s'
    | _ => True
    end.
Proof.
  induction ir as [|line ir IH]; intros fl s H; cbn [for_each flat_map].
  - exact H.
  - unfold bind. pose proof (prescan_line_enters line fl s H) as H1.
    destruct (prescan_line line s) as [[[] s1]| | |]; try exact Logic.I.
    rewrite fold_left_app. exact (IH _ s1 H1).
Qed.

(** X20: the frame of the assembly.  Whatever [generate] returns is the
    six lines of the prologue, the code of the instructions, the six
    lines of the epilogue and then the data section.  The data section
    is determined by the instructions: it is absent when they hold no
    float literal that [generate] looks up, and otherwise is the line
    [section .data] followed by one line for each such literal, labelled
    [__float_0], [__float_1], ... in the order in which the literals are
    first met: first the sources of the [ASSIGN] and of the arithmetic
    instructions, which the scan before the main loop enters, then the
    right operands of the [COMPARE] instructions of type [float].  No
    literal has two lines. *)
Theorem generate_frames_the_code :
  forall (ir lines : list string),
    generate_lines ir = Ok lines ->
    List.NoDup (float_table ir) /\
    List.Forall (fun v => is_float_literal v = true) (float_table ir) /\
    (forall v,
       In v (float_table ir) <->
       In v (flat_map scanned_literals ir) \/
       In v (flat_map compared_literals ir)) /\
    exists body : list string,
      lines = (prologue ++ body ++ epilogue ++ data_part (float_table ir))%list.
Proof.
  intros ir lines Hg.
  assert (Hmet : forall v,
             In v (float_table ir) <->
             In v (flat_map scanned_literals ir) \/
             In v (flat_map compared_literals ir)).
  { intro v. unfold float_table. rewrite In_fold_enter, in_app_iff. cbn. tauto. }
  split; [apply NoDup_fold_enter, List.NoDup_nil|].
  split.
  { apply List.Forall_forall. intros v Hv.
    apply Hmet in Hv as [Hv|Hv]; apply in_flat_map in Hv as (line & _ & Hv).
    - exact (scanned_float _ _ Hv).
    - exact (compared_float _ _ Hv). }
  split; [exact Hmet|].
  revert Hg. unfold generate_lines, bind at 1, modify.
  set (s0 := mkCg _ _ _ _ _ prologue).
  assert (B0 : begun s0) by (exists []; reflexivity).
  assert (T0 : table [] s0).
  { unfold table. cbn. split; [reflexivity|]. split; [reflexivity|].
    intro v. rewrite lookup_empty. tauto. }
  assert (B1 : invariant begun (for_each ir prescan_line))
    by (apply invariant_prescan; exact begun_get_float_label).
  specialize (B1 s0 B0).
  pose proof (prescan_enters ir [] s0 T0) as T1.
  unfold bind at 1.
  destruct (for_each ir prescan_line s0) as [[[] s1]| | |]; try discriminate.
  assert (B2 : invariant begun (main_loop ir 0 ir))
    by (apply invariant_main_loop;
        [exact begun_emit | exact begun_allocate | exact begun_get_float_label]).
  specialize (B2 s1 B1).
  assert (Hin : incl (flat_map scanned_literals ir)
                  (fold_left enter (flat_map scanned_literals ir) [])).
  { intros x Hx. apply In_fold_enter. right. exact Hx. }
  pose proof (main_loop_enters ir ir 0 _ s1 T1 Hin) as T2.
  unfold bind at 1.
  destruct (main_loop ir 0 ir s1) as [[[] s2]| | |]; try discriminate.
  rewrite <- fold_left_app in T2. fold (float_table ir) in T2.
  destruct B2 as [body Hb]. destruct T2 as (Hc & Hd & _).
  unfold bind, get. rewrite Hb, Hd. intro H. exists body.
  destruct (float_table ir) as [|v fl]; cbn [length data_lines Nat.ltb Nat.leb] in H;
    injection H as <-; unfold data_part.
  - rewrite app_nil_r. symmetry. apply List.app_assoc.
  - rewrite <- !List.app_assoc. reflexivity.
Qed.

(** The literal of the [COMPARE] comes last although the [ADD] stands
    after it: the scan has entered [0.5] before the main loop starts. *)
Lemma generate_frames_the_code_witness :
  float_table ["DECLARE float x"; "ASSIGN x 1.5"; "COMPARE float x > 2.5";
               "ADD float x x 0.5"]
  = ["1.5"; "0.5"; "2.5"] /\
  exists body : list string,
    ["section .text"; "global _start"; "_start:"; "    push ebp";
     "    mov ebp, esp"; "    ; --- Begin user code ---";
     "    sub esp, 4  ; Allocate space for x (type: float) at [ebp-4]";
     "    fld dword [__float_0]"; "    fstp dword [ebp-4]";
     "    fld dword [ebp-4]"; "    fld dword [__float_2]";
     "    fcomip st(0), st(1)"; "    fstp st(0)";
     "    fld dword [ebp-4]"; "    fld dword [__float_1]";
     "    faddp st(1), st(0)"; "    fstp dword [ebp-4]";
     "    ; --- End of user code ---"; "    mov esp, ebp"; "    pop ebp";
     "    mov eax, 1"; "    xor ebx, ebx"; "    int 0x80";
     "section .data"; "    __float_0 dd 1.5"; "    __float_1 dd 0.5";
     "    __float_2 dd 2.5"]
    = (prologue ++ body ++ epilogue
       ++ data_part (float_table ["DECLARE float x"; "ASSIGN x 1.5";
                                  "COMPARE float x > 2.5"; "ADD float x x 0.5"]))%list.
Proof.
  split; [vm_compute; reflexivity|].
  refine (proj2 (proj2 (proj2 (generate_frames_the_code
           ["DECLARE float x"; "ASSIGN x 1.5"; "COMPARE float x > 2.5";
            "ADD float x x 0.5"] _ _)))).
  vm_compute. reflexivity.
Defined.

End Frame.
